(** * ConditionalSphericalGaussianSimulator

    A shallow embedding of
    [experiments/datasets/conditional_spherical_simulator.py] and the
    properties of its sampling, coordinate transforms and log-density.

    The entries of float arrays are modelled by the values of IEEE 754
    arithmetic computed exactly: a real number, one of the two
    infinities, or NaN; the two zeros are one.  The operations do not
    round, overflow or underflow, with one exception: the support test
    of [uniform.logpdf], which is made on a value rounded to binary64
    as scipy makes it.  Exact and binary64 arithmetic agree up to
    rounding as long as no intermediate result overflows, underflows to
    zero or falls on a singularity that rounding removes (the sine of
    the double nearest to pi is not zero); the statements that need it
    keep away from these places by hypotheses on magnitudes
    ([no_overflow], [no_underflow], [regular_row]).  Arrays of integers
    are not modelled.

    numpy arrays of two axes are lists of rows that carry their column
    count; exceptions are values of an error monad; a generator is the
    list of what it yields; the process-wide random generator is an
    explicit state. *)

From Stdlib Require Import Reals Lra Lia List Bool Arith ZArith.
Import ListNotations.

Set Implicit Arguments.

(* ================================================================== *)
(** ** Exceptions *)

Inductive exn : Type :=
| AssertionError
| ValueError
| IndexError.

Inductive result (A : Type) : Type :=
| Ok (a : A)
| Raise (e : exn).

Arguments Ok {A} a.
Arguments Raise {A} e.

Definition bind {A B : Type} (m : result A) (f : A -> result B) : result B :=
  match m with
  | Ok a => f a
  | Raise e => Raise e
  end.

Notation "x <- m ;; k" := (bind m (fun x => k))
  (at level 61, m at next level, right associativity).
Notation "' p <- m ;; k" := (bind m (fun x => let p := x in k))
  (at level 61, p pattern, m at next level, right associativity).

(** [assert c] of Python. *)
Definition assert (c : bool) : result unit :=
  if c then Ok tt else Raise AssertionError.

(* ================================================================== *)
(** ** Numbers *)

Inductive num : Type :=
| Fin (r : R)
| PInf
| NInf
| NaN.

Definition Rltb (a b : R) : bool := if Rlt_dec a b then true else false.
Definition Rleb (a b : R) : bool := if Rle_dec a b then true else false.
Definition Reqb (a b : R) : bool := if Req_dec_T a b then true else false.

Module Num.

Local Open Scope R_scope.

Definition of_nat (n : nat) : num := Fin (INR n).

Definition is_nan (a : num) : bool :=
  match a with NaN => true | _ => false end.

(** Comparisons are false as soon as one side is NaN. *)
Definition lt (a b : num) : bool :=
  match a, b with
  | NaN, _ | _, NaN => false
  | Fin x, Fin y => Rltb x y
  | NInf, (Fin _ | PInf) => true
  | Fin _, PInf => true
  | _, _ => false
  end.

Definition le (a b : num) : bool :=
  match a, b with
  | NaN, _ | _, NaN => false
  | Fin x, Fin y => Rleb x y
  | NInf, _ => true
  | _, PInf => true
  | _, _ => false
  end.

Definition gt (a b : num) : bool := lt b a.

Definition neg (a : num) : num :=
  match a with
  | Fin x => Fin (- x)
  | PInf => NInf
  | NInf => PInf
  | NaN => NaN
  end.

Definition add (a b : num) : num :=
  match a, b with
  | NaN, _ | _, NaN => NaN
  | Fin x, Fin y => Fin (x + y)
  | PInf, NInf | NInf, PInf => NaN
  | PInf, _ | _, PInf => PInf
  | NInf, _ | _, NInf => NInf
  end.

Definition sub (a b : num) : num := add a (neg b).

(** The infinity of the sign of [x], NaN at zero: the product and the
    quotient of an infinity and a finite number. *)
Definition inf_signed (positive : bool) (x : R) : num :=
  if Reqb x 0 then NaN
  else if Bool.eqb positive (Rltb 0 x) then PInf else NInf.

Definition mul (a b : num) : num :=
  match a, b with
  | NaN, _ | _, NaN => NaN
  | Fin x, Fin y => Fin (x * y)
  | PInf, Fin x | Fin x, PInf => inf_signed true x
  | NInf, Fin x | Fin x, NInf => inf_signed false x
  | PInf, PInf | NInf, NInf => PInf
  | PInf, NInf | NInf, PInf => NInf
  end.

(** Division; a zero divisor is the positive zero, the only one the
    simulator divides by (a square root). *)
Definition div (a b : num) : num :=
  match a, b with
  | NaN, _ | _, NaN => NaN
  | Fin x, Fin y => if Reqb y 0 then inf_signed true x else Fin (x / y)
  | Fin _, (PInf | NInf) => Fin 0
  | PInf, Fin y => if Rltb y 0 then NInf else PInf
  | NInf, Fin y => if Rltb y 0 then PInf else NInf
  | _, _ => NaN
  end.

Definition abs (a : num) : num :=
  match a with
  | Fin x => Fin (Rabs x)
  | PInf | NInf => PInf
  | NaN => NaN
  end.

(** [x ** 2] *)
Definition square (a : num) : num := mul a a.

Definition sqrt (a : num) : num :=
  match a with
  | Fin x => if Rltb x 0 then NaN else Fin (R_sqrt.sqrt x)
  | PInf => PInf
  | _ => NaN
  end.

(** [x ** 0.5]: as [sqrt], except that C's [pow] sends minus infinity to
    plus infinity. *)
Definition pow_half (a : num) : num :=
  match a with
  | NInf => PInf
  | _ => sqrt a
  end.

Definition exp (a : num) : num :=
  match a with
  | Fin x => Fin (Rtrigo_def.exp x)
  | PInf => PInf
  | NInf => Fin 0
  | NaN => NaN
  end.

Definition log (a : num) : num :=
  match a with
  | Fin x => if Rltb x 0 then NaN else if Reqb x 0 then NInf else Fin (ln x)
  | PInf => PInf
  | _ => NaN
  end.

Definition sin (a : num) : num :=
  match a with Fin x => Fin (Rtrigo_def.sin x) | _ => NaN end.

Definition cos (a : num) : num :=
  match a with Fin x => Fin (Rtrigo_def.cos x) | _ => NaN end.

Definition arccos (a : num) : num :=
  match a with
  | Fin x => if Rleb (-1) x && Rleb x 1 then Fin (acos x) else NaN
  | _ => NaN
  end.

(** [np.mod], the remainder with the sign of the divisor. *)
Definition mod_ (a b : num) : num :=
  match a, b with
  | Fin x, Fin y =>
      if Reqb y 0 then NaN else Fin (x - y * IZR (Zfloor (x / y)))
  | Fin x, PInf => if Rltb x 0 then PInf else Fin x
  | Fin x, NInf => if Rltb 0 x then NInf else Fin x
  | _, _ => NaN
  end.

Definition pi : num := Fin PI.

(** [np.sum] of a one-axis array. *)
Definition sum (l : list num) : num := fold_right add (Fin 0) l.

End Num.

Declare Scope num_scope.
Delimit Scope num_scope with num.
Bind Scope num_scope with num.
Infix "+" := Num.add : num_scope.
Infix "-" := Num.sub : num_scope.
Infix "*" := Num.mul : num_scope.
Infix "/" := Num.div : num_scope.
Notation "- x" := (Num.neg x) : num_scope.

(* ================================================================== *)
(** ** Rounding to binary64 *)

(** The doubles are the multiples of [2^(e - 52)] in each binade
    [2^e <= |x| < 2^(e + 1)], of [2^-1074] below [2^-1022], and the two
    infinities.  A real number is rounded to the nearest of them, to
    the one with an even significand at a tie. *)
Module Binary64.

Local Open Scope R_scope.

Definition pow2 (e : Z) : R := powerRZ 2 e.

(** The exponent [e] of the binade of [x <> 0]: [2^e <= |x| < 2^(e+1)]. *)
Definition binade (x : R) : Z := Zfloor (ln (Rabs x) / ln 2).

(** The exponent of the unit in the last place of the doubles of the
    binade of [x]: 52 binary places below it, and never below that of
    the subnormal numbers. *)
Definition ulp_exponent (x : R) : Z := Z.max (binade x - 52) (-1074).

(** The nearest integer, the even one of the two at a tie. *)
Definition nearest_even (r : R) : Z :=
  let f := Zfloor r in
  let d := r - IZR f in
  if Rltb d (1 / 2) then f
  else if Rltb (1 / 2) d then (f + 1)%Z
  else if Z.even f then f else (f + 1)%Z.

(** The double nearest to [x >= 0]; infinity from [2^1024] on. *)
Definition round_magnitude (x : R) : num :=
  if Reqb x 0 then Fin 0
  else
    let e := ulp_exponent x in
    let v := IZR (nearest_even (x / pow2 e)) * pow2 e in
    if Rleb (pow2 1024) v then PInf else Fin v.

Definition round64 (x : R) : num :=
  if Rltb x 0 then Num.neg (round_magnitude (- x)) else round_magnitude x.

(** The result of an operation, as binary64 holds it. *)
Definition to_double (a : num) : num :=
  match a with
  | Fin x => round64 x
  | _ => a
  end.

Definition is_double (x : R) : Prop := round64 x = Fin x.

End Binary64.

(* ================================================================== *)
(** ** Arrays *)

(** A numpy array of two axes: its rows, and the extent of axis 1 (which
    an array without rows still has). *)
Record ndarray : Type := mk_nd {
  shape1 : nat;
  rows : list (list num)
}.

Definition shape0 (a : ndarray) : nat := length (rows a).

(** The representation invariant: every row has [shape1] entries. *)
Definition wf_nd (a : ndarray) : Prop :=
  Forall (fun r => length r = shape1 a) (rows a).

Module Np.

(** Elementwise application of a function. *)
Definition map1 (f : num -> num) (a : ndarray) : ndarray :=
  mk_nd (shape1 a) (map (map f) (rows a)).

Fixpoint zip_with {A B C : Type} (f : A -> B -> C) (l : list A) (m : list B)
  : list C :=
  match l, m with
  | a :: l', b :: m' => f a b :: zip_with f l' m'
  | _, _ => []
  end.

Definition same_shape (a b : ndarray) : bool :=
  (shape1 a =? shape1 b) && (shape0 a =? shape0 b).

(** Elementwise application to two arrays of one shape.  Operands of
    unequal shapes are refused: the simulator never builds them. *)
Definition map2 (f : num -> num -> num) (a b : ndarray) : result ndarray :=
  if same_shape a b
  then Ok (mk_nd (shape1 a) (zip_with (zip_with f) (rows a) (rows b)))
  else Raise ValueError.

Fixpoint zip_with3 {A B C D : Type} (f : A -> B -> C -> D)
    (l : list A) (m : list B) (n : list C) : list D :=
  match l, m, n with
  | a :: l', b :: m', c :: n' => f a b c :: zip_with3 f l' m' n'
  | _, _, _ => []
  end.

(** Elementwise application to three arrays of one shape. *)
Definition map3 (f : num -> num -> num -> num) (a b c : ndarray)
  : result ndarray :=
  if same_shape a b && same_shape a c
  then Ok (mk_nd (shape1 a)
             (zip_with3 (zip_with3 f) (rows a) (rows b) (rows c)))
  else Raise ValueError.

(** [a[:, i]] *)
Definition col (a : ndarray) (i : nat) : result (list num) :=
  if i <? shape1 a then Ok (map (fun r => nth i r NaN) (rows a))
  else Raise IndexError.

(** [l[i:j]] on one row. *)
Definition slice {A : Type} (i j : nat) (l : list A) : list A :=
  firstn (j - i) (skipn i l).

(** [np.concatenate((a, b), axis=1)] *)
Definition concatenate1 (a b : ndarray) : result ndarray :=
  if shape0 a =? shape0 b
  then Ok (mk_nd (shape1 a + shape1 b) (zip_with (@app num) (rows a) (rows b)))
  else Raise ValueError.

(** [np.sum(a, axis=1)] *)
Definition sum1 (a : ndarray) : list num := map Num.sum (rows a).

(** [a.flatten()] *)
Definition flatten (a : ndarray) : list num := concat (rows a).

(** [l.reshape((n, c))] of a flat array of [n * c] entries. *)
Fixpoint chunks {A : Type} (n c : nat) (l : list A) : list (list A) :=
  match n with
  | O => []
  | S n' => firstn c l :: chunks n' c (skipn c l)
  end.

Definition reshape (n c : nat) (l : list num) : ndarray :=
  mk_nd c (chunks n c l).

(** [np.roll(a, -1)] with no axis: the array is flattened, rotated left
    by one place and given its shape back. *)
Definition roll_left {A : Type} (l : list A) : list A :=
  match l with
  | [] => []
  | a :: t => t ++ [a]
  end.

Definition roll_m1 (a : ndarray) : ndarray :=
  reshape (shape0 a) (shape1 a) (roll_left (flatten a)).

(** [np.cumprod(a, axis=1)] on one row. *)
Fixpoint cumprod_from (acc : num) (l : list num) : list num :=
  match l with
  | [] => []
  | a :: t => let p := (acc * a)%num in p :: cumprod_from p t
  end.

Definition cumprod (l : list num) : list num :=
  match l with
  | [] => []
  | a :: t => a :: cumprod_from a t
  end.

(** [a.T] *)
Definition transpose (a : ndarray) : ndarray :=
  mk_nd (shape0 a)
        (map (fun j => map (fun r => nth j r NaN) (rows a)) (seq 0 (shape1 a))).

(** [p.reshape(-1, 2)]: the entries taken two by two. *)
Fixpoint reshape_pairs (p : list num) : result (list (num * num)) :=
  match p with
  | [] => Ok []
  | a :: b :: t => ps <- reshape_pairs t ;; Ok ((a, b) :: ps)
  | _ => Raise ValueError
  end.

(** Assigning a one-axis array [v] to rows of [n] entries: it must have
    [n] entries, or one, which is repeated. *)
Definition broadcast_to (n : nat) (v : list num) : result (list num) :=
  if length v =? n then Ok v
  else match v with
       | [a] => Ok (repeat a n)
       | _ => Raise ValueError
       end.

(** [l[i] = v] on one row. *)
Fixpoint set_nth {A : Type} (i : nat) (v : A) (l : list A) : list A :=
  match l, i with
  | [], _ => []
  | _ :: t, O => v :: t
  | a :: t, S i' => a :: set_nth i' v t
  end.

End Np.

(* ================================================================== *)
(** ** scipy.stats and numpy.random *)

(** The future outputs of the process-wide random generator: the
    standard normal deviates and the uniform deviates of [0, 1) it will
    hand out.  No method of the simulator draws deviates of both kinds,
    so each kind has a stream of its own. *)
Record RandomState : Type := mk_rs {
  gauss : nat -> R;
  double : nat -> R
}.

Module Stats.

(** [norm(loc, scale).pdf(x)] *)
Definition norm_pdf (loc scale x : num) : num :=
  let y := ((x - loc) / scale)%num in
  if negb (Num.gt scale (Fin 0)) || Num.is_nan y then NaN
  else (Num.exp (- Num.square y / Fin 2) / Num.sqrt (Fin 2 * Num.pi)
        / scale)%num.

(** [uniform.logpdf(x, loc, scale)].  The support is tested on the
    standardised value [(x - loc) / scale] as binary64 holds it, so
    that the rounding of the two operations decides on which side of
    an end of the support a number falls. *)
Definition uniform_logpdf (loc scale x : num) : num :=
  let y :=
    Binary64.to_double (Binary64.to_double (x - loc) / scale)%num in
  if negb (Num.gt scale (Fin 0)) || Num.is_nan y then NaN
  else if Num.le (Fin 0) y && Num.le y (Fin 1)
       then (Num.log (Fin 1) - Num.log scale)%num
       else NInf.

(** [uniform.rvs(loc, scale, size=(n, c))] *)
Definition uniform_rvs (loc scale : num) (n c : nat) (st : RandomState)
  : result ndarray * RandomState :=
  if Num.le (Fin 0) scale
  then (Ok (Np.reshape n c
              (map (fun i => (Fin (double st i) * scale + loc)%num)
                   (seq 0 (n * c)))),
        mk_rs (gauss st) (fun i => double st (n * c + i)))
  else (Raise ValueError, st).

(** A scale is refused when its sign bit is set and it is not NaN. *)
Definition bad_scale (s : num) : bool := Num.lt s (Fin 0).

(** [np.random.normal(loc, scale, size)] for arrays [loc] and [scale] of
    [size] entries each. *)
Definition random_normal (loc scale : list num) (size : nat)
    (st : RandomState) : result (list num) * RandomState :=
  if existsb bad_scale scale then (Raise ValueError, st)
  else (Ok (map (fun i => (nth i loc NaN
                           + nth i scale NaN * Fin (gauss st i))%num)
                (seq 0 size)),
        mk_rs (fun i => gauss st (size + i)) (double st)).

(** [np.random.normal(loc, scale, size)] for numbers [loc] and [scale]. *)
Definition random_normal0 (loc scale : num) (size : nat)
    (st : RandomState) : result (list num) * RandomState :=
  if bad_scale scale then (Raise ValueError, st)
  else (Ok (map (fun i => (loc + scale * Fin (gauss st i))%num)
                (seq 0 size)),
        mk_rs (fun i => gauss st (size + i)) (double st)).

End Stats.

(* ================================================================== *)
(** ** The simulator *)

Record Simulator : Type := mk_sim {
  _latent_dim : nat;
  _data_dim : nat;
  _minphase : num;
  _maxphase : num;
  _minwidth : num;
  _maxwidth : num;
  _epsilon : num
}.

Definition two_pi : num := (Fin 2 * Num.pi)%num.

Definition __init__ (latent_dim data_dim : nat)
    (min_width max_width epsilon : num) : result Simulator :=
  let self := mk_sim latent_dim data_dim
                     (Fin 0.5 * Num.pi) (Fin 1.5 * Num.pi)
                     min_width max_width epsilon in
  _ <- assert (latent_dim <? data_dim) ;;
  _ <- assert (Num.gt epsilon (Fin 0)) ;;
  _ <- assert (Num.lt (Fin 0) min_width && Num.lt min_width max_width
               && Num.le max_width two_pi) ;;
  Ok self.

(** The default arguments of the constructor. *)
Definition default_latent_dim : nat := 8.
Definition default_data_dim : nat := 9.
Definition default_min_width : num := (Fin 0.1 * Num.pi)%num.
Definition default_max_width : num := (Fin 0.4 * Num.pi)%num.
Definition default_epsilon : num := Fin 0.01.

Definition is_image (self : Simulator) : bool := false.
Definition data_dim (self : Simulator) : nat := _data_dim self.
Definition latent_dim (self : Simulator) : nat := _latent_dim self.
Definition parameter_dim (self : Simulator) : nat := 2.

Section Methods.

Variable self : Simulator.

Definition width_of (p : num * num) : num :=
  (_minwidth self
   + (Fin 0.5 + Fin 0.5 * fst p) * (_maxwidth self - _minwidth self))%num.

Definition phase_of (p : num * num) : num :=
  (_minphase self
   + (Fin 0.5 + Fin 0.5 * snd p) * (_maxphase self - _minphase self))%num.

(** Returns [(phases_, widths_)], each of shape [(n, latent_dim)].
    [widths_] and [phases_] are built with one row per latent dimension
    and transposed at the end. *)
Definition _parse_parameters (n : nat) (parameters : list num)
  : result (ndarray * ndarray) :=
  parameters <- Np.reshape_pairs parameters ;;
  w <- Np.broadcast_to n (map width_of parameters) ;;
  let widths_ := mk_nd n (repeat w (_latent_dim self)) in
  match _latent_dim self with
  | O => Raise IndexError
  | S k' =>
      ph <- Np.broadcast_to n (map phase_of parameters) ;;
      let phases_ :=
        mk_nd n (repeat (repeat (Fin 0.5 * Num.pi)%num n) k' ++ [ph]) in
      Ok (Np.transpose phases_, Np.transpose widths_)
  end.

Definition _draw_z (n : nat) (parameters : list num) (st : RandomState)
  : result (ndarray * ndarray) * RandomState :=
  match _parse_parameters n parameters with
  | Raise e => (Raise e, st)
  | Ok (phases_, widths_) =>
      (* Spherical coordinates *)
      match Stats.random_normal (Np.flatten phases_) (Np.flatten widths_)
                                (n * _latent_dim self) st with
      | (Raise e, st1) => (Raise e, st1)
      | (Ok z, st1) =>
          let z_phi :=
            Np.map1 (fun a => Num.mod_ a two_pi)
                    (Np.reshape n (_latent_dim self) z) in
          (* Fuzzy coordinates *)
          match Stats.random_normal0 (Fin 0) (_epsilon self)
                  (n * (_data_dim self - _latent_dim self)) st1 with
          | (Raise e, st2) => (Raise e, st2)
          | (Ok e, st2) =>
              (Ok (z_phi,
                   Np.reshape n (_data_dim self - _latent_dim self) e),
               st2)
          end
      end
  end.

(** An entry of [2 * np.pi * np.ones((n, 1))]. *)
Definition ones_2pi : num := (Fin 2 * Num.pi * Fin 1)%num.

(** [sins = np.sin(a); sins[:, 0] = 1; np.cumprod(sins, axis=1)] on one
    row [a]. *)
Definition sins_row (a : list num) : list num :=
  Np.cumprod (Np.set_nth 0 (Fin 1) (map Num.sin a)).

Definition _transform_z_to_x (z_phi z_eps : ndarray) : result ndarray :=
  c0 <- Np.col z_eps 0 ;;
  let r := map (fun e => (Fin 1 + e)%num) c0 in
  (* n entries, each (2 pi, z_sub) *)
  let a := mk_nd (1 + shape1 z_phi) (map (cons ones_2pi) (rows z_phi)) in
  (* n entries, each (1, sin(z0), sin(z1), ..., sin(zk)) *)
  let sins := mk_nd (shape1 a) (map sins_row (rows a)) in
  let coss := Np.roll_m1 (Np.map1 Num.cos a) in
  exact_sphere <- Np.map2 Num.mul sins coss ;;
  (* exact_sphere * r[:, np.newaxis]: row by row; a single row of
     exact_sphere is used for every entry of r *)
  fuzzy_sphere <-
    (if shape0 exact_sphere =? length r
     then Ok (mk_nd (shape1 exact_sphere)
                (Np.zip_with (fun row ri => map (fun v => (v * ri)%num) row)
                             (rows exact_sphere) r))
     else match rows exact_sphere with
          | [row] =>
              Ok (mk_nd (shape1 exact_sphere)
                    (map (fun ri => map (fun v => (v * ri)%num) row) r))
          | _ => Raise ValueError
          end) ;;
  Np.concatenate1 fuzzy_sphere
    (mk_nd (shape1 z_eps - 1) (map (Np.slice 1 (shape1 z_eps)) (rows z_eps))).

(** [np.sum(x[i:k+1] ** 2) ** 0.5] on one row. *)
Definition norm_from (i : nat) (x : list num) : num :=
  Num.pow_half
    (Num.sum (map Num.square (Np.slice i (_latent_dim self + 1) x))).

(** The row of [z_phi] that the loop over the columns and the
    correction of the last column build from the row [x]. *)
Definition z_phi_row (x : list num) : list num :=
  let k := _latent_dim self in
  let z_phi :=
    map (fun i => Num.arccos (nth i x NaN / norm_from i x)%num) (seq 0 k) in
  (* Special case for last component *)
  Np.set_nth (k - 1)
    (if Num.lt (nth k x NaN) (Fin 0)
     then (two_pi - nth (k - 1) z_phi NaN)%num
     else nth (k - 1) z_phi NaN)
    z_phi.

(** The row of [z_eps]: [x[k:]] with [r - 1] in its first place. *)
Definition z_eps_row (x : list num) : list num :=
  let k := _latent_dim self in
  let r := norm_from 0 x in
  Np.set_nth 0 (r - Fin 1)%num (skipn k x).

(** The columns [x[:, i]] for [i <= latent_dim] and the column
    [z_phi[:, latent_dim - 1]] are indexed: they have to exist. *)
Definition _transform_x_to_z (x : ndarray) : result (ndarray * ndarray) :=
  let k := _latent_dim self in
  if (k =? 0) || (shape1 x <=? k) then Raise IndexError
  else Ok (mk_nd k (map z_phi_row (rows x)),
           mk_nd (shape1 x - k) (map z_eps_row (rows x))).

Definition distance_from_manifold (x : ndarray) : result (list num) :=
  ' (z_phi, z_eps) <- _transform_x_to_z x ;;
  Ok (map Num.pow_half (Np.sum1 (Np.map1 Num.square z_eps))).

Definition sample_from_prior (n : nat) (st : RandomState)
  : result ndarray * RandomState :=
  Stats.uniform_rvs (Fin (-1)) (Fin 2) n (parameter_dim self) st.

Definition evaluate_log_prior (parameters : list num) : result (list num) :=
  parameters <- Np.reshape_pairs parameters ;;
  Ok (Np.sum1
        (mk_nd (parameter_dim self)
           (map (fun p => [Stats.uniform_logpdf (Fin (-1)) (Fin 2) (fst p);
                           Stats.uniform_logpdf (Fin (-1)) (Fin 2) (snd p)])
                parameters))).

End Methods.

(* ================================================================== *)
(** ** Generators and loops *)

(** What a generator does when it is run to its end: the values it
    yields, and the exception that ends it, if one does. *)
Definition generator (A : Type) : Type := (list A * option exn)%type.

Fixpoint for_each {A S : Type} (items : list A) (body : S -> A -> result S)
    (s : S) : result S :=
  match items with
  | [] => Ok s
  | a :: t => s' <- body s a ;; for_each t body s'
  end.

(** [for a in g: s = body(s, a)] *)
Definition for_in {A S : Type} (g : generator A) (body : S -> A -> result S)
    (s : S) : result S :=
  s' <- for_each (fst g) body s ;;
  match snd g with
  | Some e => Raise e
  | None => Ok s'
  end.

(** A variable that holds a number first and an array later. *)
Inductive scalar_or_array : Type :=
| Scalar (v : num)
| Array (a : ndarray).

Section Density.

Variable self : Simulator.

(** [z[:, dim] = f(z_phi[:, dim])] on a copy [z] of [z_phi]. *)
Definition with_col (z_phi : ndarray) (dim : nat) (f : num -> num) : ndarray :=
  mk_nd (shape1 z_phi)
        (map (fun r => Np.set_nth dim (f (nth dim r NaN)) r) (rows z_phi)).

(** [z_phi % 2 pi], then all columns but the last folded at [pi]. *)
Definition canonical_row (c : nat) (r : list num) : list num :=
  let r := map (fun z => Num.mod_ z two_pi) r in
  map (fun z => if Num.gt z Num.pi then (two_pi - z)%num else z)
      (firstn (c - 1) r)
  ++ skipn (c - 1) r.

Definition canonical (z_phi : ndarray) : ndarray :=
  mk_nd (shape1 z_phi) (map (canonical_row (shape1 z_phi)) (rows z_phi)).

Definition polar_variations (z_phi : ndarray) (dim : nat) : list ndarray :=
  [ with_col z_phi dim Num.neg;
    with_col z_phi dim (fun z => (two_pi - z)%num) ].

Definition azimuthal_variations (z_phi : ndarray) : list ndarray :=
  let last := shape1 z_phi - 1 in
  [ with_col z_phi last (fun z => (Fin (-2) * Num.pi + z)%num);
    with_col z_phi last (fun z => (two_pi + z)%num) ].

Definition _generate_equivalent_coordinates (z_phi : ndarray) (precise : bool)
  : generator ndarray :=
  let c := shape1 z_phi in
  (* Restrict z to canonical range *)
  let z_phi := canonical z_phi in
  (* Variations of polar angles: column [dim] has to exist *)
  let polar :=
    flat_map (polar_variations z_phi)
             (seq 0 (Nat.min (_latent_dim self - 1) c)) in
  if c <? _latent_dim self - 1 then (z_phi :: polar, Some IndexError)
  else if c =? 0 then (z_phi :: polar, Some IndexError)
  else (* Variations of azimuthal angle *)
       (z_phi :: polar ++ azimuthal_variations z_phi, None).

(** [norm(loc=phases_, scale=widths_).pdf(shifted_z_phi)] *)
Definition norm_pdf_nd (phases_ widths_ shifted : ndarray) : result ndarray :=
  Np.map3 Stats.norm_pdf phases_ widths_ shifted.

(** [p_sub += pdf] *)
Definition iadd (p_sub : scalar_or_array) (pdf : ndarray)
  : result scalar_or_array :=
  match p_sub with
  | Scalar v => Ok (Array (Np.map1 (Num.add v) pdf))
  | Array a => a' <- Np.map2 Num.add a pdf ;; Ok (Array a')
  end.

(** Sum of two one-axis arrays of one length. *)
Definition add_vec (u v : list num) : result (list num) :=
  if length u =? length v then Ok (Np.zip_with Num.add u v)
  else Raise ValueError.

(** [np.arange(k - 1, -1, -1)] *)
Definition arange_desc (k : nat) : list num := map Num.of_nat (rev (seq 0 k)).

Definition log_abs_sin (z : num) : num := Num.log (Num.abs (Num.sin z)).

(** The loop that accumulates [p_sub]. *)
Definition p_sub_loop (phases_ widths_ z_phi : ndarray) (precise : bool)
  : result scalar_or_array :=
  for_in (_generate_equivalent_coordinates z_phi precise)
         (fun p_sub shifted_z_phi =>
            pdf <- norm_pdf_nd phases_ widths_ shifted_z_phi ;;
            iadd p_sub pdf)
         (Scalar (Fin 0)).

(** [np.arange(k - 1, -1, -1)[np.newaxis, :] * np.log(np.abs(np.sin(z_phi)))] *)
Definition weighted_log_sines (z_phi : ndarray) : result ndarray :=
  if shape1 z_phi =? _latent_dim self
  then Ok (mk_nd (shape1 z_phi)
             (map (fun row => Np.zip_with Num.mul
                                (arange_desc (_latent_dim self))
                                (map log_abs_sin row))
                  (rows z_phi)))
  else Raise ValueError.

Definition _log_density (z_phi z_eps : ndarray) (parameters : list num)
    (precise : bool) : result (list num) :=
  c0 <- Np.col z_eps 0 ;;
  let r := map (fun e => (Fin 1 + e)%num) c0 in
  ' (phases_, widths_) <- _parse_parameters self (shape0 z_phi) parameters ;;
  p_sub <- p_sub_loop phases_ widths_ z_phi precise ;;
  logp_sub <- match p_sub with
              | Array a => Ok (Np.map1 Num.log a)
              | Scalar _ => Raise ValueError
              end ;;
  let logp_eps :=
    Np.map1 (fun e => Num.log (Stats.norm_pdf (Fin 0) (_epsilon self) e))
            z_eps in
  let log_det :=
    map (fun ri => (Num.of_nat (_latent_dim self) * Num.abs ri)%num) r in
  weighted <- weighted_log_sines z_phi ;;
  log_det <- add_vec log_det (Np.sum1 weighted) ;;
  logp <- Np.concatenate1 logp_sub logp_eps ;;
  add_vec (Np.sum1 logp) log_det.

Definition log_density (x : ndarray) (parameters : option (list num))
    (precise : bool) : result (list num) :=
  match parameters with
  | None => Raise AssertionError
  | Some parameters =>
      ' (z_phi, z_eps) <- _transform_x_to_z self x ;;
      _log_density z_phi z_eps parameters precise
  end.

Definition sample (n : nat) (parameters : option (list num))
    (st : RandomState) : result ndarray * RandomState :=
  match parameters with
  | None => (Raise AssertionError, st)
  | Some parameters =>
      match _draw_z self n parameters st with
      | (Raise e, st') => (Raise e, st')
      | (Ok (z_phi, z_eps), st') => (_transform_z_to_x z_phi z_eps, st')
      end
  end.

End Density.

(* ================================================================== *)
(** ** The script generate_data.py *)

(** The training set that the script builds: the parameters drawn from
    the prior, and, when [--train] is positive, the samples drawn for
    them.  The simulator is the one that [load_simulator] returns. *)
Definition generate_data_train (simulator : Simulator) (train : nat)
    (st : RandomState) : result (ndarray * option ndarray) * RandomState :=
  match sample_from_prior simulator train st with
  | (Raise e, st1) => (Raise e, st1)
  | (Ok parameters_train, st1) =>
      if 0 <? train
      then match sample simulator train
                        (Some (Np.flatten parameters_train)) st1 with
           | (Raise e, st2) => (Raise e, st2)
           | (Ok x_train, st2) => (Ok (parameters_train, Some x_train), st2)
           end
      else (Ok (parameters_train, None), st1)
  end.

(** The flow of the whole script.  What it calls (the simulator that
    [load_simulator] returns, [default_parameters], [sample_ood],
    [np.save]) is kept abstract: each stage returns or raises.  The
    names [parameters_train] and [parameters_test] are bound where the
    script assigns them; [parameters_test] is assigned only under
    [if args.test > 0], and read under [if args.ood > 0]. *)
Section Script.

Variable array : Type.
Variable error : Type.

(** An exception of one of the calls, or the script reading a name that
    is not bound. *)
Inductive raised : Type :=
| NameError
| Error (e : error).

Inductive run (A : Type) : Type :=
| Return (a : A)
| Raises (e : raised).

Arguments Return {A} a.
Arguments Raises {A} e.

Definition then_ {A B : Type} (m : run A) (f : A -> run B) : run B :=
  match m with
  | Return a => f a
  | Raises e => Raises e
  end.

(** [simulator.sample_from_prior(args.train) if conditional else None] *)
Variable prior : Z -> run (option array).
(** Sampling and saving the training set, the parameter scan, the test
    set and the out-of-distribution set *)
Variable train_samples : Z -> option array -> run unit.
Variable paramscan_samples : Z -> run unit.
(** The array of [default_parameters()], or [None] *)
Variable test_parameters : Z -> run (option array).
Variable test_samples : Z -> option array -> run unit.
Variable ood_samples : Z -> option array -> run unit.

Definition __main__ (train paramscan test ood : Z) : run unit :=
  then_ (prior train) (fun parameters_train =>
  then_ (if (0 <? train)%Z then train_samples train parameters_train
         else Return tt) (fun _ =>
  then_ (if (0 <? paramscan)%Z then paramscan_samples paramscan
         else Return tt) (fun _ =>
  then_ (if (0 <? test)%Z
         then then_ (test_parameters test) (fun parameters_test =>
              then_ (test_samples test parameters_test) (fun _ =>
              Return (Some parameters_test)))
         else Return None) (fun parameters_test =>
  if (0 <? ood)%Z
  then match parameters_test with
       | Some parameters_test => ood_samples ood parameters_test
       | None => Raises NameError
       end
  else Return tt)))).

End Script.

Arguments NameError {error}.
Arguments Error {error} e.
Arguments Return {error A} a.
Arguments Raises {error A} e.

(* ================================================================== *)
(** ** The figure layouts of plot_settings.py *)

(** The functions of [experiments/notebooks/plot_settings.py] compute
    the size of a figure and the margins of its axes, and hand them to
    matplotlib.  They are modelled by the arguments of these calls:
    [plt.figure(figsize=...)], [gridspec.GridSpec(...)],
    [plt.subplots_adjust(...)] and [fig.add_axes(...)].  Sizes and
    margins are real numbers, the numbers of panels are integers; a
    division by zero raises [ZeroDivisionError].  matplotlib raises
    [ValueError] for a figure of negative size and for margins with
    [left >= right] or [bottom >= top]; its other calls are taken to
    return. *)
Module PlotSettings.

Local Open Scope R_scope.

Inductive outcome (A : Type) : Type :=
| Done (a : A)
| ZeroDivisionError
| ValueError.

Arguments Done {A} a.
Arguments ZeroDivisionError {A}.
Arguments ValueError {A}.

Definition and_then {A B : Type} (m : outcome A) (f : A -> outcome B)
  : outcome B :=
  match m with
  | Done a => f a
  | ZeroDivisionError => ZeroDivisionError
  | ValueError => ValueError
  end.

Notation "x <~ m ;; k" := (and_then m (fun x => k))
  (at level 61, m at next level, right associativity).

(** [a / b] on Python numbers. *)
Definition fdiv (a b : R) : outcome R :=
  if Reqb b 0 then ZeroDivisionError else Done (a / b).

(** General size settings *)
Definition TEXTWIDTH : R := 9.
Definition FONTSIZE : R := 9.

(** The keyword arguments of [plt.subplots_adjust]. *)
Record subplots_adjust : Type := mk_adjust {
  adj_left : R;
  adj_right : R;
  adj_bottom : R;
  adj_top : R;
  adj_wspace : R;
  adj_hspace : R
}.

(** What [figure] asks of matplotlib: the size of the figure, the
    margins of the axes, and the rectangle [left, bottom, width, height]
    of the colorbar axes, if there is one. *)
Record Figure : Type := mk_figure {
  figsize : R * R;
  adjust : subplots_adjust;
  cax : option (R * R * R * R)
}.

(** What the grids ask of matplotlib: the size of the figure, the
    numbers of rows and columns and the ratios of the [GridSpec], and
    the margins. *)
Record Grid : Type := mk_grid {
  grid_figsize : R * R;
  nrows_ncols : Z * Z;
  width_ratios : list R;
  height_ratios : list R;
  grid_adjust : subplots_adjust
}.

(** [[v] * n] *)
Definition times (v : R) (n : Z) : list R := repeat v (Z.to_nat n).

(** [plt.figure(figsize=(width, height))]: a negative size is refused. *)
Definition plt_figure (size : R * R) : outcome unit :=
  if Rltb (fst size) 0 || Rltb (snd size) 0 then ValueError else Done tt.

(** [gridspec.GridSpec(nrows, ncols, ...)]: the numbers of rows and of
    columns have to be positive. *)
Definition GridSpec (nrows ncols : Z) : outcome unit :=
  if (nrows <=? 0)%Z || (ncols <=? 0)%Z then ValueError else Done tt.

(** [plt.subplots_adjust(left, right, bottom, top, wspace, hspace)]:
    [left >= right] and [bottom >= top] are refused, in this order. *)
Definition plt_subplots_adjust (a : subplots_adjust) : outcome unit :=
  if Rleb (adj_right a) (adj_left a) then ValueError
  else if Rleb (adj_top a) (adj_bottom a) then ValueError
  else Done tt.

(** Single plot, with or without colorbar, size specified by height *)
Definition figure (cbar : bool)
    (height large_margin small_margin cbar_sep cbar_width : R)
    (make3d l_space r_space b_space t_space : bool) : outcome Figure :=
  if cbar then
    let top := if t_space then large_margin else small_margin in
    let bottom := if b_space then large_margin else small_margin in
    let left := if l_space then large_margin else small_margin in
    let right := large_margin + cbar_width + cbar_sep in
    let width :=
      height * (1 + cbar_sep + cbar_width + right + left - top - bottom) in
    q <~ fdiv ((large_margin + cbar_width) * height) width ;;
    let cleft := 1 - q in
    let cbottom := bottom in
    cwidth <~ fdiv (cbar_width * height) width ;;
    let cheight := 1 - top - bottom in
    _ <~ plt_figure (width, height) ;;
    l <~ fdiv (left * height) width ;;
    r <~ fdiv (right * height) width ;;
    let a := mk_adjust l (1 - r) bottom (1 - top) 0 0 in
    _ <~ plt_subplots_adjust a ;;
    Done (mk_figure (width, height) a
            (Some (cleft, cbottom, cwidth, cheight)))
  else
    let left := if l_space then large_margin else small_margin in
    let right := if r_space then large_margin else small_margin in
    let top := if t_space then large_margin else small_margin in
    let bottom := if b_space then large_margin else small_margin in
    let width :=
      height * (1 + cbar_sep + cbar_width + right + left - top - bottom) in
    _ <~ plt_figure (width, height) ;;
    let a := mk_adjust left (1 - right) bottom (1 - top) 0 0 in
    _ <~ plt_subplots_adjust a ;;
    Done (mk_figure (width, height) a None).

Definition figure_width (width large_margin small_margin : R)
    (make3d l_space r_space b_space t_space : bool) : outcome Figure :=
  let left := if l_space then large_margin else small_margin in
  let right := if r_space then large_margin else small_margin in
  let top := if t_space then large_margin else small_margin in
  let bottom := if b_space then large_margin else small_margin in
  height <~ fdiv width (1 + right + left - top - bottom) ;;
  figure false height large_margin small_margin 0.02 0.04
         make3d l_space r_space b_space t_space.

(** Simple grid, no colorbars, size specified by height *)
Definition grid (nx ny : Z)
    (height aspect_ratio large_margin small_margin sep : R)
    (l_space r_space b_space t_space : bool) : outcome Grid :=
  (* Geometry *)
  let left := if l_space then large_margin else small_margin in
  let right := if r_space then large_margin else small_margin in
  let top := if t_space then large_margin else small_margin in
  let bottom := if b_space then large_margin else small_margin in
  panel_size <~ fdiv (1 - top - bottom - IZR (ny - 1) * sep) (IZR ny) ;;
  let width :=
    height * aspect_ratio
    * (left + IZR nx * panel_size + IZR (nx - 1) * sep + right) in
  (* wspace and hspace *)
  avg_width_abs <~ fdiv (height * panel_size * IZR nx * IZR ny)
                        (IZR (nx * ny + ny)) ;;
  let avg_height_abs := height * panel_size in
  wspace <~ fdiv (sep * height) avg_width_abs ;;
  hspace <~ fdiv (sep * height) avg_height_abs ;;
  (* Set up figure *)
  _ <~ plt_figure (width, height) ;;
  _ <~ GridSpec ny nx ;;
  l <~ fdiv (left * height) width ;;
  r <~ fdiv (right * height) width ;;
  let a := mk_adjust l (1 - r) bottom (1 - top) wspace hspace in
  _ <~ plt_subplots_adjust a ;;
  Done (mk_grid (width, height) (ny, nx) (times 1 nx) (times 1 ny) a).

(** Simple grid, no colorbars, size specified by width *)
Definition grid_width (nx ny : Z)
    (width aspect_ratio large_margin small_margin sep : R)
    (l_space r_space b_space t_space : bool) : outcome Grid :=
  let left := if l_space then large_margin else small_margin in
  let right := if r_space then large_margin else small_margin in
  let top := if t_space then large_margin else small_margin in
  let bottom := if b_space then large_margin else small_margin in
  panel_size <~ fdiv (1 - top - bottom - IZR (ny - 1) * sep) (IZR ny) ;;
  q <~ fdiv width
            (left + IZR nx * panel_size + IZR (nx - 1) * sep + right) ;;
  height <~ fdiv q aspect_ratio ;;
  grid nx ny height aspect_ratio large_margin small_margin sep
       l_space r_space b_space t_space.

(** Grid, colorbars on the right, size specified by height *)
Definition grid2 (nx ny : Z)
    (height large_margin small_margin sep cbar_width : R) : outcome Grid :=
  (* Geometry *)
  let left := small_margin in
  let right := large_margin in
  let top := small_margin in
  let bottom := small_margin in
  panel_size <~ fdiv (1 - top - bottom - IZR (ny - 1) * sep) (IZR ny) ;;
  let width :=
    height
    * (left + IZR nx * panel_size + cbar_width + IZR nx * sep + right) in
  (* wspace and hspace *)
  avg_width_abs <~ fdiv (height * panel_size * IZR nx * IZR ny
                         + IZR ny * cbar_width * height)
                        (IZR (nx * ny + ny)) ;;
  let avg_height_abs := height * panel_size in
  wspace <~ fdiv (sep * height) avg_width_abs ;;
  hspace <~ fdiv (sep * height) avg_height_abs ;;
  (* Set up figure *)
  _ <~ plt_figure (width, height) ;;
  _ <~ GridSpec ny (nx + 1) ;;
  l <~ fdiv (left * height) width ;;
  r <~ fdiv (right * height) width ;;
  let a := mk_adjust l (1 - r) bottom (1 - top) wspace hspace in
  _ <~ plt_subplots_adjust a ;;
  Done (mk_grid (width, height) (ny, (nx + 1)%Z)
          (times 1 nx ++ [cbar_width]) (times 1 ny) a).

(** Grid, colorbars on the right, size specified by width *)
Definition grid2_width (nx ny : Z)
    (width large_margin small_margin sep cbar_width : R) : outcome Grid :=
  let left := small_margin in
  let right := small_margin in
  let top := small_margin in
  let bottom := small_margin in
  panel_size <~ fdiv (1 - top - bottom - IZR (ny - 1) * sep) (IZR ny) ;;
  height <~ fdiv width
                 (left + IZR nx * panel_size + cbar_width + IZR nx * sep
                  + right) ;;
  grid2 nx ny height large_margin small_margin sep cbar_width.

(** A color, or a list of colors, as an array of floating-point
    numbers of one or of two axes. *)
Inductive color : Type :=
| Color (c : list num)
| Colors (c : ndarray).

(** [add_transparency] on an array; [None] is Python's [None], which
    the function returns when it reaches its end. *)
Definition add_transparency (color2 : color) (alpha : num) : option color :=
  match color2 with
  | Color c =>
      if length c =? 4 then Some (Color (Np.set_nth 3 alpha c))
      else if length c =? 3 then Some (Color (c ++ [alpha]))
      else None
  | Colors c =>
      if shape1 c =? 4
      then Some (Colors (mk_nd 4 (map (Np.set_nth 3 alpha) (rows c))))
      else if shape1 c =? 3
      then Some (Colors
                   (mk_nd 4 (map (fun r => r ++ [(alpha * Fin 1)%num])
                                 (rows c))))
      else None
  end.

End PlotSettings.

(* ================================================================== *)
(** ** Notions of the statements *)

(** No assertion fails in [r]. *)
Definition no_assert {A : Type} (r : result A) : Prop :=
  r <> Raise AssertionError.

(** The parameter vector that sample [j] of [n] gets: its own row of an
    [(n, 2)] array, the single row of a lone vector. *)
Definition param_at (n : nat) (ps : list (num * num)) (j : nat) : num * num :=
  nth (if length ps =? n then j else 0) ps (NaN, NaN).

(** In the words of the specification: the log-density of the uniform
    distribution on [-1, 1], which is [log 0.5] on the interval and minus
    infinity outside of it; and the log-prior, its sum over the two
    components. *)
Definition in_unit_interval (t : R) : bool := Rleb (-1) t && Rleb t 1.

Definition spec_uniform_log_density (t : R) : num :=
  if in_unit_interval t then Fin (ln 0.5) else NInf.

Definition spec_log_prior (t0 t1 : R) : num :=
  (spec_uniform_log_density t0 + spec_uniform_log_density t1)%num.

(** One row of the forward map, as a function of the row of angles and
    of the row of noise alone; [c] is the number of noise coordinates. *)
Definition forward_row (c : nat) (z_phi z_eps : list num) : list num :=
  map (fun v => (v * (Fin 1 + nth 0 z_eps NaN))%num)
      (Np.zip_with Num.mul (sins_row (ones_2pi :: z_phi))
                   (map Num.cos z_phi ++ [Num.cos ones_2pi]))
  ++ Np.slice 1 c z_eps.

(** The forward map applied to each sample on its own, as a batch of one
    row. *)
Definition transform_each (z_phi z_eps : ndarray) : list (result ndarray) :=
  Np.zip_with
    (fun p e => _transform_z_to_x (mk_nd (shape1 z_phi) [p])
                                  (mk_nd (shape1 z_eps) [e]))
    (rows z_phi) (rows z_eps).

(** *** The transforms on rows of real numbers *)

(** An array of real numbers. *)
Definition of_reals (d : nat) (x : list (list R)) : ndarray :=
  mk_nd d (map (map Fin) x).

Definition sumsq (l : list R) : R := fold_right (fun y s => y * y + s)%R 0%R l.

(** The Euclidean norm. *)
Definition norm2 (l : list R) : R := sqrt (sumsq l).

(** The angles of a point [ys] on the sphere, before the last one is
    corrected: [acos (y_i / |y_i .. y_k|)] for all [i] but the last. *)
Fixpoint polar (ys : list R) : list R :=
  match ys with
  | [] => []
  | y :: ys' =>
      match ys' with
      | [] => []
      | _ :: _ => acos (y / norm2 ys) :: polar ys'
      end
  end.

Fixpoint map_last (g : R -> R) (l : list R) : list R :=
  match l with
  | [] => []
  | a :: l' =>
      match l' with
      | [] => [g a]
      | _ :: _ => a :: map_last g l'
      end
  end.

(** The angles, the last one in [0, 2 pi) by the sign of the last
    coordinate. *)
Definition angles (ys : list R) : list R :=
  map_last (fun t => if Rltb (last ys 0%R) 0 then (2 * PI - t)%R else t)
           (polar ys).

(** The point at radius [r] with the given angles, [a] being the product
    of the sines so far. *)
Fixpoint sphere_point (a r : R) (ts : list R) : list R :=
  match ts with
  | [] => [(a * cos (2 * PI * 1) * r)%R]
  | t :: ts' => (a * cos t * r)%R :: sphere_point (a * sin t) r ts'
  end.

(** A point whose last two coordinates do not both vanish. *)
Definition off_axis (ys : list R) : Prop :=
  (0 < sumsq (skipn (length ys - 2) ys))%R.

(** Angles in their canonical range: all in [0, 2 pi), and all but the
    last in [0, pi]. *)
Definition canonical_angles (ts : list R) : Prop :=
  forall i, i < length ts ->
            (0 <= nth i ts 0 < 2 * PI)%R
            /\ (i + 1 < length ts -> (nth i ts 0 <= PI)%R).

(** The simulator of the unit sphere in three dimensions, the other
    arguments of the constructor at their defaults. *)
Definition sim_2_3 : Simulator :=
  mk_sim 2 3 (Fin (0.5 * PI)) (Fin (1.5 * PI))
         (Fin (0.1 * PI)) (Fin (0.4 * PI)) (Fin 0.01).

(** A point of the unit sphere on the axis of its first coordinate. *)
Definition pole : ndarray := of_reals 3 [[1; 0; 0]]%R.

(** *** The density, in the words of the specification *)

(** The normal densities at an array of angles, and the sum of two
    arrays, when the shapes agree. *)
Definition pdf_at (phases_ widths_ z : ndarray) : ndarray :=
  mk_nd (shape1 phases_)
        (Np.zip_with3 (Np.zip_with3 Stats.norm_pdf)
                      (rows phases_) (rows widths_) (rows z)).

Definition add_nd (a b : ndarray) : ndarray :=
  mk_nd (shape1 a) (Np.zip_with (Np.zip_with Num.add) (rows a) (rows b)).

(** The sum of the Normal(phase, width) density at the angles [z] and at
    each of its images, starting from [0.0]. *)
Definition sum_of_densities (phases_ widths_ z : ndarray)
    (images : list ndarray) : ndarray :=
  fold_left (fun acc z' => add_nd acc (pdf_at phases_ widths_ z')) images
            (Np.map1 (Num.add (Fin 0)) (pdf_at phases_ widths_ z)).

(** [z] has the shape of [a]. *)
Definition shaped_as (a z : ndarray) : Prop :=
  shape1 z = shape1 a /\ shape0 z = shape0 a.

(** One entry of the log-density, for the angles [z_phi] and the noise
    [z_eps] of one sample and the row [mix] of its summed densities: the
    angular term, the noise term and the Jacobian correction. *)
Definition spec_angular_term (mix : list num) : num :=
  Num.sum (map Num.log mix).

Definition spec_noise_term (self : Simulator) (z_eps : list num) : num :=
  Num.sum (map (fun e => Num.log (Stats.norm_pdf (Fin 0) (_epsilon self) e))
               z_eps).

(** [latent_dim |r|] and the sum of [log |sin angle|] with the weights
    [latent_dim - 1, ..., 0]. *)
Definition spec_jacobian (self : Simulator) (z_phi z_eps : list num) : num :=
  (Num.of_nat (_latent_dim self) * Num.abs (Fin 1 + nth 0 z_eps NaN)
   + Num.sum (Np.zip_with Num.mul (arange_desc (_latent_dim self))
                          (map log_abs_sin z_phi)))%num.

Definition spec_log_density_row (self : Simulator)
    (z_phi z_eps mix : list num) : num :=
  (spec_angular_term mix + spec_noise_term self z_eps
   + spec_jacobian self z_phi z_eps)%num.

(** The Jacobian correction when the last angle contributes nothing:
    the sum runs over all angles but the last. *)
Definition spec_jacobian_without_last (self : Simulator)
    (z_phi z_eps : list num) : num :=
  (Num.of_nat (_latent_dim self) * Num.abs (Fin 1 + nth 0 z_eps NaN)
   + Num.sum (Np.zip_with Num.mul (arange_desc (_latent_dim self))
                          (map log_abs_sin (removelast z_phi))))%num.

(** A point of the unit sphere whose last coordinate is zero. *)
Definition equator : ndarray := of_reals 3 [[0; 1; 0]]%R.

(** The real number [np.mod(a, 2 pi)]. *)
Definition wrap (a : R) : R := (a - 2 * PI * IZR (Zfloor (a / (2 * PI))))%R.

(* ================================================================== *)
(** ** Notions of the further properties *)

(** The data of an array of parameter vectors, one pair of real numbers
    per row. *)
Definition flat_params (ps : list (R * R)) : list num :=
  flat_map (fun p => [Fin (fst p); Fin (snd p)]) ps.

Definition fin_pair (p : R * R) : num * num := (Fin (fst p), Fin (snd p)).

(** A parameter vector in the support of the prior. *)
Definition in_box (p : R * R) : Prop :=
  (-1 <= fst p <= 1)%R /\ (-1 <= snd p <= 1)%R.

(** One row of the forward map on real numbers: the point of the sphere
    of radius [1 + e0] with the angles [ts], followed by the other noise
    coordinates. *)
Definition forward_row_reals (ts es : list R) : list R :=
  sphere_point 1 (1 + hd 0%R es) ts ++ tl es.

(** The distance from the manifold of a point built with the noise
    [es]. *)
Definition folded_distance (es : list R) : R :=
  sqrt (sumsq ((Rabs (1 + hd 0%R es) - 1)%R :: tl es)).

(** The width and the phase of the last angle that a vector of real
    parameters stands for, and the vector that sample [j] of [n] gets. *)
Definition width_real (minw maxw : R) (p : R * R) : R :=
  (minw + (0.5 + 0.5 * fst p) * (maxw - minw))%R.

Definition phase_real (p : R * R) : R :=
  (0.5 * PI + (0.5 + 0.5 * snd p) * (1.5 * PI - 0.5 * PI))%R.

Definition param_real (n : nat) (ps : list (R * R)) (j : nat) : R * R :=
  nth (if length ps =? n then j else 0) ps (0%R, 0%R).

(** The rows of [phases_] and of [widths_], as real numbers. *)
Definition phases_rows (k' n : nat) (ps : list (R * R)) : list (list R) :=
  map (fun j => repeat (0.5 * PI)%R k' ++ [phase_real (param_real n ps j)])
      (seq 0 n).

Definition widths_rows (minw maxw : R) (k n : nat) (ps : list (R * R))
  : list (list R) :=
  map (fun j => repeat (width_real minw maxw (param_real n ps j)) k) (seq 0 n).

(** The angles and the noise that [_draw_z] builds from the normal
    deviates [g]: the deviate number [i] scaled by the width and shifted
    by the phase of entry [i], reduced modulo [2 pi]; and the following
    deviates scaled by [epsilon]. *)
Definition drawn_angles (k n : nat) (L W : list R) (g : nat -> R)
  : list (list R) :=
  map (map wrap)
      (Np.chunks n k
         (map (fun i => (nth i L 0 + nth i W 0 * g i)%R) (seq 0 (n * k)%nat))).

Definition drawn_noise (k c n : nat) (eps : R) (g : nat -> R)
  : list (list R) :=
  Np.chunks n c
    (map (fun i => (0 + eps * g (n * k + i)%nat)%R) (seq 0 (n * c)%nat)).


(** Angles that the inverse map recovers: a last angle in [0, 2 pi) and
    the angles before it strictly between 0 and [pi]. *)
Fixpoint interior_angles (ts : list R) : Prop :=
  match ts with
  | [] => False
  | t :: ts' =>
      match ts' with
      | [] => (0 <= t < 2 * PI)%R
      | _ :: _ => (0 < t < PI)%R /\ interior_angles ts'
      end
  end.


(** The parameter vectors that [sample_from_prior] builds from the
    uniform deviates [u]: vector [j] from the deviates [2 j] and
    [2 j + 1]. *)
Definition prior_draws (n : nat) (u : nat -> R) : list (R * R) :=
  map (fun j => (-1 + 2 * u (2 * j)%nat, -1 + 2 * u (2 * j + 1)%nat)%R)
      (seq 0 n).

(** The arguments that the constructor accepts: fewer latent than data
    dimensions, a positive [epsilon], which may be infinite, and real
    widths with [0 < min_width < max_width <= 2 pi]. *)
Definition accepted_arguments (latent_dim data_dim : nat)
    (min_width max_width epsilon : num) : Prop :=
  latent_dim < data_dim
  /\ (epsilon = PInf \/ exists eps, epsilon = Fin eps /\ (0 < eps)%R)
  /\ exists a b, min_width = Fin a /\ max_width = Fin b
                 /\ (0 < a < b)%R /\ (b <= 2 * PI)%R.


(** The canonical range on real angles: reduced modulo [2 pi], and all
    but the last folded at [pi]. *)
Definition fold_pi (t : R) : R := if Rltb PI t then (2 * PI - t)%R else t.

Definition canonical_row_reals (c : nat) (ts : list R) : list R :=
  map fold_pi (firstn (c - 1) (map wrap ts)) ++ skipn (c - 1) (map wrap ts).


(** *** Figure layouts *)

(** [large_margin if space else small_margin] *)
Definition margin (space : bool) (large_margin small_margin : R) : R :=
  if space then large_margin else small_margin.

(** The height of a panel of a grid of [ny] rows, as a fraction of the
    height of the figure. *)
Definition panel_fraction (ny : Z) (top bottom sep : R) : R :=
  ((1 - top - bottom - IZR (ny - 1) * sep) / IZR ny)%R.

(** The width of a grid of [nx] columns in units of the height of the
    figure, for an aspect ratio of one. *)
Definition grid_extent (nx : Z) (left right panel sep : R) : R :=
  (left + IZR nx * panel + IZR (nx - 1) * sep + right)%R.

(** The same for a grid with a column of colorbars. *)
Definition grid2_extent (nx : Z) (left right panel sep cbar_width : R) : R :=
  (left + IZR nx * panel + cbar_width + IZR nx * sep + right)%R.


(** The distance from the manifold of a row of real numbers: the
    distance of its first [k + 1] coordinates from the unit sphere,
    combined with the other coordinates. *)
Definition distance_real (k : nat) (xs : list R) : R :=
  sqrt (sumsq ((norm2 (firstn (k + 1) xs) - 1)%R :: skipn (k + 1) xs)).

(** The numbers whose squares binary64 holds without overflow and,
    where they are not zero, without underflow: arithmetic on them is
    the exact one up to rounding. *)
Definition no_overflow (v : R) : Prop := (Rabs v <= 10 ^ 100)%R.

Definition no_underflow (v : R) : Prop := (/ 10 ^ 100 <= Rabs v)%R.

(** *** The symmetric images of real angles *)

(** The row [zs] with [f] applied to its entry number [dim]. *)
Definition replace_entry (dim : nat) (f : R -> R) (zs : list R) : list R :=
  map (fun i => if i =? dim then f (nth i zs 0%R) else nth i zs 0%R)
      (seq 0 (length zs)).

(** In the words of the specification, the images of an array [Z] of
    [k] columns of canonical angles: for each column but the last, [Z]
    with that column negated and [Z] with that column reflected at
    [2 pi]; then [Z] with its last column shifted by [-2 pi] and by
    [+2 pi]. *)
Definition symmetric_images (k : nat) (Z : list (list R))
  : list (list (list R)) :=
  flat_map (fun dim => [ map (replace_entry dim Ropp) Z;
                         map (replace_entry dim (fun z => 2 * PI - z)%R) Z ])
           (seq 0 (k - 1))
  ++ [ map (replace_entry (k - 1) (fun z => - 2 * PI + z)%R) Z;
       map (replace_entry (k - 1) (fun z => 2 * PI + z)%R) Z ].

(** The numbers whose standardised value binary64 rounds into the
    support of the uniform prior: the interval [-1, 1] and the numbers
    up to the double that follows 1. *)
Definition in_rounded_support (t : R) : bool :=
  Rleb (-1) t && Rleb t (1 + Binary64.pow2 (-52)).

(** *** The log-density on real numbers *)

Definition sum_list (l : list R) : R := fold_right Rplus 0%R l.

(** The density of Normal([mu], [sigma]) at [x]. *)
Definition normal_pdf (mu sigma x : R) : R :=
  (exp (- (((x - mu) / sigma) * ((x - mu) / sigma)) / 2)
   / sqrt (2 * PI) / sigma)%R.

(** The densities at an array [Z] of angles, for arrays [L] of phases
    and [W] of widths. *)
Definition pdf_rows (L W Z : list (list R)) : list (list R) :=
  Np.zip_with3 (Np.zip_with3 normal_pdf) L W Z.

(** The symmetrized mixture density: the sum, entry by entry, of the
    densities at the angles [Z] and at each of their images, starting
    from 0. *)
Definition mixture (L W Z : list (list R)) (images : list (list (list R)))
  : list (list R) :=
  fold_left (fun acc Z' => Np.zip_with (Np.zip_with Rplus) acc
                                       (pdf_rows L W Z'))
            images (map (map (Rplus 0)) (pdf_rows L W Z)).

(** The three terms of the log-density of one observation with the
    angles [zs], the noise [es] and the mixture densities [mix]. *)
Definition angular_term_real (mix : list R) : R := sum_list (map ln mix).

Definition noise_term_real (eps : R) (es : list R) : R :=
  sum_list (map (fun e => ln (normal_pdf 0 eps e)) es).

(** The sum of [log |sin angle|] with the weights [k - 1, ..., 0]. *)
Definition weighted_log_sines_real (k : nat) (zs : list R) : R :=
  sum_list (Np.zip_with Rmult (map INR (rev (seq 0 k)))
                        (map (fun z => ln (Rabs (sin z))) zs)).

Definition jacobian_real (k : nat) (zs es : list R) : R :=
  (INR k * Rabs (1 + nth 0 es 0) + weighted_log_sines_real k zs)%R.

Definition log_density_real (k : nat) (eps : R) (zs es mix : list R) : R :=
  (angular_term_real mix + noise_term_real eps es + jacobian_real k zs es)%R.

(** An observation away from the places where binary64 and exact
    arithmetic part: its last sphere coordinate is not below
    [10 ^ -100] in magnitude, no angle is closer to a pole than a sine
    of [1 / 1000] (the squared norm of the sphere coordinates from [j]
    on is at most [10 ^ 6] times that of those from [j + 1] on), and no
    noise coordinate lies further than [30 epsilon] from 0, where the
    normal density still is a positive double. *)
Definition regular_row (k : nat) (eps : R) (xs : list R) : Prop :=
  Forall no_overflow xs
  /\ no_underflow (nth k xs 0%R)
  /\ (forall j, j < k ->
        (sumsq (skipn j (firstn (k + 1) xs))
         <= 10 ^ 6 * sumsq (skipn (j + 1) (firstn (k + 1) xs)))%R)
  /\ (Rabs (norm2 (firstn (k + 1) xs) - 1) <= 30 * eps)%R
  /\ Forall (fun e => (Rabs e <= 30 * eps)%R) (skipn (k + 1) xs).

(* ================================================================== *)
(** * Properties *)

Unset Implicit Arguments.

Create HintDb noassert.

Lemma no_assert_Ok (A : Type) (a : A) : no_assert (Ok a).
Proof. discriminate. Qed.

Lemma no_assert_Raise (A : Type) (e : exn) :
  e <> AssertionError -> no_assert (@Raise A e).
Proof. intros H E. injection E as E. contradiction. Qed.

Lemma no_assert_bind (A B : Type) (m : result A) (f : A -> result B) :
  no_assert m -> (forall a, m = Ok a -> no_assert (f a)) ->
  no_assert (bind m f).
Proof.
  intros Hm Hf. destruct m as [a|e]; simpl.
  - now apply Hf.
  - intros E. apply Hm. congruence.
Qed.

#[local] Hint Resolve no_assert_Ok : noassert.
#[local] Hint Extern 1 (no_assert (Raise _)) =>
  apply no_assert_Raise; discriminate : noassert.

(** Splits a computation along its binds and conditionals. *)
Ltac no_assert_step :=
  match goal with
  | |- no_assert (bind _ _) => apply no_assert_bind; [ | intros ? ? ]
  | |- no_assert (if ?c then _ else _) => destruct c
  | |- no_assert (match ?p with (_, _) => _ end) => destruct p
  | |- no_assert (let _ := _ in _) => cbv zeta
  end.

Ltac no_assert_tac := repeat no_assert_step; auto with noassert.

Lemma no_assert_reshape_pairs (p : list num) :
  no_assert (Np.reshape_pairs p).
Proof.
  assert (H : forall n (q : list num), length q <= n ->
                                       no_assert (Np.reshape_pairs q)).
  { induction n as [|n IH]; intros [|a [|b t]] Hl; simpl in *;
      auto with noassert; try lia.
    apply no_assert_bind; [ apply IH; lia | auto with noassert ]. }
  now apply (H (length p)).
Qed.

Lemma no_assert_broadcast_to (n : nat) (v : list num) :
  no_assert (Np.broadcast_to n v).
Proof.
  unfold Np.broadcast_to. destruct (length v =? n); auto with noassert.
  destruct v as [|a [|b t]]; auto with noassert.
Qed.

Lemma no_assert_col (a : ndarray) (i : nat) : no_assert (Np.col a i).
Proof. unfold Np.col. no_assert_tac. Qed.

Lemma no_assert_map2 f (a b : ndarray) : no_assert (Np.map2 f a b).
Proof. unfold Np.map2. no_assert_tac. Qed.

Lemma no_assert_map3 f (a b c : ndarray) : no_assert (Np.map3 f a b c).
Proof. unfold Np.map3. no_assert_tac. Qed.

Lemma no_assert_concatenate1 (a b : ndarray) :
  no_assert (Np.concatenate1 a b).
Proof. unfold Np.concatenate1. no_assert_tac. Qed.

Lemma no_assert_add_vec (u v : list num) : no_assert (add_vec u v).
Proof. unfold add_vec. no_assert_tac. Qed.

#[local] Hint Resolve no_assert_reshape_pairs no_assert_broadcast_to
  no_assert_col no_assert_map2 no_assert_map3 no_assert_concatenate1
  no_assert_add_vec : noassert.

Lemma no_assert_parse_parameters self n parameters :
  no_assert (_parse_parameters self n parameters).
Proof.
  unfold _parse_parameters. no_assert_tac.
  destruct (_latent_dim self); no_assert_tac.
Qed.

Lemma no_assert_transform_x_to_z self x :
  no_assert (_transform_x_to_z self x).
Proof. unfold _transform_x_to_z. no_assert_tac. Qed.

Lemma no_assert_transform_z_to_x z_phi z_eps :
  no_assert (_transform_z_to_x z_phi z_eps).
Proof.
  unfold _transform_z_to_x. no_assert_tac.
  match goal with
  | |- context [match rows ?e with _ => _ end] =>
      destruct (rows e) as [|row [|? ?]]; auto with noassert
  end.
Qed.

Lemma no_assert_for_each (A S : Type) (items : list A)
    (body : S -> A -> result S) :
  (forall s a, no_assert (body s a)) ->
  forall s, no_assert (for_each items body s).
Proof.
  intros Hb. induction items as [|a t IH]; intros s; simpl.
  - auto with noassert.
  - apply no_assert_bind; auto.
Qed.

Lemma generator_ends self z_phi precise :
  snd (_generate_equivalent_coordinates self z_phi precise)
  <> Some AssertionError.
Proof.
  unfold _generate_equivalent_coordinates.
  destruct (_ <? _); [ discriminate | ].
  destruct (_ =? _); discriminate.
Qed.

Lemma no_assert_log_density_inner self z_phi z_eps parameters precise :
  no_assert (_log_density self z_phi z_eps parameters precise).
Proof.
  unfold _log_density.
  apply no_assert_bind; [ auto with noassert | intros c0 _ ].
  apply no_assert_bind; [ apply no_assert_parse_parameters | ].
  intros [phases_ widths_] _.
  apply no_assert_bind.
  - unfold p_sub_loop, for_in. apply no_assert_bind.
    + apply no_assert_for_each. intros s a.
      apply no_assert_bind; [ apply no_assert_map3 | intros pdf _ ].
      unfold iadd. destruct s; no_assert_tac.
    + intros s' _.
      pose proof (generator_ends self z_phi precise) as He.
      destruct (snd _) as [e|]; [ | auto with noassert ].
      apply no_assert_Raise. congruence.
  - intros p_sub _. unfold weighted_log_sines. destruct p_sub; no_assert_tac.
Qed.

(* ================================================================== *)
(** ** The [parameters] precondition and the [precise] flag *)

(** C9: [sample] and [log_density] fail on their assertion exactly when
    [parameters] is omitted.  The check comes first: without parameters
    the outcome is the assertion failure whatever the other arguments
    are, and [sample] leaves the random generator as it found it. *)
Theorem C9_parameters_required :
  forall (self : Simulator),
    (forall x parameters precise,
        log_density self x parameters precise = Raise AssertionError
        <-> parameters = None)
    /\ (forall n parameters st,
           fst (sample self n parameters st) = Raise AssertionError
           <-> parameters = None)
    /\ (forall n st, sample self n None st = (Raise AssertionError, st)).
Proof.
  intros self. split; [ | split ].
  - intros x [p|] precise; split; try discriminate; try reflexivity.
    intros E. exfalso. revert E. unfold log_density.
    apply no_assert_bind; [ apply no_assert_transform_x_to_z | ].
    intros [z_phi z_eps] _. apply no_assert_log_density_inner.
  - intros n [p|] st; split; try discriminate; try reflexivity.
    intros E. exfalso. revert E. unfold sample, _draw_z.
    pose proof (no_assert_parse_parameters self n p) as Hp.
    destruct (_parse_parameters self n p) as [[phases_ widths_]|e]; simpl.
    + unfold Stats.random_normal, Stats.random_normal0.
      destruct (existsb _ _); simpl; [ discriminate | ].
      destruct (Stats.bad_scale _); simpl; [ discriminate | ].
      apply no_assert_transform_z_to_x.
    + intros E. apply Hp. congruence.
  - reflexivity.
Qed.

(** C10: the [precise] flag never changes the log-density. *)
Theorem C10_precise_is_ignored :
  forall (self : Simulator) (x : ndarray) (parameters : option (list num)),
    log_density self x parameters true = log_density self x parameters false.
Proof. reflexivity. Qed.

(* ================================================================== *)
(** ** Comparisons of real numbers *)

Lemma Rltb_true (a b : R) : (a < b)%R -> Rltb a b = true.
Proof. intros H. unfold Rltb. destruct (Rlt_dec a b); tauto. Qed.

Lemma Rltb_false (a b : R) : (b <= a)%R -> Rltb a b = false.
Proof. intros H. unfold Rltb. destruct (Rlt_dec a b); [ lra | reflexivity ]. Qed.

Lemma Rleb_true (a b : R) : (a <= b)%R -> Rleb a b = true.
Proof. intros H. unfold Rleb. destruct (Rle_dec a b); tauto. Qed.

Lemma Rleb_false (a b : R) : (b < a)%R -> Rleb a b = false.
Proof. intros H. unfold Rleb. destruct (Rle_dec a b); [ lra | reflexivity ]. Qed.

Lemma Reqb_true (a b : R) : a = b -> Reqb a b = true.
Proof. intros H. unfold Reqb. destruct (Req_dec_T a b); tauto. Qed.

Lemma Reqb_false (a b : R) : a <> b -> Reqb a b = false.
Proof. intros H. unfold Reqb. destruct (Req_dec_T a b); tauto. Qed.

Lemma Rltb_spec (a b : R) : Rltb a b = true <-> (a < b)%R.
Proof. unfold Rltb. destruct (Rlt_dec a b); split; auto; discriminate. Qed.

Lemma Rleb_spec (a b : R) : Rleb a b = true <-> (a <= b)%R.
Proof. unfold Rleb. destruct (Rle_dec a b); split; auto; discriminate. Qed.

(* ================================================================== *)
(** ** Rounding *)

Section Rounding.

Import Binary64.
Local Open Scope R_scope.

Lemma pow2_pos (e : Z) : 0 < pow2 e.
Proof. apply powerRZ_lt. lra. Qed.

Lemma pow2_add (a b : Z) : pow2 (a + b) = pow2 a * pow2 b.
Proof. apply powerRZ_add. lra. Qed.

Lemma pow2_0 : pow2 0 = 1.
Proof. reflexivity. Qed.

Lemma pow2_1 : pow2 1 = 2.
Proof. unfold pow2. simpl. lra. Qed.

Lemma pow2_opp (a : Z) : pow2 (- a) = / pow2 a.
Proof. apply powerRZ_neg'. Qed.

Lemma pow2_sub (a b : Z) : pow2 (a - b) = pow2 a / pow2 b.
Proof.
  replace (a - b)%Z with (a + - b)%Z by lia.
  now rewrite pow2_add, pow2_opp.
Qed.

Lemma pow2_succ (a : Z) : pow2 (a + 1) = 2 * pow2 a.
Proof. rewrite pow2_add, pow2_1. ring. Qed.

Lemma pow2_IZR (n : Z) : (0 <= n)%Z -> pow2 n = IZR (2 ^ n).
Proof.
  intros Hn. unfold pow2.
  rewrite <- (Z2Nat.id n Hn) at 1. rewrite <- pow_powerRZ.
  rewrite <- (Z2Nat.id n Hn) at 2. now rewrite pow_IZR.
Qed.

Lemma pow2_ge_1 (n : Z) : (0 <= n)%Z -> 1 <= pow2 n.
Proof.
  intros Hn. rewrite pow2_IZR by assumption. apply IZR_le.
  pose proof (Z.pow_pos_nonneg 2 n ltac:(lia) Hn). lia.
Qed.

Lemma pow2_le (a b : Z) : (a <= b)%Z -> pow2 a <= pow2 b.
Proof.
  intros H. replace b with (a + (b - a))%Z by lia. rewrite pow2_add.
  pose proof (pow2_pos a). pose proof (pow2_ge_1 (b - a) ltac:(lia)). nra.
Qed.

Lemma pow2_lt (a b : Z) : (a < b)%Z -> pow2 a < pow2 b.
Proof.
  intros H. apply Rlt_le_trans with (pow2 (a + 1)).
  - rewrite pow2_succ. pose proof (pow2_pos a). lra.
  - apply pow2_le. lia.
Qed.

Lemma pow2_lt_inv (a b : Z) : pow2 a < pow2 b -> (a < b)%Z.
Proof.
  intros H. destruct (Z.lt_ge_cases a b) as [|Hge]; [ assumption | ].
  apply pow2_le in Hge. lra.
Qed.

Lemma ln_pow2 (e : Z) : ln (pow2 e) = IZR e * ln 2.
Proof.
  unfold pow2. rewrite powerRZ_Rpower by lra. apply ln_Rpower.
Qed.

Lemma ln_2_pos : 0 < ln 2.
Proof. rewrite <- ln_1. apply ln_increasing; lra. Qed.

(** The binade of a number between two consecutive powers of two. *)
Lemma binade_eq (x : R) (e : Z) :
  pow2 e <= Rabs x < pow2 (e + 1) -> binade x = e.
Proof.
  intros [H1 H2]. unfold binade. pose proof ln_2_pos as Hl.
  pose proof (pow2_pos e) as He. apply Zfloor_eq. split.
  - apply Rmult_le_reg_r with (ln 2); [ assumption | ].
    replace (ln (Rabs x) / ln 2 * ln 2) with (ln (Rabs x)) by (field; lra).
    rewrite <- ln_pow2. destruct H1 as [H1|H1].
    + left. apply ln_increasing; assumption.
    + right. now rewrite H1.
  - apply Rmult_lt_reg_r with (ln 2); [ assumption | ].
    replace (ln (Rabs x) / ln 2 * ln 2) with (ln (Rabs x)) by (field; lra).
    replace (IZR e + 1) with (IZR (e + 1)) by (rewrite plus_IZR; ring).
    rewrite <- ln_pow2. apply ln_increasing; lra.
Qed.

Lemma binade_bounds (x : R) :
  x <> 0 -> pow2 (binade x) <= Rabs x < pow2 (binade x + 1).
Proof.
  intros Hx. pose proof ln_2_pos as Hl.
  assert (Hpos : 0 < Rabs x) by now apply Rabs_pos_lt.
  pose proof (Zfloor_bound (ln (Rabs x) / ln 2)) as [H1 H2].
  fold (binade x) in H1, H2.
  assert (E1 : IZR (binade x) * ln 2 <= ln (Rabs x)).
  { apply Rmult_le_compat_r with (r := ln 2) in H1; [ | lra ].
    replace (ln (Rabs x) / ln 2 * ln 2) with (ln (Rabs x)) in H1
      by (field; lra).
    exact H1. }
  assert (E2 : ln (Rabs x) < IZR (binade x + 1) * ln 2).
  { apply Rmult_lt_compat_r with (r := ln 2) in H2; [ | lra ].
    replace (ln (Rabs x) / ln 2 * ln 2) with (ln (Rabs x)) in H2
      by (field; lra).
    rewrite plus_IZR. exact H2. }
  rewrite <- !ln_pow2 in *. split.
  - destruct (Rle_lt_dec (pow2 (binade x)) (Rabs x)) as [H|H];
      [ exact H | ].
    apply ln_increasing in H; [ lra | assumption ].
  - destruct (Rlt_le_dec (Rabs x) (pow2 (binade x + 1))) as [H|H];
      [ exact H | ].
    destruct H as [H|H].
    + apply ln_increasing in H; [ lra | apply pow2_pos ].
    + rewrite H in E2. lra.
Qed.

Lemma binade_le (x : R) (j : Z) :
  x <> 0 -> Rabs x <= pow2 j -> (binade x <= j)%Z.
Proof.
  intros Hx H. destruct (binade_bounds x Hx) as [H1 _].
  destruct (Z.le_gt_cases (binade x) j) as [|Hgt]; [ assumption | ].
  destruct H as [H|H].
  - assert (Hlt : pow2 (binade x) < pow2 j) by lra.
    apply pow2_lt_inv in Hlt. lia.
  - rewrite H in H1. destruct H1 as [H1|H1].
    + apply pow2_lt_inv in H1. lia.
    + apply pow2_lt in Hgt. lra.
Qed.

Lemma binade_ge (x : R) (j : Z) : pow2 j <= Rabs x -> (j <= binade x)%Z.
Proof.
  intros H.
  assert (Hx : x <> 0).
  { intros E. subst x. rewrite Rabs_R0 in H. pose proof (pow2_pos j). lra. }
  destruct (binade_bounds x Hx) as [_ H2].
  assert (Hlt : pow2 j < pow2 (binade x + 1)) by lra.
  apply pow2_lt_inv in Hlt. lia.
Qed.

(** *** The nearest integer *)

Lemma nearest_even_floor (r : R) :
  nearest_even r = Zfloor r \/ nearest_even r = (Zfloor r + 1)%Z.
Proof.
  unfold nearest_even. destruct (Rltb _ _); [ now left | ].
  destruct (Rltb _ _); [ now right | ].
  destruct (Z.even _); [ now left | now right ].
Qed.

Lemma nearest_even_ge (r : R) (n : Z) : IZR n <= r -> (n <= nearest_even r)%Z.
Proof.
  intros H. apply Zfloor_lub in H.
  destruct (nearest_even_floor r) as [E|E]; rewrite E; lia.
Qed.

Lemma nearest_even_IZR (n : Z) : nearest_even (IZR n) = n.
Proof.
  unfold nearest_even. rewrite ZfloorZ.
  rewrite Rltb_true by lra. reflexivity.
Qed.

Lemma nearest_even_le (r : R) (n : Z) : r <= IZR n -> (nearest_even r <= n)%Z.
Proof.
  intros [H|H].
  - pose proof (Zfloor_bound r) as [H1 _].
    assert (Hlt : IZR (Zfloor r) < IZR n) by lra.
    apply lt_IZR in Hlt.
    destruct (nearest_even_floor r) as [E|E]; rewrite E; lia.
  - subst r. rewrite nearest_even_IZR. lia.
Qed.

(** Up to one half above an even integer, the integer is the nearest. *)
Lemma nearest_even_down (r : R) (n : Z) :
  Z.even n = true -> IZR n <= r <= IZR n + 1 / 2 -> nearest_even r = n.
Proof.
  intros Hn [H1 H2]. unfold nearest_even.
  rewrite (Zfloor_eq n) by lra.
  destruct (Rle_lt_dec (1 / 2) (r - IZR n)) as [H|H].
  - rewrite Rltb_false by lra. rewrite Rltb_false by lra. now rewrite Hn.
  - now rewrite Rltb_true.
Qed.

(** *** Rounding *)

Lemma ulp_exponent_le (x : R) (j : Z) :
  x <> 0 -> Rabs x <= pow2 j -> (-1074 <= j)%Z -> (ulp_exponent x <= j)%Z.
Proof.
  intros Hx H Hj. pose proof (binade_le x j Hx H). unfold ulp_exponent. lia.
Qed.

Lemma pow2_ratio (a e : Z) :
  (e <= a)%Z -> pow2 a / pow2 e = IZR (2 ^ (a - e)).
Proof.
  intros H. rewrite <- pow2_sub. apply pow2_IZR. lia.
Qed.

Lemma scaled_back (n : Z) (a e : Z) :
  (e <= a)%Z -> IZR (2 ^ (a - e)) * pow2 e = pow2 a.
Proof.
  intros H. rewrite <- pow2_ratio by assumption.
  field. pose proof (pow2_pos e). lra.
Qed.

(** A number up to a power of two is rounded to a double up to it. *)
Lemma round_magnitude_le (x : R) (j : Z) :
  0 <= x <= pow2 j -> (-1074 <= j <= 1023)%Z ->
  exists v, round_magnitude x = Fin v /\ 0 <= v <= pow2 j.
Proof.
  intros [H0 H1] Hj. unfold round_magnitude.
  destruct (Req_dec_T x 0) as [E|E].
  - rewrite Reqb_true by assumption. exists 0. split; [ reflexivity | ].
    pose proof (pow2_pos j). lra.
  - rewrite Reqb_false by assumption. cbv zeta.
    set (e := ulp_exponent x). pose proof (pow2_pos e) as He.
    assert (Hej : (e <= j)%Z).
    { apply ulp_exponent_le; [ assumption | | lia ].
      rewrite Rabs_pos_eq; lra. }
    assert (Hm0 : IZR 0 <= x / pow2 e).
    { apply Rmult_le_reg_r with (pow2 e); [ assumption | ].
      replace (x / pow2 e * pow2 e) with x by (field; lra). lra. }
    assert (Hm1 : x / pow2 e <= IZR (2 ^ (j - e))).
    { rewrite <- pow2_ratio by assumption.
      apply Rmult_le_reg_r with (pow2 e); [ assumption | ].
      replace (x / pow2 e * pow2 e) with x by (field; lra).
      replace (pow2 j / pow2 e * pow2 e) with (pow2 j) by (field; lra).
      exact H1. }
    apply nearest_even_ge in Hm0. apply nearest_even_le in Hm1.
    apply IZR_le in Hm0, Hm1.
    assert (Hv : 0 <= IZR (nearest_even (x / pow2 e)) * pow2 e <= pow2 j).
    { split; [ apply Rmult_le_pos; lra | ].
      rewrite <- (scaled_back 0 j e Hej).
      apply Rmult_le_compat_r; lra. }
    rewrite Rleb_false.
    + eexists. split; [ reflexivity | exact Hv ].
    + apply Rle_lt_trans with (pow2 j); [ apply Hv | ].
      apply pow2_lt. lia.
Qed.

(** A number from a power of two on is rounded to a double from it on,
    or to infinity. *)
Lemma round_magnitude_ge (x : R) (j : Z) :
  pow2 j <= x -> (-1074 <= j)%Z ->
  round_magnitude x = PInf
  \/ exists v, round_magnitude x = Fin v /\ pow2 j <= v.
Proof.
  intros H Hj. pose proof (pow2_pos j) as Hpj. unfold round_magnitude.
  rewrite Reqb_false by lra. cbv zeta.
  set (e := ulp_exponent x). pose proof (pow2_pos e) as He.
  destruct (Rleb _ _); [ now left | right ].
  eexists. split; [ reflexivity | ].
  assert (Hx : x <> 0) by lra.
  assert (Hb : (j <= binade x)%Z)
    by (apply binade_ge; rewrite Rabs_pos_eq; lra).
  destruct (binade_bounds x Hx) as [Hb1 _].
  rewrite Rabs_pos_eq in Hb1 by lra.
  assert (Heb : (e <= binade x)%Z) by (unfold e, ulp_exponent; lia).
  assert (Hm : IZR (2 ^ (binade x - e)) <= x / pow2 e).
  { rewrite <- pow2_ratio by assumption.
    apply Rmult_le_reg_r with (pow2 e); [ assumption | ].
    replace (x / pow2 e * pow2 e) with x by (field; lra).
    replace (pow2 (binade x) / pow2 e * pow2 e) with (pow2 (binade x))
      by (field; lra).
    exact Hb1. }
  apply nearest_even_ge, IZR_le in Hm.
  apply Rle_trans with (pow2 (binade x)); [ now apply pow2_le | ].
  rewrite <- (scaled_back 0 (binade x) e Heb).
  apply Rmult_le_compat_r; lra.
Qed.

(** The same from the double that follows a power of two. *)
Lemma round_magnitude_ge_next (x : R) (j : Z) :
  pow2 j + pow2 (j - 52) <= x -> (-1022 <= j)%Z ->
  round_magnitude x = PInf
  \/ exists v, round_magnitude x = Fin v /\ pow2 j + pow2 (j - 52) <= v.
Proof.
  intros H Hj. pose proof (pow2_pos j) as Hpj.
  pose proof (pow2_pos (j - 52)) as Hpj'.
  assert (Hx : x <> 0) by lra.
  assert (Hb : (j <= binade x)%Z)
    by (apply binade_ge; rewrite Rabs_pos_eq; lra).
  destruct (Z.eq_dec (binade x) j) as [E|E].
  - unfold round_magnitude. rewrite Reqb_false by lra. cbv zeta.
    unfold ulp_exponent. rewrite E, Z.max_l by lia.
    destruct (Rleb _ _); [ now left | right ].
    eexists. split; [ reflexivity | ].
    assert (Hm : IZR (2 ^ 52 + 1) <= x / pow2 (j - 52)).
    { rewrite plus_IZR.
      replace (IZR (2 ^ 52)) with (IZR (2 ^ (j - (j - 52))))
        by (do 2 f_equal; lia).
      rewrite <- pow2_ratio by lia.
      apply Rmult_le_reg_r with (pow2 (j - 52)); [ assumption | ].
      replace (x / pow2 (j - 52) * pow2 (j - 52)) with x by (field; lra).
      replace ((pow2 j / pow2 (j - 52) + 1) * pow2 (j - 52))
        with (pow2 j + pow2 (j - 52)) by (field; lra).
      exact H. }
    apply nearest_even_ge, IZR_le in Hm.
    apply Rle_trans with (IZR (2 ^ 52 + 1) * pow2 (j - 52)).
    + rewrite plus_IZR.
      replace (IZR (2 ^ 52)) with (IZR (2 ^ (j - (j - 52))))
        by (do 2 f_equal; lia).
      rewrite Rmult_plus_distr_r, scaled_back by (exact 0%Z || lia). lra.
    + apply Rmult_le_compat_r; lra.
  - destruct (round_magnitude_ge x (j + 1)) as [Hinf|(v & Hv & Hle)];
      [ | lia | now left | right ].
    + destruct (binade_bounds x Hx) as [Hb1 _].
      rewrite Rabs_pos_eq in Hb1 by lra.
      apply Rle_trans with (pow2 (binade x)); [ apply pow2_le; lia | ].
      exact Hb1.
    + exists v. split; [ exact Hv | ].
      rewrite pow2_succ in Hle.
      assert (pow2 (j - 52) <= pow2 j) by (apply pow2_le; lia). lra.
Qed.

(** Up to half a unit in the last place above a power of two, a number
    is rounded to the power of two. *)
Lemma round_magnitude_down (x : R) (j : Z) :
  pow2 j <= x <= pow2 j + pow2 (j - 53) -> (-1022 <= j <= 1023)%Z ->
  round_magnitude x = Fin (pow2 j).
Proof.
  intros [H1 H2] Hj. pose proof (pow2_pos j) as Hpj.
  pose proof (pow2_pos (j - 52)) as He.
  assert (Hhalf : pow2 (j - 53) = pow2 (j - 52) / 2).
  { replace (j - 52)%Z with (j - 53 + 1)%Z by lia. rewrite pow2_succ. lra. }
  assert (Hle : pow2 (j - 52) <= pow2 j) by (apply pow2_le; lia).
  assert (Hb : binade x = j).
  { apply binade_eq. rewrite Rabs_pos_eq by lra. rewrite pow2_succ. lra. }
  assert (Hr : pow2 j / pow2 (j - 52) = IZR (2 ^ 52)).
  { rewrite pow2_ratio by lia. do 2 f_equal. lia. }
  unfold round_magnitude. rewrite Reqb_false by lra. cbv zeta.
  unfold ulp_exponent. rewrite Hb, Z.max_l by lia.
  rewrite (nearest_even_down _ (2 ^ 52)); [ | reflexivity | ].
  - rewrite <- Hr.
    replace (pow2 j / pow2 (j - 52) * pow2 (j - 52)) with (pow2 j)
      by (field; lra).
    rewrite Rleb_false; [ reflexivity | apply pow2_lt; lia ].
  - rewrite <- Hr. split.
    + apply Rmult_le_reg_r with (pow2 (j - 52)); [ assumption | ].
      replace (x / pow2 (j - 52) * pow2 (j - 52)) with x by (field; lra).
      replace (pow2 j / pow2 (j - 52) * pow2 (j - 52)) with (pow2 j)
        by (field; lra).
      exact H1.
    + apply Rmult_le_reg_r with (pow2 (j - 52)); [ assumption | ].
      replace (x / pow2 (j - 52) * pow2 (j - 52)) with x by (field; lra).
      replace ((pow2 j / pow2 (j - 52) + 1 / 2) * pow2 (j - 52))
        with (pow2 j + pow2 (j - 52) / 2) by (field; lra).
      lra.
Qed.

(** A multiple of the unit in the last place of its binade is a
    double. *)
Lemma round_magnitude_exact (x : R) (n : Z) :
  0 < x < pow2 1024 -> x = IZR n * pow2 (ulp_exponent x) ->
  round_magnitude x = Fin x.
Proof.
  intros [H0 H1] Hn. unfold round_magnitude.
  rewrite Reqb_false by lra. cbv zeta.
  pose proof (pow2_pos (ulp_exponent x)) as He.
  replace (x / pow2 (ulp_exponent x)) with (IZR n)
    by (rewrite Hn at 1; field; lra).
  rewrite nearest_even_IZR, <- Hn.
  now rewrite Rleb_false.
Qed.

(** A positive double is a multiple of the unit in the last place of
    its binade. *)
Lemma double_grid (x : R) :
  0 < x -> round_magnitude x = Fin x ->
  x = IZR (nearest_even (x / pow2 (ulp_exponent x)))
      * pow2 (ulp_exponent x).
Proof.
  intros H0. unfold round_magnitude. rewrite Reqb_false by lra. cbv zeta.
  destruct (Rleb _ _); [ discriminate | ].
  intros E. now injection E.
Qed.

(** There is no double between 1 and 2 other than the multiples of
    [2^-52]. *)
Lemma double_above_one (x : R) (n : Z) :
  round_magnitude x = Fin x -> 1 + IZR n * pow2 (-52) < x ->
  (0 <= n < 2 ^ 52)%Z -> 1 + IZR (n + 1) * pow2 (-52) <= x.
Proof.
  intros Hd Hx Hn. pose proof (pow2_pos (-52)) as He.
  assert (Hn0 : 0 <= IZR n) by now apply IZR_le.
  assert (H1 : 1 < x) by nra.
  destruct (Rlt_le_dec x 2) as [H2|H2].
  - assert (Hb : binade x = 0%Z).
    { apply binade_eq. rewrite Rabs_pos_eq by lra.
      rewrite pow2_0. change (0 + 1)%Z with 1%Z. rewrite pow2_1. lra. }
    apply double_grid in Hd; [ | lra ].
    unfold ulp_exponent in Hd. rewrite Hb, Z.max_l in Hd by lia.
    change (0 - 52)%Z with (-52)%Z in Hd.
    set (m := nearest_even (x / pow2 (-52))) in *.
    assert (Hone : IZR (2 ^ 52) * pow2 (-52) = 1).
    { rewrite <- pow2_IZR, <- pow2_add by lia. reflexivity. }
    assert (Hlt : IZR (2 ^ 52 + n) < IZR m).
    { apply Rmult_lt_reg_r with (pow2 (-52)); [ assumption | ].
      rewrite plus_IZR, Rmult_plus_distr_r, Hone, <- Hd. exact Hx. }
    apply lt_IZR in Hlt.
    assert (Hle : IZR (2 ^ 52 + (n + 1)) <= IZR m) by (apply IZR_le; lia).
    apply Rmult_le_compat_r with (r := pow2 (-52)) in Hle; [ | lra ].
    rewrite plus_IZR, Rmult_plus_distr_r, Hone, <- Hd in Hle. exact Hle.
  - apply Rle_trans with 2; [ | exact H2 ].
    assert (Hone : IZR (2 ^ 52) * pow2 (-52) = 1).
    { rewrite <- pow2_IZR, <- pow2_add by lia. reflexivity. }
    assert (Hle : IZR (n + 1) <= IZR (2 ^ 52)) by (apply IZR_le; lia).
    apply Rmult_le_compat_r with (r := pow2 (-52)) in Hle; lra.
Qed.

Lemma round64_nonneg (x : R) : 0 <= x -> round64 x = round_magnitude x.
Proof. intros H. unfold round64. now rewrite Rltb_false. Qed.

Lemma round64_neg (x : R) :
  x < 0 -> round64 x = Num.neg (round_magnitude (- x)).
Proof. intros H. unfold round64. now rewrite Rltb_true. Qed.

Lemma is_double_0 : is_double 0.
Proof.
  unfold is_double. rewrite round64_nonneg by lra.
  unfold round_magnitude. now rewrite Reqb_true.
Qed.

Lemma is_double_pos (x : R) : 0 < x -> is_double x -> round_magnitude x = Fin x.
Proof. intros H. unfold is_double. now rewrite round64_nonneg by lra. Qed.

Lemma is_double_neg (x : R) :
  x < 0 -> is_double x -> round_magnitude (- x) = Fin (- x).
Proof.
  intros H. unfold is_double. rewrite round64_neg by assumption.
  destruct (round_magnitude (- x)); try discriminate.
  cbn. intros E. injection E as E. f_equal. lra.
Qed.

(** The doubles next to the ends of [-1, 1]. *)
Lemma double_above (t : R) :
  is_double t -> 1 + pow2 (-52) < t -> 1 + pow2 (-51) <= t.
Proof.
  intros Hd Ht. pose proof (pow2_pos (-52)).
  apply is_double_pos in Hd; [ | lra ].
  pose proof (double_above_one t 1 Hd) as H1.
  replace (1 + 1)%Z with 2%Z in H1 by lia.
  specialize (H1 ltac:(lra) ltac:(lia)).
  replace (pow2 (-51)) with (2 * pow2 (-52))
    by (now rewrite <- pow2_succ).
  lra.
Qed.

Lemma double_below (t : R) :
  is_double t -> t < -1 -> t <= -1 - pow2 (-52).
Proof.
  intros Hd Ht. apply is_double_neg in Hd; [ | lra ].
  pose proof (double_above_one (- t) 0 Hd) as H1.
  replace (0 + 1)%Z with 1%Z in H1 by lia.
  specialize (H1 ltac:(lra) ltac:(lia)). lra.
Qed.

Lemma is_double_next_one : is_double (1 + pow2 (-52)).
Proof.
  pose proof (pow2_pos (-52)) as He.
  assert (Hone : IZR (2 ^ 52) * pow2 (-52) = 1).
  { rewrite <- pow2_IZR, <- pow2_add by lia. reflexivity. }
  assert (Hlt : pow2 (-52) < 1).
  { rewrite <- pow2_0. apply pow2_lt. lia. }
  unfold is_double. rewrite round64_nonneg by lra.
  assert (Hb : binade (1 + pow2 (-52)) = 0%Z).
  { apply binade_eq. rewrite Rabs_pos_eq by lra.
    rewrite pow2_0. change (0 + 1)%Z with 1%Z. rewrite pow2_1. lra. }
  apply (round_magnitude_exact _ (2 ^ 52 + 1)).
  - split; [ lra | ]. apply Rlt_trans with (pow2 1).
    + rewrite pow2_1. lra.
    + apply pow2_lt. lia.
  - unfold ulp_exponent. rewrite Hb, Z.max_l by lia.
    change (0 - 52)%Z with (-52)%Z.
    rewrite plus_IZR, Rmult_plus_distr_r, Hone. ring.
Qed.

End Rounding.

(* ================================================================== *)
(** ** Magnitudes *)

Lemma pow10_100_ge_1000 : (1000 <= 10 ^ 100)%R.
Proof.
  replace 1000%R with (10 ^ 3)%R by ring.
  apply Rle_pow; [ lra | lia ].
Qed.

Lemma no_overflow_small (v : R) : (Rabs v <= 1000)%R -> no_overflow v.
Proof.
  intros H. unfold no_overflow. pose proof pow10_100_ge_1000. lra.
Qed.

Lemma no_underflow_large (v : R) : (/ 1000 <= Rabs v)%R -> no_underflow v.
Proof.
  intros H. unfold no_underflow. pose proof pow10_100_ge_1000 as H10.
  apply Rle_trans with (/ 1000)%R; [ | exact H ].
  apply Rinv_le_contravar; lra.
Qed.

Lemma no_underflow_nonzero (v : R) : no_underflow v -> v <> 0%R.
Proof.
  unfold no_underflow. intros H E. subst v. rewrite Rabs_R0 in H.
  assert (0 < / 10 ^ 100)%R by (apply Rinv_0_lt_compat, pow_lt; lra).
  lra.
Qed.

(** Closes [no_overflow v] and [no_underflow v] for a numeral [v]. *)
Ltac magnitude :=
  first [ apply no_overflow_small | apply no_underflow_large ];
  unfold Rabs; destruct (Rcase_abs _); lra.

(** The same for the rows of an array. *)
Ltac magnitudes :=
  repeat first [ apply Forall_nil | apply Forall_cons ]; magnitude.

(* ================================================================== *)
(** ** Arithmetic on finite numbers *)

Lemma add_fin (x y : R) : (Fin x + Fin y)%num = Fin (x + y).
Proof. reflexivity. Qed.

Lemma sub_fin (x y : R) : (Fin x - Fin y)%num = Fin (x - y).
Proof. reflexivity. Qed.

Lemma mul_fin (x y : R) : (Fin x * Fin y)%num = Fin (x * y).
Proof. reflexivity. Qed.

Lemma div_fin (x y : R) : y <> 0%R -> (Fin x / Fin y)%num = Fin (x / y).
Proof. intros H. unfold Num.div. now rewrite Reqb_false. Qed.

Lemma log_fin (x : R) : (0 < x)%R -> Num.log (Fin x) = Fin (ln x).
Proof.
  intros H. unfold Num.log.
  rewrite Rltb_false by lra. rewrite Reqb_false by lra. reflexivity.
Qed.

Lemma log_zero : Num.log (Fin 0) = NInf.
Proof.
  unfold Num.log. rewrite Rltb_false by lra. now rewrite Reqb_true.
Qed.

Lemma sqrt_fin (x : R) : (0 <= x)%R -> Num.sqrt (Fin x) = Fin (sqrt x).
Proof. intros H. unfold Num.sqrt. now rewrite Rltb_false. Qed.

Lemma pow_half_fin (x : R) :
  (0 <= x)%R -> Num.pow_half (Fin x) = Fin (sqrt x).
Proof. intros H. unfold Num.pow_half. now apply sqrt_fin. Qed.

Lemma arccos_fin (x : R) :
  (-1 <= x <= 1)%R -> Num.arccos (Fin x) = Fin (acos x).
Proof.
  intros [H1 H2]. unfold Num.arccos. now rewrite !Rleb_true.
Qed.

Lemma lt_fin (x y : R) : Num.lt (Fin x) (Fin y) = Rltb x y.
Proof. reflexivity. Qed.

Lemma le_fin (x y : R) : Num.le (Fin x) (Fin y) = Rleb x y.
Proof. reflexivity. Qed.

Lemma gt_fin (x y : R) : Num.gt (Fin x) (Fin y) = Rltb y x.
Proof. reflexivity. Qed.

(* ================================================================== *)
(** ** Lists and arrays *)

Lemma map_seq_nth (A : Type) (d : A) (l : list A) :
  map (fun j => nth j l d) (seq 0 (length l)) = l.
Proof.
  apply nth_ext with (d := d) (d' := d).
  - now rewrite length_map, length_seq.
  - intros i Hi. rewrite length_map, length_seq in Hi.
    rewrite (nth_indep _ d (nth 0 l d)) by now rewrite length_map, length_seq.
    rewrite (map_nth (fun j => nth j l d) (seq 0 (length l)) 0 i).
    now rewrite seq_nth.
Qed.

Lemma set_nth_pointwise (A : Type) (d : A) (dim : nat) (v : A) (l : list A) :
  Np.set_nth dim v l
  = map (fun i => if i =? dim then v else nth i l d) (seq 0 (length l)).
Proof.
  revert dim. induction l as [|a l IH]; intros dim; [ now destruct dim | ].
  cbn [length seq map]. rewrite <- seq_shift, map_map.
  destruct dim as [|dim]; cbn [Np.set_nth nth Nat.eqb]; f_equal.
  - symmetry. apply map_seq_nth.
  - apply IH.
Qed.

Lemma broadcast_to_spec (n : nat) (v : list num) :
  length v = n \/ length v = 1 ->
  Np.broadcast_to n v
  = Ok (map (fun j => nth (if length v =? n then j else 0) v NaN) (seq 0 n)).
Proof.
  intros H. unfold Np.broadcast_to.
  destruct (length v =? n) eqn:E.
  - apply Nat.eqb_eq in E. subst n. now rewrite map_seq_nth.
  - destruct H as [H|H]; [ apply Nat.eqb_neq in E; contradiction | ].
    destruct v as [|a [|b t]]; try discriminate. simpl.
    now rewrite map_const, length_seq.
Qed.

Lemma transpose_repeat (n k : nat) (w : list num) :
  Np.transpose (mk_nd n (repeat w k))
  = mk_nd k (map (fun j => repeat (nth j w NaN) k) (seq 0 n)).
Proof.
  unfold Np.transpose, shape0. simpl. rewrite repeat_length. f_equal.
  apply map_ext. intros j. now rewrite map_repeat.
Qed.

Lemma nth_map_seq (A : Type) (f : nat -> A) (n j : nat) (d : A) :
  j < n -> nth j (map f (seq 0 n)) d = f j.
Proof.
  intros Hj. rewrite (nth_indep _ d (f 0)) by now rewrite length_map, length_seq.
  rewrite (map_nth f (seq 0 n) 0 j). now rewrite seq_nth.
Qed.

Lemma map_seq_const (A : Type) (f : nat -> A) (c : A) (n : nat) :
  (forall j, j < n -> f j = c) -> map f (seq 0 n) = repeat c n.
Proof.
  intros H. transitivity (map (fun _ => c) (seq 0 n)).
  - apply map_ext_in. intros j Hj. apply in_seq in Hj. apply H. lia.
  - now rewrite map_const, length_seq.
Qed.

Lemma nth_map_lt (A B : Type) (g : A -> B) (l : list A) (i : nat) (d : B)
    (d' : A) :
  i < length l -> nth i (map g l) d = g (nth i l d').
Proof.
  intros Hi. rewrite (nth_indep _ d (g d')) by now rewrite length_map.
  apply map_nth.
Qed.

Lemma nth_fin (l : list R) (i : nat) :
  i < length l -> nth i (map Fin l) NaN = Fin (nth i l 0%R).
Proof. intros Hi. now apply nth_map_lt. Qed.

Lemma param_at_lt n (ps : list (num * num)) j :
  length ps = n \/ length ps = 1 -> j < n ->
  (if length ps =? n then j else 0) < length ps.
Proof.
  intros Hlen Hj. destruct (length ps =? n) eqn:E.
  - apply Nat.eqb_eq in E. lia.
  - destruct Hlen; [ apply Nat.eqb_neq in E | ]; lia.
Qed.

Lemma parse_parameters_rows self n parameters ps k' :
  Np.reshape_pairs parameters = Ok ps ->
  _latent_dim self = S k' ->
  length ps = n \/ length ps = 1 ->
  _parse_parameters self n parameters
  = Ok (mk_nd (S k')
          (map (fun j => repeat (Fin 0.5 * Num.pi)%num k'
                         ++ [phase_of self (param_at n ps j)]) (seq 0 n)),
        mk_nd (S k')
          (map (fun j => repeat (width_of self (param_at n ps j)) (S k'))
               (seq 0 n))).
Proof.
  intros Hps Hk Hlen. unfold _parse_parameters. rewrite Hps, Hk. cbn [bind].
  rewrite !broadcast_to_spec by now rewrite length_map.
  cbn [bind]. rewrite transpose_repeat. rewrite !length_map.
  f_equal. f_equal.
  - unfold Np.transpose, shape0. simpl rows. simpl shape1.
    rewrite length_app, repeat_length. simpl length.
    replace (k' + 1) with (S k') by lia. f_equal.
    apply map_ext_in. intros j Hj. apply in_seq in Hj.
    rewrite map_app, map_repeat. simpl map. f_equal.
    + f_equal. apply nth_repeat_lt. lia.
    + f_equal. rewrite nth_map_seq by lia.
      apply nth_map_lt. apply param_at_lt; [ assumption | lia ].
  - f_equal. apply map_ext_in. intros j Hj. apply in_seq in Hj.
    f_equal. rewrite nth_map_seq by lia.
    apply nth_map_lt. apply param_at_lt; [ assumption | lia ].
Qed.

(* ================================================================== *)
(** ** The constructor *)

Lemma assert_Ok (c : bool) (u : unit) : assert c = Ok u -> c = true.
Proof. destruct c; [ reflexivity | discriminate ]. Qed.

(** What a successful construction guarantees. *)
Lemma init_inv latent_dim data_dim min_width max_width epsilon self :
  __init__ latent_dim data_dim min_width max_width epsilon = Ok self ->
  self = mk_sim latent_dim data_dim (Fin (0.5 * PI)) (Fin (1.5 * PI))
                min_width max_width epsilon
  /\ latent_dim < data_dim
  /\ Num.gt epsilon (Fin 0) = true
  /\ exists minw maxw : R,
      min_width = Fin minw /\ max_width = Fin maxw
      /\ (0 < minw < maxw)%R /\ (maxw <= 2 * PI)%R.
Proof.
  unfold __init__. intros H.
  destruct (latent_dim <? data_dim) eqn:E1; [ | discriminate ].
  destruct (Num.gt epsilon (Fin 0)) eqn:E2; [ | discriminate ].
  cbn [assert bind] in H.
  destruct (_ && _) eqn:E3; [ | discriminate ].
  cbn [assert bind] in H. injection H as <-.
  apply Nat.ltb_lt in E1.
  apply andb_prop in E3 as [E3 E5]. apply andb_prop in E3 as [E3 E4].
  repeat split; auto.
  destruct min_width as [minw| | |]; try discriminate;
    destruct max_width as [maxw| | |]; try discriminate.
  exists minw, maxw. cbn in E3, E4, E5.
  apply Rltb_spec in E3, E4. apply Rleb_spec in E5.
  repeat split; auto.
Qed.

Lemma init_default_2_3 :
  __init__ 2 3 default_min_width default_max_width default_epsilon
  = Ok (mk_sim 2 3 (Fin (0.5 * PI)) (Fin (1.5 * PI))
               (Fin (0.1 * PI)) (Fin (0.4 * PI)) (Fin 0.01)).
Proof.
  pose proof PI_RGT_0 as Hpi.
  unfold __init__, default_min_width, default_max_width, default_epsilon.
  cbn. rewrite !Rltb_true by lra. rewrite Rleb_true by lra. reflexivity.
Qed.

(* ================================================================== *)
(** ** Parameters *)

(** C8: a parameter vector [(t0, t1)] gives every latent dimension the
    width [min_width + (0.5 + 0.5 t0) (max_width - min_width)], every
    latent dimension but the last the phase [pi / 2], and the last one
    the phase [pi / 2 + (0.5 + 0.5 t1) (3 pi / 2 - pi / 2)], for each of
    the [n] samples.  Nothing here needs the vector to lie in the unit
    box. *)
Theorem C8_parse_parameters :
  forall latent_dim data_dim min_width max_width epsilon self (t0 t1 : R) n,
    __init__ latent_dim data_dim min_width max_width epsilon = Ok self ->
    1 <= latent_dim ->
    exists minw maxw : R,
      min_width = Fin minw /\ max_width = Fin maxw /\
      _parse_parameters self n [Fin t0; Fin t1]
      = Ok (mk_nd latent_dim
              (repeat (repeat (Fin (PI / 2)) (latent_dim - 1)
                       ++ [Fin (PI / 2
                                + (0.5 + 0.5 * t1) * (3 * PI / 2 - PI / 2))])
                      n),
            mk_nd latent_dim
              (repeat (repeat (Fin (minw + (0.5 + 0.5 * t0) * (maxw - minw)))
                              latent_dim)
                      n)).
Proof.
  intros k d min_width max_width epsilon self t0 t1 n Hinit Hk.
  apply init_inv in Hinit as (-> & _ & _ & minw & maxw & -> & -> & _ & _).
  exists minw, maxw. repeat split.
  destruct k as [|k']; [ lia | ].
  rewrite (@parse_parameters_rows _ n _ [(Fin t0, Fin t1)] k');
    [ | reflexivity | reflexivity | now right ].
  replace (S k' - 1) with k' by lia.
  assert (Hp : forall j, j < n -> param_at n [(Fin t0, Fin t1)] j
                                  = (Fin t0, Fin t1)).
  { intros j Hj. unfold param_at. simpl length.
    destruct (1 =? n) eqn:E; [ | reflexivity ].
    apply Nat.eqb_eq in E. now replace j with 0 by lia. }
  f_equal. f_equal.
  - f_equal. apply map_seq_const. intros j Hj.
    rewrite Hp by lia. cbn. f_equal.
    + f_equal. f_equal. lra.
    + f_equal. f_equal. lra.
  - f_equal. apply map_seq_const. intros j Hj.
    rewrite Hp by lia. reflexivity.
Qed.

Lemma C8_parse_parameters_witness :
  exists minw maxw : R,
    default_min_width = Fin minw /\ default_max_width = Fin maxw /\
    _parse_parameters
      (mk_sim 2 3 (Fin (0.5 * PI)) (Fin (1.5 * PI))
              (Fin (0.1 * PI)) (Fin (0.4 * PI)) (Fin 0.01))
      1 [Fin 0; Fin 0]
    = Ok (mk_nd 2
            (repeat (repeat (Fin (PI / 2)) (2 - 1)
                     ++ [Fin (PI / 2
                              + (0.5 + 0.5 * 0) * (3 * PI / 2 - PI / 2))])
                    1),
          mk_nd 2
            (repeat (repeat (Fin (minw + (0.5 + 0.5 * 0) * (maxw - minw)))
                            2)
                    1)).
Proof.
  apply (@C8_parse_parameters 2 3 default_min_width default_max_width
           default_epsilon _ 0%R 0%R 1).
  - exact init_default_2_3.
  - lia.
Defined.

(* ================================================================== *)
(** ** The prior *)

Lemma ln_half : ln 0.5 = (- ln 2)%R.
Proof.
  replace 0.5%R with (/ 2)%R by lra. apply ln_Rinv. lra.
Qed.

Lemma ln_4 : ln 4 = (2 * ln 2)%R.
Proof.
  replace 4%R with (2 * 2)%R by lra. rewrite ln_mult by lra. lra.
Qed.

Section Prior.

Import Binary64.
Local Open Scope R_scope.

(** The standardised value of a number that is rounded into the
    support. *)
Lemma standardised_inside (t : R) :
  -1 <= t <= 1 + pow2 (-52) ->
  exists y,
    to_double (to_double (Fin t - Fin (-1)) / Fin 2)%num = Fin y
    /\ 0 <= y <= 1.
Proof.
  intros [H1 H2]. pose proof (pow2_pos (-52)) as He.
  rewrite sub_fin. cbn [to_double]. rewrite round64_nonneg by lra.
  assert (Hs : exists v, round_magnitude (t - -1) = Fin v /\ 0 <= v <= 2).
  { destruct (Rle_lt_dec (t - -1) 2) as [Hle|Hgt].
    - destruct (round_magnitude_le (t - -1) 1) as (v & Hv & Hr);
        [ rewrite pow2_1; lra | lia | ].
      exists v. rewrite pow2_1 in Hr. now split.
    - exists 2. rewrite (round_magnitude_down _ 1).
      + rewrite pow2_1. split; [ reflexivity | lra ].
      + rewrite pow2_1. change (1 - 53)%Z with (-52)%Z. lra.
      + lia. }
  destruct Hs as (v & Hv & Hr). rewrite Hv, div_fin by lra.
  cbn [to_double]. rewrite round64_nonneg by lra.
  destruct (round_magnitude_le (v / 2) 0) as (w & Hw & Hwr);
    [ rewrite pow2_0; lra | lia | ].
  exists w. rewrite pow2_0 in Hwr. now split.
Qed.

(** Below the double that precedes [-1] the standardised value is
    negative. *)
Lemma standardised_below (t : R) :
  t <= -1 - pow2 (-52) ->
  to_double (to_double (Fin t - Fin (-1)) / Fin 2)%num = NInf
  \/ exists y,
       to_double (to_double (Fin t - Fin (-1)) / Fin 2)%num = Fin y
       /\ y < 0.
Proof.
  intros H. pose proof (pow2_pos (-52)) as He.
  pose proof (pow2_pos (-53)) as He'.
  assert (Hhalf : pow2 (-52) = 2 * pow2 (-53))
    by (now rewrite <- pow2_succ).
  rewrite sub_fin. cbn [to_double]. rewrite round64_neg by lra.
  destruct (round_magnitude_ge (- (t - -1)) (-52)) as [Hinf|(v & Hv & Hr)];
    [ lra | lia | | ].
  - left. rewrite Hinf. cbn [Num.neg Num.div].
    now rewrite Rltb_false by lra.
  - rewrite Hv. cbn [Num.neg]. rewrite div_fin by lra.
    cbn [to_double]. rewrite round64_neg by lra.
    destruct (round_magnitude_ge (- (- v / 2)) (-53))
      as [Hinf|(w & Hw & Hwr)]; [ lra | lia | | ].
    + left. now rewrite Hinf.
    + right. rewrite Hw. exists (- w). split; [ reflexivity | lra ].
Qed.

(** From the second double after 1 on it exceeds 1. *)
Lemma standardised_above (t : R) :
  1 + pow2 (-51) <= t ->
  to_double (to_double (Fin t - Fin (-1)) / Fin 2)%num = PInf
  \/ exists y,
       to_double (to_double (Fin t - Fin (-1)) / Fin 2)%num = Fin y
       /\ 1 < y.
Proof.
  intros H. pose proof (pow2_pos (-52)) as He.
  pose proof (pow2_pos (-51)) as He'.
  assert (Hhalf : pow2 (-51) = 2 * pow2 (-52))
    by (now rewrite <- pow2_succ).
  rewrite sub_fin. cbn [to_double]. rewrite round64_nonneg by lra.
  destruct (round_magnitude_ge_next (t - -1) 1) as [Hinf|(v & Hv & Hr)];
    [ rewrite pow2_1; change (1 - 52)%Z with (-51)%Z; lra | lia | | ].
  - left. rewrite Hinf. cbn [Num.div].
    now rewrite Rltb_false by lra.
  - rewrite pow2_1 in Hr. change (1 - 52)%Z with (-51)%Z in Hr.
    rewrite Hv, div_fin by lra.
    cbn [to_double]. rewrite round64_nonneg by lra.
    destruct (round_magnitude_ge_next (v / 2) 0)
      as [Hinf|(w & Hw & Hwr)];
      [ rewrite pow2_0; change (0 - 52)%Z with (-52)%Z; lra | lia | | ].
    + left. exact Hinf.
    + right. rewrite pow2_0 in Hwr. change (0 - 52)%Z with (-52)%Z in Hwr.
      exists w. split; [ exact Hw | lra ].
Qed.

(** [uniform.logpdf(t, loc=-1, scale=2)] at a real [t]. *)
Lemma uniform_logpdf_inside (t : R) :
  -1 <= t <= 1 + pow2 (-52) ->
  Stats.uniform_logpdf (Fin (-1)) (Fin 2) (Fin t) = Fin (ln 0.5).
Proof.
  intros H. unfold Stats.uniform_logpdf.
  destruct (standardised_inside t H) as (y & Hy & Hr).
  cbv zeta. rewrite Hy, gt_fin, Rltb_true by lra.
  cbn [negb orb Num.is_nan]. rewrite !le_fin, !Rleb_true by lra.
  cbn [andb]. rewrite !log_fin by lra.
  rewrite sub_fin, ln_1, ln_half. f_equal. lra.
Qed.

Lemma uniform_logpdf_outside (t : R) :
  t <= -1 - pow2 (-52) \/ 1 + pow2 (-51) <= t ->
  Stats.uniform_logpdf (Fin (-1)) (Fin 2) (Fin t) = NInf.
Proof.
  intros H. unfold Stats.uniform_logpdf. cbv zeta.
  rewrite gt_fin, Rltb_true by lra.
  destruct H as [H|H].
  - destruct (standardised_below t H) as [Hy|(y & Hy & Hr)]; rewrite Hy.
    + reflexivity.
    + cbn [negb orb Num.is_nan]. rewrite le_fin, Rleb_false by lra.
      reflexivity.
  - destruct (standardised_above t H) as [Hy|(y & Hy & Hr)]; rewrite Hy.
    + reflexivity.
    + cbn [negb orb Num.is_nan]. rewrite !le_fin.
      rewrite (@Rleb_false y 1) by lra. now rewrite andb_false_r.
Qed.

Lemma in_rounded_support_spec (t : R) :
  in_rounded_support t = true <-> -1 <= t <= 1 + pow2 (-52).
Proof.
  unfold in_rounded_support. rewrite andb_true_iff. split.
  - intros [H1 H2]. apply Rleb_spec in H1, H2. lra.
  - intros [H1 H2]. now rewrite !Rleb_true.
Qed.

(** The same at a double: no double falls between the two cases. *)
Lemma uniform_logpdf_double (t : R) :
  is_double t ->
  Stats.uniform_logpdf (Fin (-1)) (Fin 2) (Fin t)
  = if in_rounded_support t then Fin (ln 0.5) else NInf.
Proof.
  intros Hd. destruct (in_rounded_support t) eqn:E.
  - apply uniform_logpdf_inside. now apply in_rounded_support_spec.
  - apply uniform_logpdf_outside.
    destruct (Rlt_le_dec t (-1)) as [H1|H1].
    + left. now apply double_below.
    + right. apply double_above; [ assumption | ].
      destruct (Rle_lt_dec t (1 + pow2 (-52))) as [H2|H2]; [ | exact H2 ].
      assert (in_rounded_support t = true)
        by (apply in_rounded_support_spec; lra).
      congruence.
Qed.

Lemma is_double_2 : is_double 2.
Proof.
  unfold is_double. rewrite round64_nonneg by lra.
  rewrite <- pow2_1. apply round_magnitude_down; [ | lia ].
  pose proof (pow2_pos (1 - 53)). lra.
Qed.

(** The sum over the two components. *)
Lemma log_prior_pair (b0 b1 : bool) :
  Num.sum [ if b0 then Fin (ln 0.5) else NInf;
            if b1 then Fin (ln 0.5) else NInf ]
  = if b0 && b1 then Fin (2 * ln 0.5) else NInf.
Proof.
  destruct b0, b1; cbn; try reflexivity. f_equal. lra.
Qed.

End Prior.

(** C6, as the code has it.  For a parameter vector [(t0, t1)] of real
    numbers that both lie in [-1, 1] the log-prior is [2 log 0.5], which
    is [- log 4].  For a vector of doubles it is [- log 4] if both
    components lie between [-1] and [1 + 2^-52], the double that
    follows 1, and minus infinity as soon as one does not: scipy tests
    the support on [(t + 1) / 2] as binary64 holds it, and
    [(1 + 2^-52) + 1] is rounded to 2. *)
Theorem C6_evaluate_log_prior :
  forall (self : Simulator) (t0 t1 : R),
    ((-1 <= t0 <= 1)%R -> (-1 <= t1 <= 1)%R ->
     evaluate_log_prior self [Fin t0; Fin t1] = Ok [Fin (2 * ln 0.5)]
     /\ spec_log_prior t0 t1 = Fin (2 * ln 0.5))
    /\ (Binary64.is_double t0 -> Binary64.is_double t1 ->
        evaluate_log_prior self [Fin t0; Fin t1]
        = Ok [if in_rounded_support t0 && in_rounded_support t1
              then Fin (2 * ln 0.5) else NInf])
    /\ (2 * ln 0.5 = - ln 4)%R.
Proof.
  intros self t0 t1. split; [ | split ].
  - intros H0 H1. pose proof (pow2_pos (-52)) as He. split.
    + unfold evaluate_log_prior. cbn [Np.reshape_pairs bind Np.sum1 rows map
                                      fst snd].
      rewrite !uniform_logpdf_inside by lra.
      now rewrite (log_prior_pair true true).
    + unfold spec_log_prior, spec_uniform_log_density, in_unit_interval.
      rewrite !Rleb_true by lra. cbn. f_equal. lra.
  - intros H0 H1. unfold evaluate_log_prior.
    cbn [Np.reshape_pairs bind Np.sum1 rows map fst snd].
    rewrite !uniform_logpdf_double by assumption.
    now rewrite log_prior_pair.
  - rewrite ln_half, ln_4. lra.
Qed.

Lemma C6_evaluate_log_prior_witness :
  (evaluate_log_prior sim_2_3 [Fin 0; Fin 1] = Ok [Fin (2 * ln 0.5)]
   /\ spec_log_prior 0 1 = Fin (2 * ln 0.5))
  /\ evaluate_log_prior sim_2_3 [Fin 0; Fin 2]
     = Ok [if in_rounded_support 0 && in_rounded_support 2
           then Fin (2 * ln 0.5) else NInf].
Proof.
  split.
  - apply (proj1 (C6_evaluate_log_prior sim_2_3 0 1)); lra.
  - apply (proj1 (proj2 (C6_evaluate_log_prior sim_2_3 0 2))).
    + exact is_double_0.
    + exact is_double_2.
Defined.

(** C6 fails as stated: [1 + 2^-52] is a double outside of [-1, 1],
    and the log-prior of [(1 + 2^-52, 0)] is [- log 4], not minus
    infinity. *)
Lemma C6_counterexample :
  Binary64.is_double (1 + Binary64.pow2 (-52))
  /\ (1 < 1 + Binary64.pow2 (-52))%R
  /\ spec_log_prior (1 + Binary64.pow2 (-52)) 0 = NInf
  /\ evaluate_log_prior sim_2_3 [Fin (1 + Binary64.pow2 (-52)); Fin 0]
     = Ok [Fin (- ln 4)]
  /\ evaluate_log_prior sim_2_3 [Fin (1 + Binary64.pow2 (-52)); Fin 0]
     <> Ok [spec_log_prior (1 + Binary64.pow2 (-52)) 0].
Proof.
  pose proof (pow2_pos (-52)) as He.
  assert (Hspec : spec_log_prior (1 + Binary64.pow2 (-52)) 0 = NInf).
  { unfold spec_log_prior, spec_uniform_log_density, in_unit_interval.
    rewrite (@Rleb_false (1 + Binary64.pow2 (-52)) 1) by lra.
    rewrite andb_false_r. now destruct (_ && _). }
  assert (Hcode : evaluate_log_prior sim_2_3
                    [Fin (1 + Binary64.pow2 (-52)); Fin 0]
                  = Ok [Fin (- ln 4)]).
  { unfold evaluate_log_prior.
    cbn [Np.reshape_pairs bind Np.sum1 rows map fst snd].
    rewrite !uniform_logpdf_inside by lra.
    rewrite (log_prior_pair true true). cbn [andb].
    do 3 f_equal. rewrite ln_half, ln_4. lra. }
  split; [ exact is_double_next_one | ]. split; [ lra | ].
  split; [ exact Hspec | ]. split; [ exact Hcode | ].
  rewrite Hcode, Hspec. discriminate.
Qed.

(* ================================================================== *)
(** ** Reshaping *)

Lemma length_chunks (A : Type) (n c : nat) (l : list A) :
  length (Np.chunks n c l) = n.
Proof.
  revert l. induction n as [|n IH]; intros l; simpl; [ | rewrite IH ];
    reflexivity.
Qed.

Lemma chunks_wf (A : Type) (n c : nat) (l : list A) :
  length l = n * c -> Forall (fun r => length r = c) (Np.chunks n c l).
Proof.
  revert l. induction n as [|n IH]; intros l Hl; simpl; constructor.
  - rewrite length_firstn. simpl in Hl. lia.
  - apply IH. rewrite length_skipn. simpl in Hl. lia.
Qed.

Lemma concat_chunks (A : Type) (n c : nat) (l : list A) :
  length l = n * c -> concat (Np.chunks n c l) = l.
Proof.
  revert l. induction n as [|n IH]; intros l Hl; simpl.
  - destruct l; [ reflexivity | discriminate ].
  - rewrite IH.
    + apply firstn_skipn.
    + rewrite length_skipn. simpl in Hl. lia.
Qed.

Lemma chunks_concat (A : Type) (c : nat) (rs : list (list A)) :
  Forall (fun r => length r = c) rs ->
  Np.chunks (length rs) c (concat rs) = rs.
Proof.
  induction 1 as [|r rs Hr _ IH]; simpl; [ reflexivity | ].
  rewrite firstn_app, skipn_app, Hr, Nat.sub_diag.
  rewrite firstn_all2, skipn_all2 by lia.
  simpl. rewrite app_nil_r. now f_equal.
Qed.

Lemma in_chunks (A : Type) (n c : nat) (l r : list A) (v : A) :
  In r (Np.chunks n c l) -> In v r -> In v l.
Proof.
  revert l. induction n as [|n IH]; intros l; simpl; [ tauto | ].
  intros [<-|Hr] Hv.
  - rewrite <- (firstn_skipn c l). apply in_or_app. now left.
  - rewrite <- (firstn_skipn c l). apply in_or_app. right. now apply IH.
Qed.

(* ================================================================== *)
(** ** Sampling from the prior *)

(** C7: [sample_from_prior n] returns an array of [n] rows of 2 entries.
    Entry number [i] of the array, read row after row, is [-1 + 2 u] for
    the [i]-th deviate [u] of the generator, which is uniform on [0, 1):
    every entry has a deviate of its own and lies in [-1, 1].  The
    generator is left [2 n] deviates further. *)
Theorem C7_sample_from_prior :
  forall (self : Simulator) (n : nat) (st : RandomState),
    (forall i, 0 <= double st i < 1)%R ->
    exists x st',
      sample_from_prior self n st = (Ok x, st')
      /\ shape0 x = n /\ shape1 x = 2 /\ wf_nd x
      /\ Np.flatten x
         = map (fun i => Fin (-1 + 2 * double st i)) (seq 0 (n * 2))
      /\ (forall r v, In r (rows x) -> In v r ->
                      exists t, v = Fin t /\ (-1 <= t <= 1)%R)
      /\ (forall i, double st' i = double st (n * 2 + i))
      /\ (forall i, gauss st' i = gauss st i).
Proof.
  intros self n st Hu.
  unfold sample_from_prior, Stats.uniform_rvs, parameter_dim.
  rewrite le_fin, Rleb_true by lra.
  eexists. eexists. split; [ reflexivity | ].
  assert (Hlen : length (map (fun i => (Fin (double st i) * Fin 2
                                        + Fin (-1))%num) (seq 0 (n * 2)))
                 = n * 2) by now rewrite length_map, length_seq.
  repeat split.
  - apply length_chunks.
  - apply chunks_wf. exact Hlen.
  - unfold Np.flatten, Np.reshape. cbn [rows].
    rewrite concat_chunks by exact Hlen.
    apply map_ext. intros i. rewrite mul_fin, add_fin. f_equal. lra.
  - intros r v Hr Hv. cbn [rows Np.reshape] in Hr.
    pose proof (in_chunks _ _ _ _ _ _ Hr Hv) as Hin.
    apply in_map_iff in Hin as (i & <- & _).
    rewrite mul_fin, add_fin. eexists. split; [ reflexivity | ].
    specialize (Hu i). lra.
Qed.

Lemma C7_sample_from_prior_witness :
  exists x st',
    sample_from_prior (mk_sim 2 3 (Fin (0.5 * PI)) (Fin (1.5 * PI))
                              (Fin (0.1 * PI)) (Fin (0.4 * PI)) (Fin 0.01))
                      3 (mk_rs (fun _ => 0%R) (fun _ => 0.25%R))
    = (Ok x, st')
    /\ shape0 x = 3 /\ shape1 x = 2 /\ wf_nd x
    /\ Np.flatten x = map (fun i => Fin (-1 + 2 * 0.25)) (seq 0 (3 * 2))
    /\ (forall r v, In r (rows x) -> In v r ->
                    exists t, v = Fin t /\ (-1 <= t <= 1)%R)
    /\ (forall i, double st' i = 0.25%R)
    /\ (forall i, gauss st' i = 0%R).
Proof.
  apply (@C7_sample_from_prior
           (mk_sim 2 3 (Fin (0.5 * PI)) (Fin (1.5 * PI))
                   (Fin (0.1 * PI)) (Fin (0.4 * PI)) (Fin 0.01))
           3 (mk_rs (fun _ => 0%R) (fun _ => 0.25%R))).
  intros i. simpl. lra.
Defined.

(* ================================================================== *)
(** ** The roll of the cosines *)

Lemma length_zip_with (A B C : Type) (f : A -> B -> C) l m :
  length (Np.zip_with f l m) = Nat.min (length l) (length m).
Proof.
  revert m. induction l as [|a l IH]; intros [|b m]; simpl; auto.
Qed.

Lemma snoc_shift (A : Type) (c0 : A) (ts : list (list A)) :
  concat (map (cons c0) ts) ++ [c0]
  = c0 :: concat (map (fun t => t ++ [c0]) ts).
Proof.
  induction ts as [|t ts IH]; simpl; [ reflexivity | ].
  rewrite <- !app_assoc, IH. reflexivity.
Qed.

(** Rolling the flattened array by one place moves the head of each row
    to the end of the row before it. *)
Lemma roll_left_concat (A : Type) (c0 : A) (ts : list (list A)) :
  Np.roll_left (concat (map (cons c0) ts))
  = concat (map (fun t => t ++ [c0]) ts).
Proof.
  destruct ts as [|t ts]; simpl; [ reflexivity | ].
  rewrite <- !app_assoc, snoc_shift. reflexivity.
Qed.

(** All rows start with the same entry, so every row gets its own
    entries, rotated. *)
Lemma roll_m1_rows (c0 : num) (c : nat) (ts : list (list num)) :
  Forall (fun t => length t = c) ts ->
  Np.roll_m1 (mk_nd (1 + c) (map (cons c0) ts))
  = mk_nd (1 + c) (map (fun t => t ++ [c0]) ts).
Proof.
  intros Hwf. unfold Np.roll_m1, Np.reshape, Np.flatten, shape0.
  cbn [rows shape1]. rewrite roll_left_concat. f_equal.
  rewrite length_map, <- (length_map (fun t => t ++ [c0]) ts).
  apply chunks_concat. apply Forall_map.
  eapply Forall_impl; [ | exact Hwf ].
  intros t Ht. cbv beta in Ht. rewrite length_app. simpl. lia.
Qed.

Lemma forward_rows_zip (c2 : nat) (ps es : list (list num)) :
  Np.zip_with (@app num)
    (Np.zip_with (fun row ri => map (fun v => (v * ri)%num) row)
       (Np.zip_with (Np.zip_with Num.mul)
          (map sins_row (map (cons ones_2pi) ps))
          (map (fun t => t ++ [Num.cos ones_2pi]) (map (map Num.cos) ps)))
       (map (fun e => (Fin 1 + e)%num) (map (fun r => nth 0 r NaN) es)))
    (map (Np.slice 1 c2) es)
  = Np.zip_with (forward_row c2) ps es.
Proof.
  revert es. induction ps as [|p ps IH]; intros [|e es]; try reflexivity.
  cbn [map Np.zip_with]. rewrite IH. reflexivity.
Qed.

(** The batched forward map, row by row. *)
Lemma transform_z_to_x_rows (z_phi z_eps : ndarray) :
  wf_nd z_phi -> shape0 z_phi = shape0 z_eps -> 1 <= shape1 z_eps ->
  _transform_z_to_x z_phi z_eps
  = Ok (mk_nd (1 + shape1 z_phi + (shape1 z_eps - 1))
          (Np.zip_with (forward_row (shape1 z_eps))
                       (rows z_phi) (rows z_eps))).
Proof.
  intros Hwf Hn Hc. unfold _transform_z_to_x, Np.col.
  destruct (Nat.ltb_spec 0 (shape1 z_eps)) as [_|]; [ | lia ].
  cbn [bind shape1 rows]. unfold Np.map1. cbn [shape1 rows].
  replace (map (map Num.cos) (map (cons ones_2pi) (rows z_phi)))
    with (map (cons (Num.cos ones_2pi)) (map (map Num.cos) (rows z_phi)))
    by now rewrite !map_map.
  rewrite roll_m1_rows.
  2:{ apply Forall_map. eapply Forall_impl; [ | exact Hwf ].
      intros t Ht. cbv beta in Ht. now rewrite length_map. }
  unfold Np.map2, Np.same_shape, shape0 in *. cbn [shape1 rows].
  rewrite !length_map, !Nat.eqb_refl. cbn [andb bind shape1 rows].
  rewrite !length_zip_with, !length_map, Nat.min_id, Hn, Nat.eqb_refl.
  cbn [bind]. unfold Np.concatenate1, shape0. cbn [shape1 rows].
  rewrite !length_zip_with, !length_map, Hn, !Nat.min_id, Nat.eqb_refl.
  now rewrite forward_rows_zip.
Qed.

(** C4: the batched forward map has no dependency across samples.  For
    a batch of [n] rows of angles and [n] rows of noise, it succeeds and
    its rows are those that the forward map returns for each sample
    taken alone: rolling the whole array of cosines only ever brings
    the cosine of [2 pi] of the next row, which is 1, into a row. *)
Theorem C4_batch_is_rowwise :
  forall (z_phi z_eps : ndarray),
    wf_nd z_phi -> shape0 z_phi = shape0 z_eps -> 1 <= shape1 z_eps ->
    exists x,
      _transform_z_to_x z_phi z_eps = Ok x
      /\ shape0 x = shape0 z_phi
      /\ transform_each z_phi z_eps
         = map (fun r => Ok (mk_nd (shape1 x) [r])) (rows x)
      /\ Np.roll_m1 (Np.map1 Num.cos
                       (mk_nd (1 + shape1 z_phi)
                              (map (cons ones_2pi) (rows z_phi))))
         = mk_nd (1 + shape1 z_phi)
                 (map (fun r => map Num.cos r ++ [Fin 1]) (rows z_phi)).
Proof.
  intros z_phi z_eps Hwf Hn Hc.
  rewrite transform_z_to_x_rows by assumption.
  eexists. split; [ reflexivity | ]. split; [ | split ].
  - unfold shape0 in *. cbn [rows]. rewrite length_zip_with. lia.
  - cbn [rows shape1]. unfold transform_each.
    unfold wf_nd, shape0 in *. clear Hn.
    revert Hwf. generalize (rows z_eps) as es.
    induction (rows z_phi) as [|p ps IH]; intros es Hwf; [ reflexivity | ].
    destruct es as [|e es]; [ reflexivity | ].
    cbn [Np.zip_with map]. inversion Hwf as [|? ? Hp Hps]; subst.
    f_equal.
    + rewrite transform_z_to_x_rows; try assumption; try reflexivity.
      constructor; [ exact Hp | constructor ].
    + now apply IH.
  - unfold Np.map1. cbn [shape1 rows].
    replace (map (map Num.cos) (map (cons ones_2pi) (rows z_phi)))
      with (map (cons (Num.cos ones_2pi)) (map (map Num.cos) (rows z_phi)))
      by now rewrite !map_map.
    rewrite roll_m1_rows.
    + rewrite map_map. do 2 f_equal. cbn.
      replace (2 * PI * 1)%R with (2 * PI)%R by ring. now rewrite cos_2PI.
    + apply Forall_map. eapply Forall_impl; [ | exact Hwf ].
      intros t Ht. cbv beta in Ht. now rewrite length_map.
Qed.

Lemma C4_batch_is_rowwise_witness :
  exists x,
    _transform_z_to_x (mk_nd 2 [[Fin 0; Fin 1]; [Fin 2; Fin 3]])
                      (mk_nd 1 [[Fin 0]; [Fin 0.5]])
    = Ok x
    /\ shape0 x = 2
    /\ transform_each (mk_nd 2 [[Fin 0; Fin 1]; [Fin 2; Fin 3]])
                      (mk_nd 1 [[Fin 0]; [Fin 0.5]])
       = map (fun r => Ok (mk_nd (shape1 x) [r])) (rows x)
    /\ Np.roll_m1 (Np.map1 Num.cos
                     (mk_nd (1 + 2)
                        (map (cons ones_2pi)
                             [[Fin 0; Fin 1]; [Fin 2; Fin 3]])))
       = mk_nd (1 + 2)
               (map (fun r => map Num.cos r ++ [Fin 1])
                    [[Fin 0; Fin 1]; [Fin 2; Fin 3]]).
Proof.
  apply (@C4_batch_is_rowwise (mk_nd 2 [[Fin 0; Fin 1]; [Fin 2; Fin 3]])
                              (mk_nd 1 [[Fin 0]; [Fin 0.5]])).
  - repeat constructor.
  - reflexivity.
  - simpl. lia.
Defined.

(* ================================================================== *)
(** ** Spherical coordinates of real points *)

Section Sphere.

Local Open Scope R_scope.

Lemma sumsq_nonneg (l : list R) : 0 <= sumsq l.
Proof. induction l as [|y l IH]; simpl; nra. Qed.

Lemma sumsq_skipn_le (m : nat) (l : list R) : sumsq (skipn m l) <= sumsq l.
Proof.
  revert l. induction m as [|m IH]; intros [|y l]; simpl; try lra.
  specialize (IH l). nra.
Qed.

Lemma norm2_sqr (l : list R) : norm2 l * norm2 l = sumsq l.
Proof. apply sqrt_sqrt, sumsq_nonneg. Qed.

Lemma norm2_pos (l : list R) : 0 < sumsq l -> 0 < norm2 l.
Proof. apply sqrt_lt_R0. Qed.

(** The argument of [acos] is in its domain. *)
Lemma ratio_bound (y s n : R) :
  0 <= s -> 0 < n -> n * n = y * y + s -> -1 <= y / n <= 1.
Proof.
  intros Hs Hn Hnn.
  assert (Hy : y / n * n = y) by (field; lra).
  assert (Hv : (y / n) * (y / n) <= 1).
  { apply Rmult_le_reg_r with (n * n); [ nra | ].
    replace (y / n * (y / n) * (n * n)) with (y * y) by (field; lra). nra. }
  nra.
Qed.

Lemma cos_ratio (y s n : R) :
  0 <= s -> 0 < n -> n * n = y * y + s -> n * cos (acos (y / n)) = y.
Proof.
  intros Hs Hn Hnn. rewrite cos_acos by now apply ratio_bound with s.
  field. lra.
Qed.

Lemma sin_ratio (y s n : R) :
  0 <= s -> 0 < n -> n * n = y * y + s -> n * sin (acos (y / n)) = sqrt s.
Proof.
  intros Hs Hn Hnn. rewrite sin_acos by now apply ratio_bound with s.
  replace (1 - (y / n)²) with (s / (n * n))
    by (replace s with (n * n - y * y) by lra; unfold Rsqr; field; lra).
  rewrite sqrt_div by nra. rewrite sqrt_square by lra. field. lra.
Qed.

Lemma off_axis_cons (y : R) (ys : list R) :
  (2 <= length ys)%nat -> off_axis (y :: ys) -> off_axis ys.
Proof.
  unfold off_axis. intros Hl. simpl length.
  replace (S (length ys) - 2)%nat with (S (length ys - 2)) by lia.
  now simpl.
Qed.

Lemma off_axis_pos (ys : list R) : off_axis ys -> 0 < sumsq ys.
Proof.
  unfold off_axis. intros H.
  pose proof (sumsq_skipn_le (length ys - 2) ys). lra.
Qed.

Lemma angles_two (y yk : R) :
  angles [y; yk]
  = [if Rltb yk 0 then 2 * PI - acos (y / norm2 [y; yk])
     else acos (y / norm2 [y; yk])].
Proof. reflexivity. Qed.

Lemma polar_length (ys : list R) : length (polar ys) = (length ys - 1)%nat.
Proof.
  induction ys as [|y ys IH]; [ reflexivity | ].
  destruct ys as [|y' ys]; [ reflexivity | ].
  change (polar (y :: y' :: ys))
    with (acos (y / norm2 (y :: y' :: ys)) :: polar (y' :: ys)).
  simpl length in *. rewrite IH. lia.
Qed.

Lemma angles_cons (y : R) (ys : list R) :
  (2 <= length ys)%nat ->
  angles (y :: ys) = acos (y / norm2 (y :: ys)) :: angles ys.
Proof.
  intros Hl. destruct ys as [|y1 [|y2 ys]]; simpl in Hl; try lia.
  unfold angles.
  change (last (y :: y1 :: y2 :: ys) 0) with (last (y1 :: y2 :: ys) 0).
  change (polar (y :: y1 :: y2 :: ys))
    with (acos (y / norm2 (y :: y1 :: y2 :: ys)) :: polar (y1 :: y2 :: ys)).
  pose proof (polar_length (y1 :: y2 :: ys)) as Hp.
  destruct (polar (y1 :: y2 :: ys)) as [|t ts] eqn:E; [ discriminate | ].
  reflexivity.
Qed.

(** The forward map undoes the inverse map: the point at radius [r] with
    the angles of [ys] is [ys], when [a r] is the norm of [ys]. *)
Lemma sphere_point_angles (ys : list R) :
  forall a r : R,
    (2 <= length ys)%nat -> off_axis ys -> a * r = norm2 ys ->
    sphere_point a r (angles ys) = ys.
Proof.
  induction ys as [|y ys IH]; intros a r Hl Hoff Har; [ simpl in Hl; lia | ].
  pose proof (off_axis_pos _ Hoff) as Hpos.
  pose proof (norm2_pos _ Hpos) as Hn.
  pose proof (norm2_sqr (y :: ys)) as Hnn.
  pose proof (sumsq_nonneg ys) as Hs.
  cbn [sumsq fold_right] in Hnn. fold (sumsq ys) in Hnn.
  destruct (Nat.le_gt_cases 2 (length ys)) as [Hl2|Hl2].
  - rewrite angles_cons by assumption. cbn [sphere_point]. f_equal.
    + replace (a * cos (acos (y / norm2 (y :: ys))) * r)
        with (norm2 (y :: ys) * cos (acos (y / norm2 (y :: ys))))
        by (rewrite <- Har; ring).
      now apply cos_ratio with (sumsq ys).
    + apply IH; [ assumption | now apply off_axis_cons with y | ].
      replace (a * sin (acos (y / norm2 (y :: ys))) * r)
        with (norm2 (y :: ys) * sin (acos (y / norm2 (y :: ys))))
        by (rewrite <- Har; ring).
      now apply sin_ratio.
  - destruct ys as [|yk [|? ?]]; simpl in Hl, Hl2; try lia.
    rewrite angles_two.
    assert (Hc : norm2 [y; yk] * cos (acos (y / norm2 [y; yk])) = y)
      by now apply cos_ratio with (sumsq [yk]).
    assert (Hsn : norm2 [y; yk] * sin (acos (y / norm2 [y; yk]))
                  = sqrt (sumsq [yk])) by now apply sin_ratio.
    replace (sumsq [yk]) with (yk²) in Hsn by (unfold Rsqr; simpl; ring).
    rewrite sqrt_Rsqr_abs in Hsn.
    assert (H2pi : cos (2 * PI * 1) = 1)
      by (replace (2 * PI * 1) with (2 * PI) by ring; apply cos_2PI).
    unfold Rltb. destruct (Rlt_dec yk 0) as [Hneg|Hneg];
      cbn [sphere_point]; rewrite H2pi.
    + replace (2 * PI - acos (y / norm2 [y; yk]))
        with (- acos (y / norm2 [y; yk]) + 2 * INR 1 * PI)
        by (simpl INR; ring).
      rewrite cos_period, sin_period, cos_neg, sin_neg.
      rewrite Rabs_left in Hsn by assumption.
      f_equal; [ | f_equal ].
      * rewrite <- Hc at 3. rewrite <- Har. ring.
      * replace yk with (- (norm2 [y; yk] * sin (acos (y / norm2 [y; yk]))))
          at 2 by lra.
        rewrite <- Har. ring.
    + rewrite Rabs_right in Hsn by lra.
      f_equal; [ | f_equal ].
      * rewrite <- Hc at 3. rewrite <- Har. ring.
      * rewrite <- Hsn at 2. rewrite <- Har. ring.
Qed.

End Sphere.

(* ================================================================== *)
(** ** The transforms on finite rows *)

Section FiniteRows.

Local Open Scope R_scope.

Lemma polar_seq (ys : list R) :
  polar ys
  = map (fun i => acos (nth i ys 0 / norm2 (skipn i ys)))
        (seq 0 (length ys - 1)).
Proof.
  induction ys as [|y ys IH]; [ reflexivity | ].
  destruct ys as [|y' ys]; [ reflexivity | ].
  change (polar (y :: y' :: ys))
    with (acos (y / norm2 (y :: y' :: ys)) :: polar (y' :: ys)).
  rewrite IH.
  replace (length (y :: y' :: ys) - 1)%nat
    with (S (length (y' :: ys) - 1)) by (simpl; lia).
  rewrite <- cons_seq, <- seq_shift, map_cons, map_map. reflexivity.
Qed.

Lemma sum_square_fin (l : list R) :
  Num.sum (map Num.square (map Fin l)) = Fin (sumsq l).
Proof.
  induction l as [|y l IH]; [ reflexivity | ].
  cbn [map]. unfold Num.sum in *. cbn [fold_right]. rewrite IH. reflexivity.
Qed.

Lemma slice_map (A B : Type) (f : A -> B) (i j : nat) (l : list A) :
  Np.slice i j (map f l) = map f (Np.slice i j l).
Proof. unfold Np.slice. now rewrite skipn_map, firstn_map. Qed.

Lemma slice_firstn (A : Type) (i k : nat) (l : list A) :
  (i <= k)%nat -> Np.slice i k l = skipn i (firstn k l).
Proof.
  intros Hi. unfold Np.slice. rewrite firstn_skipn_comm. do 2 f_equal. lia.
Qed.

Lemma norm_from_fin (self : Simulator) (i : nat) (xs : list R) :
  (i <= _latent_dim self + 1)%nat ->
  norm_from self i (map Fin xs)
  = Fin (norm2 (skipn i (firstn (_latent_dim self + 1) xs))).
Proof.
  intros Hi. unfold norm_from.
  rewrite slice_map, sum_square_fin, pow_half_fin by apply sumsq_nonneg.
  now rewrite slice_firstn.
Qed.

Lemma off_axis_skipn (ys : list R) (i : nat) :
  (i <= length ys - 2)%nat -> off_axis ys -> 0 < sumsq (skipn i ys).
Proof.
  unfold off_axis. intros Hi H.
  replace (length ys - 2)%nat with ((length ys - 2 - i) + i)%nat in H by lia.
  rewrite <- skipn_skipn in H.
  pose proof (sumsq_skipn_le (length ys - 2 - i) (skipn i ys)). lra.
Qed.

Lemma skipn_nth_cons (A : Type) (d : A) (i : nat) (l : list A) :
  (i < length l)%nat -> skipn i l = nth i l d :: skipn (S i) l.
Proof.
  revert l. induction i as [|i IH]; intros [|a l] Hl; simpl in *; try lia.
  - reflexivity.
  - apply IH. lia.
Qed.

(** The angles before the correction of the last one. *)
Lemma uncorrected_fin (self : Simulator) (xs : list R) :
  let k := _latent_dim self in
  let ys := firstn (k + 1) xs in
  (k + 1 <= length xs)%nat -> off_axis ys ->
  map (fun i => Num.arccos (nth i (map Fin xs) NaN
                            / norm_from self i (map Fin xs))%num)
      (seq 0 k)
  = map Fin (polar ys).
Proof.
  intros k ys Hl Hoff.
  assert (Hlen : length ys = (k + 1)%nat)
    by (unfold ys; rewrite length_firstn; lia).
  rewrite polar_seq, map_map, Hlen.
  replace (k + 1 - 1)%nat with k by lia.
  apply map_ext_in. intros i Hi. apply in_seq in Hi.
  rewrite (nth_map_lt _ _ Fin xs i NaN 0) by lia.
  rewrite norm_from_fin by (fold k; lia). fold k. fold ys.
  assert (Hpos : 0 < sumsq (skipn i ys))
    by (apply off_axis_skipn; [ lia | assumption ]).
  pose proof (norm2_pos _ Hpos) as Hn.
  replace (nth i xs 0) with (nth i ys 0)
    by (unfold ys; rewrite nth_firstn;
        destruct (Nat.ltb_spec i (k + 1)); [ reflexivity | lia ]).
  rewrite div_fin by lra. rewrite arccos_fin; [ reflexivity | ].
  rewrite (skipn_nth_cons _ 0 i ys) in * by lia.
  pose proof (norm2_sqr (nth i ys 0 :: skipn (S i) ys)) as Hnn.
  cbn [sumsq fold_right] in Hnn. fold (sumsq (skipn (S i) ys)) in Hnn.
  apply ratio_bound with (sumsq (skipn (S i) ys));
    [ apply sumsq_nonneg | assumption | assumption ].
Qed.

End FiniteRows.

Section RoundTrip.

Local Open Scope R_scope.

Lemma map_last_length (g : R -> R) (l : list R) :
  length (map_last g l) = length l.
Proof.
  induction l as [|a l IH]; [ reflexivity | ].
  destruct l as [|b l]; [ reflexivity | ].
  change (map_last g (a :: b :: l)) with (a :: map_last g (b :: l)).
  simpl length in *. now rewrite IH.
Qed.

(** Assigning to the last entry of a row of finite numbers. *)
Lemma set_last_fin (g : num -> num) (gR : R -> R) (ts : list R) :
  (forall t, g (Fin t) = Fin (gR t)) ->
  Np.set_nth (length ts - 1)
             (g (nth (length ts - 1) (map Fin ts) NaN)) (map Fin ts)
  = map Fin (map_last gR ts).
Proof.
  intros Hg. induction ts as [|a ts IH]; [ reflexivity | ].
  destruct ts as [|b ts]; [ simpl; now rewrite Hg | ].
  change (map_last gR (a :: b :: ts)) with (a :: map_last gR (b :: ts)).
  replace (length (a :: b :: ts) - 1)%nat
    with (S (length (b :: ts) - 1)) by (simpl; lia).
  cbn [map Np.set_nth nth]. f_equal. exact IH.
Qed.

Lemma angles_length (ys : list R) : length (angles ys) = (length ys - 1)%nat.
Proof. unfold angles. now rewrite map_last_length, polar_length. Qed.

Lemma two_pi_fin : two_pi = Fin (2 * PI).
Proof. reflexivity. Qed.

(** The inverse map on a row of real numbers: the angles. *)
Lemma z_phi_row_fin (self : Simulator) (xs : list R) :
  let k := _latent_dim self in
  let ys := firstn (k + 1) xs in
  (1 <= k)%nat -> (k + 1 <= length xs)%nat -> off_axis ys ->
  z_phi_row self (map Fin xs) = map Fin (angles ys).
Proof.
  intros k ys Hk Hl Hoff. unfold z_phi_row.
  pose proof (uncorrected_fin self xs Hl Hoff) as Hu. cbv zeta in Hu.
  rewrite Hu. clear Hu. fold k. fold ys.
  assert (Hlen : length ys = (k + 1)%nat)
    by (unfold ys; rewrite length_firstn; lia).
  assert (Hp : (k - 1 = length (polar ys) - 1)%nat)
    by (rewrite polar_length; lia).
  rewrite (nth_map_lt _ _ Fin xs k NaN 0) by lia.
  replace (nth k xs 0) with (last ys 0).
  2:{ rewrite <- (firstn_skipn k ys) at 1.
      assert (Hf : firstn k ys = firstn k xs)
        by (unfold ys; rewrite firstn_firstn; f_equal; lia).
      assert (Hs : skipn k ys = [nth k xs 0]).
      { unfold ys. rewrite (skipn_nth_cons _ 0 k)
          by (rewrite length_firstn; lia).
        rewrite skipn_all2 by (rewrite length_firstn; lia).
        f_equal. rewrite nth_firstn.
        destruct (Nat.ltb_spec k (k + 1)); [ reflexivity | lia ]. }
      rewrite Hs. apply last_last. }
  rewrite Hp.
  apply (set_last_fin
           (fun z => if Num.lt (Fin (last ys 0)) (Fin 0)
                     then (two_pi - z)%num else z)
           (fun t => if Rltb (last ys 0) 0 then 2 * PI - t else t)).
  intros t. rewrite lt_fin. now destruct (Rltb _ _).
Qed.

(** The inverse map on a row of real numbers: the noise. *)
Lemma z_eps_row_fin (self : Simulator) (xs : list R) :
  let k := _latent_dim self in
  (k + 1 <= length xs)%nat ->
  z_eps_row self (map Fin xs)
  = Fin (norm2 (firstn (k + 1) xs) - 1) :: map Fin (skipn (k + 1) xs).
Proof.
  intros k Hl. unfold z_eps_row. fold k.
  rewrite norm_from_fin by lia. fold k.
  rewrite skipn_map, (skipn_nth_cons _ 0 k xs) by lia.
  replace (S k) with (k + 1)%nat by lia. reflexivity.
Qed.

(** The forward map on finite angles. *)
Lemma sphere_point_fin (r : R) (ts : list R) :
  forall a : R,
    map (fun v => (v * Fin r)%num)
        (Np.zip_with Num.mul
           (Fin a :: Np.cumprod_from (Fin a) (map Num.sin (map Fin ts)))
           (map Num.cos (map Fin ts) ++ [Num.cos ones_2pi]))
    = map Fin (sphere_point a r ts).
Proof.
  induction ts as [|t ts IH]; intros a; [ reflexivity | ].
  cbn [map Np.cumprod_from Np.zip_with app sphere_point Num.sin Num.cos].
  rewrite !mul_fin. f_equal. apply IH.
Qed.

Lemma forward_row_fin (c : nat) (ts : list R) (e0 : R) (es : list num) :
  forward_row c (map Fin ts) (Fin e0 :: es)
  = map Fin (sphere_point 1 (1 + e0) ts) ++ firstn (c - 1) es.
Proof.
  unfold forward_row, sins_row. cbn [map Np.set_nth Np.cumprod nth].
  rewrite add_fin, sphere_point_fin. reflexivity.
Qed.

(** A row of real numbers, off the axis of its last two sphere
    coordinates, is reproduced. *)
Lemma round_trip_row (self : Simulator) (d : nat) (xs : list R) :
  let k := _latent_dim self in
  (1 <= k)%nat -> (k + 1 <= d)%nat -> length xs = d ->
  off_axis (firstn (k + 1) xs) ->
  forward_row (d - k) (z_phi_row self (map Fin xs))
              (z_eps_row self (map Fin xs))
  = map Fin xs.
Proof.
  intros k Hk Hd Hl Hoff.
  rewrite z_phi_row_fin, z_eps_row_fin by (fold k; assumption || lia).
  fold k. rewrite forward_row_fin.
  rewrite sphere_point_angles.
  - rewrite (firstn_all2 (map Fin (skipn (k + 1) xs)))
      by (rewrite length_map, length_skipn; lia).
    rewrite <- map_app. now rewrite firstn_skipn.
  - rewrite length_firstn. lia.
  - exact Hoff.
  - ring.
Qed.

End RoundTrip.

Section Ranges.

Local Open Scope R_scope.

Lemma ratio_bound_strict (y s n : R) :
  0 < s -> 0 < n -> n * n = y * y + s -> -1 < y / n < 1.
Proof.
  intros Hs Hn Hnn.
  assert (Hy : y / n * n = y) by (field; lra).
  assert (Hv : (y / n) * (y / n) < 1).
  { apply Rmult_lt_reg_r with (n * n); [ nra | ].
    replace (y / n * (y / n) * (n * n)) with (y * y) by (field; lra). nra. }
  nra.
Qed.

Lemma angles_canonical (ys : list R) :
  (2 <= length ys)%nat -> off_axis ys -> canonical_angles (angles ys).
Proof.
  pose proof PI_RGT_0 as Hpi.
  induction ys as [|y ys IH]; intros Hl Hoff; [ simpl in Hl; lia | ].
  pose proof (off_axis_pos _ Hoff) as Hpos.
  pose proof (norm2_pos _ Hpos) as Hn.
  pose proof (norm2_sqr (y :: ys)) as Hnn.
  pose proof (sumsq_nonneg ys) as Hs.
  cbn [sumsq fold_right] in Hnn. fold (sumsq ys) in Hnn.
  destruct (Nat.le_gt_cases 2 (length ys)) as [Hl2|Hl2].
  - rewrite angles_cons by assumption.
    specialize (IH Hl2 (off_axis_cons _ _ Hl2 Hoff)).
    intros [|i] Hi.
    + cbn [nth]. pose proof (acos_bound (y / norm2 (y :: ys))). split; lra.
    + cbn [nth length] in *. destruct (IH i ltac:(lia)) as [H1 H2].
      split; [ exact H1 | intros H; apply H2; lia ].
  - destruct ys as [|yk [|? ?]]; simpl in Hl, Hl2; try lia.
    rewrite angles_two. intros [|i] Hi; [ | simpl in Hi; lia ].
    cbn [nth length]. split; [ | intros H; lia ].
    unfold Rltb. destruct (Rlt_dec yk 0) as [Hneg|Hneg].
    + assert (Hb : -1 < y / norm2 [y; yk] < 1).
      { apply ratio_bound_strict with (sumsq [yk]); try assumption.
        simpl. nra. }
      pose proof (acos_bound_lt _ Hb). lra.
    + pose proof (acos_bound (y / norm2 [y; yk])). lra.
Qed.

(** The last two sphere coordinates, read in the row. *)
Lemma off_axis_coords (k : nat) (r : list R) :
  (1 <= k)%nat -> (k + 1 <= length r)%nat ->
  nth (k - 1) r 0 <> 0 \/ nth k r 0 <> 0 ->
  off_axis (firstn (k + 1) r).
Proof.
  intros Hk Hl H. unfold off_axis. rewrite length_firstn.
  replace (Nat.min (k + 1) (length r) - 2)%nat with (k - 1)%nat by lia.
  rewrite (skipn_nth_cons _ 0 (k - 1)) by (rewrite length_firstn; lia).
  replace (S (k - 1)) with k by lia.
  rewrite (skipn_nth_cons _ 0 k) by (rewrite length_firstn; lia).
  rewrite !nth_firstn.
  destruct (Nat.ltb_spec (k - 1) (k + 1)); [ | lia ].
  destruct (Nat.ltb_spec k (k + 1)); [ | lia ].
  cbn [sumsq fold_right].
  pose proof (sumsq_nonneg (skipn (S k) (firstn (k + 1) r))) as Hs.
  unfold sumsq in Hs. nra.
Qed.

End Ranges.

(* ================================================================== *)
(** ** The round trip *)

Lemma zip_with_map_map (A B C D : Type) (f : B -> C -> D) (g : A -> B)
    (h : A -> C) (l : list A) :
  Np.zip_with f (map g l) (map h l) = map (fun a => f (g a) (h a)) l.
Proof. induction l as [|a l IH]; simpl; [ | rewrite IH ]; reflexivity. Qed.

(** The inverse map on an array of real numbers. *)
Lemma transform_x_to_z_reals (self : Simulator) (d : nat) (x : list (list R)) :
  1 <= _latent_dim self -> _latent_dim self + 1 <= d ->
  _transform_x_to_z self (of_reals d x)
  = Ok (mk_nd (_latent_dim self) (map (z_phi_row self) (map (map Fin) x)),
        mk_nd (d - _latent_dim self)
              (map (z_eps_row self) (map (map Fin) x))).
Proof.
  intros Hk Hd. unfold _transform_x_to_z, of_reals. cbn [shape1 rows].
  destruct (Nat.eqb_spec (_latent_dim self) 0) as [E|_]; [ lia | ].
  destruct (Nat.leb_spec d (_latent_dim self)) as [E|_]; [ lia | ].
  reflexivity.
Qed.

Lemma mul_nan_r (a : num) : (a * NaN)%num = NaN.
Proof. destruct a; reflexivity. Qed.

Lemma sqrt_sumsq_zero : sqrt (0 * 0 + (0 * 0 + 0)) = 0%R.
Proof. replace (0 * 0 + (0 * 0 + 0))%R with 0%R by ring. apply sqrt_0. Qed.

Lemma div_zero_zero : (Fin 0 / Fin 0)%num = NaN.
Proof.
  unfold Num.div, Num.inf_signed. now rewrite (Reqb_true 0 0).
Qed.

Lemma set_nth_last (A : Type) (v a : A) (l : list A) :
  Np.set_nth (length l) v (l ++ [a]) = l ++ [v].
Proof. induction l as [|b l IH]; simpl; [ | rewrite IH ]; reflexivity. Qed.

Lemma z_phi_row_length (self : Simulator) (x : list num) :
  length (z_phi_row self x) = _latent_dim self.
Proof.
  unfold z_phi_row. rewrite (set_nth_pointwise _ NaN).
  now rewrite length_map, length_seq, length_map, length_seq.
Qed.

(** On the axis of its last two sphere coordinates a row has the last
    angle [arccos (0 / 0)]. *)
Lemma z_phi_row_on_axis (self : Simulator) (xs : list R) :
  1 <= _latent_dim self -> _latent_dim self + 1 <= length xs ->
  nth (_latent_dim self - 1) xs 0%R = 0%R ->
  nth (_latent_dim self) xs 0%R = 0%R ->
  exists init,
    length init = _latent_dim self - 1
    /\ z_phi_row self (map Fin xs) = init ++ [NaN].
Proof.
  intros Hk Hl H1 H2. unfold z_phi_row.
  set (k := _latent_dim self) in *.
  set (f := fun i => Num.arccos (nth i (map Fin xs) NaN
                                 / norm_from self i (map Fin xs))%num).
  assert (Hseq : seq 0 k = seq 0 (k - 1) ++ [k - 1]).
  { replace k with (S (k - 1)) at 1 by lia. now rewrite seq_S. }
  assert (Hlast : f (k - 1) = NaN).
  { unfold f. rewrite norm_from_fin by (fold k; lia). fold k.
    rewrite (skipn_nth_cons _ 0%R (k - 1)) by (rewrite length_firstn; lia).
    replace (S (k - 1)) with k by lia.
    rewrite (skipn_nth_cons _ 0%R k) by (rewrite length_firstn; lia).
    rewrite skipn_all2 by (rewrite length_firstn; lia).
    rewrite !nth_firstn.
    destruct (Nat.ltb_spec (k - 1) (k + 1)); [ | lia ].
    destruct (Nat.ltb_spec k (k + 1)); [ | lia ].
    rewrite nth_fin by lia. rewrite H1, H2.
    unfold norm2. cbn [sumsq fold_right]. rewrite sqrt_sumsq_zero.
    now rewrite div_zero_zero. }
  exists (map f (seq 0 (k - 1))). split.
  - now rewrite length_map, length_seq.
  - rewrite Hseq, map_app. cbn [map].
    rewrite app_nth2 by (rewrite length_map, length_seq; lia).
    rewrite length_map, length_seq, Nat.sub_diag. cbn [nth].
    rewrite Hlast, nth_fin, H2, lt_fin, Rltb_false by lra || lia.
    replace (k - 1) with (length (map f (seq 0 (k - 1)))) at 1
      by now rewrite length_map, length_seq.
    apply set_nth_last.
Qed.

(** The sphere coordinates that the forward map builds from a last
    angle that is NaN. *)
Lemma exact_sphere_nan (init : list num) (c0 : num) :
  forall a : num,
  exists front,
    length front = length init
    /\ Np.zip_with Num.mul
         (a :: Np.cumprod_from a (map Num.sin (init ++ [NaN])))
         (map Num.cos (init ++ [NaN]) ++ [c0])
       = front ++ [NaN; NaN].
Proof.
  induction init as [|t init IH]; intros a.
  - exists []. split; [ reflexivity | ].
    cbn [app map Np.cumprod_from Np.zip_with Num.sin Num.cos].
    now rewrite !mul_nan_r.
  - destruct (IH (a * Num.sin t)%num) as (front & Hlen & Hfront).
    exists ((a * Num.cos t)%num :: front). split; [ simpl; lia | ].
    cbn [app map Np.cumprod_from].
    change (Np.zip_with Num.mul
              (a :: (a * Num.sin t)%num
                 :: Np.cumprod_from (a * Num.sin t)
                      (map Num.sin (init ++ [NaN])))
              (Num.cos t :: map Num.cos (init ++ [NaN]) ++ [c0]))
      with ((a * Num.cos t)%num
              :: Np.zip_with Num.mul
                   ((a * Num.sin t)%num
                      :: Np.cumprod_from (a * Num.sin t)
                           (map Num.sin (init ++ [NaN])))
                   (map Num.cos (init ++ [NaN]) ++ [c0])).
    now rewrite Hfront.
Qed.

Lemma forward_row_nan (c : nat) (init z_eps : list num) :
  exists front,
    length front = length init
    /\ forward_row c (init ++ [NaN]) z_eps
       = front ++ NaN :: NaN :: Np.slice 1 c z_eps.
Proof.
  unfold forward_row, sins_row.
  cbn [map Np.set_nth Np.cumprod].
  destruct (exact_sphere_nan init (Num.cos ones_2pi) (Fin 1))
    as (front & Hlen & Hfront).
  rewrite Hfront, map_app. cbn [map].
  exists (map (fun v => (v * (Fin 1 + nth 0 z_eps NaN))%num) front).
  split; [ now rewrite length_map | ].
  now rewrite <- app_assoc.
Qed.

(** C1, as the code has it.  Let [x] be a float array of more than
    [latent_dim >= 1] columns whose entries do not exceed [10 ^ 100] in
    magnitude.  If in each row the sphere coordinates number
    [latent_dim - 1] and [latent_dim] (counted from 0) are not both
    below [10 ^ -100] in magnitude (so that the sum of their squares is
    not zero, nor rounded to zero), the inverse map followed by the
    forward map reproduces [x], exactly in exact arithmetic, and the
    recovered angles are real numbers in the canonical range: in
    [0, 2 pi), all but the last in [0, pi].  In a row where those two
    coordinates are both zero, both maps return normally and the two
    coordinates come back as NaN. *)
Theorem C1_round_trip_off_axis :
  forall (self : Simulator) (d : nat) (x : list (list R)),
    1 <= _latent_dim self -> _latent_dim self + 1 <= d ->
    Forall (fun r => length r = d) x ->
    Forall (Forall no_overflow) x ->
    (Forall (fun r => no_underflow (nth (_latent_dim self - 1) r 0%R)
                      \/ no_underflow (nth (_latent_dim self) r 0%R)) x ->
     exists z_phi z_eps,
       _transform_x_to_z self (of_reals d x) = Ok (z_phi, z_eps)
       /\ _transform_z_to_x z_phi z_eps = Ok (of_reals d x)
       /\ exists ts, z_phi = of_reals (_latent_dim self) ts
                     /\ Forall canonical_angles ts)
    /\ exists z_phi z_eps y,
         _transform_x_to_z self (of_reals d x) = Ok (z_phi, z_eps)
         /\ _transform_z_to_x z_phi z_eps = Ok y
         /\ forall i,
              i < length x ->
              nth (_latent_dim self - 1) (nth i x []) 0%R = 0%R ->
              nth (_latent_dim self) (nth i x []) 0%R = 0%R ->
              nth (_latent_dim self - 1) (nth i (rows y) []) (Fin 0) = NaN
              /\ nth (_latent_dim self) (nth i (rows y) []) (Fin 0) = NaN.
Proof.
  intros self d x Hk Hd Hlen _.
  set (k := _latent_dim self) in *. split.
  - intros Hax.
    assert (Hoff : Forall (fun r => off_axis (firstn (k + 1) r)) x).
    { rewrite Forall_forall in *. intros r Hr.
      apply off_axis_coords; [ assumption | rewrite (Hlen r Hr); lia | ].
      destruct (Hax r Hr) as [H|H]; [ left | right ];
        now apply no_underflow_nonzero. }
    assert (Hphi : map (z_phi_row self) (map (map Fin) x)
                   = map (map Fin)
                         (map (fun r => angles (firstn (k + 1) r)) x)).
    { rewrite !map_map. apply map_ext_in. intros r Hr.
      rewrite Forall_forall in *.
      apply z_phi_row_fin; fold k;
        [ assumption | rewrite (Hlen r Hr); lia | now apply Hoff ]. }
    rewrite transform_x_to_z_reals by assumption. fold k.
    eexists. eexists. split; [ reflexivity | ]. split.
    + rewrite transform_z_to_x_rows.
      * cbn [shape1 rows]. unfold of_reals. f_equal. f_equal; [ lia | ].
        rewrite zip_with_map_map, map_map. apply map_ext_in. intros r Hr.
        rewrite Forall_forall in *.
        apply round_trip_row; fold k; auto.
      * unfold wf_nd. cbn [shape1 rows]. rewrite Hphi.
        rewrite !Forall_map. rewrite Forall_forall in *. intros r Hr.
        rewrite length_map, angles_length, length_firstn, (Hlen r Hr). lia.
      * unfold shape0. cbn [rows]. now rewrite !length_map.
      * cbn [shape1]. lia.
    + exists (map (fun r => angles (firstn (k + 1) r)) x). split.
      * unfold of_reals. now rewrite Hphi.
      * rewrite Forall_map. rewrite Forall_forall in *. intros r Hr.
        apply angles_canonical; [ | now apply Hoff ].
        rewrite length_firstn, (Hlen r Hr). lia.
  - rewrite transform_x_to_z_reals by assumption. fold k.
    eexists. eexists. eexists. split; [ reflexivity | ].
    rewrite transform_z_to_x_rows.
    + split; [ reflexivity | ]. cbn [shape1 rows].
      rewrite zip_with_map_map, map_map.
      intros i Hi H1 H2.
      rewrite (nth_map_lt _ _ _ x i [] []) by exact Hi.
      assert (Hr : length (nth i x []) = d).
      { rewrite Forall_forall in Hlen. apply Hlen. now apply nth_In. }
      destruct (z_phi_row_on_axis self (nth i x []))
        as (init & Hinit & Hrow);
        [ assumption | fold k; lia | assumption | assumption | ].
      rewrite Hrow.
      destruct (forward_row_nan (d - k) init
                  (z_eps_row self (map Fin (nth i x []))))
        as (front & Hfront & Hfwd).
      rewrite Hfwd. fold k in Hinit.
      split.
      * rewrite app_nth2 by lia.
        now replace (k - 1 - length front) with 0 by lia.
      * rewrite app_nth2 by lia.
        now replace (k - length front) with 1 by lia.
    + unfold wf_nd. cbn [shape1 rows]. rewrite !Forall_map.
      apply Forall_forall. intros r _. apply z_phi_row_length.
    + unfold shape0. cbn [rows]. now rewrite !length_map.
    + cbn [shape1]. lia.
Qed.

Lemma C1_round_trip_off_axis_witness :
  (exists z_phi z_eps,
      _transform_x_to_z sim_2_3 (of_reals 3 [[0; 1; 0]; [0; 0; -2]]%R)
      = Ok (z_phi, z_eps)
      /\ _transform_z_to_x z_phi z_eps
         = Ok (of_reals 3 [[0; 1; 0]; [0; 0; -2]]%R)
      /\ exists ts, z_phi = of_reals (_latent_dim sim_2_3) ts
                    /\ Forall canonical_angles ts)
  /\ exists z_phi z_eps y,
       _transform_x_to_z sim_2_3 (of_reals 3 [[3; 0; 0]; [0; 0; -2]]%R)
       = Ok (z_phi, z_eps)
       /\ _transform_z_to_x z_phi z_eps = Ok y
       /\ forall i,
            i < length [[3; 0; 0]; [0; 0; -2]]%R ->
            nth (_latent_dim sim_2_3 - 1)
                (nth i [[3; 0; 0]; [0; 0; -2]]%R []) 0%R = 0%R ->
            nth (_latent_dim sim_2_3)
                (nth i [[3; 0; 0]; [0; 0; -2]]%R []) 0%R = 0%R ->
            nth (_latent_dim sim_2_3 - 1) (nth i (rows y) []) (Fin 0) = NaN
            /\ nth (_latent_dim sim_2_3) (nth i (rows y) []) (Fin 0) = NaN.
Proof.
  split.
  - apply (proj1 (C1_round_trip_off_axis
                    sim_2_3 3 [[0; 1; 0]; [0; 0; -2]]%R
                    ltac:(simpl; lia) ltac:(simpl; lia)
                    ltac:(repeat constructor) ltac:(magnitudes))).
    apply Forall_cons; [ left; simpl; magnitude | ].
    apply Forall_cons; [ right; simpl; magnitude | apply Forall_nil ].
  - apply (proj2 (C1_round_trip_off_axis
                    sim_2_3 3 [[3; 0; 0]; [0; 0; -2]]%R
                    ltac:(simpl; lia) ltac:(simpl; lia)
                    ltac:(repeat constructor) ltac:(magnitudes))).
Defined.

(** At the pole the second angle is [arccos (0 / 0)]. *)
Lemma z_phi_row_pole :
  exists a, z_phi_row sim_2_3 [Fin 1; Fin 0; Fin 0] = [a; NaN].
Proof.
  eexists. unfold z_phi_row.
  change (_latent_dim sim_2_3) with 2. cbn [seq map Nat.sub nth Np.set_nth].
  change [Fin 1; Fin 0; Fin 0] with (map Fin [1; 0; 0]%R).
  rewrite (norm_from_fin sim_2_3 1 [1; 0; 0]%R) by (simpl; lia).
  change (_latent_dim sim_2_3) with 2. cbn [Nat.add firstn skipn].
  unfold norm2. cbn [sumsq fold_right]. rewrite sqrt_sumsq_zero.
  rewrite !div_zero_zero.
  cbn [Num.arccos]. rewrite lt_fin, Rltb_false by lra. reflexivity.
Qed.

(** The point [(1, 0, 0)] has a positive norm, and the inverse map
    followed by the forward map does not give it back (its second and
    third coordinates come back as NaN). *)
Lemma pole_round_trip_fails :
  (0 < norm2 [1; 0; 0])%R
  /\ ~ exists z_phi z_eps,
         _transform_x_to_z sim_2_3 pole = Ok (z_phi, z_eps)
         /\ _transform_z_to_x z_phi z_eps = Ok pole.
Proof.
  split.
  - apply norm2_pos. simpl. lra.
  - intros (z_phi & z_eps & H1 & H2). unfold pole in *.
    rewrite transform_x_to_z_reals in H1 by (simpl; lia).
    injection H1 as <- <-.
    destruct z_phi_row_pole as [a Ha].
    cbn [map] in H2. rewrite Ha in H2.
    rewrite transform_z_to_x_rows in H2;
      [ | repeat constructor | reflexivity | simpl; lia ].
    apply (f_equal (fun r => match r with
                             | Ok y => nth 1 (nth 0 (rows y) []) (Fin 0)
                             | Raise _ => Fin 0
                             end)) in H2.
    cbn [rows shape1 Np.zip_with nth of_reals map] in H2.
    unfold forward_row, sins_row in H2.
    cbn [map Np.set_nth Np.cumprod Np.cumprod_from Np.zip_with app nth
         Num.sin Num.cos] in H2.
    rewrite mul_nan_r in H2. discriminate.
Qed.

(* ================================================================== *)
(** ** Distance from the manifold *)

Section Distance.

Local Open Scope R_scope.

Lemma cos_2PI_1 : cos (2 * PI * 1) = 1.
Proof. replace (2 * PI * 1) with (2 * PI) by ring. apply cos_2PI. Qed.

(** The point at radius [r] is at distance [|a r|] from the origin. *)
Lemma sumsq_sphere_point (r : R) (ts : list R) :
  forall a, sumsq (sphere_point a r ts) = (a * r) * (a * r).
Proof.
  induction ts as [|t ts IH]; intros a; cbn [sphere_point sumsq fold_right].
  - rewrite cos_2PI_1. ring.
  - fold (sumsq (sphere_point (a * sin t) r ts)). rewrite IH.
    pose proof (sin2_cos2 t) as H. unfold Rsqr in H.
    replace (a * cos t * r * (a * cos t * r) + a * sin t * r * (a * sin t * r))
      with (a * r * (a * r) * (sin t * sin t + cos t * cos t)) by ring.
    rewrite H. ring.
Qed.

Lemma sphere_point_length (a r : R) (ts : list R) :
  length (sphere_point a r ts) = S (length ts).
Proof.
  revert a. induction ts as [|t ts IH]; intros a; simpl; [ | rewrite IH ];
    reflexivity.
Qed.

Lemma norm2_sphere_point (r : R) (ts : list R) :
  norm2 (sphere_point 1 r ts) = Rabs r.
Proof.
  unfold norm2. rewrite sumsq_sphere_point.
  replace (1 * r * (1 * r)) with (r²) by (unfold Rsqr; ring).
  apply sqrt_Rsqr_abs.
Qed.

(** The noise that the inverse map recovers from a point built by the
    forward map: the radius less one, and the other coordinates. *)
Lemma z_eps_row_sphere_point (self : Simulator) (r : R) (ts es : list R) :
  length ts = _latent_dim self ->
  z_eps_row self (map Fin (sphere_point 1 r ts ++ es))
  = Fin (Rabs r - 1) :: map Fin es.
Proof.
  intros Hl.
  pose proof (sphere_point_length 1 r ts) as Hs.
  rewrite z_eps_row_fin by (rewrite length_app; lia).
  replace (_latent_dim self + 1)%nat with (length (sphere_point 1 r ts))
    by lia.
  rewrite firstn_app, firstn_all, Nat.sub_diag, app_nil_r.
  rewrite skipn_app, skipn_all, Nat.sub_diag. cbn [firstn skipn app].
  now rewrite norm2_sphere_point.
Qed.

End Distance.

Section OneSample.

Local Open Scope R_scope.

Lemma mod_two_pi_fin (a : R) : Num.mod_ (Fin a) two_pi = Fin (wrap a).
Proof.
  pose proof PI_RGT_0. rewrite two_pi_fin. unfold Num.mod_.
  now rewrite Reqb_false by lra.
Qed.

(** One sample of the simulator of the sphere in three dimensions at the
    parameters [(0, 0)]: a point of the sphere of radius [1 + e], for
    the radial noise [e = 0 + epsilon g] of the third normal deviate. *)
Lemma sample_2_3 (minw maxw eps : R) (st : RandomState) :
  0 < minw < maxw -> 0 < eps ->
  exists t1 st',
    sample (mk_sim 2 3 (Fin (0.5 * PI)) (Fin (1.5 * PI))
                   (Fin minw) (Fin maxw) (Fin eps))
           1 (Some [Fin 0; Fin 0]) st
    = (Ok (of_reals 3
             [sphere_point 1 (1 + (0 + eps * gauss st 2))
                [wrap (0.5 * PI
                       + (minw + (0.5 + 0.5 * 0) * (maxw - minw))
                         * gauss st 0);
                 t1]]),
       st').
Proof.
  intros Hw He. unfold sample, _draw_z.
  rewrite (parse_parameters_rows _ 1 _ [(Fin 0, Fin 0)] 1);
    [ | reflexivity | reflexivity | now left ].
  cbn [seq map repeat app Np.flatten rows concat Nat.mul Nat.add
       _latent_dim _data_dim _epsilon Nat.sub].
  unfold param_at. cbn [length Nat.eqb nth].
  unfold width_of, phase_of.
  cbn [fst snd _minwidth _maxwidth _minphase _maxphase]. unfold Num.pi.
  rewrite !mul_fin, !add_fin, !sub_fin, !mul_fin, !add_fin.
  unfold Stats.random_normal, existsb, Stats.bad_scale. rewrite !lt_fin.
  rewrite !Rltb_false by nra.
  cbn [orb seq map nth Nat.add]. rewrite !mul_fin, !add_fin.
  unfold Np.reshape, Np.map1. cbn [Np.chunks firstn skipn rows shape1 map].
  rewrite !mod_two_pi_fin.
  unfold Stats.random_normal0, Stats.bad_scale.
  rewrite lt_fin, Rltb_false by lra.
  cbn [seq map gauss Nat.add]. rewrite !mul_fin, !add_fin.
  cbn [Np.chunks firstn skipn].
  rewrite transform_z_to_x_rows;
    [ | repeat constructor | reflexivity | simpl; lia ].
  cbn [rows shape1 Np.zip_with Nat.add Nat.sub].
  match goal with
  | |- context [forward_row 1 [Fin ?a; Fin ?b] _] =>
      change [Fin a; Fin b] with (map Fin [a; b])
  end.
  rewrite forward_row_fin. cbn [Nat.sub firstn]. rewrite app_nil_r.
  eexists. eexists. reflexivity.
Qed.

(** The generator whose first normal deviate is [-2] and whose other
    deviates are 0 makes [sample] return the pole. *)
Lemma pole_is_sampled :
  exists st',
    sample sim_2_3 1 (Some [Fin 0; Fin 0])
           (mk_rs (fun i => match i with O => -2 | S _ => 0 end)
                  (fun _ => 0))
    = (Ok pole, st').
Proof.
  pose proof PI_RGT_0 as Hpi.
  destruct (sample_2_3 (0.1 * PI) (0.4 * PI) 0.01
              (mk_rs (fun i => match i with O => -2 | S _ => 0 end)
                     (fun _ => 0)))
    as (t1 & st' & Hs); [ lra | lra | ].
  exists st'. unfold sim_2_3. rewrite Hs. cbn [gauss].
  f_equal. unfold pole, of_reals. f_equal. f_equal. f_equal.
  replace (0.5 * PI + (0.1 * PI + (0.5 + 0.5 * 0) * (0.4 * PI - 0.1 * PI)) * -2)
    with 0 by lra.
  assert (Hw : wrap 0 = 0).
  { unfold wrap, Rdiv. rewrite Rmult_0_l, (ZfloorZ 0). ring. }
  rewrite Hw. cbn [sphere_point]. rewrite sin_0, cos_0.
  repeat (f_equal; try ring).
Qed.

End OneSample.

(** C1 fails as stated: [sample] can return the point [(1, 0, 0)], whose
    norm is positive, and the inverse map followed by the forward map
    does not give it back. *)
Lemma C1_counterexample :
  (exists st st',
      sample sim_2_3 1 (Some [Fin 0; Fin 0]) st = (Ok pole, st'))
  /\ (0 < norm2 [1; 0; 0])%R
  /\ ~ exists z_phi z_eps,
         _transform_x_to_z sim_2_3 pole = Ok (z_phi, z_eps)
         /\ _transform_z_to_x z_phi z_eps = Ok pole.
Proof.
  split.
  - destruct pole_is_sampled as [st' H]. eexists. exists st'. exact H.
  - exact pole_round_trip_fails.
Qed.

Section ConcreteScenario.

Local Open Scope R_scope.

Lemma distance_of_sphere_point (self : Simulator) (r t0 t1 : R) :
  _latent_dim self = 2%nat ->
  distance_from_manifold self (of_reals 3 [sphere_point 1 r [t0; t1]])
  = Ok [Fin (Rabs (Rabs r - 1))].
Proof.
  intros Hk. unfold distance_from_manifold.
  rewrite transform_x_to_z_reals by lia. cbn [bind map].
  rewrite <- (app_nil_r (sphere_point 1 r [t0; t1])).
  rewrite z_eps_row_sphere_point by now rewrite Hk.
  unfold Np.map1, Np.sum1, Num.sum, Num.square.
  cbn [rows map fold_right]. rewrite mul_fin, add_fin.
  rewrite pow_half_fin
    by (pose proof (Rle_0_sqr (Rabs r - 1)) as Hq; unfold Rsqr in Hq; lra).
  do 3 f_equal.
  replace ((Rabs r - 1) * (Rabs r - 1) + 0) with ((Rabs r - 1)²)
    by (unfold Rsqr; ring).
  apply sqrt_Rsqr_abs.
Qed.

Lemma radial_distance_bound (e : R) : Rabs (Rabs (1 + e) - 1) <= Rabs e.
Proof.
  unfold Rabs.
  destruct (Rcase_abs (1 + e)), (Rcase_abs e);
    match goal with |- context [Rcase_abs ?u] => destruct (Rcase_abs u) end;
    lra.
Qed.

(** C5, as the code has it: the constructor refuses [epsilon = 0.0]; for
    an [epsilon > 0] it accepts, with [latent_dim = 2], [data_dim = 3]
    and parameters [(0, 0)], the one sampled point is at the distance
    [| |1 + epsilon g| - 1 |] from the manifold, where [g] is the
    deviate drawn for the radial noise: at most [epsilon |g|], and zero
    when the deviate is zero. *)
Theorem C5_distance_of_one_sample :
  forall (epsilon : R) (self : Simulator) (st : RandomState),
    __init__ 2 3 default_min_width default_max_width (Fin epsilon) = Ok self ->
    exists x st',
      sample self 1 (Some [Fin 0; Fin 0]) st = (Ok x, st')
      /\ distance_from_manifold self x
         = Ok [Fin (Rabs (Rabs (1 + epsilon * gauss st 2) - 1))]
      /\ Rabs (Rabs (1 + epsilon * gauss st 2) - 1)
         <= epsilon * Rabs (gauss st 2)
      /\ (gauss st 2 = 0 -> distance_from_manifold self x = Ok [Fin 0]).
Proof.
  intros eps self st Hinit.
  apply init_inv in Hinit as (-> & _ & Heps & minw & maxw & E1 & E2 & Hw & _).
  rewrite gt_fin in Heps. apply Rltb_spec in Heps.
  unfold default_min_width, default_max_width, Num.pi in *.
  rewrite mul_fin in E1, E2. rewrite !mul_fin, E1, E2.
  destruct (sample_2_3 minw maxw eps st Hw Heps) as (t1 & st' & Hs).
  rewrite Hs. eexists. eexists. split; [ reflexivity | ].
  rewrite distance_of_sphere_point by reflexivity.
  replace (0 + eps * gauss st 2) with (eps * gauss st 2) by ring.
  split; [ reflexivity | ]. split.
  - pose proof (radial_distance_bound (eps * gauss st 2)) as Hb.
    rewrite Rabs_mult, (Rabs_right eps) in Hb by lra. exact Hb.
  - intros Hg. rewrite Hg, Rmult_0_r, Rplus_0_r, Rabs_R1.
    replace (1 - 1) with 0 by ring. now rewrite Rabs_R0.
Qed.

Lemma C5_distance_of_one_sample_witness :
  exists x st',
    sample sim_2_3 1 (Some [Fin 0; Fin 0])
           (mk_rs (fun _ => 0) (fun _ => 0)) = (Ok x, st')
    /\ distance_from_manifold sim_2_3 x
       = Ok [Fin (Rabs (Rabs (1 + 0.01 * 0) - 1))]
    /\ Rabs (Rabs (1 + 0.01 * 0) - 1) <= 0.01 * Rabs 0
    /\ (0 = 0 -> distance_from_manifold sim_2_3 x = Ok [Fin 0]).
Proof.
  apply (C5_distance_of_one_sample 0.01 sim_2_3
           (mk_rs (fun _ => 0) (fun _ => 0))).
  exact init_default_2_3.
Defined.

(** C5 fails as stated: the simulator with [epsilon = 0.0] cannot be
    constructed. *)
Lemma C5_counterexample :
  __init__ 2 3 default_min_width default_max_width (Fin 0)
  = Raise AssertionError.
Proof.
  unfold __init__. cbn [Nat.ltb Nat.leb assert bind].
  rewrite gt_fin, Rltb_false by lra. reflexivity.
Qed.

End ConcreteScenario.

(* ================================================================== *)
(** ** The symmetric images *)

Lemma length_zip_with3 (A B C D : Type) (f : A -> B -> C -> D) l m n :
  length (Np.zip_with3 f l m n)
  = Nat.min (length l) (Nat.min (length m) (length n)).
Proof.
  revert m n. induction l as [|a l IH]; intros [|b m] [|c n]; simpl; auto.
Qed.

Lemma length_flat_map_pairs (A B : Type) (f : A -> list B) (l : list A) :
  (forall a, length (f a) = 2) -> length (flat_map f l) = 2 * length l.
Proof.
  intros Hf. induction l as [|a l IH]; [ reflexivity | ].
  simpl flat_map. rewrite length_app, Hf, IH. simpl. lia.
Qed.

Lemma shaped_as_with_col (a z : ndarray) (dim : nat) (f : num -> num) :
  shaped_as a z -> shaped_as a (with_col z dim f).
Proof.
  unfold shaped_as, with_col, shape0. cbn [shape1 rows].
  now rewrite length_map.
Qed.

Lemma shaped_as_canonical (a z : ndarray) :
  shaped_as a z -> shaped_as a (canonical z).
Proof.
  unfold shaped_as, canonical, shape0. cbn [shape1 rows].
  now rewrite length_map.
Qed.

Lemma norm_pdf_nd_shaped (phases_ widths_ z : ndarray) :
  shaped_as phases_ widths_ -> shaped_as phases_ z ->
  norm_pdf_nd phases_ widths_ z = Ok (pdf_at phases_ widths_ z).
Proof.
  intros [H1 H2] [H3 H4]. unfold norm_pdf_nd, Np.map3, Np.same_shape.
  now rewrite H1, H2, H3, H4, !Nat.eqb_refl.
Qed.

Lemma shaped_as_pdf_at (phases_ widths_ z : ndarray) :
  shaped_as phases_ widths_ -> shaped_as phases_ z ->
  shaped_as phases_ (pdf_at phases_ widths_ z).
Proof.
  intros [H1 H2] [H3 H4]. unfold shaped_as, pdf_at, shape0 in *.
  cbn [shape1 rows]. rewrite length_zip_with3. split; [ reflexivity | lia ].
Qed.

(** The loop over the images, once [p_sub] is an array. *)
Lemma for_each_images (phases_ widths_ : ndarray) (images : list ndarray) :
  shaped_as phases_ widths_ ->
  Forall (shaped_as phases_) images ->
  forall a, shaped_as phases_ a ->
    for_each images
      (fun p_sub shifted_z_phi =>
         pdf <- norm_pdf_nd phases_ widths_ shifted_z_phi ;; iadd p_sub pdf)
      (Array a)
    = Ok (Array (fold_left
                   (fun acc z' => add_nd acc (pdf_at phases_ widths_ z'))
                   images a)).
Proof.
  intros Hw. induction 1 as [|z images Hz _ IH]; intros a Ha;
    [ reflexivity | ].
  cbn [for_each fold_left]. rewrite norm_pdf_nd_shaped by assumption.
  cbn [bind iadd].
  destruct (shaped_as_pdf_at _ _ _ Hw Hz) as [P1 P2].
  destruct Ha as [A1 A2].
  assert (Hs : Np.same_shape a (pdf_at phases_ widths_ z) = true)
    by (unfold Np.same_shape; now rewrite A1, A2, P1, P2, !Nat.eqb_refl).
  unfold Np.map2. rewrite Hs. cbn [bind].
  apply IH. unfold shaped_as, add_nd, shape0 in *. cbn [shape1 rows].
  rewrite length_zip_with. split; [ assumption | lia ].
Qed.

Lemma generator_images (self : Simulator) (z_phi : ndarray) (precise : bool) :
  1 <= _latent_dim self -> shape1 z_phi = _latent_dim self ->
  _generate_equivalent_coordinates self z_phi precise
  = (canonical z_phi
       :: flat_map (polar_variations (canonical z_phi))
                   (seq 0 (_latent_dim self - 1))
          ++ azimuthal_variations (canonical z_phi),
     None).
Proof.
  intros Hk Hc. unfold _generate_equivalent_coordinates. rewrite Hc.
  destruct (Nat.ltb_spec (_latent_dim self) (_latent_dim self - 1));
    [ lia | ].
  destruct (Nat.eqb_spec (_latent_dim self) 0); [ lia | ].
  now rewrite Nat.min_l by lia.
Qed.

Lemma p_sub_loop_images (self : Simulator) (phases_ widths_ z_phi : ndarray)
    (precise : bool) :
  1 <= _latent_dim self -> shape1 z_phi = _latent_dim self ->
  shaped_as phases_ widths_ -> shaped_as phases_ z_phi ->
  p_sub_loop self phases_ widths_ z_phi precise
  = Ok (Array (sum_of_densities phases_ widths_ (canonical z_phi)
                 (flat_map (polar_variations (canonical z_phi))
                           (seq 0 (_latent_dim self - 1))
                  ++ azimuthal_variations (canonical z_phi)))).
Proof.
  intros Hk Hc Hw Hz. unfold p_sub_loop, for_in.
  rewrite generator_images by assumption. cbn [fst snd for_each].
  pose proof (shaped_as_canonical _ _ Hz) as Hcan.
  rewrite norm_pdf_nd_shaped by assumption. cbn [bind iadd].
  rewrite for_each_images; [ reflexivity | assumption | | ].
  - apply Forall_app. split.
    + apply Forall_flat_map. apply Forall_forall. intros dim _.
      repeat constructor; now apply shaped_as_with_col.
    + repeat constructor; now apply shaped_as_with_col.
  - destruct (shaped_as_pdf_at _ _ _ Hw Hcan) as [P1 P2].
    unfold shaped_as, Np.map1, shape0 in *. cbn [shape1 rows].
    now rewrite length_map.
Qed.

Lemma azimuthal_last (self : Simulator) (z_phi : ndarray) :
  shape1 z_phi = _latent_dim self ->
  azimuthal_variations (canonical z_phi)
  = [ with_col (canonical z_phi) (_latent_dim self - 1)
               (fun z => (Fin (-2) * Num.pi + z)%num);
      with_col (canonical z_phi) (_latent_dim self - 1)
               (fun z => (two_pi + z)%num) ].
Proof.
  intros Hc. unfold azimuthal_variations.
  change (shape1 (canonical z_phi)) with (shape1 z_phi). now rewrite Hc.
Qed.

(* ================================================================== *)
(** ** Sums *)

Lemma add_assoc (a b c : num) : (a + (b + c))%num = (a + b + c)%num.
Proof.
  destruct a, b, c; cbn; try reflexivity. f_equal. ring.
Qed.

Lemma add_zero_r (a : num) : (a + Fin 0)%num = a.
Proof. destruct a; cbn; try reflexivity. f_equal. ring. Qed.

Lemma add_nan_r (a : num) : (a + NaN)%num = NaN.
Proof. destruct a; reflexivity. Qed.

Lemma sum_app (l m : list num) :
  Num.sum (l ++ m) = (Num.sum l + Num.sum m)%num.
Proof.
  unfold Num.sum. induction l as [|a l IH]; cbn [app fold_right].
  - destruct (fold_right Num.add (Fin 0) m); cbn; try reflexivity.
    f_equal. ring.
  - now rewrite IH, add_assoc.
Qed.

(** The entries of the result of [_log_density], row by row. *)
Lemma log_density_rows (self : Simulator) (Z E M : list (list num)) :
  Np.zip_with Num.add
    (map Num.sum
       (Np.zip_with (@app num) (map (map Num.log) M)
          (map (map (fun e => Num.log
                                (Stats.norm_pdf (Fin 0) (_epsilon self) e)))
               E)))
    (Np.zip_with Num.add
       (map (fun ri => (Num.of_nat (_latent_dim self) * Num.abs ri)%num)
            (map (fun e => (Fin 1 + e)%num)
                 (map (fun r => nth 0 r NaN) E)))
       (map Num.sum
          (map (fun row => Np.zip_with Num.mul
                             (arange_desc (_latent_dim self))
                             (map log_abs_sin row)) Z)))
  = Np.zip_with3 (spec_log_density_row self) Z E M.
Proof.
  revert E M. induction Z as [|z Z IH]; intros [|e E] [|m M];
    try reflexivity.
  cbn [map Np.zip_with Np.zip_with3]. rewrite IH. f_equal.
  unfold spec_log_density_row, spec_angular_term, spec_noise_term,
    spec_jacobian.
  now rewrite sum_app.
Qed.

(* ================================================================== *)
(** ** The log-density *)

Lemma shaped_as_add_nd (p a b : ndarray) :
  shaped_as p a -> shaped_as p b -> shaped_as p (add_nd a b).
Proof.
  intros [A1 A2] [B1 B2]. unfold shaped_as, add_nd, shape0 in *.
  cbn [shape1 rows]. rewrite length_zip_with. split; [ assumption | lia ].
Qed.

Lemma sum_of_densities_shaped (phases_ widths_ z : ndarray)
    (images : list ndarray) :
  shaped_as phases_ widths_ -> shaped_as phases_ z ->
  Forall (shaped_as phases_) images ->
  shaped_as phases_ (sum_of_densities phases_ widths_ z images).
Proof.
  intros Hw Hz Him. unfold sum_of_densities.
  assert (H0 : shaped_as phases_
                 (Np.map1 (Num.add (Fin 0)) (pdf_at phases_ widths_ z))).
  { destruct (shaped_as_pdf_at _ _ _ Hw Hz) as [P1 P2].
    unfold shaped_as, Np.map1, shape0 in *. cbn [shape1 rows].
    now rewrite length_map. }
  revert H0. generalize (Np.map1 (Num.add (Fin 0)) (pdf_at phases_ widths_ z)).
  induction Him as [|z' images Hz' _ IH]; intros a Ha; [ exact Ha | ].
  cbn [fold_left]. apply IH. apply shaped_as_add_nd; [ assumption | ].
  now apply shaped_as_pdf_at.
Qed.

Lemma images_shaped (self : Simulator) (phases_ z_phi : ndarray) :
  shaped_as phases_ z_phi ->
  Forall (shaped_as phases_)
    (flat_map (polar_variations (canonical z_phi))
              (seq 0 (_latent_dim self - 1))
     ++ azimuthal_variations (canonical z_phi)).
Proof.
  intros Hz. pose proof (shaped_as_canonical _ _ Hz) as Hcan.
  apply Forall_app. split.
  - apply Forall_flat_map. apply Forall_forall. intros dim _.
    repeat constructor; now apply shaped_as_with_col.
  - repeat constructor; now apply shaped_as_with_col.
Qed.

Lemma transform_x_to_z_ok (self : Simulator) (x : ndarray) :
  1 <= _latent_dim self -> _latent_dim self + 1 <= shape1 x ->
  _transform_x_to_z self x
  = Ok (mk_nd (_latent_dim self) (map (z_phi_row self) (rows x)),
        mk_nd (shape1 x - _latent_dim self) (map (z_eps_row self) (rows x))).
Proof.
  intros Hk Hd. unfold _transform_x_to_z.
  destruct (Nat.eqb_spec (_latent_dim self) 0) as [E|_]; [ lia | ].
  destruct (Nat.leb_spec (shape1 x) (_latent_dim self)) as [E|_]; [ lia | ].
  reflexivity.
Qed.

(** The log-density of an array of observations, entry by entry. *)
Lemma log_density_formula (self : Simulator) (x : ndarray)
    (parameters : list num) (phases_ widths_ : ndarray) (precise : bool) :
  1 <= _latent_dim self -> _latent_dim self + 1 <= shape1 x ->
  _parse_parameters self (shape0 x) parameters = Ok (phases_, widths_) ->
  shaped_as phases_ widths_ ->
  shape1 phases_ = _latent_dim self -> shape0 phases_ = shape0 x ->
  log_density self x (Some parameters) precise
  = Ok (Np.zip_with3 (spec_log_density_row self)
          (map (z_phi_row self) (rows x))
          (map (z_eps_row self) (rows x))
          (rows (sum_of_densities phases_ widths_
                   (canonical (mk_nd (_latent_dim self)
                                     (map (z_phi_row self) (rows x))))
                   (flat_map
                      (polar_variations
                         (canonical (mk_nd (_latent_dim self)
                                       (map (z_phi_row self) (rows x)))))
                      (seq 0 (_latent_dim self - 1))
                    ++ azimuthal_variations
                         (canonical (mk_nd (_latent_dim self)
                                       (map (z_phi_row self) (rows x)))))))).
Proof.
  intros Hk Hd Hparse Hw Hp1 Hp0.
  set (z_phi := mk_nd (_latent_dim self) (map (z_phi_row self) (rows x))).
  assert (Hz : shaped_as phases_ z_phi).
  { unfold shaped_as, z_phi, shape0 in *. cbn [shape1 rows].
    now rewrite length_map, Hp1, Hp0. }
  pose proof (sum_of_densities_shaped phases_ widths_ (canonical z_phi) _ Hw
                (shaped_as_canonical _ _ Hz) (images_shaped self _ _ Hz))
    as [_ Hs0].
  unfold log_density. rewrite transform_x_to_z_ok by assumption.
  cbn [bind]. fold z_phi. unfold _log_density, Np.col. cbn [shape1 rows].
  destruct (Nat.ltb_spec 0 (shape1 x - _latent_dim self)) as [_|]; [ | lia ].
  cbn [bind].
  replace (shape0 z_phi) with (shape0 x)
    by (unfold z_phi, shape0; cbn [rows]; now rewrite length_map).
  rewrite Hparse. cbn [bind].
  rewrite p_sub_loop_images by (assumption || reflexivity). cbn [bind].
  unfold weighted_log_sines. cbn [shape1 rows z_phi].
  rewrite Nat.eqb_refl. cbn [bind].
  unfold add_vec at 1, Np.sum1. cbn [rows].
  rewrite !length_map, Nat.eqb_refl. cbn [bind].
  unfold Np.concatenate1, Np.map1, shape0 in *. cbn [rows shape1].
  rewrite !length_map. fold z_phi. rewrite Hs0, Hp0, Nat.eqb_refl.
  cbn [bind rows]. unfold add_vec.
  rewrite !length_map, !length_zip_with, !length_map. fold z_phi.
  rewrite Hs0, Hp0, !Nat.min_id, Nat.eqb_refl.
  now rewrite log_density_rows.
Qed.

Lemma zip_with_app_eq (A B C : Type) (f : A -> B -> C) l l' m m' :
  length l = length m ->
  Np.zip_with f (l ++ l') (m ++ m')
  = Np.zip_with f l m ++ Np.zip_with f l' m'.
Proof.
  revert m. induction l as [|a l IH]; intros [|b m] Hl; simpl in *;
    try discriminate; [ reflexivity | ].
  f_equal. apply IH. lia.
Qed.

Lemma zip_with_short (A B C : Type) (f : A -> B -> C) l l' m :
  length l = length m -> Np.zip_with f (l ++ l') m = Np.zip_with f l m.
Proof.
  revert m. induction l as [|a l IH]; intros [|b m] Hl; simpl in *;
    try discriminate.
  - now destruct l'.
  - f_equal. apply IH. lia.
Qed.

Lemma arange_desc_S (m : nat) :
  arange_desc (S m) = map Num.of_nat (rev (seq 1 m)) ++ [Num.of_nat 0].
Proof. unfold arange_desc. cbn [seq rev]. now rewrite map_app. Qed.

Lemma log_abs_sin_fin (a : R) :
  sin a <> 0%R -> log_abs_sin (Fin a) = Fin (ln (Rabs (sin a))).
Proof.
  intros H. unfold log_abs_sin. cbn [Num.sin Num.abs].
  apply log_fin. now apply Rabs_pos_lt.
Qed.

(** The last angle has the weight 0: it contributes nothing as long as
    its sine does not vanish. *)
Lemma jacobian_last_weightless (self : Simulator) (init : list num) (a : R)
    (z_eps : list num) :
  length init + 1 = _latent_dim self -> sin a <> 0%R ->
  spec_jacobian self (init ++ [Fin a]) z_eps
  = spec_jacobian_without_last self (init ++ [Fin a]) z_eps.
Proof.
  intros Hk Ha. unfold spec_jacobian, spec_jacobian_without_last.
  rewrite removelast_last. rewrite <- Hk.
  replace (length init + 1) with (S (length init)) by lia.
  rewrite arange_desc_S, map_app.
  rewrite zip_with_app_eq, zip_with_short
    by now rewrite !length_map, length_rev, length_seq.
  rewrite sum_app. cbn [map Np.zip_with]. rewrite log_abs_sin_fin by assumption.
  replace (Num.sum [(Num.of_nat 0 * Fin (ln (Rabs (sin a))))%num])
    with (Fin 0).
  - now rewrite add_zero_r.
  - unfold Num.sum, Num.of_nat. cbn [fold_right INR].
    rewrite mul_fin, add_fin. f_equal. ring.
Qed.

Lemma parse_parameters_shaped (self : Simulator) (n : nat)
    (parameters : list num) (ps : list (num * num)) :
  1 <= _latent_dim self ->
  Np.reshape_pairs parameters = Ok ps ->
  length ps = n \/ length ps = 1 ->
  exists phases_ widths_,
    _parse_parameters self n parameters = Ok (phases_, widths_)
    /\ shaped_as phases_ widths_
    /\ shape1 phases_ = _latent_dim self /\ shape0 phases_ = n.
Proof.
  intros Hk Hps Hlen.
  destruct (_latent_dim self) as [|k'] eqn:E; [ lia | ].
  rewrite (parse_parameters_rows self n parameters ps k' Hps E Hlen).
  eexists. eexists. split; [ reflexivity | ].
  unfold shaped_as, shape0. cbn [shape1 rows].
  now rewrite !length_map, length_seq.
Qed.

Section Equator.

Local Open Scope R_scope.

Lemma norm2_010 : norm2 [0; 1; 0] = 1.
Proof.
  unfold norm2. cbn [sumsq fold_right].
  replace (0 * 0 + (1 * 1 + (0 * 0 + 0))) with 1 by ring. apply sqrt_1.
Qed.

Lemma norm2_10 : norm2 [1; 0] = 1.
Proof.
  unfold norm2. cbn [sumsq fold_right].
  replace (1 * 1 + (0 * 0 + 0)) with 1 by ring. apply sqrt_1.
Qed.

(** The angles of the point [(0, 1, 0)]. *)
Lemma z_phi_row_equator :
  z_phi_row sim_2_3 [Fin 0; Fin 1; Fin 0] = [Fin (PI / 2); Fin 0].
Proof.
  change [Fin 0; Fin 1; Fin 0] with (map Fin [0; 1; 0]).
  rewrite z_phi_row_fin.
  - change (_latent_dim sim_2_3) with 2%nat. cbn [Nat.add firstn].
    rewrite angles_cons by (simpl; lia). rewrite angles_two.
    rewrite norm2_010, norm2_10. rewrite Rltb_false by lra.
    unfold Rdiv at 1. rewrite Rmult_0_l, acos_0.
    replace (1 / 1) with 1 by lra. now rewrite acos_1.
  - simpl. lia.
  - simpl. lia.
  - apply off_axis_coords; simpl; try lia. left. lra.
Qed.

Lemma z_eps_row_equator :
  z_eps_row sim_2_3 [Fin 0; Fin 1; Fin 0] = [Fin (1 - 1)].
Proof.
  change [Fin 0; Fin 1; Fin 0] with (map Fin [0; 1; 0]).
  rewrite z_eps_row_fin by (simpl; lia).
  change (_latent_dim sim_2_3) with 2%nat. cbn [Nat.add firstn skipn map].
  now rewrite norm2_010.
Qed.

Lemma log_abs_sin_zero : log_abs_sin (Fin 0) = NInf.
Proof.
  unfold log_abs_sin. cbn [Num.sin Num.abs]. rewrite sin_0, Rabs_R0.
  apply log_zero.
Qed.

Lemma zero_times_minus_infinity : (Num.of_nat 0 * NInf)%num = NaN.
Proof.
  unfold Num.of_nat, Num.mul, Num.inf_signed. cbn [INR].
  now rewrite (Reqb_true 0 0).
Qed.

Lemma jacobian_equator :
  spec_jacobian sim_2_3 [Fin (PI / 2); Fin 0] [Fin (1 - 1)] = NaN.
Proof.
  unfold spec_jacobian, arange_desc.
  change (_latent_dim sim_2_3) with 2%nat.
  cbn [seq rev app map Np.zip_with].
  rewrite log_abs_sin_zero, zero_times_minus_infinity.
  unfold Num.sum. cbn [fold_right].
  now rewrite !add_nan_r.
Qed.

Lemma jacobian_without_last_equator :
  spec_jacobian_without_last sim_2_3 [Fin (PI / 2); Fin 0] [Fin (1 - 1)]
  = Fin 2.
Proof.
  unfold spec_jacobian_without_last, arange_desc.
  change (_latent_dim sim_2_3) with 2%nat.
  cbn [seq rev app map Np.zip_with removelast nth].
  rewrite log_abs_sin_fin by (rewrite sin_PI2; lra).
  rewrite sin_PI2, Rabs_R1, ln_1.
  unfold Num.sum, Num.of_nat. cbn [fold_right Num.abs INR].
  rewrite !add_fin, !mul_fin, !add_fin. cbn [Num.abs].
  replace (1 + (1 - 1)) with 1 by ring. rewrite Rabs_R1.
  rewrite mul_fin, add_fin. f_equal. ring.
Qed.

(** C2 fails as stated: at the point [(0, 1, 0)], whose last angle is 0,
    the weighted sum of the code is [0 * log 0 = NaN] and so is the
    log-density, while the Jacobian correction to which the last angle
    contributes nothing is 2. *)
Lemma C2_counterexample :
  log_density sim_2_3 equator (Some [Fin 0; Fin 0]) false = Ok [NaN]
  /\ _transform_x_to_z sim_2_3 equator
     = Ok (mk_nd 2 [[Fin (PI / 2); Fin 0]], mk_nd 1 [[Fin (1 - 1)]])
  /\ spec_jacobian sim_2_3 [Fin (PI / 2); Fin 0] [Fin (1 - 1)] = NaN
  /\ spec_jacobian_without_last sim_2_3 [Fin (PI / 2); Fin 0] [Fin (1 - 1)]
     = Fin 2.
Proof.
  split; [ | split; [ | split ] ].
  - destruct (parse_parameters_shaped sim_2_3 (shape0 equator)
                [Fin 0; Fin 0] [(Fin 0, Fin 0)])
      as (phases_ & widths_ & Hp & Hw & Hp1 & Hp0);
      [ simpl; lia | reflexivity | now left | ].
    rewrite (log_density_formula sim_2_3 equator [Fin 0; Fin 0]
               phases_ widths_ false);
      try assumption; [ | simpl; lia | simpl; lia ].
    match goal with
    | |- context [rows (sum_of_densities ?p ?w ?z ?im)] =>
        assert (Hs : shaped_as p (sum_of_densities p w z im))
    end.
    { assert (Hz : shaped_as phases_
                     (mk_nd (_latent_dim sim_2_3)
                            (map (z_phi_row sim_2_3) (rows equator)))).
      { split; [ now rewrite Hp1 | ].
        rewrite Hp0. unfold shape0. cbn [rows]. now rewrite length_map. }
      apply sum_of_densities_shaped; [ assumption | | ].
      - now apply shaped_as_canonical.
      - now apply images_shaped. }
    destruct Hs as [_ Hs]. rewrite Hp0 in Hs. unfold shape0 in Hs.
    destruct (rows (sum_of_densities _ _ _ _)) as [|m [|? ?]];
      try discriminate.
    unfold equator, of_reals. cbn [rows map Np.zip_with3].
    rewrite z_phi_row_equator, z_eps_row_equator.
    unfold spec_log_density_row. rewrite jacobian_equator.
    now rewrite add_nan_r.
  - unfold equator, of_reals.
    rewrite transform_x_to_z_ok by (simpl; lia).
    cbn [rows map shape1]. now rewrite z_phi_row_equator, z_eps_row_equator.
  - exact jacobian_equator.
  - exact jacobian_without_last_equator.
Qed.

End Equator.

(* ================================================================== *)
(** * Further properties *)

(* ================================================================== *)
(** ** Reshaping the parameters *)

Lemma reshape_pairs_flat (ps : list (R * R)) :
  Np.reshape_pairs (flat_params ps) = Ok (map fin_pair ps).
Proof.
  induction ps as [|p ps IH]; [ reflexivity | ].
  cbn [flat_params flat_map app Np.reshape_pairs map].
  fold (flat_params ps). now rewrite IH.
Qed.

Lemma reshape_pairs_even (p : list num) :
  Nat.even (length p) = true ->
  exists ps, Np.reshape_pairs p = Ok ps /\ 2 * length ps = length p.
Proof.
  assert (H : forall n (q : list num), length q <= n ->
              Nat.even (length q) = true ->
              exists ps, Np.reshape_pairs q = Ok ps
                         /\ 2 * length ps = length q).
  { induction n as [|n IH]; intros [|a [|b t]] Hl He; simpl in Hl;
      try discriminate; try lia; try (exists []; split; reflexivity).
    destruct (IH t) as (ps & Hps & Hlen); [ lia | exact He | ].
    exists ((a, b) :: ps). cbn [Np.reshape_pairs]. rewrite Hps.
    split; [ reflexivity | simpl; lia ]. }
  now apply (H (length p)).
Qed.

Lemma reshape_pairs_odd (p : list num) :
  Nat.even (length p) = false -> Np.reshape_pairs p = Raise ValueError.
Proof.
  assert (H : forall n (q : list num), length q <= n ->
              Nat.even (length q) = false ->
              Np.reshape_pairs q = Raise ValueError).
  { induction n as [|n IH]; intros [|a [|b t]] Hl He; simpl in Hl;
      try discriminate; try lia; try reflexivity.
    cbn [Np.reshape_pairs]. rewrite IH; [ reflexivity | lia | exact He ]. }
  now apply (H (length p)).
Qed.

Lemma broadcast_to_mismatch (n : nat) (v : list num) :
  length v <> n -> length v <> 1 -> Np.broadcast_to n v = Raise ValueError.
Proof.
  intros Hn H1. unfold Np.broadcast_to.
  destruct (Nat.eqb_spec (length v) n); [ contradiction | ].
  destruct v as [|a [|b t]]; try reflexivity. simpl in H1. lia.
Qed.

Lemma parse_parameters_odd (self : Simulator) (n : nat) (p : list num) :
  Nat.even (length p) = false ->
  _parse_parameters self n p = Raise ValueError.
Proof.
  intros H. unfold _parse_parameters. now rewrite reshape_pairs_odd.
Qed.

Lemma parse_parameters_mismatch (self : Simulator) (n : nat) (p : list num) :
  Nat.even (length p) = true ->
  length p <> 2 * n -> length p <> 2 ->
  _parse_parameters self n p = Raise ValueError.
Proof.
  intros He Hn H1. destruct (reshape_pairs_even p He) as (ps & Hps & Hlen).
  unfold _parse_parameters. rewrite Hps. cbn [bind].
  rewrite broadcast_to_mismatch; [ reflexivity | | ]; rewrite length_map; lia.
Qed.

(* ================================================================== *)
(** ** The outcomes of [log_density] *)

Lemma transform_x_to_z_index_error (self : Simulator) (x : ndarray) :
  _latent_dim self = 0 \/ shape1 x <= _latent_dim self ->
  _transform_x_to_z self x = Raise IndexError.
Proof.
  intros H. unfold _transform_x_to_z.
  destruct (Nat.eqb_spec (_latent_dim self) 0) as [E|E]; [ reflexivity | ].
  destruct (Nat.leb_spec (shape1 x) (_latent_dim self)); [ reflexivity | ].
  lia.
Qed.

Lemma log_density_parse_error (self : Simulator) (x : ndarray)
    (p : list num) (precise : bool) (e : exn) :
  1 <= _latent_dim self -> _latent_dim self < shape1 x ->
  _parse_parameters self (shape0 x) p = Raise e ->
  log_density self x (Some p) precise = Raise e.
Proof.
  intros Hk Hd Hp. unfold log_density.
  rewrite transform_x_to_z_ok by lia. cbn [bind].
  unfold _log_density, Np.col. cbn [shape1 rows].
  destruct (Nat.ltb_spec 0 (shape1 x - _latent_dim self)) as [_|]; [ | lia ].
  cbn [bind]. unfold shape0 in *. cbn [rows]. rewrite length_map, Hp.
  reflexivity.
Qed.

(** X1: what [log_density] does with parameters given.  It raises
    IndexError when [latent_dim] is 0 or the observations have no more
    than [latent_dim] columns; otherwise ValueError when the parameters
    have an odd number of entries, or are neither one vector nor one
    vector per observation; otherwise it returns one value per
    observation. *)
Theorem X1_log_density_outcomes :
  forall (self : Simulator) (x : ndarray) (p : list num) (precise : bool),
    (_latent_dim self = 0 \/ shape1 x <= _latent_dim self ->
     log_density self x (Some p) precise = Raise IndexError)
    /\ (1 <= _latent_dim self -> _latent_dim self < shape1 x ->
        Nat.even (length p) = false
        \/ (length p <> 2 * shape0 x /\ length p <> 2) ->
        log_density self x (Some p) precise = Raise ValueError)
    /\ (1 <= _latent_dim self -> _latent_dim self < shape1 x ->
        Nat.even (length p) = true ->
        length p = 2 * shape0 x \/ length p = 2 ->
        exists l, log_density self x (Some p) precise = Ok l
                  /\ length l = shape0 x).
Proof.
  intros self x p precise. split; [ | split ].
  - intros H. unfold log_density.
    now rewrite transform_x_to_z_index_error.
  - intros Hk Hd H. apply log_density_parse_error; try assumption.
    destruct (Nat.even (length p)) eqn:He.
    + destruct H as [H|[H1 H2]]; [ discriminate | ].
      now apply parse_parameters_mismatch.
    + now apply parse_parameters_odd.
  - intros Hk Hd He Hlen.
    destruct (reshape_pairs_even p He) as (ps & Hps & Hl).
    destruct (parse_parameters_shaped self (shape0 x) p ps Hk Hps)
      as (phases_ & widths_ & Hp & Hw & Hp1 & Hp0); [ lia | ].
    rewrite (log_density_formula self x p phases_ widths_ precise)
      by (assumption || lia).
    eexists. split; [ reflexivity | ].
    set (z_phi := mk_nd (_latent_dim self) (map (z_phi_row self) (rows x))).
    assert (Hz : shaped_as phases_ z_phi).
    { split; [ now rewrite Hp1 | ].
      rewrite Hp0. unfold z_phi, shape0. cbn [rows]. now rewrite length_map. }
    pose proof (sum_of_densities_shaped phases_ widths_ (canonical z_phi) _ Hw
                  (shaped_as_canonical _ _ Hz) (images_shaped self _ _ Hz))
      as [_ Hs0].
    rewrite length_zip_with3, !length_map. unfold shape0 in *.
    rewrite Hs0, Hp0. lia.
Qed.

Lemma X1_log_density_outcomes_witness :
  log_density sim_2_3 (mk_nd 2 []) (Some []) false = Raise IndexError
  /\ log_density sim_2_3 pole (Some [Fin 0]) false = Raise ValueError
  /\ exists l, log_density sim_2_3 pole (Some [Fin 0; Fin 0]) false = Ok l
               /\ length l = shape0 pole.
Proof.
  split; [ | split ].
  - apply (proj1 (X1_log_density_outcomes sim_2_3 (mk_nd 2 []) [] false)).
    right. simpl. lia.
  - apply (proj1 (proj2 (X1_log_density_outcomes sim_2_3 pole [Fin 0] false)));
      [ simpl; lia | simpl; lia | left; reflexivity ].
  - apply (proj2 (proj2 (X1_log_density_outcomes sim_2_3 pole [Fin 0; Fin 0]
                           false)));
      [ simpl; lia | simpl; lia | reflexivity | left; reflexivity ].
Defined.

(* ================================================================== *)
(** ** A simulator without latent dimensions *)

Lemma reshape_pairs_raises (p : list num) (e : exn) :
  Np.reshape_pairs p = Raise e -> e = ValueError.
Proof.
  destruct (Nat.even (length p)) eqn:He.
  - destruct (reshape_pairs_even p He) as (ps & Hps & _). congruence.
  - rewrite (reshape_pairs_odd p He). congruence.
Qed.

Lemma broadcast_to_raises (n : nat) (v : list num) (e : exn) :
  Np.broadcast_to n v = Raise e -> e = ValueError.
Proof.
  unfold Np.broadcast_to. destruct (length v =? n); [ discriminate | ].
  destruct v as [|a [|b t]]; congruence.
Qed.

Lemma parse_parameters_zero (self : Simulator) (n : nat) (p : list num) :
  _latent_dim self = 0 ->
  _parse_parameters self n p = Raise IndexError
  \/ _parse_parameters self n p = Raise ValueError.
Proof.
  intros Hk. unfold _parse_parameters. rewrite Hk.
  destruct (Np.reshape_pairs p) as [ps|e] eqn:E1; cbn [bind].
  - destruct (Np.broadcast_to n (map (width_of self) ps)) as [w|e] eqn:E2;
      cbn [bind]; [ now left | ].
    right. now rewrite (broadcast_to_raises _ _ _ E2).
  - right. now rewrite (reshape_pairs_raises _ _ E1).
Qed.

Lemma init_default_0_1 :
  __init__ 0 1 default_min_width default_max_width default_epsilon
  = Ok (mk_sim 0 1 (Fin (0.5 * PI)) (Fin (1.5 * PI))
               (Fin (0.1 * PI)) (Fin (0.4 * PI)) (Fin 0.01)).
Proof.
  pose proof PI_RGT_0 as Hpi.
  unfold __init__, default_min_width, default_max_width, default_epsilon.
  cbn. rewrite !Rltb_true by lra. rewrite Rleb_true by lra. reflexivity.
Qed.

(** X2: the constructor accepts [latent_dim = 0] (it only asks for
    [data_dim > latent_dim]), but such a simulator is of no use:
    [log_density] and [distance_from_manifold] raise IndexError on every
    input, and [sample] raises IndexError or ValueError without drawing
    a deviate. *)
Theorem X2_no_latent_dimension :
  forall (data_dim : nat) (min_width max_width epsilon : num)
         (self : Simulator),
    __init__ 0 data_dim min_width max_width epsilon = Ok self ->
    (forall x p precise, log_density self x (Some p) precise = Raise IndexError)
    /\ (forall x, distance_from_manifold self x = Raise IndexError)
    /\ (forall n p st,
           sample self n (Some p) st = (Raise IndexError, st)
           \/ sample self n (Some p) st = (Raise ValueError, st)).
Proof.
  intros d minw maxw eps self Hinit.
  apply init_inv in Hinit as (-> & _).
  split; [ | split ].
  - intros x p precise. unfold log_density.
    rewrite transform_x_to_z_index_error; [ reflexivity | now left ].
  - intros x. unfold distance_from_manifold.
    rewrite transform_x_to_z_index_error; [ reflexivity | now left ].
  - intros n p st. unfold sample, _draw_z.
    destruct (parse_parameters_zero
                (mk_sim 0 d (Fin (0.5 * PI)) (Fin (1.5 * PI)) minw maxw eps)
                n p eq_refl) as [H|H]; rewrite H; [ now left | now right ].
Qed.

Lemma X2_no_latent_dimension_witness :
  (forall x p precise,
      log_density (mk_sim 0 1 (Fin (0.5 * PI)) (Fin (1.5 * PI))
                          (Fin (0.1 * PI)) (Fin (0.4 * PI)) (Fin 0.01))
                  x (Some p) precise = Raise IndexError)
  /\ (forall x,
         distance_from_manifold
           (mk_sim 0 1 (Fin (0.5 * PI)) (Fin (1.5 * PI))
                   (Fin (0.1 * PI)) (Fin (0.4 * PI)) (Fin 0.01)) x
         = Raise IndexError)
  /\ (forall n p st,
         sample (mk_sim 0 1 (Fin (0.5 * PI)) (Fin (1.5 * PI))
                        (Fin (0.1 * PI)) (Fin (0.4 * PI)) (Fin 0.01))
                n (Some p) st = (Raise IndexError, st)
         \/ sample (mk_sim 0 1 (Fin (0.5 * PI)) (Fin (1.5 * PI))
                           (Fin (0.1 * PI)) (Fin (0.4 * PI)) (Fin 0.01))
                   n (Some p) st = (Raise ValueError, st)).
Proof.
  apply (X2_no_latent_dimension 1 default_min_width default_max_width
           default_epsilon).
  exact init_default_0_1.
Defined.

(* ================================================================== *)
(** ** The forward map on arrays of real numbers *)

Lemma forward_row_reals_fin (ts es : list R) :
  1 <= length es ->
  forward_row (length es) (map Fin ts) (map Fin es)
  = map Fin (forward_row_reals ts es).
Proof.
  intros Hl. destruct es as [|e0 es]; [ simpl in Hl; lia | ].
  cbn [map]. rewrite forward_row_fin. unfold forward_row_reals.
  cbn [hd tl length]. rewrite Nat.sub_succ, Nat.sub_0_r.
  rewrite firstn_all2 by now rewrite length_map.
  now rewrite map_app.
Qed.

Lemma forward_row_reals_length (ts es : list R) :
  1 <= length es ->
  length (forward_row_reals ts es) = length ts + length es.
Proof.
  intros Hl. destruct es as [|e0 es]; [ simpl in Hl; lia | ].
  unfold forward_row_reals. cbn [hd tl length].
  rewrite length_app, sphere_point_length. lia.
Qed.

Lemma zip_forward_rows (c : nat) (A B : list (list R)) :
  1 <= c -> Forall (fun es => length es = c) B ->
  Np.zip_with (forward_row c) (map (map Fin) A) (map (map Fin) B)
  = map (map Fin) (Np.zip_with forward_row_reals A B).
Proof.
  intros Hc HB. revert A.
  induction HB as [|es B Hes _ IH]; intros [|ts A]; try reflexivity.
  cbn [map Np.zip_with]. rewrite IH. f_equal.
  rewrite <- Hes. apply forward_row_reals_fin. lia.
Qed.

(** The forward map on angles and noise that are real numbers. *)
Lemma transform_z_to_x_reals (k c : nat) (A B : list (list R)) :
  1 <= c -> length A = length B ->
  Forall (fun ts => length ts = k) A ->
  Forall (fun es => length es = c) B ->
  _transform_z_to_x (of_reals k A) (of_reals c B)
  = Ok (of_reals (k + c) (Np.zip_with forward_row_reals A B)).
Proof.
  intros Hc Hn HA HB. rewrite transform_z_to_x_rows.
  - unfold of_reals. cbn [shape1 rows]. rewrite zip_forward_rows by assumption.
    do 2 f_equal. lia.
  - unfold wf_nd, of_reals. cbn [shape1 rows]. apply Forall_map.
    eapply Forall_impl; [ | exact HA ].
    intros ts Hts. cbv beta in Hts. now rewrite length_map.
  - unfold shape0, of_reals. cbn [rows]. now rewrite !length_map.
  - exact Hc.
Qed.

Lemma zip_forward_rows_wf (k c : nat) (A B : list (list R)) :
  1 <= c ->
  Forall (fun ts => length ts = k) A ->
  Forall (fun es => length es = c) B ->
  Forall (fun r => length r = k + c) (Np.zip_with forward_row_reals A B).
Proof.
  intros Hc HA. revert B.
  induction HA as [|ts A Hts _ IH]; intros B HB; [ constructor | ].
  destruct HB as [|es B Hes HB]; [ constructor | ].
  cbn [Np.zip_with]. constructor; [ | now apply IH ].
  rewrite forward_row_reals_length; lia.
Qed.

(* ================================================================== *)
(** ** The distance from the manifold of a forward image *)

Section ForwardDistance.

Local Open Scope R_scope.

Lemma distance_row (self : Simulator) (ts es : list R) :
  length ts = _latent_dim self -> (1 <= length es)%nat ->
  Num.pow_half
    (Num.sum (map Num.square
                (z_eps_row self (map Fin (forward_row_reals ts es)))))
  = Fin (folded_distance es).
Proof.
  intros Hts Hes. unfold forward_row_reals.
  rewrite z_eps_row_sphere_point by assumption.
  change (Fin (Rabs (1 + hd 0 es) - 1) :: map Fin (tl es))
    with (map Fin ((Rabs (1 + hd 0 es) - 1) :: tl es)).
  rewrite sum_square_fin. apply pow_half_fin, sumsq_nonneg.
Qed.

Lemma distance_rows (self : Simulator) (A B : list (list R)) :
  length A = length B ->
  Forall (fun ts => length ts = _latent_dim self) A ->
  Forall (fun es => (1 <= length es)%nat) B ->
  map Num.pow_half
      (map Num.sum
           (map (map Num.square)
                (map (z_eps_row self)
                     (map (map Fin) (Np.zip_with forward_row_reals A B)))))
  = map (fun es => Fin (folded_distance es)) B.
Proof.
  intros Hn HA. revert B Hn.
  induction HA as [|ts A Hts _ IH]; intros [|es B] Hn HB;
    try discriminate; [ reflexivity | ].
  inversion HB as [|? ? Hes HB']; subst.
  cbn [Np.zip_with map]. rewrite IH by (auto; simpl in Hn; lia).
  f_equal. now apply distance_row.
Qed.

(** The distance from the manifold of the forward image of angles and
    noise. *)
Lemma distance_of_forward (self : Simulator) (c : nat) (A B : list (list R)) :
  (1 <= _latent_dim self)%nat -> (1 <= c)%nat -> length A = length B ->
  Forall (fun ts => length ts = _latent_dim self) A ->
  Forall (fun es => length es = c) B ->
  distance_from_manifold self
    (of_reals (_latent_dim self + c) (Np.zip_with forward_row_reals A B))
  = Ok (map (fun es => Fin (folded_distance es)) B).
Proof.
  intros Hk Hc Hn HA HB. unfold distance_from_manifold.
  rewrite transform_x_to_z_reals by lia. cbn [bind].
  unfold Np.sum1, Np.map1. cbn [rows]. f_equal.
  apply distance_rows; try assumption.
  eapply Forall_impl; [ | exact HB ]. intros es Hes. cbv beta in Hes. lia.
Qed.

Lemma folded_distance_bound (es : list R) : folded_distance es <= norm2 es.
Proof.
  unfold folded_distance, norm2.
  destruct es as [|e0 es]; cbn [hd tl sumsq fold_right].
  - replace (1 + 0) with 1 by ring. rewrite Rabs_R1.
    replace ((1 - 1) * (1 - 1) + 0) with 0 by ring. lra.
  - fold (sumsq es). pose proof (sumsq_nonneg es) as Hs.
    pose proof (radial_distance_bound e0) as Hb.
    pose proof (Rabs_pos (Rabs (1 + e0) - 1)) as Hp.
    assert (Hsq : (Rabs (1 + e0) - 1) * (Rabs (1 + e0) - 1) <= e0 * e0).
    { apply Rsqr_le_abs_1 in Hb. exact Hb. }
    pose proof (Rle_0_sqr (Rabs (1 + e0) - 1)) as H1.
    pose proof (Rle_0_sqr e0) as H2. unfold Rsqr in H1, H2.
    apply sqrt_le_1; lra.
Qed.

End ForwardDistance.

(* ================================================================== *)
(** ** Drawing the latent variables *)

Lemma chunks_map (A B : Type) (f : A -> B) (n c : nat) (l : list A) :
  Np.chunks n c (map f l) = map (map f) (Np.chunks n c l).
Proof.
  revert l. induction n as [|n IH]; intros l; [ reflexivity | ].
  cbn [Np.chunks map]. now rewrite firstn_map, skipn_map, IH.
Qed.

Lemma length_concat_rows (A : Type) (c : nat) (l : list (list A)) :
  Forall (fun r => length r = c) l -> length (concat l) = length l * c.
Proof.
  induction 1 as [|r l Hr _ IH]; [ reflexivity | ].
  cbn [concat length]. rewrite length_app, IH, Hr. lia.
Qed.

Lemma existsb_bad_scale (W : list R) :
  Forall (fun w => (0 <= w)%R) W ->
  existsb Stats.bad_scale (map Fin W) = false.
Proof.
  induction 1 as [|w W Hw _ IH]; [ reflexivity | ].
  cbn [map existsb]. unfold Stats.bad_scale at 1.
  now rewrite lt_fin, Rltb_false, IH.
Qed.

Lemma wrap_range (a : R) : (0 <= wrap a < 2 * PI)%R.
Proof.
  pose proof PI_RGT_0 as Hpi. unfold wrap.
  pose proof (Zfloor_bound (a / (2 * PI))) as [H1 H2].
  set (q := IZR (Zfloor (a / (2 * PI)))) in *.
  assert (Ha : (a = a / (2 * PI) * (2 * PI))%R) by (field; lra).
  split.
  - apply Rmult_le_compat_r with (r := (2 * PI)%R) in H1; lra.
  - apply Rmult_lt_compat_r with (r := (2 * PI)%R) in H2; lra.
Qed.

Lemma param_index_lt (A : Type) (n : nat) (ps : list A) (j : nat) :
  length ps = n \/ length ps = 1 -> j < n ->
  (if length ps =? n then j else 0) < length ps.
Proof.
  intros Hlen Hj. destruct (Nat.eqb_spec (length ps) n); lia.
Qed.

Lemma param_at_fin (n : nat) (ps : list (R * R)) (j : nat) :
  length ps = n \/ length ps = 1 -> j < n ->
  param_at n (map fin_pair ps) j = fin_pair (param_real n ps j).
Proof.
  intros Hlen Hj. unfold param_at, param_real. rewrite length_map.
  apply (nth_map_lt _ _ fin_pair ps _ (NaN, NaN) (0%R, 0%R)).
  now apply param_index_lt.
Qed.

Lemma param_real_in (n : nat) (ps : list (R * R)) (j : nat) :
  length ps = n \/ length ps = 1 -> j < n -> In (param_real n ps j) ps.
Proof.
  intros Hlen Hj. unfold param_real. apply nth_In. now apply param_index_lt.
Qed.

Lemma phases_rows_wf (k' n : nat) (ps : list (R * R)) :
  Forall (fun r => length r = S k') (phases_rows k' n ps).
Proof.
  unfold phases_rows. apply Forall_map, Forall_forall. intros j _.
  rewrite length_app, repeat_length. simpl. lia.
Qed.

Lemma widths_rows_wf (minw maxw : R) (k n : nat) (ps : list (R * R)) :
  Forall (fun r => length r = k) (widths_rows minw maxw k n ps).
Proof.
  unfold widths_rows. apply Forall_map, Forall_forall. intros j _.
  apply repeat_length.
Qed.

(** The parameters of a constructed simulator, as real numbers. *)
Lemma parse_parameters_reals (k' d : nat) (minw maxw : R) (eps : num)
    (n : nat) (ps : list (R * R)) :
  length ps = n \/ length ps = 1 ->
  _parse_parameters
    (mk_sim (S k') d (Fin (0.5 * PI)) (Fin (1.5 * PI))
            (Fin minw) (Fin maxw) eps)
    n (flat_params ps)
  = Ok (of_reals (S k') (phases_rows k' n ps),
        of_reals (S k') (widths_rows minw maxw (S k') n ps)).
Proof.
  intros Hlen.
  rewrite (parse_parameters_rows _ n _ (map fin_pair ps) k');
    [ | apply reshape_pairs_flat | reflexivity | now rewrite length_map ].
  unfold of_reals, phases_rows, widths_rows. rewrite !map_map.
  f_equal. f_equal.
  - f_equal. apply map_ext_in. intros j Hj. apply in_seq in Hj.
    rewrite param_at_fin by (assumption || lia).
    rewrite map_app, map_repeat. reflexivity.
  - f_equal. apply map_ext_in. intros j Hj. apply in_seq in Hj.
    rewrite param_at_fin by (assumption || lia).
    rewrite map_repeat. reflexivity.
Qed.

Lemma random_normal_reals (L W : list R) (size : nat) (st : RandomState) :
  length L = size -> length W = size ->
  Forall (fun w => (0 <= w)%R) W ->
  Stats.random_normal (map Fin L) (map Fin W) size st
  = (Ok (map Fin (map (fun i => (nth i L 0 + nth i W 0 * gauss st i)%R)
                      (seq 0 size))),
     mk_rs (fun i => gauss st (size + i)) (double st)).
Proof.
  intros HL HW Hpos. unfold Stats.random_normal.
  rewrite existsb_bad_scale by assumption. f_equal. f_equal.
  rewrite map_map. apply map_ext_in. intros i Hi. apply in_seq in Hi.
  now rewrite !nth_fin by lia.
Qed.

Lemma random_normal0_reals (eps : R) (size : nat) (st : RandomState) :
  (0 <= eps)%R ->
  Stats.random_normal0 (Fin 0) (Fin eps) size st
  = (Ok (map Fin (map (fun i => (0 + eps * gauss st i)%R) (seq 0 size))),
     mk_rs (fun i => gauss st (size + i)) (double st)).
Proof.
  intros He. unfold Stats.random_normal0, Stats.bad_scale.
  rewrite lt_fin, Rltb_false by assumption.
  now rewrite map_map.
Qed.

(** What [_draw_z] returns for real parameters that give no negative
    width. *)
Lemma draw_z_reals (k' d : nat) (minw maxw eps : R) (n : nat)
    (ps : list (R * R)) (st : RandomState) :
  (0 <= eps)%R -> length ps = n \/ length ps = 1 ->
  Forall (fun p => (0 <= width_real minw maxw p)%R) ps ->
  _draw_z (mk_sim (S k') d (Fin (0.5 * PI)) (Fin (1.5 * PI))
                  (Fin minw) (Fin maxw) (Fin eps))
          n (flat_params ps) st
  = (Ok (of_reals (S k')
           (drawn_angles (S k') n (concat (phases_rows k' n ps))
                         (concat (widths_rows minw maxw (S k') n ps))
                         (gauss st)),
         of_reals (d - S k') (drawn_noise (S k') (d - S k') n eps (gauss st))),
     mk_rs (fun i => gauss st (n * S k' + (n * (d - S k') + i))) (double st)).
Proof.
  intros He Hlen Hw. unfold _draw_z.
  rewrite parse_parameters_reals by assumption.
  cbn [_latent_dim _data_dim _epsilon].
  unfold Np.flatten, of_reals. cbn [rows]. rewrite <- !concat_map.
  rewrite random_normal_reals.
  - unfold Np.reshape, Np.map1. cbn [rows shape1].
    rewrite random_normal0_reals by assumption. cbn [gauss double].
    unfold drawn_angles, drawn_noise. rewrite !chunks_map.
    f_equal. f_equal; f_equal.
    rewrite !map_map. f_equal. apply map_ext. intros r. rewrite !map_map.
    apply map_ext. intros a. apply mod_two_pi_fin.
  - rewrite (length_concat_rows _ (S k')) by apply phases_rows_wf.
    unfold phases_rows. now rewrite length_map, length_seq.
  - rewrite (length_concat_rows _ (S k')) by apply widths_rows_wf.
    unfold widths_rows. now rewrite length_map, length_seq.
  - apply Forall_concat. unfold widths_rows. apply Forall_map, Forall_forall.
    intros j Hj. apply in_seq in Hj. apply Forall_forall. intros w Hin.
    apply repeat_spec in Hin. subst w.
    rewrite Forall_forall in Hw. apply Hw. apply param_real_in; [ assumption | lia ].
Qed.

(** A simulator built from real arguments. *)
Lemma init_reals latent_dim data_dim minw maxw eps self :
  __init__ latent_dim data_dim (Fin minw) (Fin maxw) (Fin eps) = Ok self ->
  self = mk_sim latent_dim data_dim (Fin (0.5 * PI)) (Fin (1.5 * PI))
                (Fin minw) (Fin maxw) (Fin eps)
  /\ latent_dim < data_dim
  /\ (0 < eps)%R /\ (0 < minw < maxw)%R /\ (maxw <= 2 * PI)%R.
Proof.
  intros H. apply init_inv in H as (-> & Hd & He & a & b & Ha & Hb & Hab & H2).
  injection Ha as <-. injection Hb as <-.
  rewrite gt_fin in He. apply Rltb_spec in He. auto.
Qed.

Lemma width_real_pos (minw maxw : R) (p : R * R) :
  (0 < minw < maxw)%R -> in_box p -> (minw <= width_real minw maxw p <= maxw)%R.
Proof.
  intros Hw [[H1 H2] _]. unfold width_real. split; nra.
Qed.

Lemma widths_nonneg (minw maxw : R) (ps : list (R * R)) :
  (0 < minw < maxw)%R -> Forall in_box ps ->
  Forall (fun p => (0 <= width_real minw maxw p)%R) ps.
Proof.
  intros Hw Hps. eapply Forall_impl; [ | exact Hps ].
  intros p Hp. pose proof (width_real_pos minw maxw p Hw Hp). lra.
Qed.

Lemma drawn_angles_length (k n : nat) (L W : list R) (g : nat -> R) :
  length (drawn_angles k n L W g) = n.
Proof. unfold drawn_angles. now rewrite length_map, length_chunks. Qed.

Lemma drawn_angles_rows (k n : nat) (L W : list R) (g : nat -> R) :
  Forall (fun ts => length ts = k) (drawn_angles k n L W g).
Proof.
  unfold drawn_angles. apply Forall_map.
  eapply Forall_impl;
    [ | apply chunks_wf; now rewrite length_map, length_seq ].
  intros r Hr. cbv beta in Hr. now rewrite length_map.
Qed.

Lemma drawn_angles_range (k n : nat) (L W : list R) (g : nat -> R) :
  Forall (Forall (fun t => (0 <= t < 2 * PI)%R)) (drawn_angles k n L W g).
Proof.
  unfold drawn_angles. apply Forall_map, Forall_forall. intros r _.
  apply Forall_map, Forall_forall. intros a _. apply wrap_range.
Qed.

Lemma drawn_noise_length (k c n : nat) (eps : R) (g : nat -> R) :
  length (drawn_noise k c n eps g) = n.
Proof. unfold drawn_noise. apply length_chunks. Qed.

Lemma drawn_noise_rows (k c n : nat) (eps : R) (g : nat -> R) :
  Forall (fun es => length es = c) (drawn_noise k c n eps g).
Proof.
  unfold drawn_noise. apply chunks_wf. now rewrite length_map, length_seq.
Qed.

(** The rows of an array that is cut out of a sequence of indices. *)
Lemma chunks_seq (n c s : nat) :
  Np.chunks n c (seq s (n * c)) = map (fun j => seq (s + j * c) c) (seq 0 n).
Proof.
  revert s. induction n as [|n IH]; intros s; [ reflexivity | ].
  cbn [Np.chunks]. replace (S n * c) with (c + n * c) by lia.
  rewrite seq_app.
  rewrite firstn_app, length_seq, Nat.sub_diag, firstn_O, app_nil_r.
  rewrite firstn_all2 by (rewrite length_seq; lia).
  rewrite skipn_app, length_seq, Nat.sub_diag, skipn_O.
  rewrite skipn_all2 by (rewrite length_seq; lia).
  cbn [app]. rewrite IH. rewrite <- cons_seq, <- seq_shift.
  cbn [map]. rewrite map_map. f_equal.
  - f_equal. lia.
  - apply map_ext. intros j. f_equal. lia.
Qed.

Lemma map_seq_from (A : Type) (f : nat -> A) (s c : nat) :
  map f (seq s c) = map (fun i => f (s + i)) (seq 0 c).
Proof.
  revert s. induction c as [|c IH]; intros s; [ reflexivity | ].
  cbn [seq map]. rewrite Nat.add_0_r. f_equal.
  rewrite IH, <- seq_shift, map_map. apply map_ext. intros i. f_equal. lia.
Qed.

Lemma drawn_noise_nth (k c n : nat) (eps : R) (g : nat -> R) (j : nat) :
  j < n ->
  nth j (drawn_noise k c n eps g) []
  = map (fun i => (0 + eps * g (n * k + j * c + i)%nat)%R) (seq 0 c).
Proof.
  intros Hj. unfold drawn_noise. rewrite chunks_map, chunks_seq.
  rewrite map_map.
  rewrite (nth_map_lt _ _ _ _ _ [] 0) by now rewrite length_seq.
  rewrite seq_nth by assumption. cbn [Nat.add].
  rewrite map_seq_from. apply map_ext. intros i. do 3 f_equal. lia.
Qed.

Lemma nth_concat_rows (A : Type) (c : nat) (l : list (list A)) (j i : nat)
    (d : A) :
  Forall (fun r => length r = c) l -> i < c ->
  nth (j * c + i) (concat l) d = nth i (nth j l []) d.
Proof.
  intros Hl Hi. revert j.
  induction Hl as [|r l Hr _ IH]; intros j.
  - cbn [concat]. now destruct j, i, (_ + _).
  - cbn [concat]. destruct j as [|j].
    + cbn [Nat.mul Nat.add nth]. apply app_nth1. lia.
    + cbn [nth]. rewrite app_nth2 by (rewrite Hr; simpl; lia).
      rewrite <- IH. f_equal. rewrite Hr. simpl. lia.
Qed.

Lemma drawn_angles_nth (k n : nat) (L W : list R) (g : nat -> R) (j : nat) :
  j < n ->
  nth j (drawn_angles k n L W g) []
  = map (fun i => wrap (nth (j * k + i) L 0
                        + nth (j * k + i) W 0 * g (j * k + i)%nat)%R)
        (seq 0 k).
Proof.
  intros Hj. unfold drawn_angles. rewrite chunks_map, chunks_seq.
  rewrite !map_map.
  rewrite (nth_map_lt _ _ _ _ _ [] 0) by now rewrite length_seq.
  rewrite seq_nth by assumption. cbn [Nat.add].
  rewrite map_map. now rewrite map_seq_from.
Qed.

Lemma nth_zip_with (A B C : Type) (f : A -> B -> C) (l : list A)
    (m : list B) (j : nat) (da : A) (db : B) (dc : C) :
  j < length l -> j < length m ->
  nth j (Np.zip_with f l m) dc = f (nth j l da) (nth j m db).
Proof.
  revert m j. induction l as [|a l IH]; intros [|b m] [|j] Hl Hm;
    simpl in *; try lia; [ reflexivity | ].
  apply IH; lia.
Qed.

Lemma phases_rows_nth (k' n : nat) (ps : list (R * R)) (j i : nat) :
  j < n -> i < S k' ->
  nth i (nth j (phases_rows k' n ps) []) 0%R
  = if i =? k' then phase_real (param_real n ps j) else (0.5 * PI)%R.
Proof.
  intros Hj Hi. unfold phases_rows.
  rewrite (nth_map_lt _ _ _ _ _ [] 0) by now rewrite length_seq.
  rewrite seq_nth by assumption. cbn [Nat.add].
  destruct (Nat.eqb_spec i k') as [->|Hne].
  - rewrite app_nth2 by (rewrite repeat_length; lia).
    now rewrite repeat_length, Nat.sub_diag.
  - rewrite app_nth1 by (rewrite repeat_length; lia).
    apply nth_repeat_lt. lia.
Qed.

Lemma widths_rows_nth (minw maxw : R) (k n : nat) (ps : list (R * R))
    (j i : nat) :
  j < n -> i < k ->
  nth i (nth j (widths_rows minw maxw k n ps) []) 0%R
  = width_real minw maxw (param_real n ps j).
Proof.
  intros Hj Hi. unfold widths_rows.
  rewrite (nth_map_lt _ _ _ _ _ [] 0) by now rewrite length_seq.
  rewrite seq_nth by assumption. cbn [Nat.add].
  now apply nth_repeat_lt.
Qed.

(** Row [j] of the angles that [_draw_z] draws: every angle has the
    width of the sample's parameters; the last one is centred at their
    phase, the others at [pi / 2]. *)
Lemma drawn_angles_row (k' n : nat) (minw maxw : R) (ps : list (R * R))
    (g : nat -> R) (j : nat) :
  j < n ->
  nth j (drawn_angles (S k') n (concat (phases_rows k' n ps))
                      (concat (widths_rows minw maxw (S k') n ps)) g) []
  = map (fun i =>
           wrap ((if i =? k' then phase_real (param_real n ps j)
                  else 0.5 * PI)
                 + width_real minw maxw (param_real n ps j)
                   * g (j * S k' + i)%nat)%R)
        (seq 0 (S k')).
Proof.
  intros Hj. rewrite drawn_angles_nth by assumption.
  apply map_ext_in. intros i Hi. apply in_seq in Hi.
  rewrite (nth_concat_rows _ (S k')) by (try apply phases_rows_wf; lia).
  rewrite (nth_concat_rows _ (S k')) by (try apply widths_rows_wf; lia).
  rewrite phases_rows_nth, widths_rows_nth by lia. reflexivity.
Qed.

Lemma drawn_noise_row (k c n : nat) (eps : R) (g : nat -> R) (j : nat) :
  j < n ->
  nth j (drawn_noise k c n eps g) []
  = map (fun i => (eps * g (n * k + j * c + i)%nat)%R) (seq 0 c).
Proof.
  intros Hj. rewrite drawn_noise_nth by assumption.
  apply map_ext. intros i. ring.
Qed.

(** X3: for a simulator with at least one latent dimension and
    parameters in the support of the prior (one vector per sample, or one
    for all), [_draw_z] succeeds.  Every angle of sample [j] is a normal
    deviate scaled by the width that the sample's parameters give and
    shifted by [pi / 2] (by their phase for the last angle), reduced to
    [0, 2 pi); every noise coordinate is a further deviate times
    [epsilon].  The call uses [n * data_dim] normal deviates and no
    uniform one. *)
Theorem X3_draw_z :
  forall (k' d : nat) (minw maxw eps : R) (self : Simulator) (n : nat)
         (ps : list (R * R)) (st : RandomState),
    __init__ (S k') d (Fin minw) (Fin maxw) (Fin eps) = Ok self ->
    length ps = n \/ length ps = 1 -> Forall in_box ps ->
    exists A B st',
      _draw_z self n (flat_params ps) st
      = (Ok (of_reals (S k') A, of_reals (d - S k') B), st')
      /\ length A = n /\ length B = n
      /\ (forall j, j < n ->
            nth j A []
            = map (fun i =>
                     wrap ((if i =? k' then phase_real (param_real n ps j)
                            else 0.5 * PI)
                           + width_real minw maxw (param_real n ps j)
                             * gauss st (j * S k' + i)%nat)%R)
                  (seq 0 (S k'))
            /\ nth j B []
               = map (fun i =>
                        (eps * gauss st (n * S k' + j * (d - S k') + i)%nat)%R)
                     (seq 0 (d - S k')))
      /\ Forall (Forall (fun t => (0 <= t < 2 * PI)%R)) A
      /\ (forall i, gauss st' i = gauss st (n * d + i))
      /\ double st' = double st.
Proof.
  intros k' d minw maxw eps self n ps st Hinit Hlen Hps.
  apply init_reals in Hinit as (-> & Hd & He & Hw & _).
  eexists _, _, _. split.
  - apply draw_z_reals; [ lra | assumption | now apply widths_nonneg ].
  - split; [ apply drawn_angles_length | ].
    split; [ apply drawn_noise_length | ].
    split; [ | split; [ apply drawn_angles_range | ] ].
    + intros j Hj. split;
        [ now apply drawn_angles_row | now apply drawn_noise_row ].
    + split; [ | reflexivity ].
      intros i. cbn [gauss]. f_equal. nia.
Qed.

Lemma in_box_origin : Forall in_box [(0%R, 0%R)].
Proof. constructor; [ | constructor ]. unfold in_box. simpl. lra. Qed.

Lemma X3_draw_z_witness :
  exists A B st',
    _draw_z (mk_sim 2 3 (Fin (0.5 * PI)) (Fin (1.5 * PI))
                    (Fin (0.1 * PI)) (Fin (0.4 * PI)) (Fin 0.01))
            2 (flat_params [(0%R, 0%R)])
            (mk_rs (fun _ => 1%R) (fun _ => 0%R))
    = (Ok (of_reals 2 A, of_reals (3 - 2) B), st')
    /\ length A = 2 /\ length B = 2
    /\ (forall j, j < 2 ->
          nth j A []
          = map (fun i =>
                   wrap ((if i =? 1
                          then phase_real (param_real 2 [(0%R, 0%R)] j)
                          else 0.5 * PI)
                         + width_real (0.1 * PI) (0.4 * PI)
                                      (param_real 2 [(0%R, 0%R)] j)
                           * 1)%R)
                (seq 0 2)
          /\ nth j B [] = map (fun i => (0.01 * 1)%R) (seq 0 (3 - 2)))
    /\ Forall (Forall (fun t => (0 <= t < 2 * PI)%R)) A
    /\ (forall i, gauss st' i = 1%R)
    /\ double st' = (fun _ => 0%R).
Proof.
  apply (X3_draw_z 1 3 (0.1 * PI) (0.4 * PI) 0.01 _ 2 [(0%R, 0%R)]
           (mk_rs (fun _ => 1%R) (fun _ => 0%R))).
  - exact init_default_2_3.
  - right. reflexivity.
  - exact in_box_origin.
Defined.

(* ================================================================== *)
(** ** Sampling *)

(** What [sample] returns for real parameters that give no negative
    width: the forward image of the drawn angles and noise. *)
Lemma sample_reals (k' d : nat) (minw maxw eps : R) (n : nat)
    (ps : list (R * R)) (st : RandomState) :
  S k' < d -> (0 <= eps)%R -> length ps = n \/ length ps = 1 ->
  Forall (fun p => (0 <= width_real minw maxw p)%R) ps ->
  sample (mk_sim (S k') d (Fin (0.5 * PI)) (Fin (1.5 * PI))
                 (Fin minw) (Fin maxw) (Fin eps))
         n (Some (flat_params ps)) st
  = (Ok (of_reals d
           (Np.zip_with forward_row_reals
              (drawn_angles (S k') n (concat (phases_rows k' n ps))
                            (concat (widths_rows minw maxw (S k') n ps))
                            (gauss st))
              (drawn_noise (S k') (d - S k') n eps (gauss st)))),
     mk_rs (fun i => gauss st (n * S k' + (n * (d - S k') + i))) (double st)).
Proof.
  intros Hd He Hlen Hw. unfold sample.
  rewrite draw_z_reals by assumption.
  rewrite transform_z_to_x_reals.
  - replace (S k' + (d - S k')) with d by lia. reflexivity.
  - lia.
  - now rewrite drawn_angles_length, drawn_noise_length.
  - apply drawn_angles_rows.
  - apply drawn_noise_rows.
Qed.

Lemma sampled_row (k c n : nat) (L W : list R) (eps : R) (g : nat -> R)
    (j : nat) :
  1 <= c -> j < n ->
  nth j (Np.zip_with forward_row_reals (drawn_angles k n L W g)
                     (drawn_noise k c n eps g)) []
  = sphere_point 1 (1 + eps * g (n * k + j * c)%nat)%R
                 (nth j (drawn_angles k n L W g) [])
    ++ map (fun i => (eps * g (n * k + j * c + 1 + i)%nat)%R) (seq 0 (c - 1)).
Proof.
  intros Hc Hj.
  rewrite (nth_zip_with _ _ _ _ _ _ _ [] [])
    by now rewrite ?drawn_angles_length, ?drawn_noise_length.
  rewrite (drawn_noise_row k c n eps g j Hj).
  destruct c as [|c]; [ lia | ].
  unfold forward_row_reals. cbn [seq map hd tl].
  rewrite !Nat.add_0_r, Nat.sub_succ, Nat.sub_0_r.
  f_equal. rewrite map_seq_from. apply map_ext. intros i.
  do 2 f_equal. lia.
Qed.

Lemma sumsq_scale (e : R) (l : list R) :
  sumsq (map (fun x => e * x)%R l) = (e * e * sumsq l)%R.
Proof.
  induction l as [|x l IH]; cbn [map sumsq fold_right]; [ ring | ].
  fold (sumsq (map (fun x => e * x)%R l)). fold (sumsq l). rewrite IH. ring.
Qed.

Lemma norm2_scale (e : R) (l : list R) :
  (0 <= e)%R -> norm2 (map (fun x => e * x)%R l) = (e * norm2 l)%R.
Proof.
  intros He. unfold norm2. rewrite sumsq_scale.
  rewrite sqrt_mult by (try apply sumsq_nonneg; nra).
  now rewrite sqrt_square.
Qed.

Lemma folded_distance_nonneg (es : list R) : (0 <= folded_distance es)%R.
Proof. unfold folded_distance. apply sqrt_pos. Qed.

(** X4: for a simulator with at least one latent dimension and
    parameters in the support of the prior, [sample] returns [n] rows of
    [data_dim] real numbers.  The first [latent_dim + 1] coordinates of
    sample [j] lie on the sphere of radius [|1 + epsilon g|], where [g]
    is the first normal deviate of the sample's noise; the other
    coordinates are the following deviates times [epsilon]. *)
Theorem X4_sample :
  forall (k' d : nat) (minw maxw eps : R) (self : Simulator) (n : nat)
         (ps : list (R * R)) (st : RandomState),
    __init__ (S k') d (Fin minw) (Fin maxw) (Fin eps) = Ok self ->
    length ps = n \/ length ps = 1 -> Forall in_box ps ->
    exists X st',
      sample self n (Some (flat_params ps)) st = (Ok (of_reals d X), st')
      /\ length X = n
      /\ Forall (fun r => length r = d) X
      /\ (forall j, j < n ->
            norm2 (firstn (S k' + 1) (nth j X []))
            = Rabs (1 + eps * gauss st (n * S k' + j * (d - S k'))%nat)
            /\ skipn (S k' + 1) (nth j X [])
               = map (fun i =>
                        (eps * gauss st (n * S k' + j * (d - S k') + 1 + i)%nat)%R)
                     (seq 0 (d - S k' - 1)))
      /\ (forall i, gauss st' i = gauss st (n * d + i))
      /\ double st' = double st.
Proof.
  intros k' d minw maxw eps self n ps st Hinit Hlen Hps.
  apply init_reals in Hinit as (-> & Hd & He & Hw & _).
  eexists _, _. split.
  - apply sample_reals;
      [ assumption | lra | assumption | now apply widths_nonneg ].
  - split.
    { rewrite length_zip_with, drawn_angles_length, drawn_noise_length.
      apply Nat.min_id. }
    split.
    { eapply Forall_impl;
        [ | apply (zip_forward_rows_wf (S k') (d - S k'));
            [ lia | apply drawn_angles_rows | apply drawn_noise_rows ] ].
      intros r Hr. cbv beta in Hr. lia. }
    split.
    { intros j Hj. rewrite sampled_row by lia.
      assert (Hl : length (sphere_point 1
                     (1 + eps * gauss st (n * S k' + j * (d - S k')))%R
                     (nth j (drawn_angles (S k') n
                               (concat (phases_rows k' n ps))
                               (concat (widths_rows minw maxw (S k') n ps))
                               (gauss st)) [])) = S k' + 1).
      { rewrite sphere_point_length, drawn_angles_nth by assumption.
        rewrite length_map, length_seq. lia. }
      split.
      - rewrite firstn_app, Hl, Nat.sub_diag, firstn_O, app_nil_r.
        rewrite firstn_all2 by lia. apply norm2_sphere_point.
      - rewrite skipn_app, Hl, Nat.sub_diag, skipn_O.
        rewrite skipn_all2 by lia. reflexivity. }
    split; [ | reflexivity ].
    intros i. cbn [gauss]. f_equal. nia.
Qed.

Lemma X4_sample_witness :
  exists X st',
    sample (mk_sim 2 3 (Fin (0.5 * PI)) (Fin (1.5 * PI))
                   (Fin (0.1 * PI)) (Fin (0.4 * PI)) (Fin 0.01))
           2 (Some (flat_params [(0%R, 0%R)]))
           (mk_rs (fun _ => 1%R) (fun _ => 0%R))
    = (Ok (of_reals 3 X), st')
    /\ length X = 2
    /\ Forall (fun r => length r = 3) X
    /\ (forall j, j < 2 ->
          norm2 (firstn (2 + 1) (nth j X [])) = Rabs (1 + 0.01 * 1)
          /\ skipn (2 + 1) (nth j X [])
             = map (fun i => (0.01 * 1)%R) (seq 0 (3 - 2 - 1)))
    /\ (forall i, gauss st' i = 1%R)
    /\ double st' = (fun _ => 0%R).
Proof.
  apply (X4_sample 1 3 (0.1 * PI) (0.4 * PI) 0.01 _ 2 [(0%R, 0%R)]
           (mk_rs (fun _ => 1%R) (fun _ => 0%R))).
  - exact init_default_2_3.
  - right. reflexivity.
  - exact in_box_origin.
Defined.

(** X5: the distance from the manifold of every sample that [sample]
    returns is a real number, at most [epsilon] times the Euclidean norm
    of the normal deviates drawn for the sample's noise. *)
Theorem X5_sample_distance :
  forall (k' d : nat) (minw maxw eps : R) (self : Simulator) (n : nat)
         (ps : list (R * R)) (st : RandomState),
    __init__ (S k') d (Fin minw) (Fin maxw) (Fin eps) = Ok self ->
    length ps = n \/ length ps = 1 -> Forall in_box ps ->
    exists x st' ds,
      sample self n (Some (flat_params ps)) st = (Ok x, st')
      /\ distance_from_manifold self x = Ok (map Fin ds)
      /\ length ds = n
      /\ forall j, j < n ->
           (0 <= nth j ds 0
            <= eps * norm2 (map (fun i =>
                                   gauss st (n * S k' + j * (d - S k') + i)%nat)
                                (seq 0 (d - S k'))))%R.
Proof.
  intros k' d minw maxw eps self n ps st Hinit Hlen Hps.
  apply init_reals in Hinit as (-> & Hd & He & Hw & _).
  eexists _, _,
    (map folded_distance (drawn_noise (S k') (d - S k') n eps (gauss st))).
  split.
  - apply sample_reals;
      [ assumption | lra | assumption | now apply widths_nonneg ].
  - split.
    { rewrite map_map.
      pose proof (distance_of_forward
               (mk_sim (S k') d (Fin (0.5 * PI)) (Fin (1.5 * PI))
                       (Fin minw) (Fin maxw) (Fin eps)) (d - S k')) as Hdist.
      cbn [_latent_dim] in Hdist.
      replace (S k' + (d - S k')) with d in Hdist by lia.
      apply Hdist.
      - cbn [_latent_dim]. lia.
      - lia.
      - now rewrite drawn_angles_length, drawn_noise_length.
      - apply drawn_angles_rows.
      - apply drawn_noise_rows. }
    split; [ now rewrite length_map, drawn_noise_length | ].
    intros j Hj.
    rewrite (nth_map_lt _ _ folded_distance _ _ 0%R [])
      by now rewrite drawn_noise_length.
    split; [ apply folded_distance_nonneg | ].
    eapply Rle_trans; [ apply folded_distance_bound | ].
    rewrite drawn_noise_row by assumption.
    rewrite <- (map_map (fun i => gauss st (n * S k' + j * (d - S k') + i))
                        (fun x => (eps * x)%R)).
    rewrite norm2_scale by lra. apply Rle_refl.
Qed.

Lemma X5_sample_distance_witness :
  exists x st' ds,
    sample (mk_sim 2 3 (Fin (0.5 * PI)) (Fin (1.5 * PI))
                   (Fin (0.1 * PI)) (Fin (0.4 * PI)) (Fin 0.01))
           2 (Some (flat_params [(0%R, 0%R)]))
           (mk_rs (fun _ => 1%R) (fun _ => 0%R))
    = (Ok x, st')
    /\ distance_from_manifold
         (mk_sim 2 3 (Fin (0.5 * PI)) (Fin (1.5 * PI))
                 (Fin (0.1 * PI)) (Fin (0.4 * PI)) (Fin 0.01)) x
       = Ok (map Fin ds)
    /\ length ds = 2
    /\ forall j, j < 2 ->
         (0 <= nth j ds 0
          <= 0.01 * norm2 (map (fun i => 1) (seq 0 (3 - 2))))%R.
Proof.
  apply (X5_sample_distance 1 3 (0.1 * PI) (0.4 * PI) 0.01 _ 2 [(0%R, 0%R)]
           (mk_rs (fun _ => 1%R) (fun _ => 0%R))).
  - exact init_default_2_3.
  - right. reflexivity.
  - exact in_box_origin.
Defined.

(* ================================================================== *)
(** ** The inverse map after the forward map *)

Section LatentRecovery.

Local Open Scope R_scope.

Lemma norm2_sphere_point_pos (a r : R) (ts : list R) :
  0 < a -> 0 < r -> norm2 (sphere_point a r ts) = a * r.
Proof.
  intros Ha Hr. unfold norm2. rewrite sumsq_sphere_point.
  apply sqrt_square. nra.
Qed.

Lemma cos_2PI_minus (t : R) : cos (2 * PI - t) = cos t.
Proof. rewrite cos_minus, cos_2PI, sin_2PI. ring. Qed.

Lemma sphere_point_cons_length (a r : R) (ts : list R) :
  (1 <= length ts)%nat -> (2 <= length (sphere_point a r ts))%nat.
Proof. intros H. rewrite sphere_point_length. lia. Qed.

(** The angles of the point with the angles [ts] are [ts]. *)
Lemma angles_sphere_point (r : R) (ts : list R) :
  0 < r -> forall a, 0 < a -> interior_angles ts ->
  angles (sphere_point a r ts) = ts.
Proof.
  intros Hr. pose proof PI_RGT_0 as Hpi.
  induction ts as [|t ts IH]; intros a Ha Hint; [ contradiction | ].
  assert (Har : a * r <> 0) by nra.
  destruct ts as [|t' ts].
  - cbn [interior_angles] in Hint.
    change (sphere_point a r [t])
      with [a * cos t * r; a * sin t * cos (2 * PI * 1) * r].
    rewrite angles_two.
    change [a * cos t * r; a * sin t * cos (2 * PI * 1) * r]
      with (sphere_point a r [t]).
    rewrite norm2_sphere_point_pos by assumption.
    replace (a * cos t * r / (a * r)) with (cos t) by (field; nra).
    rewrite cos_2PI_1.
    destruct (Rle_lt_dec t PI) as [Hle|Hgt].
    + assert (Hs : 0 <= sin t) by (apply sin_ge_0; lra).
      rewrite Rltb_false by nra.
      f_equal. apply acos_cos. lra.
    + assert (Hs : sin t < 0) by (apply sin_lt_0; lra).
      rewrite Rltb_true by nra.
      f_equal. rewrite <- cos_2PI_minus, acos_cos by lra. ring.
  - cbn [interior_angles] in Hint. destruct Hint as [Ht Hint].
    change (sphere_point a r (t :: t' :: ts))
      with (a * cos t * r :: sphere_point (a * sin t) r (t' :: ts)).
    rewrite angles_cons by (apply sphere_point_cons_length; simpl; lia).
    change (a * cos t * r :: sphere_point (a * sin t) r (t' :: ts))
      with (sphere_point a r (t :: t' :: ts)).
    rewrite norm2_sphere_point_pos by assumption.
    replace (a * cos t * r / (a * r)) with (cos t) by (field; nra).
    rewrite acos_cos by lra. f_equal.
    apply IH; [ | exact Hint ].
    pose proof (sin_gt_0 t (proj1 Ht) (proj2 Ht)). nra.
Qed.

Lemma off_axis_push (y : R) (ys : list R) :
  (2 <= length ys)%nat -> off_axis ys -> off_axis (y :: ys).
Proof.
  unfold off_axis. intros Hl H. cbn [length].
  replace (S (length ys) - 2)%nat with (S (length ys - 2)) by lia.
  exact H.
Qed.

Lemma off_axis_sphere_point (r : R) (ts : list R) :
  0 < r -> forall a, 0 < a -> interior_angles ts ->
  off_axis (sphere_point a r ts).
Proof.
  intros Hr. induction ts as [|t ts IH]; intros a Ha Hint; [ contradiction | ].
  destruct ts as [|t' ts].
  - unfold off_axis. cbn [sphere_point length Nat.sub skipn].
    change (0 < sumsq (sphere_point a r [t])).
    rewrite sumsq_sphere_point.
    assert (Har : 0 < a * r) by nra. nra.
  - cbn [interior_angles] in Hint. destruct Hint as [Ht Hint].
    change (sphere_point a r (t :: t' :: ts))
      with (a * cos t * r :: sphere_point (a * sin t) r (t' :: ts)).
    apply off_axis_push; [ apply sphere_point_cons_length; simpl; lia | ].
    apply IH; [ | exact Hint ].
    pose proof (sin_gt_0 t (proj1 Ht) (proj2 Ht)). nra.
Qed.

Lemma firstn_forward_row (ts es : list R) :
  firstn (length ts + 1) (forward_row_reals ts es)
  = sphere_point 1 (1 + hd 0 es) ts.
Proof.
  unfold forward_row_reals.
  rewrite firstn_app, sphere_point_length.
  replace (length ts + 1 - S (length ts))%nat with 0%nat by lia.
  rewrite firstn_O, app_nil_r. apply firstn_all2.
  rewrite sphere_point_length. lia.
Qed.

Lemma recover_row (self : Simulator) (ts es : list R) :
  (1 <= _latent_dim self)%nat -> length ts = _latent_dim self ->
  (1 <= length es)%nat -> interior_angles ts -> -1 < hd 0 es ->
  z_phi_row self (map Fin (forward_row_reals ts es)) = map Fin ts
  /\ z_eps_row self (map Fin (forward_row_reals ts es)) = map Fin es.
Proof.
  intros Hk Hts Hes Hint Hr. split.
  - pose proof (z_phi_row_fin self (forward_row_reals ts es)) as H.
    cbv zeta in H. rewrite <- Hts in H.
    rewrite firstn_forward_row in H.
    rewrite H.
    + f_equal. apply angles_sphere_point; [ lra | lra | assumption ].
    + lia.
    + rewrite forward_row_reals_length by assumption. lia.
    + apply off_axis_sphere_point; [ lra | lra | assumption ].
  - unfold forward_row_reals.
    rewrite z_eps_row_sphere_point by assumption.
    destruct es as [|e0 es]; [ simpl in Hes; lia | ].
    cbn [hd tl map] in *. rewrite Rabs_pos_eq by lra.
    do 2 f_equal. ring.
Qed.

Lemma recover_rows (self : Simulator) (A B : list (list R)) :
  (1 <= _latent_dim self)%nat -> length A = length B ->
  Forall (fun ts => length ts = _latent_dim self /\ interior_angles ts) A ->
  Forall (fun es => (1 <= length es)%nat /\ -1 < hd 0 es) B ->
  map (z_phi_row self) (map (map Fin) (Np.zip_with forward_row_reals A B))
  = map (map Fin) A
  /\ map (z_eps_row self) (map (map Fin) (Np.zip_with forward_row_reals A B))
     = map (map Fin) B.
Proof.
  intros Hk Hn HA. revert B Hn.
  induction HA as [|ts A [Hts Hint] _ IH]; intros [|es B] Hn HB;
    try discriminate; [ split; reflexivity | ].
  inversion HB as [|? ? [Hes Hr] HB']; subst.
  cbn [Np.zip_with map].
  destruct (IH B) as [IH1 IH2]; [ simpl in Hn; lia | assumption | ].
  destruct (recover_row self ts es) as [H1 H2]; try assumption.
  rewrite IH1, IH2, H1, H2. split; reflexivity.
Qed.

End LatentRecovery.

(** X6: the inverse map undoes the forward map on latent variables in
    their principal range.  For angles whose last column lies in
    [0, 2 pi) and whose other columns lie strictly between 0 and [pi],
    and noise whose first column is above [-1] (a positive radius),
    [_transform_z_to_x] succeeds and [_transform_x_to_z] returns the
    angles and the noise it was given. *)
Theorem X6_latent_recovery :
  forall (self : Simulator) (c : nat) (A B : list (list R)),
    1 <= _latent_dim self -> 1 <= c -> length A = length B ->
    Forall (fun ts => length ts = _latent_dim self /\ interior_angles ts) A ->
    Forall (fun es => length es = c /\ (-1 < hd 0 es)%R) B ->
    exists x,
      _transform_z_to_x (of_reals (_latent_dim self) A) (of_reals c B) = Ok x
      /\ shape1 x = _latent_dim self + c
      /\ _transform_x_to_z self x
         = Ok (of_reals (_latent_dim self) A, of_reals c B).
Proof.
  intros self c A B Hk Hc Hn HA HB.
  exists (of_reals (_latent_dim self + c) (Np.zip_with forward_row_reals A B)).
  split.
  - apply transform_z_to_x_reals; try assumption.
    + eapply Forall_impl; [ | exact HA ]. now intros ts [H _].
    + eapply Forall_impl; [ | exact HB ]. now intros es [H _].
  - split; [ reflexivity | ].
    rewrite transform_x_to_z_reals by lia.
    destruct (recover_rows self A B) as [H1 H2]; try assumption.
    { eapply Forall_impl; [ | exact HB ]. intros es [H1 H2]. split; [ lia | lra ]. }
    rewrite H1, H2. unfold of_reals. do 3 f_equal. lia.
Qed.

Lemma X6_latent_recovery_witness :
  exists x,
    _transform_z_to_x (of_reals 2 [[1; 1]]%R) (of_reals 1 [[0]]%R) = Ok x
    /\ shape1 x = 2 + 1
    /\ _transform_x_to_z sim_2_3 x
       = Ok (of_reals 2 [[1; 1]]%R, of_reals 1 [[0]]%R).
Proof.
  apply (X6_latent_recovery sim_2_3 1 [[1; 1]]%R [[0]]%R).
  - simpl. lia.
  - lia.
  - reflexivity.
  - constructor; [ | constructor ]. split; [ reflexivity | ].
    pose proof PI2_1 as H. simpl. lra.
  - constructor; [ | constructor ]. split; [ reflexivity | ]. simpl. lra.
Defined.

(* ================================================================== *)
(** ** The prior *)

(** The log-prior of a batch of vectors of real parameters, row by
    row. *)
Lemma evaluate_log_prior_reals (self : Simulator) (ps : list (R * R)) :
  evaluate_log_prior self (flat_params ps)
  = Ok (map (fun p =>
               Num.sum [Stats.uniform_logpdf (Fin (-1)) (Fin 2) (Fin (fst p));
                        Stats.uniform_logpdf (Fin (-1)) (Fin 2)
                                             (Fin (snd p))])
            ps).
Proof.
  unfold evaluate_log_prior. rewrite reshape_pairs_flat. cbn [bind].
  unfold Np.sum1. cbn [rows]. now rewrite !map_map.
Qed.

Lemma flat_pairs_seq (A : Type) (g : nat -> A) (n : nat) :
  map g (seq 0 (n * 2))
  = flat_map (fun j => [g (2 * j); g (2 * j + 1)]) (seq 0 n).
Proof.
  induction n as [|n IH]; [ reflexivity | ].
  replace (S n * 2) with (n * 2 + 2) by lia.
  rewrite seq_app, map_app, IH, (seq_S n 0), flat_map_app.
  cbn [flat_map seq map Nat.add app].
  do 2 f_equal; [ f_equal; lia | do 2 f_equal; lia ].
Qed.

Lemma prior_draws_in_box (n : nat) (u : nat -> R) :
  (forall i, 0 <= u i < 1)%R -> Forall in_box (prior_draws n u).
Proof.
  intros Hu. unfold prior_draws. apply Forall_map, Forall_forall.
  intros j _. unfold in_box. cbn [fst snd].
  pose proof (Hu (2 * j)). pose proof (Hu (2 * j + 1)). lra.
Qed.

(** What [sample_from_prior] returns. *)
Lemma sample_from_prior_draws (self : Simulator) (n : nat)
    (st : RandomState) :
  exists x,
    sample_from_prior self n st
    = (Ok x, mk_rs (gauss st) (fun i => double st (n * 2 + i)))
    /\ shape0 x = n /\ shape1 x = 2
    /\ Np.flatten x = flat_params (prior_draws n (double st)).
Proof.
  unfold sample_from_prior, Stats.uniform_rvs, parameter_dim.
  rewrite le_fin, Rleb_true by lra.
  eexists. split; [ reflexivity | ].
  split; [ apply length_chunks | ]. split; [ reflexivity | ].
  unfold Np.flatten, Np.reshape. cbn [rows].
  rewrite concat_chunks by now rewrite length_map, length_seq.
  rewrite flat_pairs_seq. unfold flat_params, prior_draws.
  rewrite !flat_map_concat_map, map_map. f_equal.
  apply map_ext. intros j. cbn [fst snd].
  rewrite !mul_fin, !add_fin.
  f_equal; [ f_equal; lra | f_equal; f_equal; lra ].
Qed.

Lemma log_prior_box (ps : list (R * R)) :
  Forall in_box ps ->
  map (fun p =>
         Num.sum [Stats.uniform_logpdf (Fin (-1)) (Fin 2) (Fin (fst p));
                  Stats.uniform_logpdf (Fin (-1)) (Fin 2) (Fin (snd p))])
      ps
  = repeat (Fin (- ln 4)) (length ps).
Proof.
  pose proof (pow2_pos (-52)) as He.
  induction 1 as [|p ps [H0 H1] _ IH]; [ reflexivity | ].
  cbn [map length repeat]. rewrite IH. f_equal.
  rewrite !uniform_logpdf_inside by lra.
  rewrite (log_prior_pair true true). cbn [andb].
  f_equal. rewrite ln_half, ln_4. lra.
Qed.

(** X7: [evaluate_log_prior] treats a batch row by row.  For any number
    of vectors of doubles it returns one value per vector: [- log 4]
    if both components lie between [-1] and [1 + 2^-52], the double
    that follows 1, and minus infinity otherwise. *)
Theorem X7_log_prior_batch :
  forall (self : Simulator) (ps : list (R * R)),
    Forall (fun p => Binary64.is_double (fst p)
                     /\ Binary64.is_double (snd p)) ps ->
    evaluate_log_prior self (flat_params ps)
    = Ok (map (fun p => if in_rounded_support (fst p)
                           && in_rounded_support (snd p)
                        then Fin (- ln 4) else NInf) ps).
Proof.
  intros self ps Hps. rewrite evaluate_log_prior_reals. f_equal.
  apply map_ext_in. intros p Hp. rewrite Forall_forall in Hps.
  destruct (Hps p Hp) as [H0 H1].
  rewrite !uniform_logpdf_double, log_prior_pair by assumption.
  destruct (_ && _); [ | reflexivity ].
  f_equal. rewrite ln_half, ln_4. lra.
Qed.

Lemma X7_log_prior_batch_witness :
  evaluate_log_prior sim_2_3 (flat_params [(0, 0); (2, 0)]%R)
  = Ok (map (fun p => if in_rounded_support (fst p)
                         && in_rounded_support (snd p)
                      then Fin (- ln 4) else NInf)
            [(0, 0); (2, 0)]%R).
Proof.
  apply (X7_log_prior_batch sim_2_3 [(0, 0); (2, 0)]%R).
  repeat constructor; cbn [fst snd];
    first [ exact is_double_0 | exact is_double_2 ].
Defined.

(** X8: [evaluate_log_prior] raises a [ValueError] exactly when the
    number of entries of its argument is odd; otherwise it returns one
    value for every two entries, whatever the entries are. *)
Theorem X8_log_prior_outcomes :
  forall (self : Simulator) (p : list num),
    (Nat.even (length p) = false ->
     evaluate_log_prior self p = Raise ValueError)
    /\ (Nat.even (length p) = true ->
        exists l, evaluate_log_prior self p = Ok l
                  /\ 2 * length l = length p).
Proof.
  intros self p. unfold evaluate_log_prior. split.
  - intros Hodd. now rewrite reshape_pairs_odd.
  - intros Heven. destruct (reshape_pairs_even p Heven) as (ps & -> & Hl).
    cbn [bind]. eexists. split; [ reflexivity | ].
    unfold Np.sum1. cbn [rows]. now rewrite !length_map.
Qed.

Lemma X8_log_prior_outcomes_witness :
  evaluate_log_prior sim_2_3 [Fin 0; NaN; PInf] = Raise ValueError
  /\ exists l, evaluate_log_prior sim_2_3 [Fin 0; NaN] = Ok l
               /\ 2 * length l = length [Fin 0; NaN].
Proof.
  split.
  - apply (proj1 (X8_log_prior_outcomes sim_2_3 [Fin 0; NaN; PInf])).
    reflexivity.
  - apply (proj2 (X8_log_prior_outcomes sim_2_3 [Fin 0; NaN])).
    reflexivity.
Defined.

(** X9: every parameter vector that [sample_from_prior] returns has the
    log-prior [- log 4]: the prior never draws outside of its support.
    The uniform deviates are taken in [0, 1). *)
Theorem X9_prior_of_prior_sample :
  forall (self : Simulator) (n : nat) (st : RandomState),
    (forall i, 0 <= double st i < 1)%R ->
    exists theta st',
      sample_from_prior self n st = (Ok theta, st')
      /\ evaluate_log_prior self (Np.flatten theta)
         = Ok (repeat (Fin (- ln 4)) n).
Proof.
  intros self n st Hu.
  destruct (sample_from_prior_draws self n st) as (x & Hx & _ & _ & Hf).
  eexists _, _. split; [ exact Hx | ].
  rewrite Hf, evaluate_log_prior_reals.
  rewrite log_prior_box by now apply prior_draws_in_box.
  unfold prior_draws. now rewrite length_map, length_seq.
Qed.

Lemma X9_prior_of_prior_sample_witness :
  exists theta st',
    sample_from_prior sim_2_3 3 (mk_rs (fun _ => 0%R) (fun _ => 0.25%R))
    = (Ok theta, st')
    /\ evaluate_log_prior sim_2_3 (Np.flatten theta)
       = Ok (repeat (Fin (- ln 4)) 3).
Proof.
  apply (X9_prior_of_prior_sample sim_2_3 3
           (mk_rs (fun _ => 0%R) (fun _ => 0.25%R))).
  intros i. simpl. lra.
Defined.

(* ================================================================== *)
(** ** The training set of the script *)

(** X10: the training branch of the script succeeds for every simulator
    with at least one latent dimension: the parameters that
    [sample_from_prior] draws are accepted by [sample], one vector per
    sample.  The result is [train] parameter vectors and [train] samples
    of [data_dim] real numbers; [2 train] uniform and [train * data_dim]
    normal deviates are used. *)
Theorem X10_training_set :
  forall (k' d : nat) (minw maxw eps : R) (self : Simulator) (train : nat)
         (st : RandomState),
    __init__ (S k') d (Fin minw) (Fin maxw) (Fin eps) = Ok self ->
    (forall i, 0 <= double st i < 1)%R -> 1 <= train ->
    exists theta X st',
      generate_data_train self train st
      = (Ok (theta, Some (of_reals d X)), st')
      /\ shape0 theta = train /\ shape1 theta = 2
      /\ length X = train /\ Forall (fun r => length r = d) X
      /\ (forall i, double st' i = double st (train * 2 + i))
      /\ (forall i, gauss st' i = gauss st (train * d + i)).
Proof.
  intros k' d minw maxw eps self train st Hinit Hu Ht.
  apply init_reals in Hinit as (-> & Hd & He & Hw & _).
  unfold generate_data_train.
  destruct (sample_from_prior_draws
              (mk_sim (S k') d (Fin (0.5 * PI)) (Fin (1.5 * PI))
                      (Fin minw) (Fin maxw) (Fin eps)) train st)
    as (theta & -> & Hs0 & Hs1 & Hf).
  destruct (Nat.ltb_spec 0 train) as [_|]; [ | lia ].
  rewrite Hf, sample_reals.
  - eexists _, _, _. split; [ reflexivity | ].
    split; [ exact Hs0 | ]. split; [ exact Hs1 | ].
    split.
    { rewrite length_zip_with, drawn_angles_length, drawn_noise_length.
      apply Nat.min_id. }
    split.
    { eapply Forall_impl;
        [ | apply (zip_forward_rows_wf (S k') (d - S k'));
            [ lia | apply drawn_angles_rows | apply drawn_noise_rows ] ].
      intros r Hr. cbv beta in Hr. lia. }
    split; [ reflexivity | ].
    intros i. cbn [gauss]. f_equal. nia.
  - assumption.
  - lra.
  - left. unfold prior_draws. now rewrite length_map, length_seq.
  - apply widths_nonneg; [ assumption | now apply prior_draws_in_box ].
Qed.

Lemma X10_training_set_witness :
  exists theta X st',
    generate_data_train
      (mk_sim 2 3 (Fin (0.5 * PI)) (Fin (1.5 * PI))
              (Fin (0.1 * PI)) (Fin (0.4 * PI)) (Fin 0.01))
      4 (mk_rs (fun _ => 1%R) (fun _ => 0.25%R))
    = (Ok (theta, Some (of_reals 3 X)), st')
    /\ shape0 theta = 4 /\ shape1 theta = 2
    /\ length X = 4 /\ Forall (fun r => length r = 3) X
    /\ (forall i, double st' i = 0.25%R)
    /\ (forall i, gauss st' i = 1%R).
Proof.
  apply (X10_training_set 1 3 (0.1 * PI) (0.4 * PI) 0.01 _ 4
           (mk_rs (fun _ => 1%R) (fun _ => 0.25%R))).
  - exact init_default_2_3.
  - intros i. simpl. lra.
  - lia.
Defined.

(* ================================================================== *)
(** ** What the constructor accepts *)

Lemma init_accepted latent_dim data_dim min_width max_width epsilon :
  accepted_arguments latent_dim data_dim min_width max_width epsilon ->
  __init__ latent_dim data_dim min_width max_width epsilon
  = Ok (mk_sim latent_dim data_dim (Fin (0.5 * PI)) (Fin (1.5 * PI))
               min_width max_width epsilon).
Proof.
  intros (Hd & He & a & b & -> & -> & Hab & Hb). unfold __init__.
  apply Nat.ltb_lt in Hd. rewrite Hd. cbn [assert bind].
  assert (Hgt : Num.gt epsilon (Fin 0) = true).
  { destruct He as [->|(eps & -> & He)]; [ reflexivity | ].
    rewrite gt_fin. apply Rltb_true. exact He. }
  rewrite Hgt. cbn [assert bind].
  rewrite !lt_fin, two_pi_fin, le_fin.
  rewrite !Rltb_true, Rleb_true by lra. reflexivity.
Qed.

Lemma init_refused latent_dim data_dim min_width max_width epsilon :
  ~ accepted_arguments latent_dim data_dim min_width max_width epsilon ->
  __init__ latent_dim data_dim min_width max_width epsilon
  = Raise AssertionError.
Proof.
  intros Hno.
  destruct (__init__ latent_dim data_dim min_width max_width epsilon)
    as [self|e] eqn:E.
  - exfalso. apply Hno.
    apply init_inv in E as (_ & Hd & He & a & b & -> & -> & Hab & Hb).
    split; [ exact Hd | ]. split; [ | now exists a, b ].
    destruct epsilon as [eps| | |]; try discriminate; [ | now left ].
    right. exists eps. split; [ reflexivity | ].
    rewrite gt_fin in He. now apply Rltb_spec in He.
  - f_equal. unfold __init__ in E.
    destruct (latent_dim <? data_dim); cbn [assert bind] in E;
      [ | now injection E ].
    destruct (Num.gt epsilon (Fin 0)); cbn [assert bind] in E;
      [ | now injection E ].
    destruct (_ && _); cbn [assert bind] in E;
      [ discriminate | now injection E ].
Qed.

(** X11: the constructor succeeds exactly on the accepted arguments:
    [latent_dim < data_dim], [epsilon] positive (plus infinity
    included), and real widths with [0 < min_width < max_width <= 2 pi].
    It then stores them, with the phases [pi / 2] and [3 pi / 2]; on any
    other arguments, a NaN among them included, it fails on an
    assertion. *)
Theorem X11_constructor :
  forall (latent_dim data_dim : nat) (min_width max_width epsilon : num),
    (accepted_arguments latent_dim data_dim min_width max_width epsilon ->
     __init__ latent_dim data_dim min_width max_width epsilon
     = Ok (mk_sim latent_dim data_dim (Fin (0.5 * PI)) (Fin (1.5 * PI))
                  min_width max_width epsilon))
    /\ (~ accepted_arguments latent_dim data_dim min_width max_width epsilon ->
        __init__ latent_dim data_dim min_width max_width epsilon
        = Raise AssertionError)
    /\ ~ accepted_arguments latent_dim data_dim NaN max_width epsilon
    /\ ~ accepted_arguments latent_dim data_dim min_width NaN epsilon
    /\ ~ accepted_arguments latent_dim data_dim min_width max_width NaN.
Proof.
  intros latent_dim data_dim min_width max_width epsilon.
  split; [ apply init_accepted | ]. split; [ apply init_refused | ].
  split; [ | split ].
  - intros (_ & _ & a & b & H & _). discriminate.
  - intros (_ & _ & a & b & _ & H & _). discriminate.
  - intros (_ & [H|(eps & H & _)] & _); discriminate.
Qed.

Lemma accepted_infinite_epsilon : accepted_arguments 2 3 (Fin 1) (Fin 2) PInf.
Proof.
  split; [ lia | ]. split; [ now left | ].
  exists 1%R, 2%R. pose proof PI2_1. repeat split; lra.
Qed.

Lemma X11_constructor_witness :
  __init__ 2 3 (Fin 1) (Fin 2) PInf
  = Ok (mk_sim 2 3 (Fin (0.5 * PI)) (Fin (1.5 * PI)) (Fin 1) (Fin 2) PInf)
  /\ __init__ 2 3 NaN (Fin 2) PInf = Raise AssertionError.
Proof.
  split.
  - apply (proj1 (X11_constructor 2 3 (Fin 1) (Fin 2) PInf)).
    exact accepted_infinite_epsilon.
  - apply (proj1 (proj2 (X11_constructor 2 3 NaN (Fin 2) PInf))).
    apply (proj1 (proj2 (proj2 (X11_constructor 2 3 NaN (Fin 2) PInf)))).
Defined.

(* ================================================================== *)
(** ** Widths outside of the support of the prior *)

Lemma existsb_bad_scale_neg (W : list R) (w : R) :
  In w W -> (w < 0)%R -> existsb Stats.bad_scale (map Fin W) = true.
Proof.
  intros Hin Hw. apply existsb_exists. exists (Fin w). split.
  - now apply in_map.
  - unfold Stats.bad_scale. rewrite lt_fin. now apply Rltb_true.
Qed.

Lemma in_widths_rows (minw maxw : R) (k' n : nat) (ps : list (R * R))
    (j : nat) :
  j < n ->
  In (width_real minw maxw (param_real n ps j))
     (concat (widths_rows minw maxw (S k') n ps)).
Proof.
  intros Hj. apply in_concat.
  exists (repeat (width_real minw maxw (param_real n ps j)) (S k')).
  split; [ | now left ].
  unfold widths_rows.
  apply (in_map (fun j => repeat (width_real minw maxw (param_real n ps j))
                                 (S k'))).
  apply in_seq. lia.
Qed.

Lemma used_widths (minw maxw : R) (n : nat) (ps : list (R * R)) :
  length ps = n \/ length ps = 1 -> 1 <= n ->
  (forall j, j < n -> (0 <= width_real minw maxw (param_real n ps j))%R) ->
  Forall (fun p => (0 <= width_real minw maxw p)%R) ps.
Proof.
  intros Hlen Hn Hall. apply Forall_forall. intros p Hin.
  destruct (In_nth _ _ (0%R, 0%R) Hin) as (i & Hi & <-).
  destruct (Nat.eqb_spec (length ps) n) as [E|E].
  - specialize (Hall i ltac:(lia)). unfold param_real in Hall.
    now rewrite E, Nat.eqb_refl in Hall.
  - assert (i = 0) by lia. subst i.
    specialize (Hall 0 ltac:(lia)). unfold param_real in Hall.
    apply Nat.eqb_neq in E. now rewrite E in Hall.
Qed.

Lemma sample_negative_width (k' d : nat) (minw maxw eps : R) (n : nat)
    (ps : list (R * R)) (st : RandomState) (j : nat) :
  length ps = n \/ length ps = 1 -> j < n ->
  (width_real minw maxw (param_real n ps j) < 0)%R ->
  sample (mk_sim (S k') d (Fin (0.5 * PI)) (Fin (1.5 * PI))
                 (Fin minw) (Fin maxw) (Fin eps))
         n (Some (flat_params ps)) st
  = (Raise ValueError, st).
Proof.
  intros Hlen Hj Hneg. unfold sample, _draw_z.
  rewrite parse_parameters_reals by assumption.
  unfold Np.flatten, of_reals. cbn [rows]. rewrite <- !concat_map.
  unfold Stats.random_normal.
  rewrite (existsb_bad_scale_neg _ _ (in_widths_rows minw maxw k' n ps j Hj)
                                 Hneg).
  reflexivity.
Qed.

(** X12: parameters outside of the support of the prior are not
    refused as such.  [sample] raises a [ValueError] when the width that
    some sample's parameters give is negative, and succeeds when no width
    is negative. *)
Theorem X12_sample_width_sign :
  forall (k' d : nat) (minw maxw eps : R) (self : Simulator) (n : nat)
         (ps : list (R * R)) (st : RandomState),
    __init__ (S k') d (Fin minw) (Fin maxw) (Fin eps) = Ok self ->
    length ps = n \/ length ps = 1 -> 1 <= n ->
    ((exists j, j < n
                /\ (width_real minw maxw (param_real n ps j) < 0)%R) ->
     sample self n (Some (flat_params ps)) st = (Raise ValueError, st))
    /\ ((forall j, j < n ->
                   (0 <= width_real minw maxw (param_real n ps j))%R) ->
        exists X st',
          sample self n (Some (flat_params ps)) st = (Ok (of_reals d X), st')
          /\ length X = n).
Proof.
  intros k' d minw maxw eps self n ps st Hinit Hlen Hn.
  apply init_reals in Hinit as (-> & Hd & He & Hw & _). split.
  - intros (j & Hj & Hneg). now apply (sample_negative_width _ _ _ _ _ _ _ _ j).
  - intros Hall. eexists _, _. split.
    + apply sample_reals;
        [ assumption | lra | assumption | now apply (used_widths _ _ n) ].
    + rewrite length_zip_with, drawn_angles_length, drawn_noise_length.
      apply Nat.min_id.
Qed.

Lemma X12_sample_width_sign_witness :
  sample (mk_sim 2 3 (Fin (0.5 * PI)) (Fin (1.5 * PI))
                 (Fin (0.1 * PI)) (Fin (0.4 * PI)) (Fin 0.01))
         1 (Some (flat_params [((-3)%R, 0%R)]))
         (mk_rs (fun _ => 1%R) (fun _ => 0%R))
  = (Raise ValueError, mk_rs (fun _ => 1%R) (fun _ => 0%R))
  /\ exists X st',
       sample (mk_sim 2 3 (Fin (0.5 * PI)) (Fin (1.5 * PI))
                      (Fin (0.1 * PI)) (Fin (0.4 * PI)) (Fin 0.01))
              1 (Some (flat_params [(3%R, 0%R)]))
              (mk_rs (fun _ => 1%R) (fun _ => 0%R))
       = (Ok (of_reals 3 X), st')
       /\ length X = 1.
Proof.
  pose proof PI_RGT_0 as Hpi. split.
  - apply (proj1 (X12_sample_width_sign 1 3 (0.1 * PI) (0.4 * PI) 0.01 _ 1
                    [((-3)%R, 0%R)] (mk_rs (fun _ => 1%R) (fun _ => 0%R))
                    init_default_2_3 (or_introl eq_refl) (le_n 1))).
    exists 0. split; [ lia | ]. unfold width_real, param_real. simpl. lra.
  - apply (proj2 (X12_sample_width_sign 1 3 (0.1 * PI) (0.4 * PI) 0.01 _ 1
                    [(3%R, 0%R)] (mk_rs (fun _ => 1%R) (fun _ => 0%R))
                    init_default_2_3 (or_introl eq_refl) (le_n 1))).
    intros j Hj. assert (j = 0) by lia. subst j.
    unfold width_real, param_real. simpl. lra.
Defined.

(* ================================================================== *)
(** ** The canonical range of the angles *)

Section CanonicalRange.

Local Open Scope R_scope.

Lemma wrap_id (a : R) : 0 <= a < 2 * PI -> wrap a = a.
Proof.
  intros Ha. pose proof PI_RGT_0 as Hpi. unfold wrap.
  rewrite (Zfloor_eq 0).
  - ring.
  - split.
    + apply Rmult_le_reg_r with (r := 2 * PI); [ lra | ].
      replace (a / (2 * PI) * (2 * PI)) with a by (field; lra). lra.
    + apply Rmult_lt_reg_r with (r := 2 * PI); [ lra | ].
      replace (a / (2 * PI) * (2 * PI)) with a by (field; lra). lra.
Qed.

Lemma fold_pi_range (w : R) : 0 <= w < 2 * PI -> 0 <= fold_pi w <= PI.
Proof.
  intros Hw. unfold fold_pi. destruct (Rltb PI w) eqn:E.
  - apply Rltb_spec in E. lra.
  - destruct (Rlt_dec PI w) as [H|H].
    + apply Rltb_spec in H. congruence.
    + lra.
Qed.

Lemma fold_pi_id (w : R) : w <= PI -> fold_pi w = w.
Proof. intros Hw. unfold fold_pi. now rewrite Rltb_false. Qed.

Lemma canonical_row_fin (c : nat) (ts : list R) :
  canonical_row c (map Fin ts) = map Fin (canonical_row_reals c ts).
Proof.
  unfold canonical_row, canonical_row_reals.
  assert (Hm : map (fun z => Num.mod_ z two_pi) (map Fin ts)
               = map Fin (map wrap ts)).
  { rewrite !map_map. apply map_ext. intros a. apply mod_two_pi_fin. }
  rewrite Hm, map_app, firstn_map, skipn_map, !map_map. f_equal.
  apply map_ext. intros a. unfold fold_pi.
  change Num.pi with (Fin PI). rewrite gt_fin.
  destruct (Rltb PI a); [ | reflexivity ].
  rewrite two_pi_fin. apply sub_fin.
Qed.

Lemma canonical_row_reals_length (c : nat) (ts : list R) :
  length ts = c -> length (canonical_row_reals c ts) = c.
Proof.
  intros Hl. unfold canonical_row_reals.
  rewrite length_app, length_map, length_firstn, length_skipn, length_map.
  lia.
Qed.

Lemma canonical_row_reals_nth (c : nat) (ts : list R) (i : nat) :
  length ts = c -> (i < c)%nat ->
  nth i (canonical_row_reals c ts) 0
  = if (i <? c - 1)%nat then fold_pi (wrap (nth i ts 0))
    else wrap (nth i ts 0).
Proof.
  intros Hl Hi. unfold canonical_row_reals.
  assert (Hf : length (map fold_pi (firstn (c - 1) (map wrap ts)))
               = (c - 1)%nat)
    by (rewrite length_map, length_firstn, length_map; lia).
  destruct (Nat.ltb_spec i (c - 1)) as [Hlt|Hge].
  - rewrite app_nth1 by lia.
    rewrite (nth_map_lt _ _ fold_pi _ _ 0 0)
      by (rewrite length_firstn, length_map; lia).
    rewrite nth_firstn.
    destruct (Nat.ltb_spec i (c - 1)); [ | lia ].
    now rewrite (nth_map_lt _ _ wrap _ _ 0 0) by lia.
  - rewrite app_nth2 by lia. rewrite Hf, nth_skipn.
    replace (c - 1 + (i - (c - 1)))%nat with i by lia.
    now rewrite (nth_map_lt _ _ wrap _ _ 0 0) by lia.
Qed.

Lemma canonical_row_reals_range (c : nat) (ts : list R) :
  length ts = c -> canonical_angles (canonical_row_reals c ts).
Proof.
  intros Hl i Hi. rewrite canonical_row_reals_length in * by assumption.
  rewrite canonical_row_reals_nth by assumption.
  pose proof (wrap_range (nth i ts 0)) as Hw.
  pose proof (fold_pi_range _ Hw) as Hf. pose proof PI_RGT_0 as Hpi.
  destruct (Nat.ltb_spec i (c - 1)) as [Hlt|Hge].
  - split; [ lra | intros _; lra ].
  - split; [ exact Hw | intros H; lia ].
Qed.

Lemma canonical_row_reals_id (c : nat) (ts : list R) :
  length ts = c -> canonical_angles ts -> canonical_row_reals c ts = ts.
Proof.
  intros Hl Hc. apply (nth_ext _ _ 0 0).
  - now rewrite canonical_row_reals_length.
  - intros i Hi. rewrite canonical_row_reals_length in Hi by assumption.
    rewrite canonical_row_reals_nth by assumption.
    destruct (Hc i ltac:(lia)) as [Hr Hp].
    rewrite wrap_id by exact Hr.
    destruct (Nat.ltb_spec i (c - 1)) as [Hlt|Hge]; [ | reflexivity ].
    apply fold_pi_id, Hp. lia.
Qed.

Lemma canonical_reals (c : nat) (A : list (list R)) :
  canonical (of_reals c A) = of_reals c (map (canonical_row_reals c) A).
Proof.
  unfold canonical, of_reals. cbn [shape1 rows]. f_equal.
  rewrite !map_map. apply map_ext. intros ts. apply canonical_row_fin.
Qed.

End CanonicalRange.

(** X13: the first array that [_generate_equivalent_coordinates] yields
    holds the angles in their canonical range: all in [0, 2 pi) and all
    but the last column in [0, pi] ([pi] itself is kept).  Angles that
    are in this range already are yielded unchanged. *)
Theorem X13_canonical_range :
  forall (self : Simulator) (c : nat) (A : list (list R)) (precise : bool),
    Forall (fun ts => length ts = c) A ->
    exists A' rest e,
      _generate_equivalent_coordinates self (of_reals c A) precise
      = (of_reals c A' :: rest, e)
      /\ length A' = length A
      /\ Forall (fun ts => length ts = c) A'
      /\ Forall canonical_angles A'
      /\ (Forall canonical_angles A -> A' = A).
Proof.
  intros self c A precise HA.
  exists (map (canonical_row_reals c) A).
  assert (Hgen : exists rest e,
             _generate_equivalent_coordinates self (of_reals c A) precise
             = (canonical (of_reals c A) :: rest, e)).
  { unfold _generate_equivalent_coordinates.
    destruct (_ <? _); [ eexists _, _; reflexivity | ].
    destruct (_ =? _); eexists _, _; reflexivity. }
  destruct Hgen as (rest & e & Hgen). exists rest, e.
  rewrite Hgen, canonical_reals. split; [ reflexivity | ].
  split; [ apply length_map | ].
  split; [ | split ].
  - apply Forall_map. eapply Forall_impl; [ | exact HA ].
    intros ts Hts. now apply canonical_row_reals_length.
  - apply Forall_map. eapply Forall_impl; [ | exact HA ].
    intros ts Hts. now apply canonical_row_reals_range.
  - intros Hc. rewrite <- (map_id A) at 2. apply map_ext_in.
    intros ts Hin. rewrite Forall_forall in HA, Hc.
    apply canonical_row_reals_id; auto.
Qed.

Lemma X13_canonical_range_witness :
  exists A' rest e,
    _generate_equivalent_coordinates sim_2_3 (of_reals 2 [[7; -1]]%R) false
    = (of_reals 2 A' :: rest, e)
    /\ length A' = length [[7; -1]]%R
    /\ Forall (fun ts => length ts = 2) A'
    /\ Forall canonical_angles A'
    /\ (Forall canonical_angles [[7; -1]]%R -> A' = [[7; -1]]%R).
Proof.
  apply (X13_canonical_range sim_2_3 2 [[7; -1]]%R false).
  constructor; [ reflexivity | constructor ].
Defined.

(* ================================================================== *)
(** ** The symmetric images of real angles *)

Section RealImages.

Local Open Scope R_scope.

Lemma replace_entry_fin (dim : nat) (f : num -> num) (g : R -> R)
    (zs : list R) :
  (forall z, f (Fin z) = Fin (g z)) ->
  Np.set_nth dim (f (nth dim (map Fin zs) NaN)) (map Fin zs)
  = map Fin (replace_entry dim g zs).
Proof.
  intros Hf. rewrite (set_nth_pointwise _ NaN), length_map.
  unfold replace_entry. rewrite map_map. apply map_ext_in.
  intros i Hi. apply in_seq in Hi.
  destruct (Nat.eqb_spec i dim) as [E|_].
  - subst dim. rewrite nth_fin by lia. apply Hf.
  - apply nth_fin. lia.
Qed.

Lemma with_col_reals (c : nat) (Z : list (list R)) (dim : nat)
    (f : num -> num) (g : R -> R) :
  (forall z, f (Fin z) = Fin (g z)) ->
  with_col (of_reals c Z) dim f = of_reals c (map (replace_entry dim g) Z).
Proof.
  intros Hf. unfold with_col, of_reals. cbn [shape1 rows]. f_equal.
  rewrite !map_map. apply map_ext. intros zs. now apply replace_entry_fin.
Qed.

Lemma replace_entry_length (dim : nat) (g : R -> R) (zs : list R) :
  length (replace_entry dim g zs) = length zs.
Proof. unfold replace_entry. now rewrite length_map, length_seq. Qed.

Lemma replace_entry_nth (dim : nat) (g : R -> R) (zs : list R) (j : nat) :
  (j < length zs)%nat ->
  nth j (replace_entry dim g zs) 0
  = if (j =? dim)%nat then g (nth j zs 0) else nth j zs 0.
Proof.
  intros Hj. unfold replace_entry.
  now rewrite (nth_map_seq _ _ (length zs) j 0 Hj).
Qed.

Lemma neg_fin (z : R) : Num.neg (Fin z) = Fin (- z).
Proof. reflexivity. Qed.

Lemma reflect_fin (z : R) : (two_pi - Fin z)%num = Fin (2 * PI - z).
Proof. rewrite two_pi_fin. apply sub_fin. Qed.

Lemma shift_down_fin (z : R) :
  (Fin (-2) * Num.pi + Fin z)%num = Fin (- 2 * PI + z).
Proof.
  change Num.pi with (Fin PI). now rewrite mul_fin, add_fin.
Qed.

Lemma shift_up_fin (z : R) : (two_pi + Fin z)%num = Fin (2 * PI + z).
Proof. rewrite two_pi_fin. apply add_fin. Qed.

(** The images that the generator builds from an array of real
    angles. *)
Lemma variations_reals (k : nat) (Z : list (list R)) :
  flat_map (polar_variations (of_reals k Z)) (seq 0 (k - 1))
  ++ azimuthal_variations (of_reals k Z)
  = map (of_reals k) (symmetric_images k Z).
Proof.
  unfold symmetric_images. rewrite map_app. f_equal.
  - generalize (seq 0 (k - 1)). intros dims.
    induction dims as [|dim dims IH]; [ reflexivity | ].
    cbn [flat_map map app]. unfold polar_variations at 1.
    rewrite (with_col_reals k Z dim Num.neg Ropp neg_fin).
    rewrite (with_col_reals k Z dim (fun z => (two_pi - z)%num)
               (fun z => 2 * PI - z) reflect_fin).
    cbn [app]. do 2 f_equal. exact IH.
  - unfold azimuthal_variations. cbn [shape1 of_reals map].
    rewrite (with_col_reals k Z (k - 1)
               (fun z => (Fin (-2) * Num.pi + z)%num)
               (fun z => - 2 * PI + z) shift_down_fin).
    now rewrite (with_col_reals k Z (k - 1) (fun z => (two_pi + z)%num)
                   (fun z => 2 * PI + z) shift_up_fin).
Qed.

Lemma symmetric_images_length (k : nat) (Z : list (list R)) :
  length (symmetric_images k Z) = (2 * (k - 1) + 2)%nat.
Proof.
  unfold symmetric_images.
  rewrite length_app, length_flat_map_pairs by reflexivity.
  now rewrite length_seq.
Qed.

Lemma generator_reals (self : Simulator) (A : list (list R))
    (precise : bool) :
  (1 <= _latent_dim self)%nat ->
  _generate_equivalent_coordinates self (of_reals (_latent_dim self) A)
                                   precise
  = (map (of_reals (_latent_dim self))
         (map (canonical_row_reals (_latent_dim self)) A
            :: symmetric_images (_latent_dim self)
                 (map (canonical_row_reals (_latent_dim self)) A)),
     None).
Proof.
  intros Hk. rewrite generator_images by (assumption || reflexivity).
  rewrite canonical_reals, variations_reals. reflexivity.
Qed.

End RealImages.

(* ================================================================== *)
(** ** The log-density of regular observations *)

Section RealDensity.

Local Open Scope R_scope.

Lemma normal_pdf_pos (mu sigma x : R) : 0 < sigma -> 0 < normal_pdf mu sigma x.
Proof.
  intros Hs. pose proof PI_RGT_0 as Hpi. unfold normal_pdf.
  apply Rdiv_lt_0_compat; [ | assumption ].
  apply Rdiv_lt_0_compat; [ apply exp_pos | ].
  apply sqrt_lt_R0. lra.
Qed.

Lemma norm_pdf_fin (mu sigma x : R) :
  0 < sigma ->
  Stats.norm_pdf (Fin mu) (Fin sigma) (Fin x) = Fin (normal_pdf mu sigma x).
Proof.
  intros Hs. pose proof PI_RGT_0 as Hpi.
  assert (Hq : sqrt (2 * PI) <> 0).
  { assert (0 < sqrt (2 * PI)) by (apply sqrt_lt_R0; lra). lra. }
  unfold Stats.norm_pdf, normal_pdf. rewrite sub_fin, div_fin by lra.
  cbv zeta. rewrite gt_fin, Rltb_true by assumption.
  cbn [negb orb Num.is_nan]. unfold Num.square. rewrite mul_fin.
  cbn [Num.neg]. rewrite div_fin by lra. cbn [Num.exp].
  change Num.pi with (Fin PI). rewrite mul_fin, sqrt_fin by lra.
  rewrite div_fin by assumption. now rewrite div_fin by lra.
Qed.

Lemma zip_with3_pdf_fin (Ls Ws Zs : list R) :
  Forall (fun w => 0 < w) Ws ->
  Np.zip_with3 Stats.norm_pdf (map Fin Ls) (map Fin Ws) (map Fin Zs)
  = map Fin (Np.zip_with3 normal_pdf Ls Ws Zs).
Proof.
  intros HW. revert Ls Zs.
  induction HW as [|w Ws Hw _ IH]; intros [|l Ls] [|z Zs];
    try reflexivity.
  cbn [map Np.zip_with3]. now rewrite IH, norm_pdf_fin.
Qed.

Lemma pdf_at_reals (k : nat) (L W Z : list (list R)) :
  Forall (Forall (fun w => 0 < w)) W ->
  pdf_at (of_reals k L) (of_reals k W) (of_reals k Z)
  = of_reals k (pdf_rows L W Z).
Proof.
  intros HW. unfold pdf_at, of_reals, pdf_rows. cbn [shape1 rows]. f_equal.
  revert L Z. induction HW as [|Ws W Hw _ IH]; intros [|Ls L] [|Zs Z];
    try reflexivity.
  cbn [map Np.zip_with3]. now rewrite IH, zip_with3_pdf_fin.
Qed.

Lemma zip_with_add_fin (a b : list R) :
  Np.zip_with Num.add (map Fin a) (map Fin b)
  = map Fin (Np.zip_with Rplus a b).
Proof.
  revert b. induction a as [|x a IH]; intros [|y b]; try reflexivity.
  cbn [map Np.zip_with]. now rewrite IH.
Qed.

Lemma zip_with_mul_fin (a b : list R) :
  Np.zip_with Num.mul (map Fin a) (map Fin b)
  = map Fin (Np.zip_with Rmult a b).
Proof.
  revert b. induction a as [|x a IH]; intros [|y b]; try reflexivity.
  cbn [map Np.zip_with]. now rewrite IH.
Qed.

Lemma add_nd_reals (k : nat) (A B : list (list R)) :
  add_nd (of_reals k A) (of_reals k B)
  = of_reals k (Np.zip_with (Np.zip_with Rplus) A B).
Proof.
  unfold add_nd, of_reals. cbn [shape1 rows]. f_equal.
  revert B. induction A as [|a A IH]; intros [|b B]; try reflexivity.
  cbn [map Np.zip_with]. now rewrite IH, zip_with_add_fin.
Qed.

(** The summed densities of real angles. *)
Lemma sum_of_densities_reals (k : nat) (L W Z : list (list R))
    (images : list (list (list R))) :
  Forall (Forall (fun w => 0 < w)) W ->
  sum_of_densities (of_reals k L) (of_reals k W) (of_reals k Z)
                   (map (of_reals k) images)
  = of_reals k (mixture L W Z images).
Proof.
  intros HW. unfold sum_of_densities, mixture.
  rewrite pdf_at_reals by assumption.
  replace (Np.map1 (Num.add (Fin 0)) (of_reals k (pdf_rows L W Z)))
    with (of_reals k (map (map (Rplus 0)) (pdf_rows L W Z))).
  2:{ unfold Np.map1, of_reals. cbn [shape1 rows]. f_equal.
      rewrite !map_map. apply map_ext. intros r. rewrite !map_map.
      apply map_ext. intros v. now rewrite add_fin. }
  generalize (map (map (Rplus 0)) (pdf_rows L W Z)).
  induction images as [|Z' images IH]; intros acc; [ reflexivity | ].
  cbn [map fold_left]. rewrite pdf_at_reals, add_nd_reals by assumption.
  apply IH.
Qed.

Lemma zip_with3_pdf_pos (Ls Ws Zs : list R) :
  Forall (fun w => 0 < w) Ws ->
  Forall (fun v => 0 < v) (Np.zip_with3 normal_pdf Ls Ws Zs).
Proof.
  intros HW. revert Ls Zs.
  induction HW as [|w Ws Hw _ IH]; intros [|l Ls] [|z Zs];
    try constructor.
  - now apply normal_pdf_pos.
  - apply IH.
Qed.

Lemma pdf_rows_pos (L W Z : list (list R)) :
  Forall (Forall (fun w => 0 < w)) W ->
  Forall (Forall (fun v => 0 < v)) (pdf_rows L W Z).
Proof.
  intros HW. unfold pdf_rows. revert L Z.
  induction HW as [|Ws W Hw _ IH]; intros [|Ls L] [|Zs Z];
    try constructor.
  - now apply zip_with3_pdf_pos.
  - apply IH.
Qed.

Lemma zip_with_plus_pos (a b : list R) :
  Forall (fun v => 0 < v) a -> Forall (fun v => 0 < v) b ->
  Forall (fun v => 0 < v) (Np.zip_with Rplus a b).
Proof.
  intros Ha. revert b. induction Ha as [|x a Hx _ IH]; intros b Hb;
    [ constructor | ].
  destruct Hb as [|y b Hy Hb]; constructor; [ lra | now apply IH ].
Qed.

Lemma rows_plus_pos (A B : list (list R)) :
  Forall (Forall (fun v => 0 < v)) A -> Forall (Forall (fun v => 0 < v)) B ->
  Forall (Forall (fun v => 0 < v)) (Np.zip_with (Np.zip_with Rplus) A B).
Proof.
  intros HA. revert B. induction HA as [|a A Ha _ IH]; intros B HB;
    [ constructor | ].
  destruct HB as [|b B Hb HB]; constructor;
    [ now apply zip_with_plus_pos | now apply IH ].
Qed.

(** The mixture density is positive. *)
Lemma mixture_pos (L W Z : list (list R)) (images : list (list (list R))) :
  Forall (Forall (fun w => 0 < w)) W ->
  Forall (Forall (fun v => 0 < v)) (mixture L W Z images).
Proof.
  intros HW. unfold mixture.
  assert (H0 : Forall (Forall (fun v => 0 < v))
                 (map (map (Rplus 0)) (pdf_rows L W Z))).
  { apply Forall_map. eapply Forall_impl; [ | now apply pdf_rows_pos ].
    intros r Hr. apply Forall_map. eapply Forall_impl; [ | exact Hr ].
    intros v Hv. cbv beta in *. lra. }
  revert H0. generalize (map (map (Rplus 0)) (pdf_rows L W Z)).
  induction images as [|Z' images IH]; intros acc Hacc; [ exact Hacc | ].
  cbn [fold_left]. apply IH. apply rows_plus_pos; [ assumption | ].
  now apply pdf_rows_pos.
Qed.

Lemma sum_fin (l : list R) : Num.sum (map Fin l) = Fin (sum_list l).
Proof.
  unfold Num.sum, sum_list. induction l as [|x l IH]; [ reflexivity | ].
  cbn [map fold_right]. now rewrite IH.
Qed.

Lemma angular_term_fin (mix : list R) :
  Forall (fun v => 0 < v) mix ->
  spec_angular_term (map Fin mix) = Fin (angular_term_real mix).
Proof.
  intros H. unfold spec_angular_term, angular_term_real.
  rewrite <- sum_fin. f_equal. rewrite !map_map.
  induction H as [|v mix Hv _ IH]; [ reflexivity | ].
  cbn [map]. now rewrite IH, log_fin.
Qed.

Lemma noise_term_fin (self : Simulator) (eps : R) (es : list R) :
  _epsilon self = Fin eps -> 0 < eps ->
  spec_noise_term self (map Fin es) = Fin (noise_term_real eps es).
Proof.
  intros He Heps. unfold spec_noise_term, noise_term_real.
  rewrite <- sum_fin. f_equal. rewrite He, !map_map.
  apply map_ext. intros e. rewrite norm_pdf_fin by assumption.
  apply log_fin. now apply normal_pdf_pos.
Qed.

Lemma jacobian_fin (self : Simulator) (zs es : list R) :
  Forall (fun z => sin z <> 0) zs -> es <> [] ->
  spec_jacobian self (map Fin zs) (map Fin es)
  = Fin (jacobian_real (_latent_dim self) zs es).
Proof.
  intros Hz He. unfold spec_jacobian, jacobian_real, weighted_log_sines_real.
  destruct es as [|e0 es]; [ contradiction | ].
  cbn [map nth]. rewrite add_fin. cbn [Num.abs]. unfold Num.of_nat at 1.
  rewrite mul_fin.
  assert (Ha : arange_desc (_latent_dim self)
               = map Fin (map INR (rev (seq 0 (_latent_dim self)))))
    by (unfold arange_desc; now rewrite map_map).
  assert (Hs : map log_abs_sin (map Fin zs)
               = map Fin (map (fun z => ln (Rabs (sin z))) zs)).
  { rewrite !map_map. clear He.
    induction Hz as [|z zs Hz0 _ IH]; [ reflexivity | ].
    cbn [map]. now rewrite IH, log_abs_sin_fin. }
  now rewrite Ha, Hs, zip_with_mul_fin, sum_fin, add_fin.
Qed.

Lemma log_density_row_fin (self : Simulator) (eps : R) (zs es mix : list R) :
  _epsilon self = Fin eps -> 0 < eps ->
  Forall (fun z => sin z <> 0) zs -> es <> [] ->
  Forall (fun v => 0 < v) mix ->
  spec_log_density_row self (map Fin zs) (map Fin es) (map Fin mix)
  = Fin (log_density_real (_latent_dim self) eps zs es mix).
Proof.
  intros He Heps Hz Hes Hm. unfold spec_log_density_row, log_density_real.
  rewrite angular_term_fin, (noise_term_fin self eps), jacobian_fin
    by assumption.
  now rewrite !add_fin.
Qed.

Lemma log_density_rows_fin (self : Simulator) (eps : R)
    (Z E M : list (list R)) :
  _epsilon self = Fin eps -> 0 < eps ->
  Forall (Forall (fun z => sin z <> 0)) Z ->
  Forall (fun es => es <> []) E ->
  Forall (Forall (fun v => 0 < v)) M ->
  Np.zip_with3 (spec_log_density_row self)
               (map (map Fin) Z) (map (map Fin) E) (map (map Fin) M)
  = map Fin (Np.zip_with3 (log_density_real (_latent_dim self) eps) Z E M).
Proof.
  intros He Heps HZ. revert E M.
  induction HZ as [|zs Z Hzs _ IH]; intros E M HE HM; [ reflexivity | ].
  destruct HE as [|es E Hes HE]; [ reflexivity | ].
  destruct HM as [|mix M Hmix HM]; [ reflexivity | ].
  cbn [map Np.zip_with3].
  rewrite (log_density_row_fin self eps) by assumption.
  now rewrite IH.
Qed.

Lemma sumsq_last_pos (ys : list R) :
  ys <> [] -> last ys 0 <> 0 -> 0 < sumsq ys.
Proof.
  induction ys as [|y ys IH]; intros Hne Hl; [ contradiction | ].
  cbn [sumsq fold_right]. fold (sumsq ys).
  destruct ys as [|y' ys].
  - cbn [last] in Hl. cbn [sumsq fold_right]. nra.
  - assert (0 < sumsq (y' :: ys)) by (apply IH; [ discriminate | exact Hl ]).
    nra.
Qed.

Lemma sin_2PI_minus (t : R) : sin (2 * PI - t) = - sin t.
Proof. rewrite sin_minus, sin_2PI, cos_2PI. ring. Qed.

Lemma sin_acos_ratio_pos (y s n : R) :
  0 < s -> 0 < n -> n * n = y * y + s -> 0 < sin (acos (y / n)).
Proof.
  intros Hs Hn Hnn.
  pose proof (ratio_bound_strict y s n Hs Hn Hnn) as Hb.
  pose proof (acos_bound_lt _ Hb) as Ha.
  apply sin_gt_0; lra.
Qed.

(** Off the axis of the last coordinate no angle has a sine of zero. *)
Lemma angles_sin_nonzero (ys : list R) :
  (2 <= length ys)%nat -> last ys 0 <> 0 ->
  Forall (fun z => sin z <> 0) (angles ys).
Proof.
  induction ys as [|y ys IH]; intros Hl Hlast; [ simpl in Hl; lia | ].
  assert (Hne : ys <> []) by (destruct ys; [ simpl in Hl; lia | discriminate ]).
  assert (Hlast' : last ys 0 <> 0) by (destruct ys; [ contradiction | exact Hlast ]).
  pose proof (sumsq_last_pos ys Hne Hlast') as Hs.
  assert (Hpos : 0 < sumsq (y :: ys))
    by (cbn [sumsq fold_right]; fold (sumsq ys); nra).
  pose proof (norm2_pos _ Hpos) as Hn.
  pose proof (norm2_sqr (y :: ys)) as Hnn.
  cbn [sumsq fold_right] in Hnn. fold (sumsq ys) in Hnn.
  pose proof (sin_acos_ratio_pos y (sumsq ys) (norm2 (y :: ys)) Hs Hn Hnn)
    as Hsin.
  destruct (Nat.le_gt_cases 2 (length ys)) as [Hl2|Hl2].
  - rewrite angles_cons by assumption. constructor; [ lra | ].
    now apply IH.
  - destruct ys as [|yk [|? ?]]; simpl in Hl, Hl2; try lia.
    rewrite angles_two. constructor; [ | constructor ].
    destruct (Rltb yk 0); [ rewrite sin_2PI_minus | ]; lra.
Qed.

Lemma last_firstn_nth (k : nat) (xs : list R) :
  (k + 1 <= length xs)%nat -> last (firstn (k + 1) xs) 0 = nth k xs 0.
Proof.
  revert xs. induction k as [|k IH]; intros [|x xs] Hl; simpl in Hl;
    try lia.
  - destruct xs; reflexivity.
  - cbn [Nat.add firstn nth]. specialize (IH xs ltac:(lia)).
    destruct xs as [|x' xs]; [ simpl in Hl; lia | ].
    replace (k + 1)%nat with (S k) in * by lia.
    cbn [firstn] in *. exact IH.
Qed.

Lemma widths_rows_pos (minw maxw : R) (k n : nat) (ps : list (R * R)) :
  0 < minw < maxw -> Forall in_box ps ->
  length ps = n \/ length ps = 1%nat ->
  Forall (Forall (fun w => 0 < w)) (widths_rows minw maxw k n ps).
Proof.
  intros Hw Hps Hlen. unfold widths_rows. apply Forall_map, Forall_forall.
  intros j Hj. apply in_seq in Hj. apply Forall_forall.
  intros w Hin. apply repeat_spec in Hin. subst w.
  assert (Hp : in_box (param_real n ps j)).
  { rewrite Forall_forall in Hps. apply Hps, param_real_in; [ assumption | lia ]. }
  pose proof (width_real_pos minw maxw _ Hw Hp). lra.
Qed.

(** The log-density of an array of regular observations. *)
Lemma log_density_regular (k' d : nat) (minw maxw eps : R)
    (X : list (list R)) (ps : list (R * R)) (precise : bool) :
  (S k' < d)%nat -> 0 < eps -> 0 < minw < maxw ->
  Forall (fun xs => length xs = d) X ->
  Forall (fun xs => nth (S k') xs 0 <> 0) X ->
  Forall in_box ps -> length ps = length X \/ length ps = 1%nat ->
  log_density
    (mk_sim (S k') d (Fin (0.5 * PI)) (Fin (1.5 * PI))
            (Fin minw) (Fin maxw) (Fin eps))
    (of_reals d X) (Some (flat_params ps)) precise
  = Ok (map Fin
          (Np.zip_with3 (log_density_real (S k') eps)
             (map (fun xs => angles (firstn (S k' + 1) xs)) X)
             (map (fun xs => (norm2 (firstn (S k' + 1) xs) - 1)
                             :: skipn (S k' + 1) xs) X)
             (mixture (phases_rows k' (length X) ps)
                      (widths_rows minw maxw (S k') (length X) ps)
                      (map (fun xs => angles (firstn (S k' + 1) xs)) X)
                      (symmetric_images (S k')
                         (map (fun xs => angles (firstn (S k' + 1) xs))
                              X))))).
Proof.
  intros Hd Heps Hw Hlen Hlast Hps Hn.
  set (self := mk_sim (S k') d (Fin (0.5 * PI)) (Fin (1.5 * PI))
                      (Fin minw) (Fin maxw) (Fin eps)).
  set (Z := map (fun xs => angles (firstn (S k' + 1) xs)) X).
  set (E := map (fun xs => (norm2 (firstn (S k' + 1) xs) - 1)
                           :: skipn (S k' + 1) xs) X).
  set (L := phases_rows k' (length X) ps).
  set (W := widths_rows minw maxw (S k') (length X) ps).
  assert (Hoff : Forall (fun xs => off_axis (firstn (S k' + 1) xs)) X).
  { rewrite Forall_forall in *. intros xs Hxs.
    apply off_axis_coords; [ lia | rewrite (Hlen xs Hxs); lia | ].
    right. now apply Hlast. }
  assert (Hphi : map (z_phi_row self) (map (map Fin) X) = map (map Fin) Z).
  { unfold Z. rewrite !map_map. apply map_ext_in. intros xs Hxs.
    rewrite Forall_forall in *.
    apply (z_phi_row_fin self xs);
      [ simpl; lia | simpl; rewrite (Hlen xs Hxs); lia | now apply Hoff ]. }
  assert (Heps_rows : map (z_eps_row self) (map (map Fin) X)
                      = map (map Fin) E).
  { unfold E. rewrite !map_map. apply map_ext_in. intros xs Hxs.
    rewrite Forall_forall in *.
    apply (z_eps_row_fin self xs). simpl. rewrite (Hlen xs Hxs). lia. }
  assert (HZlen : Forall (fun ts => length ts = S k') Z).
  { unfold Z. apply Forall_map. rewrite Forall_forall in *.
    intros xs Hxs.
    rewrite angles_length, length_firstn, (Hlen xs Hxs). lia. }
  assert (HZcan : map (canonical_row_reals (S k')) Z = Z).
  { rewrite <- (map_id Z) at 2. apply map_ext_in. intros ts Hts.
    rewrite Forall_forall in HZlen.
    apply canonical_row_reals_id; [ now apply HZlen | ].
    unfold Z in Hts. apply in_map_iff in Hts as (xs & <- & Hxs).
    rewrite Forall_forall in *.
    apply angles_canonical; [ | now apply Hoff ].
    rewrite length_firstn, (Hlen xs Hxs). lia. }
  assert (HW : Forall (Forall (fun w => 0 < w)) W)
    by now apply widths_rows_pos.
  rewrite (log_density_formula self (of_reals d X) (flat_params ps)
             (of_reals (S k') L) (of_reals (S k') W) precise).
  - cbn [rows of_reals]. rewrite Hphi, Heps_rows.
    change (_latent_dim self) with (S k').
    change (mk_nd (S k') (map (map Fin) Z)) with (of_reals (S k') Z).
    replace (S k' - 1)%nat with k' at 1 by lia.
    pose proof (variations_reals (S k') (map (canonical_row_reals (S k')) Z))
      as Hv.
    rewrite <- canonical_reals in Hv.
    replace (S k' - 1)%nat with k' in Hv at 1 by lia.
    rewrite Hv, canonical_reals, HZcan.
    rewrite sum_of_densities_reals by assumption.
    cbn [rows of_reals]. f_equal.
    apply (log_density_rows_fin self eps); try assumption; try reflexivity.
    + unfold Z. apply Forall_map. rewrite Forall_forall in *.
      intros xs Hxs. apply angles_sin_nonzero.
      * rewrite length_firstn, (Hlen xs Hxs). lia.
      * rewrite last_firstn_nth by (rewrite (Hlen xs Hxs); lia).
        now apply Hlast.
    + unfold E. apply Forall_map, Forall_forall. intros xs _. discriminate.
    + now apply mixture_pos.
  - simpl. lia.
  - cbn [shape1 of_reals]. simpl. lia.
  - unfold shape0, of_reals. cbn [rows]. rewrite length_map.
    now apply parse_parameters_reals.
  - unfold shaped_as, shape0, of_reals, L, W, phases_rows, widths_rows.
    cbn [shape1 rows]. now rewrite !length_map, !length_seq.
  - reflexivity.
  - unfold shape0, of_reals, L, phases_rows. cbn [rows].
    now rewrite !length_map, length_seq.
Qed.

(** The last angle has the weight 0. *)
Lemma last_angle_weightless (k : nat) (init : list R) (a : R) :
  (length init + 1 = k)%nat ->
  weighted_log_sines_real k (init ++ [a])
  = weighted_log_sines_real k init.
Proof.
  intros Hk. unfold weighted_log_sines_real. rewrite <- Hk.
  replace (length init + 1)%nat with (S (length init)) by lia.
  cbn [seq]. rewrite <- seq_shift. cbn [rev]. rewrite !map_app.
  rewrite zip_with_app_eq, zip_with_short
    by now rewrite !length_map, length_rev, length_map, length_seq.
  cbn [map Np.zip_with INR]. unfold sum_list.
  rewrite fold_right_app. cbn [fold_right].
  replace (0 * ln (Rabs (sin a)) + 0) with 0 by ring. reflexivity.
Qed.

End RealDensity.

(** C3: for an array of real angles of [latent_dim >= 1] columns the
    generator yields, in this order and without failing, the angles
    reduced to their canonical range (modulo [2 pi], all columns but the
    last folded at [pi]) and then [2 (latent_dim - 1) + 2] images of
    them: for each column but the last, the array with that column
    negated and the array with that column reflected at [2 pi]; then
    the arrays with the last column shifted by [-2 pi] and by [+2 pi];
    [2 latent_dim + 1] arrays in all.  Each image differs from the
    canonical angles in that one column only.  The density [p_sub] is
    the sum of the Normal(phase, width) density over these arrays; for
    real phases and positive real widths it is an array of positive
    real numbers, the symmetrized mixture density. *)
Theorem C3_symmetric_images :
  forall (self : Simulator) (phases_ widths_ : ndarray) (A : list (list R))
         (precise : bool),
    1 <= _latent_dim self ->
    Forall (fun ts => length ts = _latent_dim self) A ->
    shaped_as phases_ widths_ ->
    shaped_as phases_ (of_reals (_latent_dim self) A) ->
    _generate_equivalent_coordinates self (of_reals (_latent_dim self) A)
                                     precise
    = (map (of_reals (_latent_dim self))
           (map (canonical_row_reals (_latent_dim self)) A
              :: symmetric_images (_latent_dim self)
                   (map (canonical_row_reals (_latent_dim self)) A)),
       None)
    /\ length (symmetric_images (_latent_dim self)
                 (map (canonical_row_reals (_latent_dim self)) A))
       = 2 * (_latent_dim self - 1) + 2
    /\ length (fst (_generate_equivalent_coordinates
                      self (of_reals (_latent_dim self) A) precise))
       = 2 * _latent_dim self + 1
    /\ (forall (dim : nat) (g : R -> R) (zs : list R) (j : nat),
           j < length zs ->
           nth j (replace_entry dim g zs) 0%R
           = if j =? dim then g (nth j zs 0%R) else nth j zs 0%R)
    /\ p_sub_loop self phases_ widths_ (of_reals (_latent_dim self) A)
                  precise
       = Ok (Array
               (sum_of_densities phases_ widths_
                  (of_reals (_latent_dim self)
                     (map (canonical_row_reals (_latent_dim self)) A))
                  (map (of_reals (_latent_dim self))
                       (symmetric_images (_latent_dim self)
                          (map (canonical_row_reals (_latent_dim self))
                               A)))))
    /\ (forall L W : list (list R),
           phases_ = of_reals (_latent_dim self) L ->
           widths_ = of_reals (_latent_dim self) W ->
           Forall (Forall (fun w => (0 < w)%R)) W ->
           p_sub_loop self phases_ widths_ (of_reals (_latent_dim self) A)
                      precise
           = Ok (Array
                   (of_reals (_latent_dim self)
                      (mixture L W
                         (map (canonical_row_reals (_latent_dim self)) A)
                         (symmetric_images (_latent_dim self)
                            (map (canonical_row_reals (_latent_dim self))
                                 A)))))
           /\ Forall (Forall (fun v => (0 < v)%R))
                     (mixture L W
                        (map (canonical_row_reals (_latent_dim self)) A)
                        (symmetric_images (_latent_dim self)
                           (map (canonical_row_reals (_latent_dim self))
                                A)))).
Proof.
  intros self phases_ widths_ A precise Hk HA Hw Hz.
  pose proof (generator_reals self A precise Hk) as Hgen.
  split; [ exact Hgen | ].
  split; [ apply symmetric_images_length | ].
  split.
  { rewrite Hgen. cbn [fst map length].
    rewrite length_map, symmetric_images_length. lia. }
  split; [ intros dim g zs j; apply replace_entry_nth | ].
  assert (Hsum : p_sub_loop self phases_ widths_
                   (of_reals (_latent_dim self) A) precise
                 = Ok (Array
                         (sum_of_densities phases_ widths_
                            (of_reals (_latent_dim self)
                               (map (canonical_row_reals (_latent_dim self))
                                    A))
                            (map (of_reals (_latent_dim self))
                                 (symmetric_images (_latent_dim self)
                                    (map (canonical_row_reals
                                            (_latent_dim self)) A)))))).
  { rewrite p_sub_loop_images by (assumption || reflexivity).
    now rewrite canonical_reals, variations_reals. }
  split; [ exact Hsum | ].
  intros L W HL HW' Hpos. split; [ | now apply mixture_pos ].
  rewrite Hsum, HL, HW'. now rewrite sum_of_densities_reals.
Qed.

Lemma C3_symmetric_images_witness :
  _generate_equivalent_coordinates sim_2_3
    (of_reals (_latent_dim sim_2_3) [[7; -1]]%R) false
  = (map (of_reals (_latent_dim sim_2_3))
         (map (canonical_row_reals (_latent_dim sim_2_3)) [[7; -1]]%R
            :: symmetric_images (_latent_dim sim_2_3)
                 (map (canonical_row_reals (_latent_dim sim_2_3))
                      [[7; -1]]%R)),
     None)
  /\ length (symmetric_images (_latent_dim sim_2_3)
               (map (canonical_row_reals (_latent_dim sim_2_3))
                    [[7; -1]]%R))
     = 2 * (_latent_dim sim_2_3 - 1) + 2
  /\ length (fst (_generate_equivalent_coordinates
                    sim_2_3 (of_reals (_latent_dim sim_2_3) [[7; -1]]%R)
                    false))
     = 2 * _latent_dim sim_2_3 + 1
  /\ (forall (dim : nat) (g : R -> R) (zs : list R) (j : nat),
         j < length zs ->
         nth j (replace_entry dim g zs) 0%R
         = if j =? dim then g (nth j zs 0%R) else nth j zs 0%R)
  /\ p_sub_loop sim_2_3 (mk_nd 2 [[Fin 0; Fin 0]]) (mk_nd 2 [[Fin 1; Fin 1]])
                (of_reals (_latent_dim sim_2_3) [[7; -1]]%R) false
     = Ok (Array
             (sum_of_densities (mk_nd 2 [[Fin 0; Fin 0]])
                (mk_nd 2 [[Fin 1; Fin 1]])
                (of_reals (_latent_dim sim_2_3)
                   (map (canonical_row_reals (_latent_dim sim_2_3))
                        [[7; -1]]%R))
                (map (of_reals (_latent_dim sim_2_3))
                     (symmetric_images (_latent_dim sim_2_3)
                        (map (canonical_row_reals (_latent_dim sim_2_3))
                             [[7; -1]]%R)))))
  /\ (forall L W : list (list R),
         mk_nd 2 [[Fin 0; Fin 0]] = of_reals (_latent_dim sim_2_3) L ->
         mk_nd 2 [[Fin 1; Fin 1]] = of_reals (_latent_dim sim_2_3) W ->
         Forall (Forall (fun w => (0 < w)%R)) W ->
         p_sub_loop sim_2_3 (mk_nd 2 [[Fin 0; Fin 0]])
                    (mk_nd 2 [[Fin 1; Fin 1]])
                    (of_reals (_latent_dim sim_2_3) [[7; -1]]%R) false
         = Ok (Array
                 (of_reals (_latent_dim sim_2_3)
                    (mixture L W
                       (map (canonical_row_reals (_latent_dim sim_2_3))
                            [[7; -1]]%R)
                       (symmetric_images (_latent_dim sim_2_3)
                          (map (canonical_row_reals (_latent_dim sim_2_3))
                               [[7; -1]]%R)))))
         /\ Forall (Forall (fun v => (0 < v)%R))
                   (mixture L W
                      (map (canonical_row_reals (_latent_dim sim_2_3))
                           [[7; -1]]%R)
                      (symmetric_images (_latent_dim sim_2_3)
                         (map (canonical_row_reals (_latent_dim sim_2_3))
                              [[7; -1]]%R)))).
Proof.
  apply (C3_symmetric_images sim_2_3 (mk_nd 2 [[Fin 0; Fin 0]])
           (mk_nd 2 [[Fin 1; Fin 1]]) [[7; -1]]%R false).
  - simpl. lia.
  - repeat constructor.
  - split; reflexivity.
  - split; reflexivity.
Defined.

(** C2, as the code has it, on regular observations.  Let the
    simulator be constructed with real arguments, [min_width >= 1/4]
    and [epsilon] between [10 ^ -100] and [10 ^ 100]; let [x] be a float
    array of regular observations (see [regular_row]) and [theta] one
    parameter vector of the box [-1, 1]^2, or one per observation.
    Then every entry of [log_density(x, theta)] is a real number: the
    sum over the angular coordinates of the log of the symmetrized
    Normal(phase, width) mixture density at the angles of the
    observation, plus the sum over the noise coordinates of the log of
    the Normal(0, epsilon) density, plus the Jacobian correction
    [latent_dim |r|] plus the sum of [log |sin angle|] with the weights
    [latent_dim - 1, ..., 0].  The angles are in their canonical range,
    and the last angle, of weight 0, contributes nothing. *)
Theorem C2_log_density_formula :
  forall (k' d : nat) (minw maxw eps : R) (self : Simulator)
         (X : list (list R)) (ps : list (R * R)) (precise : bool),
    __init__ (S k') d (Fin minw) (Fin maxw) (Fin eps) = Ok self ->
    (/ 4 <= minw)%R -> no_underflow eps -> no_overflow eps ->
    Forall (fun xs => length xs = d) X ->
    Forall (regular_row (S k') eps) X ->
    Forall in_box ps -> length ps = length X \/ length ps = 1 ->
    log_density self (of_reals d X) (Some (flat_params ps)) precise
    = Ok (map Fin
            (Np.zip_with3 (log_density_real (S k') eps)
               (map (fun xs => angles (firstn (S k' + 1) xs)) X)
               (map (fun xs => (norm2 (firstn (S k' + 1) xs) - 1)%R
                               :: skipn (S k' + 1) xs) X)
               (mixture (phases_rows k' (length X) ps)
                        (widths_rows minw maxw (S k') (length X) ps)
                        (map (fun xs => angles (firstn (S k' + 1) xs)) X)
                        (symmetric_images (S k')
                           (map (fun xs => angles (firstn (S k' + 1) xs))
                                X)))))
    /\ Forall canonical_angles
              (map (fun xs => angles (firstn (S k' + 1) xs)) X)
    /\ (forall (zs es mix : list R),
           log_density_real (S k') eps zs es mix
           = (angular_term_real mix + noise_term_real eps es
              + (INR (S k') * Rabs (1 + nth 0 es 0)
                 + weighted_log_sines_real (S k') zs))%R)
    /\ (forall (init : list R) (a : R),
           length init = k' ->
           weighted_log_sines_real (S k') (init ++ [a])
           = weighted_log_sines_real (S k') init).
Proof.
  intros k' d minw maxw eps self X ps precise Hinit Hminw Heps1 Heps2
         Hlen Hreg Hps Hn.
  apply init_reals in Hinit as (-> & Hd & Heps & Hw & Hmax).
  assert (Hlast : Forall (fun xs => nth (S k') xs 0%R <> 0%R) X).
  { eapply Forall_impl; [ | exact Hreg ].
    intros xs (_ & Hx & _). now apply no_underflow_nonzero. }
  split; [ | split; [ | split ] ].
  - now apply log_density_regular.
  - apply Forall_map. rewrite Forall_forall in *. intros xs Hxs.
    apply angles_canonical.
    + rewrite length_firstn, (Hlen xs Hxs). lia.
    + apply off_axis_coords; [ lia | rewrite (Hlen xs Hxs); lia | ].
      right. now apply Hlast.
  - reflexivity.
  - intros init a Hl. apply last_angle_weightless. lia.
Qed.

Lemma C2_log_density_formula_witness :
  log_density sim_2_3 (of_reals 3 [[0; 0.6; 0.8]]%R)
              (Some (flat_params [(0, 0)]%R)) false
  = Ok (map Fin
          (Np.zip_with3 (log_density_real 2 0.01)
             (map (fun xs => angles (firstn (2 + 1) xs)) [[0; 0.6; 0.8]]%R)
             (map (fun xs => (norm2 (firstn (2 + 1) xs) - 1)%R
                             :: skipn (2 + 1) xs) [[0; 0.6; 0.8]]%R)
             (mixture (phases_rows 1 (length [[0; 0.6; 0.8]]%R) [(0, 0)]%R)
                      (widths_rows (0.1 * PI) (0.4 * PI) 2
                                   (length [[0; 0.6; 0.8]]%R) [(0, 0)]%R)
                      (map (fun xs => angles (firstn (2 + 1) xs))
                           [[0; 0.6; 0.8]]%R)
                      (symmetric_images 2
                         (map (fun xs => angles (firstn (2 + 1) xs))
                              [[0; 0.6; 0.8]]%R)))))
  /\ Forall canonical_angles
            (map (fun xs => angles (firstn (2 + 1) xs)) [[0; 0.6; 0.8]]%R)
  /\ (forall (zs es mix : list R),
         log_density_real 2 0.01 zs es mix
         = (angular_term_real mix + noise_term_real 0.01 es
            + (INR 2 * Rabs (1 + nth 0 es 0)
               + weighted_log_sines_real 2 zs))%R)
  /\ (forall (init : list R) (a : R),
         length init = 1 ->
         weighted_log_sines_real 2 (init ++ [a])
         = weighted_log_sines_real 2 init).
Proof.
  apply (C2_log_density_formula 1 3 (0.1 * PI) (0.4 * PI) 0.01 sim_2_3
           [[0; 0.6; 0.8]]%R [(0, 0)]%R false).
  - exact init_default_2_3.
  - pose proof PI2_3_2 as H. unfold PI2 in H. lra.
  - magnitude.
  - magnitude.
  - repeat constructor.
  - constructor; [ | constructor ]. unfold regular_row.
    split; [ magnitudes | ]. split; [ simpl; magnitude | ].
    split; [ | split ].
    + intros j Hj. destruct j as [|[|j]]; [ | | lia ]; simpl; lra.
    + unfold norm2. cbn [Nat.add firstn sumsq fold_right].
      replace (0 * 0 + (0.6 * 0.6 + (0.8 * 0.8 + 0)))%R with 1%R by lra.
      rewrite sqrt_1. replace (1 - 1)%R with 0%R by lra.
      rewrite Rabs_R0. lra.
    + simpl. constructor.
  - exact in_box_origin.
  - right. reflexivity.
Defined.

(* ================================================================== *)
(** ** The layouts of plot_settings.py *)

Section PlotLayout.

Import PlotSettings.
Local Open Scope R_scope.

Lemma fdiv_ok (a b : R) : b <> 0 -> fdiv a b = Done (a / b).
Proof. intros Hb. unfold fdiv. now rewrite Reqb_false. Qed.

Lemma fdiv_zero (a : R) : fdiv a 0 = ZeroDivisionError.
Proof. unfold fdiv. now rewrite Reqb_true. Qed.

Lemma plt_figure_ok (w h : R) : 0 <= w -> 0 <= h -> plt_figure (w, h) = Done tt.
Proof.
  intros Hw Hh. unfold plt_figure. cbn [fst snd].
  now rewrite !Rltb_false.
Qed.

Lemma plt_figure_negative (w h : R) :
  w < 0 \/ h < 0 -> plt_figure (w, h) = ValueError.
Proof.
  intros H. unfold plt_figure. cbn [fst snd].
  destruct (Rlt_dec w 0) as [Hw|Hw].
  - now rewrite (@Rltb_true w 0).
  - rewrite (@Rltb_false w 0) by lra. rewrite (@Rltb_true h 0) by lra.
    reflexivity.
Qed.

Lemma GridSpec_ok (nrows ncols : Z) :
  (1 <= nrows)%Z -> (1 <= ncols)%Z -> GridSpec nrows ncols = Done tt.
Proof.
  intros Hr Hc. unfold GridSpec.
  destruct (Z.leb_spec nrows 0); [ lia | ].
  destruct (Z.leb_spec ncols 0); [ lia | reflexivity ].
Qed.

Lemma plt_subplots_adjust_ok (l r b t ws hs : R) :
  l < r -> b < t -> plt_subplots_adjust (mk_adjust l r b t ws hs) = Done tt.
Proof.
  intros Hlr Hbt. unfold plt_subplots_adjust. cbn [adj_left adj_right adj_bottom adj_top].
  now rewrite !Rleb_false.
Qed.

Lemma plt_subplots_adjust_refused (l r b t ws hs : R) :
  r <= l \/ t <= b ->
  plt_subplots_adjust (mk_adjust l r b t ws hs) = ValueError.
Proof.
  intros H. unfold plt_subplots_adjust.
  cbn [adj_left adj_right adj_bottom adj_top].
  destruct (Rle_dec r l) as [Hrl|Hrl].
  - now rewrite (@Rleb_true r l).
  - rewrite (@Rleb_false r l) by lra. rewrite (@Rleb_true t b) by lra.
    reflexivity.
Qed.

Lemma margin_nonneg (space : bool) (large_margin small_margin : R) :
  0 <= large_margin -> 0 <= small_margin ->
  0 <= margin space large_margin small_margin.
Proof. intros Hl Hs. now destruct space. Qed.

Lemma IZR_ge_1 (n : Z) : (1 <= n)%Z -> 1 <= IZR n.
Proof. intros H. now apply IZR_le in H. Qed.

Lemma panel_fraction_pos (ny : Z) (top bottom sep : R) :
  (1 <= ny)%Z -> top + bottom + IZR (ny - 1) * sep < 1 ->
  0 < panel_fraction ny top bottom sep.
Proof.
  intros Hny Hfit. apply IZR_ge_1 in Hny. unfold panel_fraction.
  apply Rdiv_lt_0_compat; lra.
Qed.

Lemma rows_fit (ny : Z) (top bottom sep : R) :
  (1 <= ny)%Z -> 0 <= sep -> top + bottom + IZR (ny - 1) * sep < 1 ->
  top + bottom < 1.
Proof.
  intros Hny Hsep Hfit. apply IZR_ge_1 in Hny. rewrite minus_IZR in Hfit.
  nra.
Qed.

Lemma grid_extent_pos (nx : Z) (left right panel sep : R) :
  (1 <= nx)%Z -> 0 <= left -> 0 <= right -> 0 < panel -> 0 <= sep ->
  0 < grid_extent nx left right panel sep.
Proof.
  intros Hnx Hl Hr Hp Hs. apply IZR_ge_1 in Hnx. unfold grid_extent.
  rewrite minus_IZR. nra.
Qed.

Lemma grid2_extent_pos (nx : Z) (left right panel sep cbar_width : R) :
  (1 <= nx)%Z -> 0 <= left -> 0 <= right -> 0 < panel -> 0 <= sep ->
  0 <= cbar_width ->
  0 < grid2_extent nx left right panel sep cbar_width.
Proof.
  intros Hnx Hl Hr Hp Hs Hc. apply IZR_ge_1 in Hnx. unfold grid2_extent.
  nra.
Qed.

(** The margins of a figure of the size [(width, height)], as fractions
    of its width. *)
Lemma margins_fit (left right height width : R) :
  0 < height -> 0 < width ->
  (left * height / width < 1 - right * height / width
   <-> (left + right) * height < width).
Proof.
  intros Hh Hw.
  replace (1 - right * height / width)
    with ((width - right * height) / width) by (field; lra).
  split; intros H.
  - apply (Rmult_lt_compat_r width) in H; [ | assumption ].
    replace (left * height / width * width) with (left * height) in H
      by (field; lra).
    replace ((width - right * height) / width * width)
      with (width - right * height) in H by (field; lra).
    lra.
  - apply (Rmult_lt_reg_r width); [ assumption | ].
    replace (left * height / width * width) with (left * height)
      by (field; lra).
    replace ((width - right * height) / width * width)
      with (width - right * height) by (field; lra).
    lra.
Qed.

(** What [grid] does up to the call of [plt.subplots_adjust]. *)
Lemma grid_steps (nx ny : Z)
    (height aspect_ratio large_margin small_margin sep : R)
    (l_space r_space b_space t_space : bool) :
  let left := margin l_space large_margin small_margin in
  let right := margin r_space large_margin small_margin in
  let top := margin t_space large_margin small_margin in
  let bottom := margin b_space large_margin small_margin in
  let p := panel_fraction ny top bottom sep in
  let width := height * aspect_ratio * grid_extent nx left right p sep in
  let a := mk_adjust (left * height / width)
                     (1 - right * height / width)
                     bottom (1 - top)
                     (sep * height
                      / (height * p * IZR nx * IZR ny / IZR (nx * ny + ny)))
                     (sep * height / (height * p)) in
  (1 <= nx)%Z -> (1 <= ny)%Z -> 0 < height -> 0 < aspect_ratio ->
  0 <= large_margin -> 0 <= small_margin -> 0 <= sep ->
  top + bottom + IZR (ny - 1) * sep < 1 ->
  grid nx ny height aspect_ratio large_margin small_margin sep
       l_space r_space b_space t_space
  = (_ <~ plt_subplots_adjust a ;;
     Done (mk_grid (width, height) (ny, nx) (times 1 nx) (times 1 ny) a)).
Proof.
  intros left right top bottom p width a Hnx Hny Hh Ha Hl Hs Hsep Hfit.
  assert (Hp : 0 < p) by now apply panel_fraction_pos.
  assert (HD : 0 < grid_extent nx left right p sep)
    by (apply grid_extent_pos; try apply margin_nonneg; assumption).
  assert (Hw : 0 < width)
    by (unfold width; repeat apply Rmult_lt_0_compat; assumption).
  pose proof (IZR_ge_1 nx Hnx) as HX. pose proof (IZR_ge_1 ny Hny) as HY.
  assert (Hxy : 0 < IZR (nx * ny + ny)).
  { rewrite plus_IZR, mult_IZR. nra. }
  assert (Hhp : 0 < height * p) by now apply Rmult_lt_0_compat.
  assert (Havg : 0 < height * p * IZR nx * IZR ny / IZR (nx * ny + ny)).
  { apply Rdiv_lt_0_compat; [ | assumption ].
    apply Rmult_lt_0_compat; [ apply Rmult_lt_0_compat | ]; lra. }
  unfold grid. fold (margin l_space large_margin small_margin).
  fold (margin r_space large_margin small_margin).
  fold (margin t_space large_margin small_margin).
  fold (margin b_space large_margin small_margin).
  fold left right top bottom.
  rewrite fdiv_ok by lra. cbn [and_then].
  fold (panel_fraction ny top bottom sep). fold p.
  rewrite (fdiv_ok _ (IZR (nx * ny + ny))) by lra. cbn [and_then].
  rewrite (fdiv_ok (sep * height)) by lra. cbn [and_then].
  rewrite (fdiv_ok (sep * height)) by lra. cbn [and_then].
  fold (grid_extent nx left right p sep). fold width.
  rewrite plt_figure_ok by lra. cbn [and_then].
  rewrite GridSpec_ok by assumption. cbn [and_then].
  rewrite !(fdiv_ok _ width) by lra. cbn [and_then].
  reflexivity.
Qed.

(** The grid that [grid] sets up when the margins leave room for the
    panels. *)
Lemma grid_done (nx ny : Z)
    (height aspect_ratio large_margin small_margin sep : R)
    (l_space r_space b_space t_space : bool) :
  let left := margin l_space large_margin small_margin in
  let right := margin r_space large_margin small_margin in
  let top := margin t_space large_margin small_margin in
  let bottom := margin b_space large_margin small_margin in
  let p := panel_fraction ny top bottom sep in
  let width := height * aspect_ratio * grid_extent nx left right p sep in
  (1 <= nx)%Z -> (1 <= ny)%Z -> 0 < height -> 0 < aspect_ratio ->
  0 <= large_margin -> 0 <= small_margin -> 0 <= sep ->
  top + bottom + IZR (ny - 1) * sep < 1 ->
  left + right < aspect_ratio * grid_extent nx left right p sep ->
  grid nx ny height aspect_ratio large_margin small_margin sep
       l_space r_space b_space t_space
  = Done (mk_grid (width, height) (ny, nx) (times 1 nx) (times 1 ny)
            (mk_adjust (left * height / width)
                       (1 - right * height / width)
                       bottom (1 - top)
                       (sep * height
                        / (height * p * IZR nx * IZR ny / IZR (nx * ny + ny)))
                       (sep * height / (height * p)))).
Proof.
  intros left right top bottom p width Hnx Hny Hh Ha Hl Hs Hsep Hfit Hroom.
  pose proof (grid_steps nx ny height aspect_ratio large_margin small_margin
                sep l_space r_space b_space t_space
                Hnx Hny Hh Ha Hl Hs Hsep Hfit) as Hg.
  cbv zeta in Hg. fold left right top bottom p width in Hg. rewrite Hg.
  assert (Hp : 0 < p) by now apply panel_fraction_pos.
  assert (HD : 0 < grid_extent nx left right p sep)
    by (apply grid_extent_pos; try apply margin_nonneg; assumption).
  assert (Hw : 0 < width)
    by (unfold width; repeat apply Rmult_lt_0_compat; assumption).
  rewrite plt_subplots_adjust_ok; [ reflexivity | | ].
  - apply margins_fit; [ assumption | assumption | ].
    unfold width.
    replace (height * aspect_ratio * grid_extent nx left right p sep)
      with (aspect_ratio * grid_extent nx left right p sep * height) by ring.
    now apply Rmult_lt_compat_r.
  - pose proof (rows_fit ny top bottom sep Hny Hsep Hfit). lra.
Qed.

(** [grid] refuses margins that leave no room for the panels. *)
Lemma grid_refused (nx ny : Z)
    (height aspect_ratio large_margin small_margin sep : R)
    (l_space r_space b_space t_space : bool) :
  let left := margin l_space large_margin small_margin in
  let right := margin r_space large_margin small_margin in
  let top := margin t_space large_margin small_margin in
  let bottom := margin b_space large_margin small_margin in
  let p := panel_fraction ny top bottom sep in
  (1 <= nx)%Z -> (1 <= ny)%Z -> 0 < height -> 0 < aspect_ratio ->
  0 <= large_margin -> 0 <= small_margin -> 0 <= sep ->
  top + bottom + IZR (ny - 1) * sep < 1 ->
  aspect_ratio * grid_extent nx left right p sep <= left + right ->
  grid nx ny height aspect_ratio large_margin small_margin sep
       l_space r_space b_space t_space
  = ValueError.
Proof.
  intros left right top bottom p Hnx Hny Hh Ha Hl Hs Hsep Hfit Hroom.
  pose proof (grid_steps nx ny height aspect_ratio large_margin small_margin
                sep l_space r_space b_space t_space
                Hnx Hny Hh Ha Hl Hs Hsep Hfit) as Hg.
  cbv zeta in Hg. fold left right top bottom p in Hg. rewrite Hg.
  set (width := height * aspect_ratio * grid_extent nx left right p sep).
  assert (Hp : 0 < p) by now apply panel_fraction_pos.
  assert (HD : 0 < grid_extent nx left right p sep)
    by (apply grid_extent_pos; try apply margin_nonneg; assumption).
  assert (Hw : 0 < width)
    by (unfold width; repeat apply Rmult_lt_0_compat; assumption).
  rewrite plt_subplots_adjust_refused; [ reflexivity | ].
  left. destruct (Rle_lt_dec (1 - right * height / width)
                             (left * height / width)) as [H|H];
    [ exact H | ].
  apply margins_fit in H; [ | assumption | assumption ].
  unfold width in H.
  assert (H' : (left + right) * height
               < aspect_ratio * grid_extent nx left right p sep * height)
    by lra.
  apply Rmult_lt_reg_r in H'; lra.
Qed.

(** The grid that [grid2] sets up. *)
Lemma grid2_done (nx ny : Z)
    (height large_margin small_margin sep cbar_width : R) :
  let p := panel_fraction ny small_margin small_margin sep in
  let width :=
    height * grid2_extent nx small_margin large_margin p sep cbar_width in
  (1 <= nx)%Z -> (1 <= ny)%Z -> 0 < height ->
  0 <= large_margin -> 0 <= small_margin -> 0 <= sep -> 0 <= cbar_width ->
  small_margin + small_margin + IZR (ny - 1) * sep < 1 ->
  grid2 nx ny height large_margin small_margin sep cbar_width
  = Done (mk_grid (width, height) (ny, (nx + 1)%Z)
            (times 1 nx ++ [cbar_width]) (times 1 ny)
            (mk_adjust (small_margin * height / width)
                       (1 - large_margin * height / width)
                       small_margin (1 - small_margin)
                       (sep * height
                        / ((height * p * IZR nx * IZR ny
                            + IZR ny * cbar_width * height)
                           / IZR (nx * ny + ny)))
                       (sep * height / (height * p)))).
Proof.
  intros p width Hnx Hny Hh Hl Hs Hsep Hc Hfit.
  assert (Hp : 0 < p) by now apply panel_fraction_pos.
  assert (HD : 0 < grid2_extent nx small_margin large_margin p sep cbar_width)
    by (apply grid2_extent_pos; assumption).
  assert (Hw : 0 < width) by (unfold width; now apply Rmult_lt_0_compat).
  pose proof (IZR_ge_1 nx Hnx) as HX. pose proof (IZR_ge_1 ny Hny) as HY.
  assert (Hxy : 0 < IZR (nx * ny + ny)).
  { rewrite plus_IZR, mult_IZR. nra. }
  assert (Hhp : 0 < height * p) by now apply Rmult_lt_0_compat.
  assert (Hnum : 0 < height * p * IZR nx * IZR ny
                     + IZR ny * cbar_width * height).
  { assert (0 < height * p * IZR nx * IZR ny)
      by (apply Rmult_lt_0_compat; [ apply Rmult_lt_0_compat | ]; lra).
    assert (0 <= IZR ny * cbar_width * height)
      by (apply Rmult_le_pos; [ apply Rmult_le_pos | ]; lra).
    lra. }
  assert (Havg : 0 < (height * p * IZR nx * IZR ny
                      + IZR ny * cbar_width * height)
                     / IZR (nx * ny + ny))
    by now apply Rdiv_lt_0_compat.
  unfold grid2.
  rewrite fdiv_ok by lra. cbn [and_then].
  fold (panel_fraction ny small_margin small_margin sep). fold p.
  rewrite (fdiv_ok _ (IZR (nx * ny + ny))) by lra. cbn [and_then].
  rewrite (fdiv_ok (sep * height)) by lra. cbn [and_then].
  rewrite (fdiv_ok (sep * height)) by lra. cbn [and_then].
  fold (grid2_extent nx small_margin large_margin p sep cbar_width).
  fold width.
  rewrite plt_figure_ok by lra. cbn [and_then].
  rewrite GridSpec_ok by lia. cbn [and_then].
  rewrite !(fdiv_ok _ width) by lra. cbn [and_then]. cbv zeta.
  rewrite plt_subplots_adjust_ok; [ reflexivity | | ].
  - apply margins_fit; [ assumption | assumption | ].
    unfold width, grid2_extent. pose proof (IZR_ge_1 nx Hnx).
    assert (0 < IZR nx * p) by nra.
    assert (0 <= IZR nx * sep) by nra.
    assert (Hroom : small_margin + large_margin
                    < small_margin + IZR nx * p + cbar_width
                      + IZR nx * sep + large_margin) by lra.
    apply (Rmult_lt_compat_r height) in Hroom; [ | assumption ]. lra.
  - pose proof (rows_fit ny small_margin small_margin sep Hny Hsep Hfit). lra.
Qed.

(** X14: [grid_width] gives the figure the width it is asked for.  For
    at least one row and one column, a positive width and aspect ratio,
    margins and separation that are not negative and rows that fit into
    the height: when the left and right margins are narrower than the
    figure ([left + right] less than the aspect ratio times the extent
    of the grid) the call succeeds; the width of the figure is [width],
    its height is [width] divided by the aspect ratio and by the extent
    of the grid, and the left and right margins are [left] and [right]
    times the height.  When the margins are not narrower than the figure
    matplotlib refuses them and the call raises [ValueError]. *)
Theorem X14_grid_width_exact :
  forall (nx ny : Z) (width aspect_ratio large_margin small_margin sep : R)
         (l_space r_space b_space t_space : bool),
    (1 <= nx)%Z -> (1 <= ny)%Z -> 0 < width -> 0 < aspect_ratio ->
    0 <= large_margin -> 0 <= small_margin -> 0 <= sep ->
    margin t_space large_margin small_margin
    + margin b_space large_margin small_margin + IZR (ny - 1) * sep < 1 ->
    (margin l_space large_margin small_margin
     + margin r_space large_margin small_margin
     < aspect_ratio
       * grid_extent nx (margin l_space large_margin small_margin)
           (margin r_space large_margin small_margin)
           (panel_fraction ny (margin t_space large_margin small_margin)
              (margin b_space large_margin small_margin) sep)
           sep ->
     exists g,
       grid_width nx ny width aspect_ratio large_margin small_margin sep
                  l_space r_space b_space t_space = Done g
       /\ fst (grid_figsize g) = width
       /\ snd (grid_figsize g) * aspect_ratio
          * grid_extent nx (margin l_space large_margin small_margin)
              (margin r_space large_margin small_margin)
              (panel_fraction ny (margin t_space large_margin small_margin)
                 (margin b_space large_margin small_margin) sep)
              sep
          = width
       /\ nrows_ncols g = (ny, nx)
       /\ adj_left (grid_adjust g) * width
          = margin l_space large_margin small_margin * snd (grid_figsize g)
       /\ (1 - adj_right (grid_adjust g)) * width
          = margin r_space large_margin small_margin * snd (grid_figsize g)
       /\ adj_left (grid_adjust g) < adj_right (grid_adjust g)
       /\ adj_bottom (grid_adjust g) < adj_top (grid_adjust g))
    /\ (aspect_ratio
        * grid_extent nx (margin l_space large_margin small_margin)
            (margin r_space large_margin small_margin)
            (panel_fraction ny (margin t_space large_margin small_margin)
               (margin b_space large_margin small_margin) sep)
            sep
        <= margin l_space large_margin small_margin
           + margin r_space large_margin small_margin ->
        grid_width nx ny width aspect_ratio large_margin small_margin sep
                   l_space r_space b_space t_space = ValueError).
Proof.
  intros nx ny width aspect_ratio large_margin small_margin sep
         l_space r_space b_space t_space Hnx Hny Hw Ha Hl Hs Hsep Hfit.
  set (left := margin l_space large_margin small_margin).
  set (right := margin r_space large_margin small_margin).
  set (top := margin t_space large_margin small_margin) in *.
  set (bottom := margin b_space large_margin small_margin) in *.
  set (p := panel_fraction ny top bottom sep).
  set (D := grid_extent nx left right p sep).
  assert (Hp : 0 < p) by now apply panel_fraction_pos.
  assert (HD : 0 < D)
    by (apply grid_extent_pos; try apply margin_nonneg; assumption).
  pose proof (IZR_ge_1 ny Hny) as HY.
  assert (Hh : 0 < width / D / aspect_ratio)
    by (repeat apply Rdiv_lt_0_compat; assumption).
  assert (Hcall :
            grid_width nx ny width aspect_ratio large_margin small_margin sep
                       l_space r_space b_space t_space
            = grid nx ny (width / D / aspect_ratio) aspect_ratio
                   large_margin small_margin sep
                   l_space r_space b_space t_space).
  { unfold grid_width.
    fold (margin l_space large_margin small_margin).
    fold (margin r_space large_margin small_margin).
    fold (margin t_space large_margin small_margin).
    fold (margin b_space large_margin small_margin).
    fold left right top bottom.
    rewrite fdiv_ok by lra. cbn [and_then].
    fold (panel_fraction ny top bottom sep). fold p.
    fold (grid_extent nx left right p sep). fold D.
    rewrite (fdiv_ok width D) by lra. cbn [and_then].
    rewrite (fdiv_ok _ aspect_ratio) by lra. reflexivity. }
  rewrite Hcall. split.
  - intros Hroom.
    pose proof (grid_done nx ny (width / D / aspect_ratio) aspect_ratio
                  large_margin small_margin sep
                  l_space r_space b_space t_space) as Hg.
    cbv zeta in Hg. fold left right top bottom p D in Hg.
    rewrite Hg by assumption. clear Hg.
    eexists. split; [ reflexivity | ].
    cbn [grid_figsize nrows_ncols grid_adjust adj_left adj_right
         adj_bottom adj_top fst snd].
    assert (Hwidth : width / D / aspect_ratio * aspect_ratio * D = width)
      by (field; lra).
    rewrite Hwidth.
    split; [ reflexivity | ]. split; [ reflexivity | ].
    split; [ reflexivity | ].
    split; [ field; lra | ]. split; [ field; lra | ]. split.
    + apply margins_fit; [ assumption | assumption | ].
      apply (Rmult_lt_compat_r (width / D / aspect_ratio)) in Hroom;
        [ | assumption ].
      replace (aspect_ratio * D * (width / D / aspect_ratio)) with width
        in Hroom by (field; lra).
      exact Hroom.
    + pose proof (rows_fit ny top bottom sep Hny Hsep Hfit). lra.
  - intros Hroom.
    pose proof (grid_refused nx ny (width / D / aspect_ratio) aspect_ratio
                  large_margin small_margin sep
                  l_space r_space b_space t_space) as Hg.
    cbv zeta in Hg. fold left right top bottom p D in Hg.
    now apply Hg.
Qed.

Lemma X14_grid_width_exact_witness :
  (exists g,
      grid_width 4 2 9 1 0.14 0.03 0.02 true false true false = Done g
      /\ fst (grid_figsize g) = 9
      /\ snd (grid_figsize g) * 1
         * grid_extent 4 (margin true 0.14 0.03) (margin false 0.14 0.03)
             (panel_fraction 2 (margin false 0.14 0.03)
                (margin true 0.14 0.03) 0.02)
             0.02
         = 9
      /\ nrows_ncols g = (2%Z, 4%Z)
      /\ adj_left (grid_adjust g) * 9
         = margin true 0.14 0.03 * snd (grid_figsize g)
      /\ (1 - adj_right (grid_adjust g)) * 9
         = margin false 0.14 0.03 * snd (grid_figsize g)
      /\ adj_left (grid_adjust g) < adj_right (grid_adjust g)
      /\ adj_bottom (grid_adjust g) < adj_top (grid_adjust g))
  /\ grid_width 4 2 9 0.25 0.6 0.03 0.02 true true false false = ValueError.
Proof.
  split.
  - apply (proj1 (X14_grid_width_exact 4 2 9 1 0.14 0.03 0.02
                    true false true false
                    ltac:(lia) ltac:(lia) ltac:(lra) ltac:(lra)
                    ltac:(lra) ltac:(lra) ltac:(lra)
                    ltac:(unfold margin; simpl; lra))).
    unfold margin, grid_extent, panel_fraction. simpl. lra.
  - apply (proj2 (X14_grid_width_exact 4 2 9 0.25 0.6 0.03 0.02
                    true true false false
                    ltac:(lia) ltac:(lia) ltac:(lra) ltac:(lra)
                    ltac:(lra) ltac:(lra) ltac:(lra)
                    ltac:(unfold margin; simpl; lra))).
    unfold margin, grid_extent, panel_fraction. simpl. lra.
Defined.

(** X15: [grid2_width] does not give the figure the width it is asked
    for: it computes the height with the right margin [small_margin],
    and [grid2] lays the figure out with the right margin
    [large_margin].  The figure is wider than [width] by
    [large_margin - small_margin] times its height. *)
Theorem X15_grid2_width_excess :
  forall (nx ny : Z) (width large_margin small_margin sep cbar_width : R),
    (1 <= nx)%Z -> (1 <= ny)%Z -> 0 < width ->
    0 <= large_margin -> 0 <= small_margin -> 0 <= sep -> 0 <= cbar_width ->
    small_margin + small_margin + IZR (ny - 1) * sep < 1 ->
    exists g,
      grid2_width nx ny width large_margin small_margin sep cbar_width
      = Done g
      /\ snd (grid_figsize g)
         * grid2_extent nx small_margin small_margin
             (panel_fraction ny small_margin small_margin sep) sep cbar_width
         = width
      /\ fst (grid_figsize g)
         = width + (large_margin - small_margin) * snd (grid_figsize g)
      /\ nrows_ncols g = (ny, (nx + 1)%Z)
      /\ (fst (grid_figsize g) = width <-> large_margin = small_margin).
Proof.
  intros nx ny width large_margin small_margin sep cbar_width
         Hnx Hny Hw Hl Hs Hsep Hc Hfit.
  set (p := panel_fraction ny small_margin small_margin sep).
  set (D := grid2_extent nx small_margin small_margin p sep cbar_width).
  assert (Hp : 0 < p) by now apply panel_fraction_pos.
  assert (HD : 0 < D) by (apply grid2_extent_pos; assumption).
  pose proof (IZR_ge_1 ny Hny) as HY.
  assert (Hh : 0 < width / D) by now apply Rdiv_lt_0_compat.
  unfold grid2_width.
  rewrite fdiv_ok by lra. cbn [and_then].
  fold (panel_fraction ny small_margin small_margin sep). fold p.
  fold (grid2_extent nx small_margin small_margin p sep cbar_width). fold D.
  rewrite (fdiv_ok width D) by lra. cbn [and_then].
  pose proof (grid2_done nx ny (width / D) large_margin small_margin sep
                cbar_width) as Hg.
  cbv zeta in Hg. fold p in Hg.
  rewrite Hg by assumption. clear Hg.
  eexists. split; [ reflexivity | ].
  cbn [grid_figsize nrows_ncols fst snd].
  assert (Hwidth : width / D * D = width) by (field; lra).
  assert (Hfig : width / D
                 * grid2_extent nx small_margin large_margin p sep cbar_width
                 = width + (large_margin - small_margin) * (width / D)).
  { rewrite <- Hwidth at 2. unfold D, grid2_extent. ring. }
  split; [ exact Hwidth | ]. split; [ exact Hfig | ].
  split; [ reflexivity | ].
  rewrite Hfig. split.
  - intros E. assert (Hz : (large_margin - small_margin) * (width / D) = 0)
      by lra.
    apply Rmult_integral in Hz. lra.
  - intros ->. ring.
Qed.

Lemma X15_grid2_width_excess_witness :
  exists g,
    grid2_width 4 2 9 0.14 0.03 0.02 0.04 = Done g
    /\ snd (grid_figsize g)
       * grid2_extent 4 0.03 0.03 (panel_fraction 2 0.03 0.03 0.02) 0.02 0.04
       = 9
    /\ fst (grid_figsize g) = 9 + (0.14 - 0.03) * snd (grid_figsize g)
    /\ nrows_ncols g = (2%Z, (4 + 1)%Z)
    /\ (fst (grid_figsize g) = 9 <-> 0.14 = 0.03).
Proof.
  apply (X15_grid2_width_excess 4 2 9 0.14 0.03 0.02 0.04);
    try lia; simpl; lra.
Defined.

(** X16: the layout of [grid] scales with the height.  For margins that
    leave room for the panels, multiplying the height by a positive
    factor multiplies the width of the figure by the same factor, and
    leaves the numbers of rows and columns and all the arguments of
    [subplots_adjust] unchanged. *)
Theorem X16_grid_scales_with_height :
  forall (nx ny : Z) (height c aspect_ratio large_margin small_margin sep : R)
         (l_space r_space b_space t_space : bool),
    (1 <= nx)%Z -> (1 <= ny)%Z -> 0 < height -> 0 < c -> 0 < aspect_ratio ->
    0 <= large_margin -> 0 <= small_margin -> 0 <= sep ->
    margin t_space large_margin small_margin
    + margin b_space large_margin small_margin + IZR (ny - 1) * sep < 1 ->
    margin l_space large_margin small_margin
    + margin r_space large_margin small_margin
    < aspect_ratio
      * grid_extent nx (margin l_space large_margin small_margin)
          (margin r_space large_margin small_margin)
          (panel_fraction ny (margin t_space large_margin small_margin)
             (margin b_space large_margin small_margin) sep)
          sep ->
    exists g g',
      grid nx ny height aspect_ratio large_margin small_margin sep
           l_space r_space b_space t_space = Done g
      /\ grid nx ny (c * height) aspect_ratio large_margin small_margin sep
              l_space r_space b_space t_space = Done g'
      /\ grid_figsize g'
         = (c * fst (grid_figsize g), c * snd (grid_figsize g))
      /\ snd (grid_figsize g) = height
      /\ nrows_ncols g' = nrows_ncols g
      /\ grid_adjust g' = grid_adjust g.
Proof.
  intros nx ny height c aspect_ratio large_margin small_margin sep
         l_space r_space b_space t_space Hnx Hny Hh Hc Ha Hl Hs Hsep Hfit
         Hroom.
  pose proof (grid_done nx ny height aspect_ratio large_margin small_margin
                sep l_space r_space b_space t_space) as Hg.
  pose proof (grid_done nx ny (c * height) aspect_ratio large_margin
                small_margin sep l_space r_space b_space t_space) as Hg'.
  cbv zeta in Hg, Hg'.
  assert (Hch : 0 < c * height) by now apply Rmult_lt_0_compat.
  rewrite Hg, Hg' by assumption. clear Hg Hg'.
  set (left := margin l_space large_margin small_margin) in *.
  set (right := margin r_space large_margin small_margin) in *.
  set (top := margin t_space large_margin small_margin) in *.
  set (bottom := margin b_space large_margin small_margin) in *.
  set (p := panel_fraction ny top bottom sep) in *.
  set (D := grid_extent nx left right p sep) in *.
  assert (Hp : 0 < p) by now apply panel_fraction_pos.
  assert (HD : 0 < D)
    by (apply grid_extent_pos; try apply margin_nonneg; assumption).
  pose proof (IZR_ge_1 nx Hnx) as HX. pose proof (IZR_ge_1 ny Hny) as HY.
  assert (Hxy : 0 < IZR (nx * ny + ny)).
  { rewrite plus_IZR, mult_IZR. nra. }
  eexists _, _. split; [ reflexivity | ]. split; [ reflexivity | ].
  cbn [grid_figsize nrows_ncols grid_adjust fst snd].
  split; [ f_equal; ring | ]. split; [ reflexivity | ].
  split; [ reflexivity | ].
  f_equal; field; repeat split; lra.
Qed.

Lemma X16_grid_scales_with_height_witness :
  exists g g',
    grid 4 2 4.5 1 0.14 0.03 0.02 true false true false = Done g
    /\ grid 4 2 (2 * 4.5) 1 0.14 0.03 0.02 true false true false = Done g'
    /\ grid_figsize g' = (2 * fst (grid_figsize g), 2 * snd (grid_figsize g))
    /\ snd (grid_figsize g) = 4.5
    /\ nrows_ncols g' = nrows_ncols g
    /\ grid_adjust g' = grid_adjust g.
Proof.
  apply (X16_grid_scales_with_height 4 2 4.5 2 1 0.14 0.03 0.02
           true false true false);
    try lia; try lra;
    unfold margin, grid_extent, panel_fraction; simpl; lra.
Defined.

(** X17: the colorbar of [figure].  For a positive height, margins and
    colorbar sizes that are not negative, and top and bottom margins
    that leave room ([top + bottom < 1]), the call succeeds, and,
    measured in units of the height: the left margin is [left], the
    colorbar starts [cbar_sep] to the right of the axes, is [cbar_width]
    wide and leaves [large_margin] to its right, and it spans the
    vertical range of the axes.  The axes are wider than high by
    [cbar_sep + cbar_width].  With a width of zero the call raises
    [ZeroDivisionError]; with a negative height, or with
    [top + bottom >= 1], matplotlib refuses the figure and the call
    raises [ValueError]. *)
Theorem X17_figure_colorbar :
  forall (height large_margin small_margin cbar_sep cbar_width : R)
         (make3d l_space r_space b_space t_space : bool),
    let left := margin l_space large_margin small_margin in
    let top := margin t_space large_margin small_margin in
    let bottom := margin b_space large_margin small_margin in
    let width :=
      height * (1 + cbar_sep + cbar_width
                + (large_margin + cbar_width + cbar_sep)
                + left - top - bottom) in
    (0 < height -> 0 <= large_margin -> 0 <= small_margin ->
     0 <= cbar_sep -> 0 <= cbar_width -> top + bottom < 1 ->
     exists a cleft cwidth,
       figure true height large_margin small_margin cbar_sep cbar_width
              make3d l_space r_space b_space t_space
       = Done (mk_figure (width, height) a
                 (Some (cleft, bottom, cwidth, 1 - top - bottom)))
       /\ adj_left a * width = left * height
       /\ (cleft - adj_right a) * width = cbar_sep * height
       /\ cwidth * width = cbar_width * height
       /\ (1 - (cleft + cwidth)) * width = large_margin * height
       /\ adj_bottom a = bottom
       /\ adj_top a = bottom + (1 - top - bottom)
       /\ (adj_right a - adj_left a) * width
          = (adj_top a - adj_bottom a) * height
            + (cbar_sep + cbar_width) * height
       /\ adj_left a < adj_right a /\ adj_bottom a < adj_top a)
    /\ (width = 0 ->
        figure true height large_margin small_margin cbar_sep cbar_width
               make3d l_space r_space b_space t_space
        = ZeroDivisionError)
    /\ (width <> 0 -> height < 0 ->
        figure true height large_margin small_margin cbar_sep cbar_width
               make3d l_space r_space b_space t_space
        = ValueError)
    /\ (0 < height -> 0 < width -> 1 <= top + bottom ->
        figure true height large_margin small_margin cbar_sep cbar_width
               make3d l_space r_space b_space t_space
        = ValueError).
Proof.
  intros height large_margin small_margin cbar_sep cbar_width
         make3d l_space r_space b_space t_space left top bottom width.
  unfold figure.
  fold (margin l_space large_margin small_margin).
  fold (margin t_space large_margin small_margin).
  fold (margin b_space large_margin small_margin).
  fold left top bottom. fold width.
  split; [ | split; [ | split ] ].
  - intros Hh Hl Hs Hcs Hcw Htb.
    assert (Hl0 : 0 <= left) by now apply margin_nonneg.
    assert (Hw : 0 < width).
    { unfold width. apply Rmult_lt_0_compat; [ assumption | lra ]. }
    rewrite !fdiv_ok by lra. cbn [and_then].
    rewrite plt_figure_ok by lra. cbn [and_then]. cbv zeta.
    assert (Hlr : left * height / width
                  < 1 - (large_margin + cbar_width + cbar_sep) * height / width).
    { apply margins_fit; [ assumption | assumption | ].
      unfold width.
      assert (H : left + (large_margin + cbar_width + cbar_sep)
                  < 1 + cbar_sep + cbar_width
                    + (large_margin + cbar_width + cbar_sep)
                    + left - top - bottom) by lra.
      apply (Rmult_lt_compat_r height) in H; [ | assumption ]. lra. }
    rewrite plt_subplots_adjust_ok by lra. cbn [and_then].
    eexists _, _, _. split; [ reflexivity | ].
    cbn [adj_left adj_right adj_bottom adj_top].
    assert (Hw0 : width <> 0) by lra.
    assert (Hh0 : height <> 0) by lra.
    assert (Hf : 1 + cbar_sep + cbar_width
                 + (large_margin + cbar_width + cbar_sep)
                 + left - top - bottom <> 0)
      by (intros E; apply Hw0; unfold width; rewrite E; ring).
    split; [ field; assumption | ]. split; [ field; assumption | ].
    split; [ field; assumption | ]. split; [ field; assumption | ].
    split; [ reflexivity | ]. split; [ ring | ].
    split; [ unfold width; field; split; assumption | ].
    split; [ exact Hlr | lra ].
  - intros Hw. rewrite Hw. now rewrite fdiv_zero.
  - intros Hw Hh. rewrite !fdiv_ok by assumption. cbn [and_then].
    rewrite plt_figure_negative by now right. reflexivity.
  - intros Hh Hw Htb.
    rewrite !fdiv_ok by lra. cbn [and_then].
    rewrite plt_figure_ok by lra. cbn [and_then]. cbv zeta.
    rewrite plt_subplots_adjust_refused; [ reflexivity | ].
    right. lra.
Qed.

Lemma X17_figure_colorbar_witness :
  (exists a cleft cwidth,
      figure true 4.5 0.14 0.03 0.02 0.04 false true false true false
      = Done (mk_figure
                (4.5 * (1 + 0.02 + 0.04 + (0.14 + 0.04 + 0.02)
                        + margin true 0.14 0.03 - margin false 0.14 0.03
                        - margin true 0.14 0.03), 4.5)
                a
                (Some (cleft, margin true 0.14 0.03, cwidth,
                       1 - margin false 0.14 0.03 - margin true 0.14 0.03)))
      /\ adj_left a
         * (4.5 * (1 + 0.02 + 0.04 + (0.14 + 0.04 + 0.02)
                   + margin true 0.14 0.03 - margin false 0.14 0.03
                   - margin true 0.14 0.03))
         = margin true 0.14 0.03 * 4.5
      /\ (cleft - adj_right a)
         * (4.5 * (1 + 0.02 + 0.04 + (0.14 + 0.04 + 0.02)
                   + margin true 0.14 0.03 - margin false 0.14 0.03
                   - margin true 0.14 0.03))
         = 0.02 * 4.5
      /\ cwidth
         * (4.5 * (1 + 0.02 + 0.04 + (0.14 + 0.04 + 0.02)
                   + margin true 0.14 0.03 - margin false 0.14 0.03
                   - margin true 0.14 0.03))
         = 0.04 * 4.5
      /\ (1 - (cleft + cwidth))
         * (4.5 * (1 + 0.02 + 0.04 + (0.14 + 0.04 + 0.02)
                   + margin true 0.14 0.03 - margin false 0.14 0.03
                   - margin true 0.14 0.03))
         = 0.14 * 4.5
      /\ adj_bottom a = margin true 0.14 0.03
      /\ adj_top a
         = margin true 0.14 0.03
           + (1 - margin false 0.14 0.03 - margin true 0.14 0.03)
      /\ (adj_right a - adj_left a)
         * (4.5 * (1 + 0.02 + 0.04 + (0.14 + 0.04 + 0.02)
                   + margin true 0.14 0.03 - margin false 0.14 0.03
                   - margin true 0.14 0.03))
         = (adj_top a - adj_bottom a) * 4.5 + (0.02 + 0.04) * 4.5
      /\ adj_left a < adj_right a /\ adj_bottom a < adj_top a)
  /\ figure true 0 0.14 0.03 0.02 0.04 false true false true false
     = ZeroDivisionError
  /\ figure true (-4.5) 0.14 0.03 0.02 0.04 false true false true false
     = ValueError
  /\ figure true 4.5 0.5 0.03 0.02 0.04 false true false true true
     = ValueError.
Proof.
  split; [ | split; [ | split ] ].
  - apply (proj1 (X17_figure_colorbar 4.5 0.14 0.03 0.02 0.04
                    false true false true false));
      unfold margin; lra.
  - apply (proj1 (proj2 (X17_figure_colorbar 0 0.14 0.03 0.02 0.04
                           false true false true false))).
    ring.
  - apply (proj1 (proj2 (proj2 (X17_figure_colorbar (-4.5) 0.14 0.03 0.02
                                  0.04 false true false true false))));
      unfold margin; lra.
  - apply (proj2 (proj2 (proj2 (X17_figure_colorbar 4.5 0.5 0.03 0.02 0.04
                                  false true false true true))));
      unfold margin; lra.
Defined.

(** X18: [figure_width] does not give the figure the width it is asked
    for.  It divides [width] by [1 + right + left - top - bottom] to get
    the height, and [figure] then adds room for a colorbar of
    [0.02 + 0.04] times the height although there is none.  For a
    positive width and margins that are not negative and leave room
    ([left + right < 1], [top + bottom < 1]) the call succeeds and the
    figure is wider than [width], by 0.06 times its height.  If
    [1 + right + left - top - bottom] is zero the call raises
    [ZeroDivisionError]; if the width is positive and
    [left + right >= 1], matplotlib refuses the margins and the call
    raises [ValueError]. *)
Theorem X18_figure_width_excess :
  forall (width large_margin small_margin : R)
         (make3d l_space r_space b_space t_space : bool),
    let left := margin l_space large_margin small_margin in
    let right := margin r_space large_margin small_margin in
    let top := margin t_space large_margin small_margin in
    let bottom := margin b_space large_margin small_margin in
    let s := right + left - top - bottom in
    (0 < width -> 0 <= large_margin -> 0 <= small_margin ->
     left + right < 1 -> top + bottom < 1 ->
     exists f,
       figure_width width large_margin small_margin
                    make3d l_space r_space b_space t_space = Done f
       /\ snd (figsize f) * (1 + s) = width
       /\ fst (figsize f) = width + 0.06 * snd (figsize f)
       /\ 0 < snd (figsize f)
       /\ width < fst (figsize f)
       /\ cax f = None
       /\ adjust f = mk_adjust left (1 - right) bottom (1 - top) 0 0)
    /\ (1 + s = 0 ->
        figure_width width large_margin small_margin
                     make3d l_space r_space b_space t_space
        = ZeroDivisionError)
    /\ (0 < width -> 0 < 1 + s -> 1 <= left + right ->
        figure_width width large_margin small_margin
                     make3d l_space r_space b_space t_space
        = ValueError).
Proof.
  intros width large_margin small_margin make3d
         l_space r_space b_space t_space left right top bottom s.
  unfold figure_width.
  fold (margin l_space large_margin small_margin).
  fold (margin r_space large_margin small_margin).
  fold (margin t_space large_margin small_margin).
  fold (margin b_space large_margin small_margin).
  fold left right top bottom.
  replace (1 + right + left - top - bottom) with (1 + s)
    by (unfold s; ring).
  assert (Hfig : forall h,
             h * (1 + 0.02 + 0.04 + right + left - top - bottom)
             = h * (1 + s) + 0.06 * h).
  { intros h. unfold s. clearbody left right top bottom. lra. }
  split; [ | split ].
  - intros Hw Hl Hs Hlr Htb.
    assert (Hl0 : 0 <= left) by now apply margin_nonneg.
    assert (Hr0 : 0 <= right) by now apply margin_nonneg.
    assert (Hs1 : 0 < 1 + s) by (unfold s; lra).
    rewrite fdiv_ok by lra. cbn [and_then].
    assert (Hh : 0 < width / (1 + s)) by now apply Rdiv_lt_0_compat.
    assert (Hhs : width / (1 + s) * (1 + s) = width) by (field; lra).
    unfold figure.
    fold (margin l_space large_margin small_margin).
    fold (margin r_space large_margin small_margin).
    fold (margin t_space large_margin small_margin).
    fold (margin b_space large_margin small_margin).
    fold left right top bottom.
    rewrite Hfig, Hhs.
    rewrite plt_figure_ok by lra. cbn [and_then]. cbv zeta.
    rewrite plt_subplots_adjust_ok by lra. cbn [and_then].
    eexists. split; [ reflexivity | ]. cbn [figsize cax adjust fst snd].
    split; [ exact Hhs | ]. split; [ reflexivity | ].
    split; [ exact Hh | ]. split; [ lra | ].
    split; reflexivity.
  - intros Hs. rewrite Hs. now rewrite fdiv_zero.
  - intros Hw Hs1 Hlr.
    rewrite fdiv_ok by lra. cbn [and_then].
    assert (Hh : 0 < width / (1 + s)) by now apply Rdiv_lt_0_compat.
    assert (Hhs : width / (1 + s) * (1 + s) = width) by (field; lra).
    unfold figure.
    fold (margin l_space large_margin small_margin).
    fold (margin r_space large_margin small_margin).
    fold (margin t_space large_margin small_margin).
    fold (margin b_space large_margin small_margin).
    fold left right top bottom.
    rewrite Hfig, Hhs.
    rewrite plt_figure_ok by lra. cbn [and_then]. cbv zeta.
    rewrite plt_subplots_adjust_refused; [ reflexivity | ].
    left. lra.
Qed.

Lemma X18_figure_width_excess_witness :
  (exists f,
      figure_width 4.5 0.14 0.03 false true false true false = Done f
      /\ snd (figsize f)
         * (1 + (margin false 0.14 0.03 + margin true 0.14 0.03
                 - margin false 0.14 0.03 - margin true 0.14 0.03))
         = 4.5
      /\ fst (figsize f) = 4.5 + 0.06 * snd (figsize f)
      /\ 0 < snd (figsize f)
      /\ 4.5 < fst (figsize f)
      /\ cax f = None
      /\ adjust f
         = mk_adjust (margin true 0.14 0.03) (1 - margin false 0.14 0.03)
                     (margin true 0.14 0.03) (1 - margin false 0.14 0.03)
                     0 0)
  /\ figure_width 4.5 0.5 0 false false false true true = ZeroDivisionError
  /\ figure_width 4.5 0.5 0.03 false true true false false = ValueError.
Proof.
  split; [ | split ].
  - apply (proj1 (X18_figure_width_excess 4.5 0.14 0.03
                    false true false true false));
      unfold margin; lra.
  - apply (proj1 (proj2 (X18_figure_width_excess 4.5 0.5 0
                           false false false true true))).
    unfold margin. lra.
  - apply (proj2 (proj2 (X18_figure_width_excess 4.5 0.5 0.03
                           false true true false false)));
      unfold margin; lra.
Defined.

End PlotLayout.

(* ================================================================== *)
(** ** Transparency *)

Section Transparency.

Import PlotSettings.

Lemma mul_one_r (a : num) : (a * Fin 1)%num = a.
Proof.
  destruct a as [x| | |]; cbn [Num.mul]; try reflexivity.
  - f_equal. ring.
  - unfold Num.inf_signed. rewrite Reqb_false, Rltb_true by lra. reflexivity.
  - unfold Num.inf_signed. rewrite Reqb_false, Rltb_true by lra. reflexivity.
Qed.

Lemma set_alpha_4 (A : Type) (alpha : A) (c : list A) :
  length c = 4 -> Np.set_nth 3 alpha c = firstn 3 c ++ [alpha].
Proof.
  destruct c as [|r [|g [|b [|a [|? ?]]]]]; try discriminate. reflexivity.
Qed.

Lemma firstn_3 (A : Type) (c : list A) : length c = 3 -> firstn 3 c = c.
Proof. intros H. apply firstn_all2. lia. Qed.

(** The color with the transparency [alpha]. *)
Lemma add_transparency_color (c : list num) (alpha : num) :
  length c = 3 \/ length c = 4 ->
  add_transparency (Color c) alpha = Some (Color (firstn 3 c ++ [alpha])).
Proof.
  intros [H|H]; unfold add_transparency; rewrite H; cbn [Nat.eqb].
  - now rewrite firstn_3.
  - now rewrite set_alpha_4.
Qed.

Lemma add_transparency_colors (c : ndarray) (alpha : num) :
  wf_nd c -> shape1 c = 3 \/ shape1 c = 4 ->
  add_transparency (Colors c) alpha
  = Some (Colors (mk_nd 4 (map (fun r => firstn 3 r ++ [alpha]) (rows c)))).
Proof.
  intros Hwf [H|H]; unfold add_transparency; rewrite H; cbn [Nat.eqb];
    do 3 f_equal; apply map_ext_in; intros r Hr;
    unfold wf_nd in Hwf; rewrite Forall_forall in Hwf;
    specialize (Hwf r Hr); rewrite H in Hwf.
  - now rewrite mul_one_r, firstn_3.
  - now rewrite set_alpha_4.
Qed.

(** X19: [add_transparency] on arrays.  A color of three or four
    channels comes back with four: its first three channels unchanged
    and [alpha] as the fourth, an earlier fourth channel being
    overwritten; so does every row of an array of colors.  Applying it
    again replaces the transparency.  For any other number of channels
    the function returns [None]. *)
Theorem X19_add_transparency :
  forall (c : list num) (a : ndarray) (alpha beta : num),
    (length c = 3 \/ length c = 4 ->
     add_transparency (Color c) alpha = Some (Color (firstn 3 c ++ [alpha]))
     /\ add_transparency (Color (firstn 3 c ++ [alpha])) beta
        = add_transparency (Color c) beta)
    /\ (wf_nd a -> shape1 a = 3 \/ shape1 a = 4 ->
        add_transparency (Colors a) alpha
        = Some (Colors (mk_nd 4 (map (fun r => firstn 3 r ++ [alpha])
                                     (rows a))))
        /\ add_transparency
             (Colors (mk_nd 4 (map (fun r => firstn 3 r ++ [alpha])
                                   (rows a)))) beta
           = add_transparency (Colors a) beta)
    /\ (length c <> 3 -> length c <> 4 ->
        add_transparency (Color c) alpha = None)
    /\ (shape1 a <> 3 -> shape1 a <> 4 ->
        add_transparency (Colors a) alpha = None).
Proof.
  intros c a alpha beta. split; [ | split; [ | split ] ].
  - intros Hc. split; [ now apply add_transparency_color | ].
    assert (Hl : length (firstn 3 c ++ [alpha]) = 4)
      by (rewrite length_app, length_firstn; cbn [length]; lia).
    rewrite !add_transparency_color by auto.
    do 2 f_equal. f_equal.
    rewrite firstn_app, firstn_firstn, length_firstn.
    replace (3 - Nat.min 3 (length c)) with 0 by lia.
    now rewrite firstn_O, app_nil_r.
  - intros Hwf Ha. split; [ now apply add_transparency_colors | ].
    rewrite (add_transparency_colors a) by assumption.
    rewrite add_transparency_colors.
    + cbn [rows]. do 3 f_equal. rewrite map_map. apply map_ext_in.
      intros r Hr. unfold wf_nd in Hwf. rewrite Forall_forall in Hwf.
      specialize (Hwf r Hr). f_equal.
      rewrite firstn_app, firstn_firstn, length_firstn.
      replace (3 - Nat.min 3 (length r)) with 0 by lia.
      now rewrite firstn_O, app_nil_r.
    + unfold wf_nd. cbn [rows shape1]. apply Forall_map, Forall_forall.
      intros r Hr. unfold wf_nd in Hwf. rewrite Forall_forall in Hwf.
      specialize (Hwf r Hr).
      rewrite length_app, length_firstn. cbn [length]. lia.
    + right. reflexivity.
  - intros H3 H4. unfold add_transparency.
    apply Nat.eqb_neq in H3, H4. now rewrite H3, H4.
  - intros H3 H4. unfold add_transparency.
    apply Nat.eqb_neq in H3, H4. now rewrite H3, H4.
Qed.

Lemma X19_add_transparency_witness :
  (add_transparency (Color [Fin 1; Fin 0; Fin 0]) (Fin 0.5)
   = Some (Color (firstn 3 [Fin 1; Fin 0; Fin 0] ++ [Fin 0.5]))
   /\ add_transparency (Color (firstn 3 [Fin 1; Fin 0; Fin 0] ++ [Fin 0.5]))
                       (Fin 0.25)
      = add_transparency (Color [Fin 1; Fin 0; Fin 0]) (Fin 0.25))
  /\ (add_transparency (Colors (mk_nd 4 [[Fin 1; Fin 0; Fin 0; Fin 1]]))
                       (Fin 0.5)
      = Some (Colors (mk_nd 4 (map (fun r => firstn 3 r ++ [Fin 0.5])
                                   [[Fin 1; Fin 0; Fin 0; Fin 1]])))
      /\ add_transparency
           (Colors (mk_nd 4 (map (fun r => firstn 3 r ++ [Fin 0.5])
                                 [[Fin 1; Fin 0; Fin 0; Fin 1]])))
           (Fin 0.25)
         = add_transparency (Colors (mk_nd 4 [[Fin 1; Fin 0; Fin 0; Fin 1]]))
                            (Fin 0.25))
  /\ add_transparency (Color [Fin 1; Fin 0]) (Fin 0.5) = None
  /\ add_transparency (Colors (mk_nd 2 [[Fin 1; Fin 0]])) (Fin 0.5) = None.
Proof.
  split; [ | split; [ | split ] ].
  - apply (proj1 (X19_add_transparency [Fin 1; Fin 0; Fin 0]
                    (mk_nd 0 []) (Fin 0.5) (Fin 0.25))).
    left. reflexivity.
  - apply (proj1 (proj2 (X19_add_transparency []
                           (mk_nd 4 [[Fin 1; Fin 0; Fin 0; Fin 1]])
                           (Fin 0.5) (Fin 0.25)))).
    + constructor; [ reflexivity | constructor ].
    + right. reflexivity.
  - apply (proj1 (proj2 (proj2 (X19_add_transparency [Fin 1; Fin 0]
                                  (mk_nd 0 []) (Fin 0.5) (Fin 0.25)))));
      simpl; lia.
  - apply (proj2 (proj2 (proj2 (X19_add_transparency []
                                  (mk_nd 2 [[Fin 1; Fin 0]])
                                  (Fin 0.5) (Fin 0.25)))));
      simpl; lia.
Defined.

End Transparency.

(* ================================================================== *)
(** ** The distance from the manifold *)

Section Distance.

Local Open Scope R_scope.

Lemma sumsq_zero (l : list R) : sumsq l = 0 <-> Forall (fun v => v = 0) l.
Proof.
  induction l as [|x l IH]; cbn [sumsq fold_right].
  - split; [ constructor | reflexivity ].
  - fold (sumsq l). pose proof (sumsq_nonneg l) as Hs.
    pose proof (Rle_0_sqr x) as Hx. unfold Rsqr in Hx. split.
    + intros H. assert (Hxx : x * x = 0) by lra.
      apply Rmult_integral in Hxx.
      constructor; [ lra | apply IH; lra ].
    + intros H. inversion H as [|? ? Hx0 Hl]; subst.
      apply IH in Hl. rewrite Hl. ring.
Qed.

Lemma distance_real_zero (k : nat) (xs : list R) :
  distance_real k xs = 0
  <-> norm2 (firstn (k + 1) xs) = 1
      /\ Forall (fun v => v = 0) (skipn (k + 1) xs).
Proof.
  unfold distance_real. split.
  - intros H. apply sqrt_eq_0 in H; [ | apply sumsq_nonneg ].
    apply sumsq_zero in H. inversion H as [|? ? Hn Hr]; subst.
    split; [ lra | assumption ].
  - intros [Hn Hr]. replace (sumsq _) with 0; [ apply sqrt_0 | ].
    symmetry. apply sumsq_zero. constructor; [ lra | assumption ].
Qed.

Lemma distance_rows_real (self : Simulator) (X : list (list R)) :
  Forall (fun xs => (_latent_dim self + 1 <= length xs)%nat) X ->
  map Num.pow_half
      (map Num.sum
           (map (map Num.square)
                (map (z_eps_row self) (map (map Fin) X))))
  = map (fun xs => Fin (distance_real (_latent_dim self) xs)) X.
Proof.
  induction 1 as [|xs X Hxs _ IH]; [ reflexivity | ].
  cbn [map]. rewrite IH. f_equal.
  pose proof (z_eps_row_fin self xs) as Hz. cbv zeta in Hz.
  rewrite Hz by assumption.
  change (Fin (norm2 (firstn (_latent_dim self + 1) xs) - 1)
          :: map Fin (skipn (_latent_dim self + 1) xs))
    with (map Fin ((norm2 (firstn (_latent_dim self + 1) xs) - 1)
                   :: skipn (_latent_dim self + 1) xs)).
  rewrite sum_square_fin. apply pow_half_fin, sumsq_nonneg.
Qed.

End Distance.

(** X20: [distance_from_manifold] is defined on every float array with
    more than [latent_dim >= 1] columns whose entries do not exceed
    [10 ^ 100] in magnitude (so that no square overflows), the poles of
    the sphere included, where the angles of the inverse map are NaN.
    The distance of a row combines the distance of its first
    [latent_dim + 1] coordinates from the unit sphere with its other
    coordinates; this number is zero exactly for the rows on the unit
    sphere whose other coordinates vanish. *)
Theorem X20_distance_formula :
  forall (self : Simulator) (d : nat) (X : list (list R)),
    1 <= _latent_dim self -> _latent_dim self + 1 <= d ->
    Forall (fun xs => length xs = d) X ->
    Forall (Forall no_overflow) X ->
    distance_from_manifold self (of_reals d X)
    = Ok (map (fun xs => Fin (distance_real (_latent_dim self) xs)) X)
    /\ forall xs,
         distance_real (_latent_dim self) xs = 0%R
         <-> norm2 (firstn (_latent_dim self + 1) xs) = 1%R
             /\ Forall (fun v => v = 0%R) (skipn (_latent_dim self + 1) xs).
Proof.
  intros self d X Hk Hd HX _. split.
  - unfold distance_from_manifold.
    rewrite transform_x_to_z_reals by lia. cbn [bind].
    unfold Np.sum1, Np.map1. cbn [rows]. f_equal.
    apply distance_rows_real.
    eapply Forall_impl; [ | exact HX ]. intros xs Hxs. cbv beta in Hxs. lia.
  - intros xs. apply distance_real_zero.
Qed.

Lemma X20_distance_formula_witness :
  distance_from_manifold sim_2_3 (of_reals 3 [[1; 0; 0]; [0; 3; 4]]%R)
  = Ok (map (fun xs => Fin (distance_real (_latent_dim sim_2_3) xs))
            [[1; 0; 0]; [0; 3; 4]]%R)
  /\ forall xs,
       distance_real (_latent_dim sim_2_3) xs = 0%R
       <-> norm2 (firstn (_latent_dim sim_2_3 + 1) xs) = 1%R
           /\ Forall (fun v => v = 0%R)
                     (skipn (_latent_dim sim_2_3 + 1) xs).
Proof.
  apply (X20_distance_formula sim_2_3 3 [[1; 0; 0]; [0; 3; 4]]%R).
  - simpl. lia.
  - simpl. lia.
  - repeat constructor.
  - magnitudes.
Defined.

(* ================================================================== *)
(** ** What the forward map does with any shapes *)

(** The sphere coordinates before they are scaled by the radius. *)
Lemma exact_sphere_rows (z_phi : ndarray) :
  wf_nd z_phi ->
  Np.map2 Num.mul
    (mk_nd (1 + shape1 z_phi)
           (map sins_row (map (cons ones_2pi) (rows z_phi))))
    (Np.roll_m1
       (Np.map1 Num.cos
          (mk_nd (1 + shape1 z_phi) (map (cons ones_2pi) (rows z_phi)))))
  = Ok (mk_nd (1 + shape1 z_phi)
          (Np.zip_with (Np.zip_with Num.mul)
             (map sins_row (map (cons ones_2pi) (rows z_phi)))
             (map (fun t => t ++ [Num.cos ones_2pi])
                  (map (map Num.cos) (rows z_phi))))).
Proof.
  intros Hwf. unfold Np.map1. cbn [shape1 rows].
  replace (map (map Num.cos) (map (cons ones_2pi) (rows z_phi)))
    with (map (cons (Num.cos ones_2pi)) (map (map Num.cos) (rows z_phi)))
    by now rewrite !map_map.
  rewrite roll_m1_rows.
  2:{ apply Forall_map. eapply Forall_impl; [ | exact Hwf ].
      intros t Ht. cbv beta in Ht. now rewrite length_map. }
  unfold Np.map2, Np.same_shape, shape0. cbn [shape1 rows].
  now rewrite !length_map, !Nat.eqb_refl.
Qed.

Lemma exact_sphere_length (ps : list (list num)) :
  length (Np.zip_with (Np.zip_with Num.mul)
            (map sins_row (map (cons ones_2pi) ps))
            (map (fun t => t ++ [Num.cos ones_2pi]) (map (map Num.cos) ps)))
  = length ps.
Proof. rewrite length_zip_with, !length_map. apply Nat.min_id. Qed.

(** X21: what [_transform_z_to_x] does with the shapes of its
    arguments.  It raises [IndexError] when the noise has no column.
    Otherwise it succeeds when angles and noise have the same number of
    rows, and also when there is a single row of angles, which is then
    used for every row of noise; the result has the rows of the noise
    and [1 + shape1 z_phi + (shape1 z_eps - 1)] columns.  For any other
    numbers of rows it raises [ValueError]. *)
Theorem X21_forward_map_shapes :
  forall (z_phi z_eps : ndarray),
    wf_nd z_phi ->
    (shape1 z_eps = 0 -> _transform_z_to_x z_phi z_eps = Raise IndexError)
    /\ (1 <= shape1 z_eps ->
        shape0 z_phi = shape0 z_eps \/ shape0 z_phi = 1 ->
        exists x, _transform_z_to_x z_phi z_eps = Ok x
                  /\ shape0 x = shape0 z_eps
                  /\ shape1 x = 1 + shape1 z_phi + (shape1 z_eps - 1))
    /\ (1 <= shape1 z_eps ->
        shape0 z_phi <> shape0 z_eps -> shape0 z_phi <> 1 ->
        _transform_z_to_x z_phi z_eps = Raise ValueError).
Proof.
  intros z_phi z_eps Hwf. split; [ | split ].
  - intros H0. unfold _transform_z_to_x, Np.col. now rewrite H0.
  - intros Hc Hrows.
    destruct (Nat.eq_dec (shape0 z_phi) (shape0 z_eps)) as [Hn|Hn].
    + rewrite transform_z_to_x_rows by assumption.
      eexists. split; [ reflexivity | ]. split; [ | reflexivity ].
      unfold shape0 in *. cbn [rows].
      rewrite length_zip_with, Hn. apply Nat.min_id.
    + destruct Hrows as [Hrows|Hone]; [ contradiction | ].
      unfold _transform_z_to_x, Np.col.
      destruct (Nat.ltb_spec 0 (shape1 z_eps)) as [_|]; [ | lia ].
      cbn [bind shape1]. rewrite exact_sphere_rows by assumption.
      cbn [bind shape1 rows]. unfold shape0 in *. cbn [rows].
      rewrite exact_sphere_length, !length_map.
      apply Nat.eqb_neq in Hn. rewrite Hn.
      destruct (rows z_phi) as [|p [|? ?]]; try discriminate.
      cbn [map Np.zip_with bind].
      unfold Np.concatenate1, shape0. cbn [rows shape1].
      rewrite !length_map, Nat.eqb_refl.
      eexists. split; [ reflexivity | ]. cbn [rows shape1].
      split; [ | reflexivity ].
      now rewrite length_zip_with, !length_map, Nat.min_id.
  - intros Hc Hn Hone.
    unfold _transform_z_to_x, Np.col.
    destruct (Nat.ltb_spec 0 (shape1 z_eps)) as [_|]; [ | lia ].
    cbn [bind shape1]. rewrite exact_sphere_rows by assumption.
    cbn [bind shape1 rows]. unfold shape0 in *. cbn [rows].
    rewrite exact_sphere_length, !length_map.
    apply Nat.eqb_neq in Hn. rewrite Hn.
    destruct (rows z_phi) as [|p [|q ps]]; try reflexivity.
    now contradiction Hone.
Qed.

Lemma X21_forward_map_shapes_witness :
  _transform_z_to_x (of_reals 1 [[1]]%R) (mk_nd 0 [[]]) = Raise IndexError
  /\ (exists x,
         _transform_z_to_x (of_reals 1 [[1]]%R) (of_reals 1 [[0]; [2]]%R)
         = Ok x
         /\ shape0 x = shape0 (of_reals 1 [[0]; [2]]%R)
         /\ shape1 x = 1 + shape1 (of_reals 1 [[1]]%R)
                       + (shape1 (of_reals 1 [[0]; [2]]%R) - 1))
  /\ _transform_z_to_x (of_reals 1 [[1]; [2]]%R) (of_reals 1 [[0]]%R)
     = Raise ValueError.
Proof.
  split; [ | split ].
  - apply (proj1 (X21_forward_map_shapes (of_reals 1 [[1]]%R) (mk_nd 0 [[]])
                    ltac:(repeat constructor))).
    reflexivity.
  - apply (proj1 (proj2 (X21_forward_map_shapes (of_reals 1 [[1]]%R)
                           (of_reals 1 [[0]; [2]]%R)
                           ltac:(repeat constructor)))).
    + simpl. lia.
    + right. reflexivity.
  - apply (proj2 (proj2 (X21_forward_map_shapes (of_reals 1 [[1]; [2]]%R)
                           (of_reals 1 [[0]]%R)
                           ltac:(repeat constructor))));
      unfold shape0, of_reals; cbn [rows shape1 map length]; lia.
Defined.

(* ================================================================== *)
(** ** One parameter vector per sample *)

Lemma phase_real_range (p : R * R) :
  in_box p -> (PI / 2 <= phase_real p <= 3 * PI / 2)%R.
Proof.
  intros [_ [H1 H2]]. pose proof PI_RGT_0 as Hpi. unfold phase_real.
  split; nra.
Qed.

(** X22: with one parameter vector per sample, [_parse_parameters] gives
    sample [j] the width and the phase of its own vector: the same width
    in every latent dimension, the phase [pi / 2] in every latent
    dimension but the last, and the phase of the vector in the last one.
    For a vector in [-1, 1]^2 the width lies between [min_width] and
    [max_width] and the phase between [pi / 2] and [3 pi / 2]. *)
Theorem X22_parse_parameters_batch :
  forall (k' d : nat) (minw maxw : R) (epsilon : num) (self : Simulator)
         (n : nat) (ps : list (R * R)),
    __init__ (S k') d (Fin minw) (Fin maxw) epsilon = Ok self ->
    length ps = n ->
    exists P W,
      _parse_parameters self n (flat_params ps)
      = Ok (of_reals (S k') P, of_reals (S k') W)
      /\ length P = n /\ length W = n
      /\ forall j, j < n ->
           nth j P []
           = repeat (0.5 * PI)%R k' ++ [phase_real (nth j ps (0%R, 0%R))]
           /\ nth j W []
              = repeat (width_real minw maxw (nth j ps (0%R, 0%R))) (S k')
           /\ (in_box (nth j ps (0%R, 0%R)) ->
               (minw <= width_real minw maxw (nth j ps (0%R, 0%R)) <= maxw)%R
               /\ (PI / 2 <= phase_real (nth j ps (0%R, 0%R))
                   <= 3 * PI / 2)%R).
Proof.
  intros k' d minw maxw epsilon self n ps Hinit Hlen.
  apply init_inv in Hinit as (-> & Hd & He & a & b & Ha & Hb & Hab & H2).
  injection Ha as <-. injection Hb as <-.
  exists (phases_rows k' n ps), (widths_rows minw maxw (S k') n ps).
  split; [ apply parse_parameters_reals; now left | ].
  unfold phases_rows, widths_rows.
  split; [ now rewrite length_map, length_seq | ].
  split; [ now rewrite length_map, length_seq | ].
  intros j Hj.
  rewrite !(nth_map_lt _ _ _ _ _ [] 0) by now rewrite length_seq.
  rewrite seq_nth by assumption. cbn [Nat.add].
  unfold param_real. rewrite Hlen, Nat.eqb_refl.
  split; [ reflexivity | ]. split; [ reflexivity | ].
  intros Hbox. split; [ now apply width_real_pos | now apply phase_real_range ].
Qed.

Lemma X22_parse_parameters_batch_witness :
  exists P W,
    _parse_parameters
      (mk_sim 2 3 (Fin (0.5 * PI)) (Fin (1.5 * PI))
              (Fin (0.1 * PI)) (Fin (0.4 * PI)) (Fin 0.01))
      2 (flat_params [(0%R, 0%R); (1%R, (-1)%R)])
    = Ok (of_reals 2 P, of_reals 2 W)
    /\ length P = 2 /\ length W = 2
    /\ forall j, j < 2 ->
         nth j P []
         = repeat (0.5 * PI)%R 1
           ++ [phase_real (nth j [(0%R, 0%R); (1%R, (-1)%R)] (0%R, 0%R))]
         /\ nth j W []
            = repeat (width_real (0.1 * PI) (0.4 * PI)
                        (nth j [(0%R, 0%R); (1%R, (-1)%R)] (0%R, 0%R))) 2
         /\ (in_box (nth j [(0%R, 0%R); (1%R, (-1)%R)] (0%R, 0%R)) ->
             (0.1 * PI
              <= width_real (0.1 * PI) (0.4 * PI)
                   (nth j [(0%R, 0%R); (1%R, (-1)%R)] (0%R, 0%R))
              <= 0.4 * PI)%R
             /\ (PI / 2
                 <= phase_real (nth j [(0%R, 0%R); (1%R, (-1)%R)] (0%R, 0%R))
                 <= 3 * PI / 2)%R).
Proof.
  apply (X22_parse_parameters_batch 1 3 (0.1 * PI) (0.4 * PI) (Fin 0.01) _ 2
           [(0%R, 0%R); (1%R, (-1)%R)]).
  - exact init_default_2_3.
  - reflexivity.
Defined.

(* ================================================================== *)
(** ** The out-of-distribution samples of the script *)

(** X23: the script cannot generate out-of-distribution samples without
    test samples.  With [--test] at most 0 and [--ood] positive, it
    never completes: either one of the earlier stages raises, or the
    script stops on a [NameError], because [parameters_test] is read
    where it was never assigned.  When the earlier stages return, the
    [NameError] is what happens, and no out-of-distribution sample is
    drawn. *)
Theorem X23_ood_needs_test :
  forall (array error : Type)
         (prior : Z -> run error (option array))
         (train_samples : Z -> option array -> run error unit)
         (paramscan_samples : Z -> run error unit)
         (test_parameters : Z -> run error (option array))
         (test_samples ood_samples : Z -> option array -> run error unit)
         (train paramscan test ood : Z),
    (test <= 0)%Z -> (0 < ood)%Z ->
    __main__ prior train_samples paramscan_samples test_parameters
             test_samples ood_samples train paramscan test ood
    <> Return tt
    /\ ((exists theta,
            prior train = Return theta
            /\ ((0 < train)%Z -> train_samples train theta = Return tt))
        -> ((0 < paramscan)%Z -> paramscan_samples paramscan = Return tt)
        -> __main__ prior train_samples paramscan_samples test_parameters
                    test_samples ood_samples train paramscan test ood
           = Raises NameError).
Proof.
  intros array error prior train_samples paramscan_samples test_parameters
         test_samples ood_samples train paramscan test ood Htest Hood.
  unfold __main__.
  destruct (Z.ltb_spec 0 test) as [|_]; [ lia | ].
  destruct (Z.ltb_spec 0 ood) as [_|]; [ | lia ].
  split.
  - destruct (prior train) as [theta|e]; cbn [then_]; [ | discriminate ].
    destruct (if (0 <? train)%Z then train_samples train theta
              else Return tt) as [[]|e];
      cbn [then_]; [ | discriminate ].
    destruct (if (0 <? paramscan)%Z then paramscan_samples paramscan
              else Return tt) as [[]|e];
      cbn [then_]; discriminate.
  - intros (theta & Hprior & Htrain) Hscan.
    rewrite Hprior. cbn [then_].
    destruct (Z.ltb_spec 0 train) as [Ht|_];
      [ rewrite (Htrain Ht) | ]; cbn [then_];
      (destruct (Z.ltb_spec 0 paramscan) as [Hp|_];
       [ rewrite (Hscan Hp) | ]; reflexivity).
Qed.

Lemma X23_ood_needs_test_witness :
  __main__ (fun _ => Return None) (fun _ _ => Return tt)
           (fun _ => Return tt)
           (fun _ => @Return Empty_set (option unit) None)
           (fun _ _ => Return tt) (fun _ _ => Return tt)
           1000 0 0 10
  <> Return tt
  /\ __main__ (fun _ => Return None) (fun _ _ => Return tt)
              (fun _ => Return tt)
              (fun _ => @Return Empty_set (option unit) None)
              (fun _ _ => Return tt) (fun _ _ => Return tt)
              1000 0 0 10
     = Raises NameError.
Proof.
  split.
  - apply (proj1 (X23_ood_needs_test unit Empty_set
                    (fun _ => Return None) (fun _ _ => Return tt)
                    (fun _ => Return tt) (fun _ => Return None)
                    (fun _ _ => Return tt) (fun _ _ => Return tt)
                    1000 0 0 10 ltac:(lia) ltac:(lia))).
  - apply (proj2 (X23_ood_needs_test unit Empty_set
                    (fun _ => Return None) (fun _ _ => Return tt)
                    (fun _ => Return tt) (fun _ => Return None)
                    (fun _ _ => Return tt) (fun _ _ => Return tt)
                    1000 0 0 10 ltac:(lia) ltac:(lia))).
    + exists None. split; reflexivity.
    + intros H. lia.
Defined.
